(** * c99js: a shallow embedding of the translation pipeline

    The development follows the source tree of the transpiler:
    [type.c] (type graph and conversions), [ast.h] (nodes), [parser.c]
    (constant folding, struct/union layout, enum and case values),
    [sema.c] (expression typing), [symtab.c] (scoped symbol table),
    [preprocess.c] (conditional expressions and macro expansion) and
    [codegen.c] (lowering of expressions and [return]).

    C [int] and [long long] values are integers in [Z]; every arithmetic
    operation that the C code performs on them is followed by the
    wrap-around of its width, written out with [wrap32] and [wrap64]. *)

From Stdlib Require Import ZArith List Bool Lia String Ascii DecimalString.
Import ListNotations.

Local Open Scope Z_scope.
Set Warnings "-register-all".

(** ** Machine integers *)

(** Two's complement wrap-around of a [w]-bit signed integer. *)
Definition wrap (w : Z) (x : Z) : Z :=
  (x + 2 ^ (w - 1)) mod 2 ^ w - 2 ^ (w - 1).

Definition wrap32 : Z -> Z := wrap 32.
Definition wrap64 : Z -> Z := wrap 64.

(** Wrap-around of an unsigned 32-bit integer ([unsigned int]). *)
Definition wrapu32 (x : Z) : Z := x mod 2 ^ 32.

Definition INT_MIN : Z := - 2 ^ 31.
Definition INT_MAX : Z := 2 ^ 31 - 1.
Definition LLONG_MIN : Z := - 2 ^ 63.
Definition LLONG_MAX : Z := 2 ^ 63 - 1.

(** [%d] and [%lld]. *)
Definition print_int (z : Z) : string := NilZero.string_of_int (Z.to_int z).

(** C truth values. *)
Definition b2z (b : bool) : Z := if b then 1 else 0.
Definition z2b (x : Z) : bool := negb (x =? 0).

(** ** util.h: source locations and the error sink *)

Module Util.

Record SrcLoc : Set := mkLoc { filename : string; line : Z; col : Z }.

Definition no_loc : SrcLoc := mkLoc EmptyString 0 0.

(** The error sink: [error_at] prints one diagnostic and increments
    [error_count].  The sink is the list of diagnostics printed so far,
    oldest first, so [error_count] is its length. *)
Definition Diag : Set := (SrcLoc * string)%type.
Definition ErrorSink : Set := list Diag.

Definition error_at (loc : SrcLoc) (msg : string) (es : ErrorSink) : ErrorSink :=
  (es ++ [(loc, msg)])%list.

Definition error_count (es : ErrorSink) : nat := List.length es.

End Util.

(** ** type.h / type.c *)

Module TypeSys.

(** [TypeKind], in declaration order. *)
Inductive TypeKind : Set :=
  | TY_VOID | TY_BOOL | TY_CHAR | TY_SHORT | TY_INT | TY_LONG | TY_LLONG
  | TY_FLOAT | TY_DOUBLE | TY_LDOUBLE | TY_ENUM | TY_PTR | TY_ARRAY
  | TY_VLA | TY_STRUCT | TY_UNION | TY_FUNC | TY_COMPLEX.

Definition TypeKind_eqb (a b : TypeKind) : bool :=
  match a, b with
  | TY_VOID, TY_VOID | TY_BOOL, TY_BOOL | TY_CHAR, TY_CHAR
  | TY_SHORT, TY_SHORT | TY_INT, TY_INT | TY_LONG, TY_LONG
  | TY_LLONG, TY_LLONG | TY_FLOAT, TY_FLOAT | TY_DOUBLE, TY_DOUBLE
  | TY_LDOUBLE, TY_LDOUBLE | TY_ENUM, TY_ENUM | TY_PTR, TY_PTR
  | TY_ARRAY, TY_ARRAY | TY_VLA, TY_VLA | TY_STRUCT, TY_STRUCT
  | TY_UNION, TY_UNION | TY_FUNC, TY_FUNC | TY_COMPLEX, TY_COMPLEX => true
  | _, _ => false
  end.

Definition QUAL_CONST : Z := 1.
Definition QUAL_VOLATILE : Z := 2.
Definition QUAL_RESTRICT : Z := 4.

Inductive StorageClass : Set :=
  | SC_NONE | SC_TYPEDEF | SC_EXTERN | SC_STATIC | SC_AUTO | SC_REGISTER.

(** [struct Type].  A value of this type stands for a [Type *]: the
    object together with the arena cell [ty_id] it lives in, so that two
    pointers are equal exactly when the two values are equal.  The
    member and parameter lists of aggregate and function types are kept
    beside the type by the functions that build them. *)
Inductive CType : Set :=
  mkType {
    ty_id : N;
    kind : TypeKind;
    size : Z;
    align : Z;
    is_unsigned : bool;
    qual : Z;
    is_inline : bool;
    base : option CType;
    array_len : Z
  }.

(** Pointer comparison [a == b]. *)
Fixpoint Type_eqb (a b : CType) {struct a} : bool :=
  match a, b with
  | mkType i k s al u q il ba len, mkType i' k' s' al' u' q' il' ba' len' =>
      N.eqb i i' && TypeKind_eqb k k' && Z.eqb s s' && Z.eqb al al'
      && Bool.eqb u u' && Z.eqb q q' && Bool.eqb il il'
      && match ba, ba' with
         | Some x, Some y => Type_eqb x y
         | None, None => true
         | _, _ => false
         end
      && Z.eqb len len'
  end.

(** The arena is a bump allocator; only the next free cell matters. *)
Definition Arena := N.

Definition new_type (a : Arena) (k : TypeKind) (sz al : Z) : CType * Arena :=
  (mkType a k sz al false 0 false None 0, N.succ a).

(** The predefined types, as [type_init] builds them into the first
    sixteen cells. *)
Definition predef (i : N) (k : TypeKind) (sz al : Z) (u : bool) : CType :=
  mkType i k sz al u 0 false None 0.

Definition ty_void    := predef 0 TY_VOID 0 1 false.
Definition ty_bool    := predef 1 TY_BOOL 1 1 true.
Definition ty_char    := predef 2 TY_CHAR 1 1 false.
Definition ty_schar   := predef 3 TY_CHAR 1 1 false.
Definition ty_uchar   := predef 4 TY_CHAR 1 1 true.
Definition ty_short   := predef 5 TY_SHORT 2 2 false.
Definition ty_ushort  := predef 6 TY_SHORT 2 2 true.
Definition ty_int     := predef 7 TY_INT 4 4 false.
Definition ty_uint    := predef 8 TY_INT 4 4 true.
Definition ty_long    := predef 9 TY_LONG 4 4 false.
Definition ty_ulong   := predef 10 TY_LONG 4 4 true.
Definition ty_llong   := predef 11 TY_LLONG 8 8 false.
Definition ty_ullong  := predef 12 TY_LLONG 8 8 true.
Definition ty_float   := predef 13 TY_FLOAT 4 4 false.
Definition ty_double  := predef 14 TY_DOUBLE 8 8 false.
Definition ty_ldouble := predef 15 TY_LDOUBLE 8 8 false.

(** First free cell after [type_init]. *)
Definition arena_after_init : Arena := 16%N.

(** *** Type constructors *)

Definition set_base (t : CType) (b : option CType) : CType :=
  mkType (ty_id t) (kind t) (size t) (align t) (is_unsigned t) (qual t)
         (is_inline t) b (array_len t).

Definition set_unsigned (t : CType) (u : bool) : CType :=
  mkType (ty_id t) (kind t) (size t) (align t) u (qual t)
         (is_inline t) (base t) (array_len t).

Definition set_array_len (t : CType) (n : Z) : CType :=
  mkType (ty_id t) (kind t) (size t) (align t) (is_unsigned t) (qual t)
         (is_inline t) (base t) n.

Definition set_qual (t : CType) (q : Z) : CType :=
  mkType (ty_id t) (kind t) (size t) (align t) (is_unsigned t) q
         (is_inline t) (base t) (array_len t).

Definition set_layout (t : CType) (sz al : Z) : CType :=
  mkType (ty_id t) (kind t) sz al (is_unsigned t) (qual t)
         (is_inline t) (base t) (array_len t).

Definition type_ptr (a : Arena) (b : option CType) : CType * Arena :=
  let '(t, a') := new_type a TY_PTR 4 4 in
  (set_unsigned (set_base t b) true, a').

Definition type_array (a : Arena) (b : CType) (len : Z) : CType * Arena :=
  let '(t, a') := new_type a TY_ARRAY (wrap32 (size b * len)) (align b) in
  (set_array_len (set_base t (Some b)) len, a').

Definition type_vla (a : Arena) (b : CType) : CType * Arena :=
  let '(t, a') := new_type a TY_VLA 0 (align b) in
  (set_base t (Some b), a').

Definition type_func (a : Arena) : CType * Arena := new_type a TY_FUNC 0 1.
Definition type_enum (a : Arena) : CType * Arena := new_type a TY_ENUM 4 4.
Definition type_struct (a : Arena) : CType * Arena := new_type a TY_STRUCT 0 1.
Definition type_union (a : Arena) : CType * Arena := new_type a TY_UNION 0 1.

Definition type_complex (a : Arena) (b : CType) : CType * Arena :=
  new_type a TY_COMPLEX (wrap32 (size b * 2)) (align b).

Definition type_copy (a : Arena) (t : CType) : CType * Arena :=
  (mkType a (kind t) (size t) (align t) (is_unsigned t) (qual t)
          (is_inline t) (base t) (array_len t), N.succ a).

Definition type_qualified (a : Arena) (t : CType) (q : Z) : CType * Arena :=
  if qual t =? q then (t, a)
  else let '(c, a') := type_copy a t in (set_qual c q, a').

(** *** Type queries *)

Definition type_is_integer (t : CType) : bool :=
  match kind t with
  | TY_BOOL | TY_CHAR | TY_SHORT | TY_INT | TY_LONG | TY_LLONG | TY_ENUM => true
  | _ => false
  end.

Definition type_is_float (t : CType) : bool :=
  match kind t with
  | TY_FLOAT | TY_DOUBLE | TY_LDOUBLE => true
  | _ => false
  end.

Definition type_is_arithmetic (t : CType) : bool :=
  type_is_integer t || type_is_float t || TypeKind_eqb (kind t) TY_COMPLEX.

Definition type_is_scalar (t : CType) : bool :=
  type_is_arithmetic t || TypeKind_eqb (kind t) TY_PTR.

Definition type_is_ptr (t : CType) : bool := TypeKind_eqb (kind t) TY_PTR.

Definition type_is_array (t : CType) : bool :=
  TypeKind_eqb (kind t) TY_ARRAY || TypeKind_eqb (kind t) TY_VLA.

Definition type_sizeof (t : CType) : Z := size t.
Definition type_alignof (t : CType) : Z := align t.

(** *** Conversions (C99 6.3) *)

Definition type_rank (t : CType) : Z :=
  match kind t with
  | TY_BOOL => 1
  | TY_CHAR => 2
  | TY_SHORT => 3
  | TY_INT => 4
  | TY_LONG => 5
  | TY_LLONG => 6
  | TY_ENUM => 4
  | _ => 0
  end.

Definition type_int_promote (t : CType) : CType :=
  if type_rank t <? type_rank ty_int then ty_int else t.

Definition type_usual_arith (at_ bt : CType) : CType :=
  if TypeKind_eqb (kind at_) TY_LDOUBLE || TypeKind_eqb (kind bt) TY_LDOUBLE
  then ty_ldouble
  else if TypeKind_eqb (kind at_) TY_DOUBLE || TypeKind_eqb (kind bt) TY_DOUBLE
  then ty_double
  else if TypeKind_eqb (kind at_) TY_FLOAT || TypeKind_eqb (kind bt) TY_FLOAT
  then ty_float
  else
    let at_ := type_int_promote at_ in
    let bt := type_int_promote bt in
    if Type_eqb at_ bt then at_
    else
      let ra := type_rank at_ in
      let rb := type_rank bt in
      if Bool.eqb (is_unsigned at_) (is_unsigned bt)
      then (if ra >=? rb then at_ else bt)
      else
        let u := if is_unsigned at_ then at_ else bt in
        let s := if is_unsigned at_ then bt else at_ in
        if type_rank u >=? type_rank s then u
        else if size s >? size u then s
        else match kind s with
             | TY_INT => ty_uint
             | TY_LONG => ty_ulong
             | TY_LLONG => ty_ullong
             | _ => ty_uint
             end.

Definition type_default_arg_promote (t : CType) : CType :=
  if type_is_integer t then type_int_promote t
  else if TypeKind_eqb (kind t) TY_FLOAT then ty_double
  else t.

(** *** The conversion rule as the specification words it *)

(** The unsigned type that corresponds to a signed integer type. *)
Definition unsigned_counterpart (s : CType) : CType :=
  match kind s with
  | TY_INT => ty_uint
  | TY_LONG => ty_ulong
  | TY_LLONG => ty_ullong
  | _ => s
  end.

(** Common type of two integer-promoted operands. *)
Definition common_integer_type (a b : CType) : CType :=
  if Bool.eqb (is_unsigned a) (is_unsigned b)
  then (if type_rank b <=? type_rank a then a else b)
  else
    let u := if is_unsigned a then a else b in
    let s := if is_unsigned a then b else a in
    if type_rank s <=? type_rank u then u
    else if size u <? size s then s
    else unsigned_counterpart s.

Definition has_kind (k : TypeKind) (t : CType) : bool := TypeKind_eqb (kind t) k.

Definition usual_arith_spec (a b : CType) : CType :=
  if has_kind TY_LDOUBLE a || has_kind TY_LDOUBLE b then ty_ldouble
  else if has_kind TY_DOUBLE a || has_kind TY_DOUBLE b then ty_double
  else if has_kind TY_FLOAT a || has_kind TY_FLOAT b then ty_float
  else common_integer_type (type_int_promote a) (type_int_promote b).

End TypeSys.

(** ** ast.h / ast.c *)

Module Ast.
Import Util TypeSys.

(** [NodeKind], in declaration order. *)
Inductive NodeKind : Set :=
  | ND_INT_LIT | ND_FLOAT_LIT | ND_STRING_LIT | ND_CHAR_LIT | ND_IDENT
  | ND_NEG | ND_POS | ND_NOT | ND_BITNOT | ND_DEREF | ND_ADDR
  | ND_PRE_INC | ND_PRE_DEC | ND_POST_INC | ND_POST_DEC
  | ND_SIZEOF | ND_SIZEOF_TYPE
  | ND_ADD | ND_SUB | ND_MUL | ND_DIV | ND_MOD
  | ND_LSHIFT | ND_RSHIFT
  | ND_LT | ND_LE | ND_GT | ND_GE
  | ND_EQ | ND_NE
  | ND_BITAND | ND_BITOR | ND_BITXOR
  | ND_AND | ND_OR
  | ND_ASSIGN
  | ND_ADD_ASSIGN | ND_SUB_ASSIGN | ND_MUL_ASSIGN | ND_DIV_ASSIGN
  | ND_MOD_ASSIGN | ND_LSHIFT_ASSIGN | ND_RSHIFT_ASSIGN
  | ND_AND_ASSIGN | ND_OR_ASSIGN | ND_XOR_ASSIGN
  | ND_TERNARY | ND_COMMA | ND_CALL | ND_MEMBER | ND_MEMBER_PTR
  | ND_SUBSCRIPT | ND_CAST | ND_COMPOUND_LIT
  | ND_BLOCK | ND_EXPR_STMT | ND_IF | ND_WHILE | ND_DO_WHILE | ND_FOR
  | ND_SWITCH | ND_CASE | ND_DEFAULT | ND_BREAK | ND_CONTINUE | ND_RETURN
  | ND_GOTO | ND_LABEL | ND_NULL_STMT
  | ND_VAR_DECL | ND_FUNC_DEF | ND_TYPEDEF
  | ND_INIT_LIST | ND_DESIGNATOR
  | ND_PROGRAM.

(** The enumeration value of a node kind, for the range tests
    [k >= ND_LT && k <= ND_NE] of the parser and the code generator. *)
Definition NodeKind_ord (k : NodeKind) : Z :=
  match k with
  | ND_INT_LIT => 0 | ND_FLOAT_LIT => 1 | ND_STRING_LIT => 2
  | ND_CHAR_LIT => 3 | ND_IDENT => 4
  | ND_NEG => 5 | ND_POS => 6 | ND_NOT => 7 | ND_BITNOT => 8
  | ND_DEREF => 9 | ND_ADDR => 10
  | ND_PRE_INC => 11 | ND_PRE_DEC => 12 | ND_POST_INC => 13
  | ND_POST_DEC => 14 | ND_SIZEOF => 15 | ND_SIZEOF_TYPE => 16
  | ND_ADD => 17 | ND_SUB => 18 | ND_MUL => 19 | ND_DIV => 20 | ND_MOD => 21
  | ND_LSHIFT => 22 | ND_RSHIFT => 23
  | ND_LT => 24 | ND_LE => 25 | ND_GT => 26 | ND_GE => 27
  | ND_EQ => 28 | ND_NE => 29
  | ND_BITAND => 30 | ND_BITOR => 31 | ND_BITXOR => 32
  | ND_AND => 33 | ND_OR => 34
  | ND_ASSIGN => 35
  | ND_ADD_ASSIGN => 36 | ND_SUB_ASSIGN => 37 | ND_MUL_ASSIGN => 38
  | ND_DIV_ASSIGN => 39 | ND_MOD_ASSIGN => 40 | ND_LSHIFT_ASSIGN => 41
  | ND_RSHIFT_ASSIGN => 42 | ND_AND_ASSIGN => 43 | ND_OR_ASSIGN => 44
  | ND_XOR_ASSIGN => 45
  | ND_TERNARY => 46 | ND_COMMA => 47 | ND_CALL => 48 | ND_MEMBER => 49
  | ND_MEMBER_PTR => 50 | ND_SUBSCRIPT => 51 | ND_CAST => 52
  | ND_COMPOUND_LIT => 53
  | ND_BLOCK => 54 | ND_EXPR_STMT => 55 | ND_IF => 56 | ND_WHILE => 57
  | ND_DO_WHILE => 58 | ND_FOR => 59 | ND_SWITCH => 60 | ND_CASE => 61
  | ND_DEFAULT => 62 | ND_BREAK => 63 | ND_CONTINUE => 64 | ND_RETURN => 65
  | ND_GOTO => 66 | ND_LABEL => 67 | ND_NULL_STMT => 68
  | ND_VAR_DECL => 69 | ND_FUNC_DEF => 70 | ND_TYPEDEF => 71
  | ND_INIT_LIST => 72 | ND_DESIGNATOR => 73
  | ND_PROGRAM => 74
  end.

(** [k >= ND_LT && k <= ND_NE] *)
Definition is_cmp_kind (k : NodeKind) : bool :=
  (NodeKind_ord ND_LT <=? NodeKind_ord k) && (NodeKind_ord k <=? NodeKind_ord ND_NE).

(** [struct Node].  The members of the anonymous union are separate
    fields; [ival] is the [unsigned long long] payload of an integer
    literal, [cval] the [int] payload of a character literal and [ftext]
    the [%.17g] rendering of the [double] payload of a floating
    literal; [body] is the first statement of a block and [next] the
    sibling link.  A null pointer is [None]; [node_new] clears every
    field. *)
Inductive Node : Set :=
  mkNode {
    n_kind : NodeKind;
    n_type : option CType;
    n_loc : SrcLoc;
    lhs : option Node;
    rhs : option Node;
    third : option Node;
    next : option Node;
    ival : Z;
    ftext : string;
    cval : Z;
    n_name : string;
    body : option Node;
    cast_type : option CType;
    cast_expr : option Node;
    case_expr : option Node;
    case_val : Z
  }.

Definition node_new (k : NodeKind) (loc : SrcLoc) : Node :=
  mkNode k None loc None None None None 0 EmptyString 0 EmptyString None
         None None None 0.

Definition set_type (n : Node) (v : option CType) : Node :=
  mkNode (n_kind n) v (n_loc n) (lhs n) (rhs n) (third n) (next n) (ival n)
         (ftext n) (cval n) (n_name n) (body n) (cast_type n) (cast_expr n)
         (case_expr n) (case_val n).

Definition set_lhs (n : Node) (v : option Node) : Node :=
  mkNode (n_kind n) (n_type n) (n_loc n) v (rhs n) (third n) (next n) (ival n)
         (ftext n) (cval n) (n_name n) (body n) (cast_type n) (cast_expr n)
         (case_expr n) (case_val n).

Definition set_rhs (n : Node) (v : option Node) : Node :=
  mkNode (n_kind n) (n_type n) (n_loc n) (lhs n) v (third n) (next n) (ival n)
         (ftext n) (cval n) (n_name n) (body n) (cast_type n) (cast_expr n)
         (case_expr n) (case_val n).

Definition set_third (n : Node) (v : option Node) : Node :=
  mkNode (n_kind n) (n_type n) (n_loc n) (lhs n) (rhs n) v (next n) (ival n)
         (ftext n) (cval n) (n_name n) (body n) (cast_type n) (cast_expr n)
         (case_expr n) (case_val n).

Definition set_next (n : Node) (v : option Node) : Node :=
  mkNode (n_kind n) (n_type n) (n_loc n) (lhs n) (rhs n) (third n) v (ival n)
         (ftext n) (cval n) (n_name n) (body n) (cast_type n) (cast_expr n)
         (case_expr n) (case_val n).

Definition set_ival (n : Node) (v : Z) : Node :=
  mkNode (n_kind n) (n_type n) (n_loc n) (lhs n) (rhs n) (third n) (next n) v
         (ftext n) (cval n) (n_name n) (body n) (cast_type n) (cast_expr n)
         (case_expr n) (case_val n).

Definition set_ftext (n : Node) (v : string) : Node :=
  mkNode (n_kind n) (n_type n) (n_loc n) (lhs n) (rhs n) (third n) (next n)
         (ival n) v (cval n) (n_name n) (body n) (cast_type n) (cast_expr n)
         (case_expr n) (case_val n).

Definition set_cval (n : Node) (v : Z) : Node :=
  mkNode (n_kind n) (n_type n) (n_loc n) (lhs n) (rhs n) (third n) (next n)
         (ival n) (ftext n) v (n_name n) (body n) (cast_type n) (cast_expr n)
         (case_expr n) (case_val n).

Definition set_name (n : Node) (v : string) : Node :=
  mkNode (n_kind n) (n_type n) (n_loc n) (lhs n) (rhs n) (third n) (next n)
         (ival n) (ftext n) (cval n) v (body n) (cast_type n) (cast_expr n)
         (case_expr n) (case_val n).

Definition set_body (n : Node) (v : option Node) : Node :=
  mkNode (n_kind n) (n_type n) (n_loc n) (lhs n) (rhs n) (third n) (next n)
         (ival n) (ftext n) (cval n) (n_name n) v (cast_type n) (cast_expr n)
         (case_expr n) (case_val n).

Definition set_cast_type (n : Node) (v : option CType) : Node :=
  mkNode (n_kind n) (n_type n) (n_loc n) (lhs n) (rhs n) (third n) (next n)
         (ival n) (ftext n) (cval n) (n_name n) (body n) v (cast_expr n)
         (case_expr n) (case_val n).

Definition set_cast_expr (n : Node) (v : option Node) : Node :=
  mkNode (n_kind n) (n_type n) (n_loc n) (lhs n) (rhs n) (third n) (next n)
         (ival n) (ftext n) (cval n) (n_name n) (body n) (cast_type n) v
         (case_expr n) (case_val n).

Definition set_case_expr (n : Node) (v : option Node) : Node :=
  mkNode (n_kind n) (n_type n) (n_loc n) (lhs n) (rhs n) (third n) (next n)
         (ival n) (ftext n) (cval n) (n_name n) (body n) (cast_type n)
         (cast_expr n) v (case_val n).

Definition set_case_val (n : Node) (v : Z) : Node :=
  mkNode (n_kind n) (n_type n) (n_loc n) (lhs n) (rhs n) (third n) (next n)
         (ival n) (ftext n) (cval n) (n_name n) (body n) (cast_type n)
         (cast_expr n) (case_expr n) v.

Definition node_unary (k : NodeKind) (operand : Node) (loc : SrcLoc) : Node :=
  set_lhs (node_new k loc) (Some operand).

Definition node_binary (k : NodeKind) (l r : Node) (loc : SrcLoc) : Node :=
  set_rhs (set_lhs (node_new k loc) (Some l)) (Some r).

Definition node_int_lit (v : Z) (t : CType) (loc : SrcLoc) : Node :=
  set_type (set_ival (node_new ND_INT_LIT loc) v) (Some t).

Definition node_float_lit (v : string) (t : CType) (loc : SrcLoc) : Node :=
  set_type (set_ftext (node_new ND_FLOAT_LIT loc) v) (Some t).

Definition node_ident (name : string) (loc : SrcLoc) : Node :=
  set_name (node_new ND_IDENT loc) name.

End Ast.

(** ** symtab.h / symtab.c *)

Module SymTab.
Import TypeSys Util.

Inductive SymKind : Set :=
  | SYM_VAR | SYM_FUNC | SYM_TYPEDEF | SYM_ENUM_CONST | SYM_PARAM.

Definition SymKind_eqb (a b : SymKind) : bool :=
  match a, b with
  | SYM_VAR, SYM_VAR | SYM_FUNC, SYM_FUNC | SYM_TYPEDEF, SYM_TYPEDEF
  | SYM_ENUM_CONST, SYM_ENUM_CONST | SYM_PARAM, SYM_PARAM => true
  | _, _ => false
  end.

Definition StorageClass_eqb (a b : StorageClass) : bool :=
  match a, b with
  | SC_NONE, SC_NONE | SC_TYPEDEF, SC_TYPEDEF | SC_EXTERN, SC_EXTERN
  | SC_STATIC, SC_STATIC | SC_AUTO, SC_AUTO | SC_REGISTER, SC_REGISTER => true
  | _, _ => false
  end.

(** [struct Symbol]; the hash chain link [next] is the tail of the list
    the symbol sits in. *)
Record Symbol : Set :=
  mkSymbol {
    sym_name : string;
    sym_kind : SymKind;
    sym_type : option CType;
    sc : StorageClass;
    addr : Z;
    enum_val : Z;
    is_defined : bool;
    is_local : bool;
    sym_loc : SrcLoc
  }.

Definition set_sym_type (s : Symbol) (t : option CType) : Symbol :=
  mkSymbol (sym_name s) (sym_kind s) t (sc s) (addr s) (enum_val s)
           (is_defined s) (is_local s) (sym_loc s).

Definition set_enum_val (s : Symbol) (v : Z) : Symbol :=
  mkSymbol (sym_name s) (sym_kind s) (sym_type s) (sc s) (addr s) v
           (is_defined s) (is_local s) (sym_loc s).

Definition set_sc (s : Symbol) (c : StorageClass) : Symbol :=
  mkSymbol (sym_name s) (sym_kind s) (sym_type s) c (addr s) (enum_val s)
           (is_defined s) (is_local s) (sym_loc s).

Definition set_is_defined (s : Symbol) (d : bool) : Symbol :=
  mkSymbol (sym_name s) (sym_kind s) (sym_type s) (sc s) (addr s) (enum_val s)
           d (is_local s) (sym_loc s).

Record Tag : Set := mkTag { tag_name : string; tag_type : CType }.

Definition SCOPE_HASH_SIZE : nat := 64.

(** [struct Scope]: the bucket arrays; the [parent] link is the rest of
    the scope stack. *)
Record Scope : Set :=
  mkScope {
    syms : list (list Symbol);
    tags : list (list Tag);
    depth : Z;
    is_func_scope : bool
  }.

(** [SymTab]: [current] and its chain of parents; the last scope of the
    chain is [file_scope]. *)
Record SymTab : Set :=
  mkSymTab {
    current : Scope;
    parents : list Scope
  }.

(** [h = h * 31 + (unsigned char)*p] over the name, then
    [h % SCOPE_HASH_SIZE]. *)
Fixpoint hash_loop (h : Z) (name : string) : Z :=
  match name with
  | EmptyString => h
  | String c rest => hash_loop (wrapu32 (h * 31 + Z.of_N (N_of_ascii c))) rest
  end.

Definition sym_hash (name : string) : nat :=
  Z.to_nat (hash_loop 0 name mod Z.of_nat SCOPE_HASH_SIZE).

Definition new_scope (parent : option Scope) : Scope :=
  mkScope (repeat [] SCOPE_HASH_SIZE) (repeat [] SCOPE_HASH_SIZE)
          (match parent with Some p => wrap32 (depth p + 1) | None => 0 end)
          false.

Definition symtab_init : SymTab := mkSymTab (new_scope None) [].

Definition symtab_enter_scope (st : SymTab) : SymTab :=
  mkSymTab (new_scope (Some (current st))) (current st :: parents st).

Definition symtab_leave_scope (st : SymTab) : SymTab :=
  match parents st with
  | p :: ps => mkSymTab p ps
  | [] => st
  end.

Definition symtab_enter_func_scope (st : SymTab) : SymTab :=
  let st := symtab_enter_scope st in
  let c := current st in
  mkSymTab (mkScope (syms c) (tags c) (depth c) true) (parents st).

(** [syms[h]] and [syms[h] = chain]. *)
Definition bucket {A : Set} (tbl : list (list A)) (h : nat) : list A :=
  nth h tbl [].

Fixpoint set_bucket {A : Set} (tbl : list (list A)) (h : nat) (chain : list A)
  : list (list A) :=
  match tbl, h with
  | [], _ => []
  | _ :: rest, O => chain :: rest
  | b :: rest, S h' => b :: set_bucket rest h' chain
  end.

(** What the scan of a hash chain in [symtab_define] ends with. *)
Inductive DefineScan : Set :=
  | Redeclared (s : Symbol) (chain : list Symbol)
      (* an exception applied: [s] is the entry, its type replaced *)
  | Redefinition (s : Symbol)
      (* the diagnostic is due; [s] is the entry, untouched *)
  | NotFound.

Fixpoint define_scan (chain : list Symbol) (name : string) (k : SymKind)
    (t : option CType) : DefineScan :=
  match chain with
  | [] => NotFound
  | s :: rest =>
      if String.eqb (sym_name s) name then
        let replaced := Redeclared (set_sym_type s t) (set_sym_type s t :: rest) in
        if SymKind_eqb (sym_kind s) SYM_FUNC && SymKind_eqb k SYM_FUNC
           && negb (is_defined s)
        then replaced
        else if StorageClass_eqb (sc s) SC_EXTERN
        then replaced
        else Redefinition s
      else
        match define_scan rest name k t with
        | Redeclared s' rest' => Redeclared s' (s :: rest')
        | r => r
        end
  end.

Definition set_syms (sc : Scope) (tbl : list (list Symbol)) : Scope :=
  mkScope tbl (tags sc) (depth sc) (is_func_scope sc).

Definition redefinition_msg (name : string) : string :=
  ("redefinition of '" ++ name ++ "'")%string.

(** [symtab_define]: the symbol it returns, the table and the error
    sink after the call. *)
Definition symtab_define (st : SymTab) (name : string) (k : SymKind)
    (t : option CType) (loc : SrcLoc) (es : ErrorSink)
  : Symbol * SymTab * ErrorSink :=
  let h := sym_hash name in
  let cur := current st in
  match define_scan (bucket (syms cur) h) name k t with
  | Redeclared s chain =>
      (s, mkSymTab (set_syms cur (set_bucket (syms cur) h chain)) (parents st), es)
  | Redefinition s =>
      (s, st, error_at loc (redefinition_msg name) es)
  | NotFound =>
      let s := mkSymbol name k t SC_NONE 0 0 false
                        (negb (Nat.eqb (List.length (parents st)) 0)) loc in
      (s,
       mkSymTab (set_syms cur (set_bucket (syms cur) h (s :: bucket (syms cur) h)))
                (parents st),
       es)
  end.

Fixpoint chain_find (chain : list Symbol) (name : string) : option Symbol :=
  match chain with
  | [] => None
  | s :: rest => if String.eqb (sym_name s) name then Some s
                 else chain_find rest name
  end.

Definition scope_find (sc : Scope) (name : string) : option Symbol :=
  chain_find (bucket (syms sc) (sym_hash name)) name.

Fixpoint scopes_find (scs : list Scope) (name : string) : option Symbol :=
  match scs with
  | [] => None
  | sc :: rest =>
      match scope_find sc name with
      | Some s => Some s
      | None => scopes_find rest name
      end
  end.

Definition symtab_lookup (st : SymTab) (name : string) : option Symbol :=
  scopes_find (current st :: parents st) name.

Definition symtab_lookup_current (st : SymTab) (name : string) : option Symbol :=
  scope_find (current st) name.

Definition symtab_is_typedef (st : SymTab) (name : string) : bool :=
  match symtab_lookup st name with
  | Some s => SymKind_eqb (sym_kind s) SYM_TYPEDEF
  | None => false
  end.

(** Number of symbols held by a scope. *)
Definition scope_count (sc : Scope) : nat :=
  fold_right (fun chain n => (List.length chain + n)%nat) O (syms sc).

(** Every bucket array has [SCOPE_HASH_SIZE] cells. *)
Definition scope_wf (sc : Scope) : Prop :=
  List.length (syms sc) = SCOPE_HASH_SIZE.

(** The two cases in which [symtab_define] accepts a second declaration
    of a name of the current scope. *)
Definition redeclaration_allowed (old : Symbol) (k : SymKind) : bool :=
  (SymKind_eqb (sym_kind old) SYM_FUNC && negb (is_defined old)
   && SymKind_eqb k SYM_FUNC)
  || StorageClass_eqb (sc old) SC_EXTERN.

End SymTab.

(** ** lexer.h: tokens *)

Module Lexer.
Import Util.

(** [TokenKind], in declaration order. *)
Inductive TokenKind : Set :=
  | TK_EOF | TK_INVALID | TK_INT_LIT | TK_FLOAT_LIT | TK_CHAR_LIT
  | TK_STRING_LIT | TK_IDENT | TK_AUTO | TK_BREAK | TK_CASE | TK_CHAR
  | TK_CONST | TK_CONTINUE | TK_DEFAULT | TK_DO | TK_DOUBLE | TK_ELSE
  | TK_ENUM | TK_EXTERN | TK_FLOAT | TK_FOR | TK_GOTO | TK_IF | TK_INLINE
  | TK_INT | TK_LONG | TK_REGISTER | TK_RESTRICT | TK_RETURN | TK_SHORT
  | TK_SIGNED | TK_SIZEOF | TK_STATIC | TK_STRUCT | TK_SWITCH | TK_TYPEDEF
  | TK_UNION | TK_UNSIGNED | TK_VOID | TK_VOLATILE | TK_WHILE | TK_BOOL
  | TK_COMPLEX | TK_IMAGINARY | TK_LPAREN | TK_RPAREN | TK_LBRACKET
  | TK_RBRACKET | TK_LBRACE | TK_RBRACE | TK_DOT | TK_ARROW | TK_INC
  | TK_DEC | TK_AMP | TK_STAR | TK_PLUS | TK_MINUS | TK_TILDE | TK_BANG
  | TK_SLASH | TK_PERCENT | TK_LSHIFT | TK_RSHIFT | TK_LT | TK_GT | TK_LE
  | TK_GE | TK_EQ | TK_NE | TK_CARET | TK_PIPE | TK_AND | TK_OR
  | TK_QUESTION | TK_COLON | TK_SEMICOLON | TK_ELLIPSIS | TK_ASSIGN
  | TK_MUL_ASSIGN | TK_DIV_ASSIGN | TK_MOD_ASSIGN | TK_ADD_ASSIGN
  | TK_SUB_ASSIGN | TK_LSHIFT_ASSIGN | TK_RSHIFT_ASSIGN | TK_AND_ASSIGN
  | TK_XOR_ASSIGN | TK_OR_ASSIGN | TK_COMMA | TK_HASH | TK_HASHHASH.

Definition TokenKind_ord (k : TokenKind) : Z :=
  match k with
  | TK_EOF => 0 | TK_INVALID => 1 | TK_INT_LIT => 2 | TK_FLOAT_LIT => 3
  | TK_CHAR_LIT => 4 | TK_STRING_LIT => 5 | TK_IDENT => 6 | TK_AUTO => 7
  | TK_BREAK => 8 | TK_CASE => 9 | TK_CHAR => 10 | TK_CONST => 11
  | TK_CONTINUE => 12 | TK_DEFAULT => 13 | TK_DO => 14 | TK_DOUBLE => 15
  | TK_ELSE => 16 | TK_ENUM => 17 | TK_EXTERN => 18 | TK_FLOAT => 19
  | TK_FOR => 20 | TK_GOTO => 21 | TK_IF => 22 | TK_INLINE => 23
  | TK_INT => 24 | TK_LONG => 25 | TK_REGISTER => 26 | TK_RESTRICT => 27
  | TK_RETURN => 28 | TK_SHORT => 29 | TK_SIGNED => 30 | TK_SIZEOF => 31
  | TK_STATIC => 32 | TK_STRUCT => 33 | TK_SWITCH => 34 | TK_TYPEDEF => 35
  | TK_UNION => 36 | TK_UNSIGNED => 37 | TK_VOID => 38 | TK_VOLATILE => 39
  | TK_WHILE => 40 | TK_BOOL => 41 | TK_COMPLEX => 42 | TK_IMAGINARY => 43
  | TK_LPAREN => 44 | TK_RPAREN => 45 | TK_LBRACKET => 46
  | TK_RBRACKET => 47 | TK_LBRACE => 48 | TK_RBRACE => 49 | TK_DOT => 50
  | TK_ARROW => 51 | TK_INC => 52 | TK_DEC => 53 | TK_AMP => 54
  | TK_STAR => 55 | TK_PLUS => 56 | TK_MINUS => 57 | TK_TILDE => 58
  | TK_BANG => 59 | TK_SLASH => 60 | TK_PERCENT => 61 | TK_LSHIFT => 62
  | TK_RSHIFT => 63 | TK_LT => 64 | TK_GT => 65 | TK_LE => 66 | TK_GE => 67
  | TK_EQ => 68 | TK_NE => 69 | TK_CARET => 70 | TK_PIPE => 71
  | TK_AND => 72 | TK_OR => 73 | TK_QUESTION => 74 | TK_COLON => 75
  | TK_SEMICOLON => 76 | TK_ELLIPSIS => 77 | TK_ASSIGN => 78
  | TK_MUL_ASSIGN => 79 | TK_DIV_ASSIGN => 80 | TK_MOD_ASSIGN => 81
  | TK_ADD_ASSIGN => 82 | TK_SUB_ASSIGN => 83 | TK_LSHIFT_ASSIGN => 84
  | TK_RSHIFT_ASSIGN => 85 | TK_AND_ASSIGN => 86 | TK_XOR_ASSIGN => 87
  | TK_OR_ASSIGN => 88 | TK_COMMA => 89 | TK_HASH => 90 | TK_HASHHASH => 91
  end.

Definition TokenKind_eqb (a b : TokenKind) : bool :=
  TokenKind_ord a =? TokenKind_ord b.

Definition token_kind_str (k : TokenKind) : string :=
  match k with
  | TK_EOF => "EOF" | TK_INVALID => "<invalid>"
  | TK_INT_LIT => "integer literal" | TK_FLOAT_LIT => "float literal"
  | TK_CHAR_LIT => "char literal" | TK_STRING_LIT => "string literal"
  | TK_IDENT => "identifier" | TK_AUTO => "auto" | TK_BREAK => "break"
  | TK_CASE => "case" | TK_CHAR => "char" | TK_CONST => "const"
  | TK_CONTINUE => "continue" | TK_DEFAULT => "default" | TK_DO => "do"
  | TK_DOUBLE => "double" | TK_ELSE => "else" | TK_ENUM => "enum"
  | TK_EXTERN => "extern" | TK_FLOAT => "float" | TK_FOR => "for"
  | TK_GOTO => "goto" | TK_IF => "if" | TK_INLINE => "inline"
  | TK_INT => "int" | TK_LONG => "long" | TK_REGISTER => "register"
  | TK_RESTRICT => "restrict" | TK_RETURN => "return" | TK_SHORT => "short"
  | TK_SIGNED => "signed" | TK_SIZEOF => "sizeof" | TK_STATIC => "static"
  | TK_STRUCT => "struct" | TK_SWITCH => "switch" | TK_TYPEDEF => "typedef"
  | TK_UNION => "union" | TK_UNSIGNED => "unsigned" | TK_VOID => "void"
  | TK_VOLATILE => "volatile" | TK_WHILE => "while" | TK_BOOL => "_Bool"
  | TK_COMPLEX => "_Complex" | TK_IMAGINARY => "_Imaginary"
  | TK_LPAREN => "(" | TK_RPAREN => ")" | TK_LBRACKET => "["
  | TK_RBRACKET => "]" | TK_LBRACE => "{" | TK_RBRACE => "}"
  | TK_DOT => "." | TK_ARROW => "->" | TK_INC => "++" | TK_DEC => "--"
  | TK_AMP => "&" | TK_STAR => "*" | TK_PLUS => "+" | TK_MINUS => "-"
  | TK_TILDE => "~" | TK_BANG => "!" | TK_SLASH => "/" | TK_PERCENT => "%"
  | TK_LSHIFT => "<<" | TK_RSHIFT => ">>" | TK_LT => "<" | TK_GT => ">"
  | TK_LE => "<=" | TK_GE => ">=" | TK_EQ => "==" | TK_NE => "!="
  | TK_CARET => "^" | TK_PIPE => "|" | TK_AND => "&&" | TK_OR => "||"
  | TK_QUESTION => "?" | TK_COLON => ":" | TK_SEMICOLON => ";"
  | TK_ELLIPSIS => "..." | TK_ASSIGN => "=" | TK_MUL_ASSIGN => "*="
  | TK_DIV_ASSIGN => "/=" | TK_MOD_ASSIGN => "%=" | TK_ADD_ASSIGN => "+="
  | TK_SUB_ASSIGN => "-=" | TK_LSHIFT_ASSIGN => "<<="
  | TK_RSHIFT_ASSIGN => ">>=" | TK_AND_ASSIGN => "&="
  | TK_XOR_ASSIGN => "^=" | TK_OR_ASSIGN => "|=" | TK_COMMA => ","
  | TK_HASH => "#" | TK_HASHHASH => "##"
  end%string.

Definition LIT_UNSIGNED : Z := 1.
Definition LIT_LONG : Z := 2.
Definition LIT_LONGLONG : Z := 4.

(** [Token]: [tk_ival] is [num.ival]; [tk_fval] stands for [num.fval],
    kept as its [%.17g] rendering. *)
Record Token : Set :=
  mkToken {
    tk_kind : TokenKind;
    tk_loc : SrcLoc;
    tk_str : string;
    tk_ival : Z;
    tk_fval : string;
    lit_suffix : Z
  }.

Definition eof_token : Token := mkToken TK_EOF no_loc EmptyString 0 EmptyString 0.

(** The lexer, seen from the parser: the tokens still to come, the
    first one being [cur]; past the end every token is [TK_EOF]. *)
Definition Lexer : Set := list Token.

Definition cur (l : Lexer) : Token := hd eof_token l.
Definition lexer_next (l : Lexer) : Lexer := tl l.
Definition lexer_peek (l : Lexer) : Token := hd eof_token (tl l).

Definition lexer_match (l : Lexer) (k : TokenKind) : bool * Lexer :=
  if TokenKind_eqb (tk_kind (cur l)) k then (true, lexer_next l) else (false, l).

Definition expected_msg (want got : TokenKind) : string :=
  ("expected '" ++ token_kind_str want ++ "', got '" ++ token_kind_str got ++ "'")%string.

Definition lexer_expect (l : Lexer) (k : TokenKind) (es : ErrorSink)
  : Lexer * ErrorSink :=
  (lexer_next l,
   if TokenKind_eqb (tk_kind (cur l)) k then es
   else error_at (tk_loc (cur l)) (expected_msg k (tk_kind (cur l))) es).

(** Tokens as [lex_token] fills them in, without a location. *)
Definition punct (k : TokenKind) : Token :=
  mkToken k no_loc (token_kind_str k) 0 EmptyString 0.
Definition int_tok (v : Z) (suffix : Z) : Token :=
  mkToken TK_INT_LIT no_loc EmptyString v EmptyString suffix.
Definition float_tok (text : string) (suffix : Z) : Token :=
  mkToken TK_FLOAT_LIT no_loc EmptyString 0 text suffix.
Definition ident_tok (name : string) : Token :=
  mkToken TK_IDENT no_loc name 0 EmptyString 0.

Definition token_is_type_keyword (k : TokenKind) : bool :=
  match k with
  | TK_VOID | TK_CHAR | TK_SHORT | TK_INT | TK_LONG
  | TK_FLOAT | TK_DOUBLE | TK_SIGNED | TK_UNSIGNED
  | TK_BOOL | TK_COMPLEX | TK_IMAGINARY
  | TK_STRUCT | TK_UNION | TK_ENUM
  | TK_CONST | TK_VOLATILE | TK_RESTRICT
  | TK_INLINE | TK_STATIC | TK_EXTERN | TK_REGISTER
  | TK_AUTO | TK_TYPEDEF => true
  | _ => false
  end.

End Lexer.

(** ** 64-bit arithmetic of the host compiler

    Addition, subtraction, multiplication and negation wrap.  A
    division whose quotient is not representable
    ([LLONG_MIN / -1], likewise for [%]) raises the processor's divide
    error; [None] stands for that trap.  The caller excludes a zero
    divisor.  Shift counts are taken modulo 64. *)

Module Int64.

Definition add (l r : Z) : Z := wrap64 (l + r).
Definition sub (l r : Z) : Z := wrap64 (l - r).
Definition mul (l r : Z) : Z := wrap64 (l * r).
Definition neg (l : Z) : Z := wrap64 (- l).

Definition div_overflows (l r : Z) : bool := (l =? LLONG_MIN) && (r =? -1).

Definition sdiv (l r : Z) : option Z :=
  if div_overflows l r then None else Some (Z.quot l r).

Definition srem (l r : Z) : option Z :=
  if div_overflows l r then None else Some (Z.rem l r).

Definition shl (l r : Z) : Z := wrap64 (Z.shiftl l (r mod 64)).
Definition shr (l r : Z) : Z := Z.shiftr l (r mod 64).

End Int64.

(** ** parser.c *)

Module Parser.
Import TypeSys Ast Util SymTab Lexer.

(** *** Constant folding *)

(** Outcome of [try_eval_const]: [true] with [*result], [false], or
    the divide trap of the host. *)
Inductive FoldResult : Set :=
  | Folded (v : Z)
  | NotConst
  | Trap.

(** [try_eval_const(lhs, &l) && try_eval_const(rhs, &r) ? f(l, r) : false] *)
Definition fold2 (a b : FoldResult) (f : Z -> Z -> FoldResult) : FoldResult :=
  match a with
  | Folded l => match b with Folded r => f l r | other => other end
  | other => other
  end.

Definition fold1 (a : FoldResult) (f : Z -> Z) : FoldResult :=
  match a with
  | Folded l => Folded (f l)
  | other => other
  end.

Definition fold_div (op : Z -> Z -> option Z) (l r : Z) : FoldResult :=
  if r =? 0 then NotConst
  else match op l r with Some q => Folded q | None => Trap end.

Fixpoint try_eval_const (n : Node) : FoldResult :=
  let sub (o : option Node) : FoldResult :=
    match o with Some m => try_eval_const m | None => NotConst end in
  let bin (f : Z -> Z -> Z) : FoldResult :=
    fold2 (sub (lhs n)) (sub (rhs n)) (fun l r => Folded (f l r)) in
  match n_kind n with
  | ND_INT_LIT => Folded (wrap64 (ival n))
  | ND_CHAR_LIT => Folded (cval n)
  | ND_NEG => fold1 (sub (lhs n)) Int64.neg
  | ND_NOT => fold1 (sub (lhs n)) (fun l => b2z (l =? 0))
  | ND_BITNOT => fold1 (sub (lhs n)) Z.lnot
  | ND_ADD => bin Int64.add
  | ND_SUB => bin Int64.sub
  | ND_MUL => bin Int64.mul
  | ND_DIV => fold2 (sub (lhs n)) (sub (rhs n)) (fold_div Int64.sdiv)
  | ND_MOD => fold2 (sub (lhs n)) (sub (rhs n)) (fold_div Int64.srem)
  | ND_LSHIFT => bin Int64.shl
  | ND_RSHIFT => bin Int64.shr
  | ND_LT => bin (fun l r => b2z (l <? r))
  | ND_LE => bin (fun l r => b2z (l <=? r))
  | ND_GT => bin (fun l r => b2z (l >? r))
  | ND_GE => bin (fun l r => b2z (l >=? r))
  | ND_EQ => bin (fun l r => b2z (l =? r))
  | ND_NE => bin (fun l r => b2z (negb (l =? r)))
  | ND_BITAND => bin Z.land
  | ND_BITOR => bin Z.lor
  | ND_BITXOR => bin Z.lxor
  | ND_AND => bin (fun l r => b2z (z2b l && z2b r))
  | ND_OR => bin (fun l r => b2z (z2b l || z2b r))
  | ND_TERNARY =>
      match sub (lhs n) with
      | Folded c =>
          fold2 (sub (rhs n)) (sub (third n))
                (fun t e => Folded (if z2b c then t else e))
      | other => other
      end
  | ND_CAST => sub (cast_expr n)
  | _ => NotConst
  end.

(** [try_eval_const] on a possibly null node. *)
Definition try_eval_const_opt (o : option Node) : FoldResult :=
  match o with Some n => try_eval_const n | None => NotConst end.

(** *** Parser state *)

(** [Parser], with the error sink the parser reports to. *)
Record PState : Set :=
  mkPState {
    lexer : Lexer;
    arena : Arena;
    symtab : SymTab;
    loop_depth : Z;
    switch_depth : Z;
    errs : ErrorSink
  }.

Definition set_lexer (p : PState) (l : Lexer) : PState :=
  mkPState l (arena p) (symtab p) (loop_depth p) (switch_depth p) (errs p).
Definition set_arena (p : PState) (a : Arena) : PState :=
  mkPState (lexer p) a (symtab p) (loop_depth p) (switch_depth p) (errs p).
Definition set_symtab (p : PState) (st : SymTab) : PState :=
  mkPState (lexer p) (arena p) st (loop_depth p) (switch_depth p) (errs p).
Definition set_errs (p : PState) (es : ErrorSink) : PState :=
  mkPState (lexer p) (arena p) (symtab p) (loop_depth p) (switch_depth p) es.

Definition parser_init (l : Lexer) (a : Arena) (st : SymTab) (es : ErrorSink)
  : PState := mkPState l a st 0 0 es.

(** A parsing function: state in, value and state out.  [None] marks
    input outside the part of the grammar embedded here (string and
    floating literals aside, casts, [sizeof], calls, subscripts and
    member access) or exhausted fuel. *)
Definition P (A : Type) : Type := PState -> option (A * PState).

Definition ret {A} (a : A) : P A := fun p => Some (a, p).
Definition bind {A B} (c : P A) (k : A -> P B) : P B :=
  fun p => match c p with Some (a, p') => k a p' | None => None end.
Definition unsupported {A} : P A := fun _ => None.

Notation "x <- c ;; k" := (bind c (fun x => k))
  (at level 61, c at next level, right associativity).
Notation "c ;;; k" := (bind c (fun _ => k))
  (at level 61, right associativity).

Definition TOK (p : PState) : Token := cur (lexer p).
Definition get_tok : P Token := fun p => Some (TOK p, p).
Definition PEEK : P Token := fun p => Some (lexer_peek (lexer p), p).
Definition NEXT : P unit := fun p => Some (tt, set_lexer p (lexer_next (lexer p))).

Definition MATCH (k : TokenKind) : P bool :=
  fun p => let '(b, l) := lexer_match (lexer p) k in Some (b, set_lexer p l).

Definition EXPECT (k : TokenKind) : P unit :=
  fun p => let '(l, es) := lexer_expect (lexer p) k (errs p) in
           Some (tt, set_errs (set_lexer p l) es).

Definition report (loc : SrcLoc) (msg : string) : P unit :=
  fun p => Some (tt, set_errs p (error_at loc msg (errs p))).

Definition lookup (name : string) : P (option Symbol) :=
  fun p => Some (symtab_lookup (symtab p) name, p).

Definition alloc_ptr (b : CType) : P CType :=
  fun p => let '(t, a) := type_ptr (arena p) (Some b) in Some (t, set_arena p a).

Definition is_storage_class (k : TokenKind) : bool :=
  match k with
  | TK_TYPEDEF | TK_EXTERN | TK_STATIC | TK_AUTO | TK_REGISTER => true
  | _ => false
  end.

Definition is_type_spec_qual (p : PState) : bool :=
  let k := tk_kind (TOK p) in
  if token_is_type_keyword k then true
  else if TokenKind_eqb k TK_IDENT && symtab_is_typedef (symtab p) (tk_str (TOK p))
  then true else false.

Definition is_type_name (p : PState) : bool :=
  is_storage_class (tk_kind (TOK p)) || is_type_spec_qual p.

(** *** Expressions *)

Definition get_precedence (k : TokenKind) : Z :=
  match k with
  | TK_STAR | TK_SLASH | TK_PERCENT => 13
  | TK_PLUS | TK_MINUS => 12
  | TK_LSHIFT | TK_RSHIFT => 11
  | TK_LT | TK_LE | TK_GT | TK_GE => 10
  | TK_EQ | TK_NE => 9
  | TK_AMP => 8
  | TK_CARET => 7
  | TK_PIPE => 6
  | TK_AND => 5
  | TK_OR => 4
  | _ => -1
  end.

Definition binop_kind (k : TokenKind) : NodeKind :=
  match k with
  | TK_STAR => ND_MUL | TK_SLASH => ND_DIV
  | TK_PERCENT => ND_MOD
  | TK_PLUS => ND_ADD | TK_MINUS => ND_SUB
  | TK_LSHIFT => ND_LSHIFT | TK_RSHIFT => ND_RSHIFT
  | TK_LT => ND_LT | TK_LE => ND_LE
  | TK_GT => ND_GT | TK_GE => ND_GE
  | TK_EQ => ND_EQ | TK_NE => ND_NE
  | TK_AMP => ND_BITAND | TK_PIPE => ND_BITOR
  | TK_CARET => ND_BITXOR
  | TK_AND => ND_AND | TK_OR => ND_OR
  | _ => ND_ADD
  end.

Definition assign_op_kind (k : TokenKind) : NodeKind :=
  match k with
  | TK_ASSIGN => ND_ASSIGN
  | TK_ADD_ASSIGN => ND_ADD_ASSIGN
  | TK_SUB_ASSIGN => ND_SUB_ASSIGN
  | TK_MUL_ASSIGN => ND_MUL_ASSIGN
  | TK_DIV_ASSIGN => ND_DIV_ASSIGN
  | TK_MOD_ASSIGN => ND_MOD_ASSIGN
  | TK_LSHIFT_ASSIGN => ND_LSHIFT_ASSIGN
  | TK_RSHIFT_ASSIGN => ND_RSHIFT_ASSIGN
  | TK_AND_ASSIGN => ND_AND_ASSIGN
  | TK_OR_ASSIGN => ND_OR_ASSIGN
  | TK_XOR_ASSIGN => ND_XOR_ASSIGN
  | _ => ND_ASSIGN
  end.

Definition is_assign_op (k : TokenKind) : bool :=
  match k with
  | TK_ASSIGN | TK_ADD_ASSIGN | TK_SUB_ASSIGN
  | TK_MUL_ASSIGN | TK_DIV_ASSIGN | TK_MOD_ASSIGN
  | TK_LSHIFT_ASSIGN | TK_RSHIFT_ASSIGN
  | TK_AND_ASSIGN | TK_OR_ASSIGN | TK_XOR_ASSIGN => true
  | _ => false
  end.

(** Type of an integer literal, from its suffix flags. *)
Definition int_lit_type (suffix : Z) : CType :=
  if z2b (Z.land suffix LIT_UNSIGNED) then
    if z2b (Z.land suffix LIT_LONGLONG) then ty_ullong
    else if z2b (Z.land suffix LIT_LONG) then ty_ulong
    else ty_uint
  else
    if z2b (Z.land suffix LIT_LONGLONG) then ty_llong
    else if z2b (Z.land suffix LIT_LONG) then ty_long
    else ty_int.

(** The "simplified" result type [parse_binary_expr] gives a new binary
    node whose operands are both typed. *)
Definition binary_result_type (nk : NodeKind) (lt rt : CType) : CType :=
  if is_cmp_kind nk then ty_int
  else match nk with
       | ND_AND | ND_OR => ty_int
       | _ => if type_is_ptr lt then lt
              else if type_is_ptr rt then rt
              else type_usual_arith lt rt
       end.

Definition typed_binary (nk : NodeKind) (l r : Node) (loc : SrcLoc) : Node :=
  let n := node_binary nk l r loc in
  match n_type l, n_type r with
  | Some lt, Some rt => set_type n (Some (binary_result_type nk lt rt))
  | _, _ => n
  end.

Definition expected_expression_msg (got : TokenKind) : string :=
  ("expected expression, got '" ++ token_kind_str got ++ "'")%string.

(** The loop of [parse_postfix_expr] over the postfix operators. *)
Fixpoint postfix_loop (fuel : nat) (n : Node) : P Node :=
  match fuel with
  | O => unsupported
  | S fuel =>
    tok <- get_tok ;;
    match tk_kind tok with
    | TK_LBRACKET | TK_DOT | TK_ARROW => unsupported
    | TK_LPAREN =>
        match n_kind n with
        | ND_CAST => ret n
        | _ => unsupported
        end
    | TK_INC =>
        NEXT ;;;
        postfix_loop fuel (set_type (node_unary ND_POST_INC n (tk_loc tok)) (n_type n))
    | TK_DEC =>
        NEXT ;;;
        postfix_loop fuel (set_type (node_unary ND_POST_DEC n (tk_loc tok)) (n_type n))
    | _ => ret n
    end
  end.

(** The expression grammar, by recursive descent with precedence
    climbing.  Each function consumes one unit of fuel per call. *)
Fixpoint parse_primary_expr (fuel : nat) : P Node :=
  match fuel with
  | O => unsupported
  | S fuel =>
    tok <- get_tok ;;
    match tk_kind tok with
    | TK_INT_LIT =>
        NEXT ;;;
        ret (node_int_lit (tk_ival tok) (int_lit_type (lit_suffix tok)) (tk_loc tok))
    | TK_FLOAT_LIT =>
        NEXT ;;;
        ret (node_float_lit (tk_fval tok)
               (if z2b (Z.land (lit_suffix tok) LIT_LONG) then ty_ldouble
                else ty_double)
               (tk_loc tok))
    | TK_CHAR_LIT =>
        NEXT ;;;
        ret (set_type (set_cval (node_new ND_CHAR_LIT (tk_loc tok))
                                (wrap32 (tk_ival tok)))
                      (Some ty_int))
    | TK_STRING_LIT => unsupported
    | TK_IDENT =>
        NEXT ;;;
        sym <- lookup (tk_str tok) ;;
        match sym with
        | Some sy =>
            match sym_kind sy with
            | SYM_ENUM_CONST =>
                ret (node_int_lit (enum_val sy mod 2 ^ 64) ty_int (tk_loc tok))
            | _ => ret (set_type (node_ident (tk_str tok) (tk_loc tok)) (sym_type sy))
            end
        | None => ret (node_ident (tk_str tok) (tk_loc tok))
        end
    | TK_LPAREN =>
        NEXT ;;;
        fun p =>
          if is_type_name p then None
          else (n <- parse_expr fuel ;; EXPECT TK_RPAREN ;;; ret n) p
    | k =>
        report (tk_loc tok) (expected_expression_msg k) ;;;
        NEXT ;;;
        ret (node_int_lit 0 ty_int (tk_loc tok))
    end
  end

with parse_postfix_expr (fuel : nat) : P Node :=
  match fuel with
  | O => unsupported
  | S fuel => n <- parse_primary_expr fuel ;; postfix_loop fuel n
  end

with parse_unary_expr (fuel : nat) : P Node :=
  match fuel with
  | O => unsupported
  | S fuel =>
    tok <- get_tok ;;
    let same_type (k : NodeKind) (operand : Node) : Node :=
      set_type (node_unary k operand (tk_loc tok)) (n_type operand) in
    match tk_kind tok with
    | TK_INC => NEXT ;;; e <- parse_unary_expr fuel ;; ret (same_type ND_PRE_INC e)
    | TK_DEC => NEXT ;;; e <- parse_unary_expr fuel ;; ret (same_type ND_PRE_DEC e)
    | TK_AMP =>
        NEXT ;;;
        e <- parse_unary_expr fuel ;;
        match n_type e with
        | Some t =>
            pt <- alloc_ptr t ;;
            ret (set_type (node_unary ND_ADDR e (tk_loc tok)) (Some pt))
        | None => ret (node_unary ND_ADDR e (tk_loc tok))
        end
    | TK_STAR =>
        NEXT ;;;
        e <- parse_unary_expr fuel ;;
        match n_type e with
        | Some t =>
            if type_is_ptr t
            then ret (set_type (node_unary ND_DEREF e (tk_loc tok)) (base t))
            else ret (node_unary ND_DEREF e (tk_loc tok))
        | None => ret (node_unary ND_DEREF e (tk_loc tok))
        end
    | TK_PLUS => NEXT ;;; e <- parse_unary_expr fuel ;; ret (same_type ND_POS e)
    | TK_MINUS => NEXT ;;; e <- parse_unary_expr fuel ;; ret (same_type ND_NEG e)
    | TK_TILDE => NEXT ;;; e <- parse_unary_expr fuel ;; ret (same_type ND_BITNOT e)
    | TK_BANG =>
        NEXT ;;;
        e <- parse_unary_expr fuel ;;
        ret (set_type (node_unary ND_NOT e (tk_loc tok)) (Some ty_int))
    | TK_SIZEOF => unsupported
    | _ => parse_postfix_expr fuel
    end
  end

with parse_binary_expr (fuel : nat) (min_prec : Z) : P Node :=
  match fuel with
  | O => unsupported
  | S fuel => l <- parse_unary_expr fuel ;; binary_loop fuel min_prec l
  end

with binary_loop (fuel : nat) (min_prec : Z) (l : Node) : P Node :=
  match fuel with
  | O => unsupported
  | S fuel =>
    tok <- get_tok ;;
    let prec := get_precedence (tk_kind tok) in
    if prec <? min_prec then ret l
    else
      NEXT ;;;
      r <- parse_binary_expr fuel (prec + 1) ;;
      binary_loop fuel min_prec
                  (typed_binary (binop_kind (tk_kind tok)) l r (tk_loc tok))
  end

with or_loop (fuel : nat) (cond : Node) : P Node :=
  match fuel with
  | O => unsupported
  | S fuel =>
    tok <- get_tok ;;
    match tk_kind tok with
    | TK_OR =>
        NEXT ;;;
        r <- parse_binary_expr fuel 4 ;;
        or_loop fuel (set_type (node_binary ND_OR cond r (tk_loc tok)) (Some ty_int))
    | _ => ret cond
    end
  end

with parse_cond_expr (fuel : nat) : P Node :=
  match fuel with
  | O => unsupported
  | S fuel =>
    c <- parse_binary_expr fuel 4 ;;
    cond <- or_loop fuel c ;;
    tok <- get_tok ;;
    match tk_kind tok with
    | TK_QUESTION =>
        NEXT ;;;
        then_expr <- parse_expr fuel ;;
        EXPECT TK_COLON ;;;
        else_expr <- parse_cond_expr fuel ;;
        ret (set_type
               (set_third
                  (set_rhs (set_lhs (node_new ND_TERNARY (tk_loc tok)) (Some cond))
                           (Some then_expr))
                  (Some else_expr))
               (n_type then_expr))
    | _ => ret cond
    end
  end

with parse_assign_expr (fuel : nat) : P Node :=
  match fuel with
  | O => unsupported
  | S fuel =>
    l <- parse_cond_expr fuel ;;
    tok <- get_tok ;;
    if is_assign_op (tk_kind tok) then
      NEXT ;;;
      r <- parse_assign_expr fuel ;;
      ret (set_type (node_binary (assign_op_kind (tk_kind tok)) l r (tk_loc tok))
                    (n_type l))
    else ret l
  end

with comma_loop (fuel : nat) (n : Node) : P Node :=
  match fuel with
  | O => unsupported
  | S fuel =>
    m <- MATCH TK_COMMA ;;
    if m then
      tok <- get_tok ;;
      r <- parse_assign_expr fuel ;;
      comma_loop fuel (set_type (node_binary ND_COMMA n r (tk_loc tok)) (n_type r))
    else ret n
  end

with parse_expr (fuel : nat) : P Node :=
  match fuel with
  | O => unsupported
  | S fuel => n <- parse_assign_expr fuel ;; comma_loop fuel n
  end.

(** [parse_cast_expr] hands over to [parse_unary_expr]: a cast is
    recognised in [parse_primary_expr]. *)
Definition parse_cast_expr := parse_unary_expr.

(** *** Constant expressions in declarations and statements *)

Definition alloc_array (b : CType) (len : Z) : P CType :=
  fun p => let '(t, a) := type_array (arena p) b len in Some (t, set_arena p a).

Definition alloc_vla (b : CType) : P CType :=
  fun p => let '(t, a) := type_vla (arena p) b in Some (t, set_arena p a).

(** [try_eval_const(size, &cv)] then [type_array(.., (int)cv)], else a
    VLA; the divide trap of the folder ends the run. *)
Definition array_of_size (b : CType) (sz : Node) : P CType :=
  match try_eval_const sz with
  | Folded cv => alloc_array b (wrap32 cv)
  | NotConst => alloc_vla b
  | Trap => unsupported
  end.

Fixpoint skip_array_qualifiers (fuel : nat) : P unit :=
  match fuel with
  | O => unsupported
  | S fuel =>
    tok <- get_tok ;;
    match tk_kind tok with
    | TK_STATIC | TK_CONST | TK_VOLATILE | TK_RESTRICT =>
        NEXT ;;; skip_array_qualifiers fuel
    | _ => ret tt
    end
  end.

(** One array suffix of [parse_declarator], entered at [TK_LBRACKET]. *)
Definition parse_array_suffix (fuel : nat) (b : CType) : P CType :=
  NEXT ;;;
  tok <- get_tok ;;
  nxt <- PEEK ;;
  if TokenKind_eqb (tk_kind tok) TK_RBRACKET then
    NEXT ;;; alloc_array b (-1)
  else if TokenKind_eqb (tk_kind tok) TK_STAR
          && TokenKind_eqb (tk_kind nxt) TK_RBRACKET then
    NEXT ;;; NEXT ;;; alloc_vla b
  else fun p =>
    if TokenKind_eqb (tk_kind tok) TK_STATIC || is_type_spec_qual p then
      (skip_array_qualifiers fuel ;;;
       tok' <- get_tok ;;
       if TokenKind_eqb (tk_kind tok') TK_RBRACKET then
         NEXT ;;; alloc_array b (-1)
       else
         sz <- parse_assign_expr fuel ;;
         EXPECT TK_RBRACKET ;;;
         array_of_size b sz) p
    else
      (sz <- parse_assign_expr fuel ;;
       EXPECT TK_RBRACKET ;;;
       array_of_size b sz) p.

(** [es->enum_val = val] on the entry [symtab_define] returned: the
    first entry of that name in the current scope. *)
Fixpoint chain_set_enum_val (chain : list Symbol) (name : string) (v : Z)
  : list Symbol :=
  match chain with
  | [] => []
  | s :: rest =>
      if String.eqb (sym_name s) name then set_enum_val s v :: rest
      else s :: chain_set_enum_val rest name v
  end.

Definition define_enum_const (name : string) (loc : SrcLoc) (v : Z) : P unit :=
  fun p =>
    let '(_, st, es) :=
      symtab_define (symtab p) name SYM_ENUM_CONST (Some ty_int) loc (errs p) in
    let h := sym_hash name in
    let c := current st in
    let c' := set_syms c (set_bucket (syms c) h
                            (chain_set_enum_val (bucket (syms c) h) name v)) in
    Some (tt, set_errs (set_symtab p (mkSymTab c' (parents st))) es).

(** The enumerator list of [parse_type_specifier], entered after
    [TK_LBRACE] with the running value [val], up to and including the
    closing brace. *)
Fixpoint parse_enumerators (fuel : nat) (val : Z) : P unit :=
  match fuel with
  | O => unsupported
  | S fuel =>
    tok <- get_tok ;;
    match tk_kind tok with
    | TK_RBRACE | TK_EOF => EXPECT TK_RBRACE
    | TK_IDENT =>
        NEXT ;;;
        has_init <- MATCH TK_ASSIGN ;;
        val' <- (if has_init then
                   e <- parse_cond_expr fuel ;;
                   match n_kind e with
                   | ND_INT_LIT => ret (wrap64 (ival e))
                   | _ => ret val
                   end
                 else ret val) ;;
        define_enum_const (tk_str tok) (tk_loc tok) val' ;;;
        more <- MATCH TK_COMMA ;;
        if more then parse_enumerators fuel (wrap64 (val' + 1))
        else EXPECT TK_RBRACE
    | _ =>
        report (tk_loc tok) "expected identifier in enum" ;;;
        EXPECT TK_RBRACE
    end
  end.

(** The [case] branch of [parse_stmt], entered at [TK_CASE], up to the
    point where the labelled statement is parsed. *)
Definition parse_case_label (fuel : nat) : P Node :=
  tok <- get_tok ;;
  NEXT ;;;
  expr <- parse_cond_expr fuel ;;
  EXPECT TK_COLON ;;;
  let n := set_case_expr (node_new ND_CASE (tk_loc tok)) (Some expr) in
  match n_kind expr with
  | ND_INT_LIT => ret (set_case_val n (wrap64 (ival expr)))
  | _ => ret n
  end.

(** The bit-field part of a member declarator: [-1] without a colon. *)
Definition parse_bitfield_width (fuel : nat) : P Z :=
  tok <- get_tok ;;
  match tk_kind tok with
  | TK_COLON =>
      NEXT ;;;
      bw <- parse_cond_expr fuel ;;
      match n_kind bw with
      | ND_INT_LIT => ret (wrap32 (ival bw))
      | _ => ret 1
      end
  | _ => ret (-1)
  end.

(** *** Struct and union layout *)

(** [struct Member]; the list link [next] is the tail of the list. *)
Record Member : Set :=
  mkMember {
    m_name : option string;
    m_type : CType;
    offset : Z;
    bit_width : Z;
    bit_offset : Z;
    idx : Z
  }.

(** A member declarator as the member loop has parsed it: name (none
    for an anonymous member), type, and bit-field width ([-1] when the
    member is not a bit-field). *)
Record MemberDecl : Set :=
  mkDecl { d_name : option string; d_type : CType; d_bit_width : Z }.

(** The locals [offset], [max_align] and [idx] of the member loop. *)
Record Layout : Set :=
  mkLayout { cur_offset : Z; max_align : Z; next_idx : Z }.

Definition layout_start : Layout := mkLayout 0 1 0.

(** [(x + a - 1) & ~(a - 1)] in [int] arithmetic. *)
Definition align_up (x a : Z) : Z :=
  Z.land (wrap32 (wrap32 (x + a) - 1)) (Z.lnot (wrap32 (a - 1))).

(** One turn of the member loop, after the declarator is parsed. *)
Definition layout_member (is_struct : bool) (st : Layout) (d : MemberDecl)
  : Member * Layout :=
  let al := type_alignof (d_type d) in
  let ma := if al >? max_align st then al else max_align st in
  let i := next_idx st in
  if is_struct then
    let off := align_up (cur_offset st) al in
    let m := mkMember (d_name d) (d_type d) off (d_bit_width d) 0 i in
    let off' := if d_bit_width d <? 0
                then wrap32 (off + type_sizeof (d_type d)) else off in
    (m, mkLayout off' ma (wrap32 (i + 1)))
  else
    let m := mkMember (d_name d) (d_type d) 0 (d_bit_width d) 0 i in
    let sz := type_sizeof (d_type d) in
    let off' := if sz >? cur_offset st then sz else cur_offset st in
    (m, mkLayout off' ma (wrap32 (i + 1))).

(** The member loop over all declarators of the body. *)
Fixpoint layout_members (is_struct : bool) (st : Layout) (ds : list MemberDecl)
  : list Member * Layout :=
  match ds with
  | [] => ([], st)
  | d :: rest =>
      let '(m, st') := layout_member is_struct st d in
      let '(ms, st'') := layout_members is_struct st' rest in
      (m :: ms, st'')
  end.

Definition is_anonymous_aggregate (m : Member) : bool :=
  match m_name m with
  | None => TypeKind_eqb (kind (m_type m)) TY_STRUCT
            || TypeKind_eqb (kind (m_type m)) TY_UNION
  | Some _ => false
  end.

Definition shift_member (by_ : Z) (m : Member) : Member :=
  mkMember (m_name m) (m_type m) (wrap32 (offset m + by_)) (bit_width m)
           (bit_offset m) (idx m).

Section Flatten.

(** [t->members] of the aggregate types completed so far. *)
Variable members_of : CType -> list Member.

(** One pass of the flattening loop: the new list, and [changed]. *)
Fixpoint flatten_pass (ms : list Member) : list Member * bool :=
  match ms with
  | [] => ([], false)
  | m :: rest =>
      let '(out, changed) := flatten_pass rest in
      if is_anonymous_aggregate m
      then ((map (shift_member (offset m)) (members_of (m_type m)) ++ out)%list, true)
      else (m :: out, changed)
  end.

(** [while (changed)], at most [fuel] passes. *)
Fixpoint flatten (fuel : nat) (ms : list Member) : option (list Member) :=
  match fuel with
  | O => None
  | S fuel =>
      let '(out, changed) := flatten_pass ms in
      if changed then flatten fuel out else Some out
  end.

(** Completion of a struct or union type from the declarators of its
    body: the members, and the type with [align] and [size] set. *)
Definition complete_aggregate (fuel : nat) (is_struct : bool) (ty : CType)
    (ds : list MemberDecl) : option (list Member * CType) :=
  let '(ms, st) := layout_members is_struct layout_start ds in
  match flatten fuel ms with
  | Some flat =>
      Some (flat, set_layout ty (align_up (cur_offset st) (max_align st))
                             (max_align st))
  | None => None
  end.

End Flatten.

(** *** The layout rule as the specification words it *)

(** The smallest multiple of [a] that is not less than [x]. *)
Definition round_up (x a : Z) : Z := a * ((x + a - 1) / a).

(** Offsets of the members of sizes and alignments [ds], laid out from
    the mark [mark]; the mark a member leaves is its end. *)
Fixpoint spec_offsets (mark : Z) (ds : list MemberDecl) : list Z :=
  match ds with
  | [] => []
  | d :: rest =>
      let off := round_up mark (align (d_type d)) in
      off :: spec_offsets (off + size (d_type d)) rest
  end.

Fixpoint spec_mark (mark : Z) (ds : list MemberDecl) : Z :=
  match ds with
  | [] => mark
  | d :: rest =>
      spec_mark (round_up mark (align (d_type d)) + size (d_type d)) rest
  end.

Definition max_member_align (ds : list MemberDecl) : Z :=
  fold_right (fun d a => Z.max (align (d_type d)) a) 1 ds.

Definition max_member_size (ds : list MemberDecl) : Z :=
  fold_right (fun d a => Z.max (size (d_type d)) a) 0 ds.

Definition is_pow2 (a : Z) : Prop := exists k, 0 <= k /\ a = 2 ^ k.

(** [r] is the smallest multiple of [a] that is not less than [x]. *)
Definition least_multiple_geq (a x r : Z) : Prop :=
  (a | r) /\ x <= r /\ forall m, (a | m) -> x <= m -> r <= m.

(** [offs] are the offsets of the members [ds] laid out one after the
    other from the mark [mark], and [final] is the mark the last one
    leaves: each member sits at the smallest multiple of its alignment
    not below the mark, and moves the mark to its end. *)
Fixpoint laid_out (mark : Z) (ds : list MemberDecl) (offs : list Z) (final : Z)
  : Prop :=
  match ds, offs with
  | [], [] => final = mark
  | d :: ds', o :: offs' =>
      least_multiple_geq (align (d_type d)) mark o
      /\ laid_out (o + size (d_type d)) ds' offs' final
  | _, _ => False
  end.

Definition in_int (x : Z) : Prop := INT_MIN <= x <= INT_MAX.

(** The [int] computations of the member loop stay in range. *)
Fixpoint layout_fits (mark : Z) (ds : list MemberDecl) : Prop :=
  match ds with
  | [] => True
  | d :: rest =>
      let al := align (d_type d) in
      let off := round_up mark al in
      in_int al /\ in_int (mark + al) /\ in_int (off + size (d_type d))
      /\ layout_fits (off + size (d_type d)) rest
  end.

(** The declarators a layout statement speaks about: no bit-fields,
    alignments that are powers of two. *)
Definition plain_members (ds : list MemberDecl) : Prop :=
  Forall (fun d => d_bit_width d < 0 /\ is_pow2 (align (d_type d))) ds.

End Parser.

(** ** sema.c *)

Module Sema.
Import Util TypeSys Ast SymTab.

(** [Sema], with the error sink. *)
Record Sema : Set :=
  mkSema { s_arena : Arena; s_symtab : SymTab; s_errs : ErrorSink }.

Definition sema_init (a : Arena) (st : SymTab) (es : ErrorSink) : Sema :=
  mkSema a st es.

Definition sema_error (s : Sema) (loc : SrcLoc) (msg : string) : Sema :=
  mkSema (s_arena s) (s_symtab s) (error_at loc msg (s_errs s)).

(** [ensure_type]: a node without a type gets [int]. *)
Definition ensure_type (n : Node) : Node :=
  match n_type n with
  | Some _ => n
  | None => set_type n (Some ty_int)
  end.

(** [n->type] of a node that went through [ensure_type]. *)
Definition type_of (n : Node) : CType :=
  match n_type n with Some t => t | None => ty_int end.

(** [decay_array]: an array-typed node becomes a pointer to the element. *)
Definition decay_array (s : Sema) (n : Node) : Node * Sema :=
  match n_type n with
  | Some t =>
      if TypeKind_eqb (kind t) TY_ARRAY then
        let '(pt, a) := type_ptr (s_arena s) (base t) in
        (set_type n (Some pt), mkSema a (s_symtab s) (s_errs s))
      else (n, s)
  | None => (n, s)
  end.

Definition undeclared_msg (name : string) : string :=
  ("undeclared identifier '" ++ name ++ "'")%string.

(** Result type of [+ - * / %] once both operands are checked, typed
    and decayed; [None] when the usual arithmetic conversions apply. *)
Definition pointer_arith_type (k : NodeKind) (lt rt : CType) : option CType :=
  match k with
  | ND_ADD =>
      if type_is_ptr lt && type_is_integer rt then Some lt
      else if type_is_integer lt && type_is_ptr rt then Some rt
      else None
  | ND_SUB =>
      if type_is_ptr lt && type_is_integer rt then Some lt
      else if type_is_ptr lt && type_is_ptr rt then Some ty_long
      else None
  | _ => None
  end.

(** [check_expr] on the expression kinds below; [None] for a null
    operand that the C code dereferences and for the kinds left out
    (assignments, calls, member access, compound literals). *)
Fixpoint check_expr (n : Node) (s : Sema) {struct n} : option (Node * Sema) :=
  let unary (k : Node -> Sema -> Node * Sema) : option (Node * Sema) :=
    match lhs n with
    | Some l =>
        match check_expr l s with
        | Some (l, s) => let '(n', s) := k (ensure_type l) s in
                         Some (n', s)
        | None => None
        end
    | None => None
    end in
  let binary (ensure decay : bool) (k : Node -> Node -> Sema -> Node * Sema)
    : option (Node * Sema) :=
    match lhs n, rhs n with
    | Some l, Some r =>
        match check_expr l s with
        | Some (l, s) =>
            match check_expr r s with
            | Some (r, s) =>
                let l := if ensure then ensure_type l else l in
                let r := if ensure then ensure_type r else r in
                let '(l, s) := if decay then decay_array s l else (l, s) in
                let '(r, s) := if decay then decay_array s r else (r, s) in
                let '(n', s) := k l r s in
                Some (n', s)
            | None => None
            end
        | None => None
        end
    | _, _ => None
    end in
  let with_operands (l r : Node) : Node := set_rhs (set_lhs n (Some l)) (Some r) in
  match n_kind n with
  | ND_INT_LIT | ND_FLOAT_LIT | ND_CHAR_LIT | ND_STRING_LIT => Some (n, s)
  | ND_IDENT =>
      match n_type n with
      | Some _ => Some (n, s)
      | None =>
          match symtab_lookup (s_symtab s) (n_name n) with
          | Some sym => Some (set_type n (sym_type sym), s)
          | None => Some (set_type n (Some ty_int),
                          sema_error s (n_loc n) (undeclared_msg (n_name n)))
          end
      end
  | ND_NEG | ND_POS =>
      unary (fun l s =>
        let s := if type_is_arithmetic (type_of l) then s
                 else sema_error s (n_loc n) "operand of unary +/- must be arithmetic" in
        (set_type (set_lhs n (Some l)) (Some (type_int_promote (type_of l))), s))
  | ND_NOT =>
      unary (fun l s =>
        let s := if type_is_scalar (type_of l) then s
                 else sema_error s (n_loc n) "operand of ! must be scalar" in
        (set_type (set_lhs n (Some l)) (Some ty_int), s))
  | ND_BITNOT =>
      unary (fun l s =>
        let s := if type_is_integer (type_of l) then s
                 else sema_error s (n_loc n) "operand of ~ must be integer" in
        (set_type (set_lhs n (Some l)) (Some (type_int_promote (type_of l))), s))
  | ND_DEREF =>
      unary (fun l s =>
        if negb (type_is_ptr (type_of l)) && negb (type_is_array (type_of l))
        then (set_lhs n (Some l),
              sema_error s (n_loc n) "cannot dereference non-pointer type")
        else (set_type (set_lhs n (Some l)) (base (type_of l)), s))
  | ND_ADDR =>
      unary (fun l s =>
        let '(pt, a) := type_ptr (s_arena s) (n_type l) in
        (set_type (set_lhs n (Some l)) (Some pt),
         mkSema a (s_symtab s) (s_errs s)))
  | ND_PRE_INC | ND_PRE_DEC | ND_POST_INC | ND_POST_DEC =>
      unary (fun l s => (set_type (set_lhs n (Some l)) (n_type l), s))
  | ND_SIZEOF =>
      unary (fun l s => (set_type (set_lhs n (Some l)) (Some ty_uint), s))
  | ND_SIZEOF_TYPE => Some (set_type n (Some ty_uint), s)
  | ND_ADD | ND_SUB | ND_MUL | ND_DIV | ND_MOD =>
      binary true true (fun l r s =>
        match pointer_arith_type (n_kind n) (type_of l) (type_of r) with
        | Some t => (set_type (with_operands l r) (Some t), s)
        | None =>
            let s := if negb (type_is_arithmetic (type_of l))
                        || negb (type_is_arithmetic (type_of r))
                     then sema_error s (n_loc n) "invalid operands to binary expression"
                     else s in
            (set_type (with_operands l r)
                      (Some (type_usual_arith (type_of l) (type_of r))), s)
        end)
  | ND_LSHIFT | ND_RSHIFT =>
      binary true false (fun l r s =>
        (set_type (with_operands l r) (Some (type_int_promote (type_of l))), s))
  | ND_LT | ND_LE | ND_GT | ND_GE | ND_EQ | ND_NE =>
      binary true true (fun l r s =>
        (set_type (with_operands l r) (Some ty_int), s))
  | ND_BITAND | ND_BITOR | ND_BITXOR =>
      binary true false (fun l r s =>
        (set_type (with_operands l r)
                  (Some (type_usual_arith (type_of l) (type_of r))), s))
  | ND_AND | ND_OR =>
      let sub (o : option Node) (s : Sema) : option (option Node * Sema) :=
        match o with
        | Some m => match check_expr m s with
                    | Some (m, s) => Some (Some m, s)
                    | None => None
                    end
        | None => Some (None, s)
        end in
      match sub (lhs n) s with
      | Some (l, s) =>
          match sub (rhs n) s with
          | Some (r, s) => Some (set_type (set_rhs (set_lhs n l) r) (Some ty_int), s)
          | None => None
          end
      | None => None
      end
  | ND_COMMA =>
      binary false false (fun l r s =>
        let r := ensure_type r in
        (set_type (with_operands l r) (n_type r), s))
  | ND_CAST =>
      match cast_expr n with
      | Some e =>
          match check_expr e s with
          | Some (e, s) => Some (set_type (set_cast_expr n (Some e)) (cast_type n), s)
          | None => None
          end
      | None => Some (set_type n (cast_type n), s)
      end
  | ND_TERNARY =>
      match lhs n, rhs n, third n with
      | Some c, Some t, Some e =>
          match check_expr c s with
          | Some (c, s) =>
              match check_expr t s with
              | Some (t, s) =>
                  match check_expr e s with
                  | Some (e, s) =>
                      let t := ensure_type t in
                      let e := ensure_type e in
                      let ty :=
                        if type_is_arithmetic (type_of t)
                           && type_is_arithmetic (type_of e)
                        then Some (type_usual_arith (type_of t) (type_of e))
                        else n_type t in
                      Some (set_type
                              (set_third (set_rhs (set_lhs n (Some c)) (Some t))
                                         (Some e)) ty, s)
                  | None => None
                  end
              | None => None
              end
          | None => None
          end
      | _, _, _ => None
      end
  | _ => None
  end.

End Sema.

(** ** preprocess.c *)

Module Preprocess.

(** A [const char *] into a NUL-terminated buffer is the text from the
    pointer up to the terminator; advancing the pointer drops the first
    character. *)

(** *** <ctype.h> in the C locale, on [unsigned char] *)

Definition code (c : ascii) : Z := Z.of_N (N_of_ascii c).

Definition isdigit (c : ascii) : bool := (48 <=? code c) && (code c <=? 57).
Definition isupper (c : ascii) : bool := (65 <=? code c) && (code c <=? 90).
Definition islower (c : ascii) : bool := (97 <=? code c) && (code c <=? 122).
Definition isalpha (c : ascii) : bool := isupper c || islower c.
Definition isalnum (c : ascii) : bool := isalpha c || isdigit c.

(** [c == ' ' || c == '\t'] *)
Definition is_blank (c : ascii) : bool := Ascii.eqb c " " || Ascii.eqb c "009".

(** [isalnum(c) || c == '_'] *)
Definition is_ident_char (c : ascii) : bool := isalnum c || Ascii.eqb c "_".

(** A plain [char] converted to [long long]: [char] is signed. *)
Definition char_value (c : ascii) : Z :=
  if code c <? 128 then code c else code c - 256.

Fixpoint skip_blanks (p : string) : string :=
  match p with
  | String c q => if is_blank c then skip_blanks q else p
  | EmptyString => p
  end.

Fixpoint skip_ident (p : string) : string :=
  match p with
  | String c q => if is_ident_char c then skip_ident q else p
  | EmptyString => p
  end.

(** The identifier characters at the start of [p]. *)
Fixpoint take_ident (p : string) : string :=
  match p with
  | String c q => if is_ident_char c then String c (take_ident q) else EmptyString
  | EmptyString => EmptyString
  end.

(** *** [strtoll(p, &end, 0)] on text that starts with a digit *)

Definition digit_val (base : Z) (c : ascii) : option Z :=
  let v := if isdigit c then Some (code c - 48)
           else if islower c then Some (code c - 97 + 10)
           else if isupper c then Some (code c - 65 + 10)
           else None in
  match v with
  | Some d => if d <? base then Some d else None
  | None => None
  end.

(** The digits of the number: the unbounded value and the rest. *)
Fixpoint scan_digits (base : Z) (acc : Z) (p : string) : Z * string :=
  match p with
  | String c q =>
      match digit_val base c with
      | Some d => scan_digits base (acc * base + d) q
      | None => (acc, p)
      end
  | EmptyString => (acc, p)
  end.

Definition is_digit_of (base : Z) (c : ascii) : bool :=
  match digit_val base c with Some _ => true | None => false end.

Definition is_hex_prefix (p : string) : bool :=
  match p with
  | String z (String x (String h _)) =>
      Ascii.eqb z "0" && (Ascii.eqb x "x" || Ascii.eqb x "X") && is_digit_of 16 h
  | _ => false
  end.

Definition starts_with (c : ascii) (p : string) : bool :=
  match p with String d _ => Ascii.eqb d c | EmptyString => false end.

Definition clamp (v : Z) : Z := Z.min v LLONG_MAX.

(** Base 16 after [0x], base 8 after [0], base 10 otherwise; a value
    above [LLONG_MAX] is clamped to it. *)
Definition strtoll (p : string) : Z * string :=
  let '(v, rest) :=
    if is_hex_prefix p then
      match p with
      | String _ (String _ q) => scan_digits 16 0 q
      | _ => scan_digits 16 0 p
      end
    else if starts_with "0" p then scan_digits 8 0 p
    else scan_digits 10 0 p in
  (clamp v, rest).

Definition is_suffix_char (c : ascii) : bool :=
  Ascii.eqb c "u" || Ascii.eqb c "U" || Ascii.eqb c "l" || Ascii.eqb c "L".

Fixpoint skip_suffix (p : string) : string :=
  match p with
  | String c q => if is_suffix_char c then skip_suffix q else p
  | EmptyString => p
  end.

(** The number branch of [pp_eval_primary]. *)
Definition pp_number (p : string) : Z * string :=
  let '(v, rest) := strtoll p in (v, skip_suffix rest).

(** *** Integer literals, as the specification speaks of them *)

(** Value of a digit string in a base, most significant digit first. *)
Fixpoint horner (base : Z) (acc : Z) (ds : string) : Z :=
  match ds with
  | String c r =>
      match digit_val base c with
      | Some d => horner base (acc * base + d) r
      | None => acc
      end
  | EmptyString => acc
  end.

Fixpoint all_chars (f : ascii -> bool) (s : string) : bool :=
  match s with
  | String c r => f c && all_chars f r
  | EmptyString => true
  end.

(** [int_literal s v]: [s] is a decimal, octal or hexadecimal integer
    constant with an optional [u]/[l] suffix, and [v] is its value,
    clamped to [LLONG_MAX]. *)
Inductive int_literal : string -> Z -> Prop :=
  | lit_decimal (d : ascii) (ds sfx : string) :
      isdigit d = true -> Ascii.eqb d "0" = false ->
      all_chars isdigit ds = true -> all_chars is_suffix_char sfx = true ->
      int_literal (String d (ds ++ sfx)) (clamp (horner 10 0 (String d ds)))
  | lit_octal (ds sfx : string) :
      all_chars (is_digit_of 8) ds = true -> all_chars is_suffix_char sfx = true ->
      int_literal (String "0" (ds ++ sfx)) (clamp (horner 8 0 ds))
  | lit_hex (x h : ascii) (ds sfx : string) :
      Ascii.eqb x "x" || Ascii.eqb x "X" = true ->
      all_chars (is_digit_of 16) (String h ds) = true ->
      all_chars is_suffix_char sfx = true ->
      int_literal (String "0" (String x (String h ds ++ sfx)))
                  (clamp (horner 16 0 (String h ds))).

(** Text at which a literal ends: the end of the expression, or a
    character that is neither a letter nor a digit. *)
Definition ends_token (r : string) : bool :=
  match r with
  | String c _ => negb (isalnum c)
  | EmptyString => true
  end.

(** *** The constant-expression evaluator *)

(** What a run of the evaluator ends with: a value, one of the two
    faults the code can run into, or exhausted fuel. *)
Inductive Outcome (A : Type) : Type :=
  | Val (a : A)
  | DivideTrap      (* quotient not representable: the host traps *)
  | ReadPastEnd     (* a read beyond the terminating NUL *)
  | NoFuel.

Arguments Val {A} a.
Arguments DivideTrap {A}.
Arguments ReadPastEnd {A}.
Arguments NoFuel {A}.

Definition obind {A B} (o : Outcome A) (k : A -> Outcome B) : Outcome B :=
  match o with
  | Val a => k a
  | DivideTrap => DivideTrap
  | ReadPastEnd => ReadPastEnd
  | NoFuel => NoFuel
  end.

(** "skip to matching )": [while ( **p && depth > 0)]. *)
Fixpoint skip_to_close (depth : Z) (p : string) : string :=
  match p with
  | String c q =>
      let depth := if Ascii.eqb c "(" then wrap32 (depth + 1) else depth in
      let depth := if Ascii.eqb c ")" then wrap32 (depth - 1) else depth in
      if depth >? 0 then skip_to_close depth q else q
  | EmptyString => p
  end.

(** [strncmp(p, "defined", 7) == 0 && !isalnum(p[7]) && p[7] != '_'] *)
Definition at_defined (p : string) : bool :=
  String.prefix "defined" p
  && match String.get 7 p with
     | Some c => negb (is_ident_char c)
     | None => true
     end.

(** [char name[256]]: the operand of [defined], cut to 255 characters. *)
Definition defined_name (p : string) : string :=
  String.substring 0 255 (take_ident p).

(** The operand of [defined], after the keyword: the name looked up and
    the text after the operand. *)
Definition defined_operand (p : string) : string * string :=
  let p := skip_blanks p in
  match p with
  | String "(" q =>
      let q := skip_blanks q in
      let r := skip_blanks (skip_ident q) in
      (defined_name q, match r with String ")" r' => r' | _ => r end)
  | _ =>
      let q := skip_blanks p in
      (defined_name q, skip_ident q)
  end.

(** [r ? lhs / r : 0] and [r ? lhs % r : 0] *)
Definition guarded (op : Z -> Z -> option Z) (l r : Z) : Outcome Z :=
  if r =? 0 then Val 0
  else match op l r with Some q => Val q | None => DivideTrap end.

(** [lhs = f(lhs, pp_eval_primary(&p))] and on to the next turn of the
    loop: [prim] and [loop] are the two functions at the fuel left. *)
Definition loop_apply (prim : string -> Outcome (Z * string))
    (loop : Z -> string -> Outcome Z) (lhs : Z) (f : Z -> Z -> Outcome Z)
    (q : string) : Outcome Z :=
  obind (prim q) (fun '(r, q') => obind (f lhs r) (fun v => loop v q')).

Definition pure (f : Z -> Z -> Z) : Z -> Z -> Outcome Z :=
  fun l r => Val (f l r).

Definition rel (f : Z -> Z -> bool) : Z -> Z -> Outcome Z :=
  fun l r => Val (b2z (f l r)).

(** Drop the first [n] characters. *)
Fixpoint drop (n : nat) (p : string) : string :=
  match n, p with
  | S n', String _ q => drop n' q
  | _, _ => p
  end.

(** What follows the digits of a number is not one more digit. *)
Definition stops (base : Z) (rest : string) : Prop :=
  match rest with
  | String c _ => is_digit_of base c = false
  | EmptyString => True
  end.

(** What a call of [pp_eval_primary] owes: an outcome, and a rest that
    is not longer than the text it was given. *)
Definition primary_ok (o : Outcome (Z * string)) (p : string) : Prop :=
  match o with
  | NoFuel => False
  | Val (_, r) => (String.length r <= String.length p)%nat
  | _ => True
  end.

Section Evaluator.

(** [find_macro(name) != NULL] on the current macro table. *)
Variable macro_defined : string -> bool.

(** In [pp_eval_loop], [q] is the text after the first character of
    the operator, so [p[1] == c] is [starts_with c q], and [p += 2]
    leaves [drop 1 q]. *)
Fixpoint pp_eval_primary (fuel : nat) (p : string) {struct fuel}
  : Outcome (Z * string) :=
  match fuel with
  | O => NoFuel
  | S fuel =>
    let p := skip_blanks p in
    match p with
    | String "(" q =>
        obind (match fuel with
               | O => NoFuel
               | S fuel' =>
                   obind (pp_eval_primary fuel' q)
                         (fun '(l, r) => pp_eval_loop fuel' l r)
               end)
              (fun v => Val (v, skip_to_close 1 q))
    | String "!" q =>
        obind (pp_eval_primary fuel q) (fun '(v, r) => Val (b2z (v =? 0), r))
    | String "-" q =>
        obind (pp_eval_primary fuel q) (fun '(v, r) => Val (Int64.neg v, r))
    | String "+" q => pp_eval_primary fuel q
    | String c q =>
        if at_defined p then
          let '(name, r) := defined_operand (drop 7 p) in
          Val (b2z (macro_defined name), r)
        else if isdigit c then Val (pp_number p)
        else if Ascii.eqb c "'" then
          match q with
          | String v r =>
              Val (char_value v, if starts_with "'" r then drop 1 r else r)
          | EmptyString => ReadPastEnd
          end
        else if isalpha c || Ascii.eqb c "_" then Val (0, skip_ident p)
        else Val (0, p)
    | EmptyString => Val (0, p)
    end
  end

with pp_eval_loop (fuel : nat) (lhs : Z) (p : string) {struct fuel} : Outcome Z :=
  match fuel with
  | O => NoFuel
  | S fuel =>
    let p := skip_blanks p in
    let apply := loop_apply (pp_eval_primary fuel) (pp_eval_loop fuel) lhs in
    match p with
    | String "+" q =>
        if negb (starts_with "+" q) then apply (pure Int64.add) q else Val lhs
    | String "-" q =>
        if negb (starts_with "-" q) then apply (pure Int64.sub) q else Val lhs
    | String "*" q => apply (pure Int64.mul) q
    | String "/" q => apply (guarded Int64.sdiv) q
    | String "%" q => apply (guarded Int64.srem) q
    | String "<" q =>
        if starts_with "<" q then apply (pure Int64.shl) (drop 1 q)
        else if starts_with "=" q then apply (rel Z.leb) (drop 1 q)
        else apply (rel Z.ltb) q
    | String ">" q =>
        if starts_with ">" q then apply (pure Int64.shr) (drop 1 q)
        else if starts_with "=" q then apply (rel Z.geb) (drop 1 q)
        else apply (rel Z.gtb) q
    | String "=" q =>
        if starts_with "=" q then apply (rel Z.eqb) (drop 1 q) else Val lhs
    | String "!" q =>
        if starts_with "=" q
        then apply (rel (fun l r => negb (l =? r))) (drop 1 q)
        else Val lhs
    | String "&" q =>
        if starts_with "&" q then
          (* [lhs = lhs && pp_eval_primary(&p)]: no call when [lhs] is 0 *)
          if z2b lhs then apply (rel (fun _ r => z2b r)) (drop 1 q)
          else pp_eval_loop fuel 0 (drop 1 q)
        else apply (pure Z.land) q
    | String "|" q =>
        if starts_with "|" q then
          (* [lhs = lhs || pp_eval_primary(&p)]: no call unless [lhs] is 0 *)
          if z2b lhs then pp_eval_loop fuel 1 (drop 1 q)
          else apply (rel (fun _ r => z2b r)) (drop 1 q)
        else apply (pure Z.lor) q
    | String "^" q => apply (pure Z.lxor) q
    | _ => Val lhs
    end
  end.

(** [pp_eval_expr] with a bound on the depth of the calls. *)
Definition pp_eval_expr_fuel (fuel : nat) (expr : string) : Outcome Z :=
  match fuel with
  | O => NoFuel
  | S fuel =>
      obind (pp_eval_primary fuel expr) (fun '(l, r) => pp_eval_loop fuel l r)
  end.

(** [pp_eval_expr]; the bound is never reached (lemma
    [pp_eval_expr_terminates] below). *)
Definition pp_eval_expr (expr : string) : Outcome Z :=
  pp_eval_expr_fuel (2 * String.length expr + 2) expr.

End Evaluator.

(** *** Macros *)

(** [struct Macro]; [params] is the list of parameter names. *)
Record Macro : Set :=
  mkMacro {
    macro_name : string;
    macro_body : string;
    params : list string;
    is_func : bool;
    is_variadic : bool;
    is_builtin : bool
  }.

Definition MACRO_TABLE_SIZE : nat := 1024.

(** [macro_table]: the hash buckets. *)
Definition MacroTable : Set := list (list Macro).

Definition empty_macro_table : MacroTable := repeat [] MACRO_TABLE_SIZE.

Definition macro_hash (name : string) : nat :=
  Z.to_nat (SymTab.hash_loop 0 name mod Z.of_nat MACRO_TABLE_SIZE).

Fixpoint chain_find_macro (chain : list Macro) (name : string) : option Macro :=
  match chain with
  | [] => None
  | m :: rest => if String.eqb (macro_name m) name then Some m
                 else chain_find_macro rest name
  end.

Definition find_macro (tbl : MacroTable) (name : string) : option Macro :=
  chain_find_macro (SymTab.bucket tbl (macro_hash name)) name.

Fixpoint chain_redefine (chain : list Macro) (name body : string)
    (is_func : bool) (ps : list string) (variadic : bool) : option (list Macro) :=
  match chain with
  | [] => None
  | m :: rest =>
      if String.eqb (macro_name m) name
      then Some (mkMacro (macro_name m) body ps is_func variadic (is_builtin m)
                 :: rest)
      else match chain_redefine rest name body is_func ps variadic with
           | Some rest' => Some (m :: rest')
           | None => None
           end
  end.

Definition define_macro (tbl : MacroTable) (name body : string) (is_func : bool)
    (ps : list string) (variadic : bool) : MacroTable :=
  let h := macro_hash name in
  let chain := SymTab.bucket tbl h in
  match chain_redefine chain name body is_func ps variadic with
  | Some chain' => SymTab.set_bucket tbl h chain'
  | None =>
      SymTab.set_bucket tbl h (mkMacro name body ps is_func variadic false :: chain)
  end.

(** *** Macro expansion *)

(** What the expansion takes from its surroundings: the macro table,
    [filename] and [line], and what [strftime] makes of the clock for
    [__DATE__] and [__TIME__]. *)
Record ExpandEnv : Set :=
  mkEnv {
    macros : MacroTable;
    env_filename : string;
    env_line : Z;
    date_text : string;
    time_text : string
  }.

Local Open Scope string_scope.

(** The double quote character, and a text between double quotes. *)
Definition dquote : ascii := "034"%char.
Definition quoted (s : string) : string :=
  String dquote (s ++ String dquote EmptyString).

(** A quoted literal, from just after its opening quote: the text
    copied, closing quote included, and the rest. *)
Fixpoint copy_quoted (quote : ascii) (p : string) : string * string :=
  match p with
  | EmptyString => (EmptyString, p)
  | String c q =>
      if Ascii.eqb c quote then (String c EmptyString, q)
      else if Ascii.eqb c "\" then
        match q with
        | String d r =>
            let '(t, rest) := copy_quoted quote r in (String c (String d t), rest)
        | EmptyString => (String c EmptyString, q)
        end
      else let '(t, rest) := copy_quoted quote q in (String c t, rest)
  end.

(** [char name[256]]: an identifier of 256 characters or more is cut
    to 255, for the lookup and for the copy to the output alike. *)
Definition cut_name (ident : string) : string := String.substring 0 255 ident.

(** Trailing blanks removed: [while (len > 0 && data[len-1] is blank) len--]. *)
Fixpoint trim_trailing_blanks (s : string) : string :=
  match s with
  | EmptyString => EmptyString
  | String c r =>
      match trim_trailing_blanks r with
      | EmptyString => if is_blank c then EmptyString else String c EmptyString
      | r' => String c r'
      end
  end.

(** One argument of a macro call: its text, the rest of the input, and
    the parenthesis depth left. *)
Fixpoint collect_arg (fuel : nat) (pdepth : Z) (p : string)
  : option (string * string * Z) :=
  match fuel with
  | O => None
  | S fuel =>
    match p with
    | EmptyString => Some (EmptyString, p, pdepth)
    | String c q =>
        if (pdepth <=? 0)%Z then Some (EmptyString, p, pdepth)
        else if Ascii.eqb c "(" then
          match collect_arg fuel (wrap32 (pdepth + 1)) q with
          | Some (t, r, d) => Some (String c t, r, d)
          | None => None
          end
        else if Ascii.eqb c ")" then
          let pdepth := wrap32 (pdepth - 1) in
          if (pdepth >? 0)%Z then
            match collect_arg fuel pdepth q with
            | Some (t, r, d) => Some (String c t, r, d)
            | None => None
            end
          else
            (* the closing parenthesis of the call: the inner loop ends *)
            Some (EmptyString, q, pdepth)
        else if Ascii.eqb c "," && (pdepth =? 1)%Z then Some (EmptyString, q, pdepth)
        else if Ascii.eqb c dquote then
          let '(t, r) := copy_quoted dquote q in
          match collect_arg fuel pdepth r with
          | Some (t', r', d) => Some (String c t ++ t', r', d)
          | None => None
          end
        else
          match collect_arg fuel pdepth q with
          | Some (t, r, d) => Some (String c t, r, d)
          | None => None
          end
    end
  end.

(** [while (pdepth > 0 && *p && nargs < 64)]: the arguments of a call,
    from just after its opening parenthesis. *)
Fixpoint collect_args (fuel : nat) (pdepth : Z) (nargs : nat) (p : string)
  : option (list string * string) :=
  match fuel with
  | O => None
  | S fuel =>
      if (pdepth >? 0)%Z && negb (String.eqb p EmptyString) && (nargs <? 64)%nat then
        match collect_arg (S (String.length p)) pdepth (skip_blanks p) with
        | Some (a, r, d) =>
            match collect_args fuel d (S nargs) r with
            | Some (rest, r') => Some (a :: rest, r')
            | None => None
            end
        | None => None
        end
      else Some ([], p)
  end.

(** Position of a parameter name in the parameter list. *)
Fixpoint param_index (ps : list string) (ident : string) (i : nat) : option nat :=
  match ps with
  | [] => None
  | name :: rest => if String.eqb name ident then Some i
                    else param_index rest ident (S i)
  end.

(** [blen == 12 && memcmp(bs, "__VA_ARGS__", 11) == 0] *)
Definition is_va_args (ident : string) : bool :=
  Nat.eqb (String.length ident) 12 && String.prefix "__VA_ARGS__" ident.

(** The arguments from [param_count] on, joined by commas. *)
Fixpoint join_commas (extra : list string) : string :=
  match extra with
  | [] => EmptyString
  | [a] => a
  | a :: rest => a ++ "," ++ join_commas rest
  end.

(** The characters of an argument, each double quote and backslash
    preceded by a backslash. *)
Fixpoint stringify_chars (a : string) : string :=
  match a with
  | EmptyString => EmptyString
  | String c r =>
      if Ascii.eqb c dquote || Ascii.eqb c "\"
      then String "\" (String c (stringify_chars r))
      else String c (stringify_chars r)
  end.

(** Substitution of the arguments into the body of a function-like
    macro: [tmpbuf] so far and the body still to read. *)
Fixpoint substitute (fuel : nat) (m : Macro) (args : list string)
    (tmpbuf bp : string) : option string :=
  match fuel with
  | O => None
  | S fuel =>
    match bp with
    | EmptyString => Some tmpbuf
    | String c q =>
        if isalpha c || Ascii.eqb c "_" then
          let ident := take_ident bp in
          let rest := skip_ident bp in
          if is_va_args ident then
            substitute fuel m args
              (tmpbuf ++ join_commas (skipn (List.length (params m)) args)) rest
          else
            match param_index (params m) ident 0 with
            | Some i =>
                substitute fuel m args (tmpbuf ++ nth i args EmptyString) rest
            | None => substitute fuel m args (tmpbuf ++ ident) rest
            end
        else if Ascii.eqb c "#" && starts_with "#" q then
          substitute fuel m args (trim_trailing_blanks tmpbuf)
                     (skip_blanks (drop 1 q))
        else if Ascii.eqb c "#" then
          let q := skip_blanks q in
          let ident := take_ident q in
          let rest := skip_ident q in
          match param_index (params m) ident 0 with
          | Some i =>
              substitute fuel m args
                (tmpbuf ++ quoted (stringify_chars (nth i args EmptyString))) rest
          | None => substitute fuel m args tmpbuf rest
          end
        else substitute fuel m args (tmpbuf ++ String c EmptyString) q
    end
  end.

Section Expansion.

Variable env : ExpandEnv.

(** [expand_macros_r] at depth [33 - levels]: the text appended to
    [out].  At depth 33 ([levels = 0]) the input is copied as it is.
    [None] stands for exhausted fuel of one of the scanning loops. *)
Fixpoint expand_macros_r (levels : nat) (input : string) {struct levels}
  : option string :=
  match levels with
  | O => Some input
  | S levels =>
    (fix scan (fuel : nat) (p : string) {struct fuel} : option string :=
       match fuel with
       | O => None
       | S fuel =>
         let continue (emitted : option string) (rest : string) : option string :=
           match emitted, scan fuel rest with
           | Some e, Some t => Some (e ++ t)
           | _, _ => None
           end in
         match p with
         | EmptyString => Some EmptyString
         | String c q =>
             if Ascii.eqb c dquote || Ascii.eqb c "'" then
               let '(t, rest) := copy_quoted c q in
               continue (Some (String c t)) rest
             else if isalpha c || Ascii.eqb c "_" then
               let ident := take_ident p in
               let rest := skip_ident p in
               let name := cut_name ident in
               if String.eqb name "__LINE__" then
                 continue (Some (print_int (env_line env))) rest
               else if String.eqb name "__FILE__" then
                 continue (Some (quoted (env_filename env))) rest
               else if String.eqb name "__DATE__" then
                 continue (Some (date_text env)) rest
               else if String.eqb name "__TIME__" then
                 continue (Some (time_text env)) rest
               else
                 match find_macro (macros env) name with
                 | Some m =>
                     if negb (is_func m) then
                       continue (expand_macros_r levels (macro_body m)) rest
                     else if starts_with "(" rest then
                       match collect_args 65 1 0 (drop 1 rest) with
                       | Some (args, rest') =>
                           match substitute (S (String.length (macro_body m)))
                                            m args EmptyString (macro_body m) with
                           | Some expanded =>
                               continue (expand_macros_r levels expanded) rest'
                           | None => None
                           end
                       | None => None
                       end
                     else continue (Some name) rest
                 | None => continue (Some name) rest
                 end
             else continue (Some (String c EmptyString)) q
         end
       end) (S (String.length input)) input
  end.

(** [expand_macros]: [expand_macros_r] at depth 0. *)
Definition expand_macros (input : string) : option string :=
  expand_macros_r 33 input.

End Expansion.

End Preprocess.

(** ** codegen.c *)

Module CodeGen.
Import Util TypeSys Ast SymTab.
Local Open Scope string_scope.

Fixpoint spaces (n : nat) : string :=
  match n with O => EmptyString | S n => " " ++ spaces n end.

(** [%-10d]: left-justified in a field of ten. *)
Definition print_int_left10 (z : Z) : string :=
  let t := print_int z in t ++ spaces (10 - String.length t).

(** *** Type helpers (null-safe) *)

Definition type_is_u64 (t : option CType) : bool :=
  match t with Some t => TypeKind_eqb (kind t) TY_LLONG | None => false end.

Definition expr_is_u64 (n : option Node) : bool :=
  match n with Some n => type_is_u64 (n_type n) | None => false end.

Definition type_is_double (t : option CType) : bool :=
  match t with
  | Some t => TypeKind_eqb (kind t) TY_DOUBLE || TypeKind_eqb (kind t) TY_LDOUBLE
  | None => false
  end.

Definition expr_is_double (n : option Node) : bool :=
  match n with Some n => type_is_double (n_type n) | None => false end.

Definition js_accessor (rw : string) (t : option CType) : string :=
  match t with
  | None => rw ++ "Int32"
  | Some t =>
      match kind t with
      | TY_BOOL => rw ++ "Uint8"
      | TY_CHAR => if is_unsigned t then rw ++ "Uint8" else rw ++ "Int8"
      | TY_SHORT => if is_unsigned t then rw ++ "Uint16" else rw ++ "Int16"
      | TY_INT | TY_ENUM => if is_unsigned t then rw ++ "Uint32" else rw ++ "Int32"
      | TY_LONG => if is_unsigned t then rw ++ "Uint32" else rw ++ "Int32"
      | TY_LLONG => if is_unsigned t then rw ++ "BigUint64" else rw ++ "BigInt64"
      | TY_FLOAT => rw ++ "Float32"
      | TY_DOUBLE | TY_LDOUBLE => rw ++ "BigUint64"
      | TY_PTR => rw ++ "Uint32"
      | _ => rw ++ "Int32"
      end
  end.

Definition js_getter : option CType -> string := js_accessor "read".
Definition js_setter : option CType -> string := js_accessor "write".

Definition type_sz (t : option CType) : Z :=
  match t with
  | None => 4
  | Some t => if size t >? 0 then size t else 4
  end.

Definition is_aggregate (t : option CType) : bool :=
  match t with
  | Some t => TypeKind_eqb (kind t) TY_STRUCT || TypeKind_eqb (kind t) TY_UNION
  | None => false
  end.

(** *** Expressions *)

(** The JavaScript operator of a binary node kind. *)
Definition binop_text (k : NodeKind) : string :=
  match k with
  | ND_ADD => "+" | ND_SUB => "-"
  | ND_MUL => "*" | ND_DIV => "/"
  | ND_MOD => "%"
  | ND_LSHIFT => "<<" | ND_RSHIFT => ">>"
  | ND_LT => "<" | ND_LE => "<="
  | ND_GT => ">" | ND_GE => ">="
  | ND_EQ => "===" | ND_NE => "!=="
  | ND_BITAND => "&" | ND_BITOR => "|"
  | ND_BITXOR => "^"
  | _ => "+"
  end.

(** Concatenation of emitted pieces; nothing if a piece is missing. *)
Fixpoint cat (parts : list (option string)) : option string :=
  match parts with
  | [] => Some EmptyString
  | Some p :: rest =>
      match cat rest with Some r => Some (p ++ r) | None => None end
  | None :: _ => None
  end.

Definition when (b : bool) (t : string) : option string :=
  Some (if b then t else EmptyString).

Definition pointer_like (t : option CType) : bool :=
  match t with
  | Some t => type_is_ptr t || type_is_array t
  | None => false
  end.

(** [t->base ? type_sz(t->base) : 1] *)
Definition elem_size (t : option CType) : Z :=
  match t with
  | Some t => match base t with Some b => type_sz (Some b) | None => 1 end
  | None => 1
  end.

Definition scale (esz : Z) (op : string) : option string :=
  when (esz >? 1) (op ++ print_int esz).

(** [gen_expr]: the text appended to [cg->out].  In the part embedded
    here [gen_expr] touches nothing else of the generator.  [None]
    stands for the node kinds left out (identifiers, string literals,
    calls, assignments, member access, casts, increments) and for a
    null operand that the C code dereferences. *)
Fixpoint gen_expr (n : Node) : option string :=
  let sub (o : option Node) : option string :=
    match o with Some m => gen_expr m | None => Some "0" end in
  let f64_val (o : option Node) : option string :=
    if expr_is_double o then cat [Some "rt.f64("; sub o; Some ")"]
    else if expr_is_u64 o then cat [Some "Number("; sub o; Some ")"]
    else sub o in
  let big (o : option Node) : option string :=
    cat [when (negb (expr_is_u64 o)) "BigInt("; sub o;
         when (negb (expr_is_u64 o)) ")"] in
  let coerced (res_double : bool) (o : option Node) : option string :=
    if res_double && expr_is_u64 o && negb (expr_is_double o)
    then cat [Some "rt.f64bits(Number("; sub o; Some "))"]
    else if res_double && negb (expr_is_double o) && negb (expr_is_u64 o)
    then cat [Some "rt.f64bits("; sub o; Some ")"]
    else sub o in
  match n_kind n with
  | ND_INT_LIT => Some (print_int (wrap64 (ival n)))
  | ND_FLOAT_LIT =>
      match n_type n with
      | Some t => if TypeKind_eqb (kind t) TY_FLOAT then Some (ftext n)
                  else Some ("rt.f64bits(" ++ ftext n ++ ")")
      | None => Some ("rt.f64bits(" ++ ftext n ++ ")")
      end
  | ND_CHAR_LIT => Some (print_int (cval n))
  | ND_NEG =>
      if expr_is_double (Some n)
      then cat [Some "rt.f64bits(-rt.f64("; sub (lhs n); Some "))"]
      else cat [Some "(-("; sub (lhs n); Some "))"]
  | ND_POS => cat [Some "(+("; sub (lhs n); Some "))"]
  | ND_NOT => cat [Some "(("; sub (lhs n); Some ") ? 0 : 1)"]
  | ND_BITNOT => cat [Some "(~("; sub (lhs n); Some "))"]
  | ND_ADD | ND_SUB | ND_MUL | ND_DIV | ND_MOD
  | ND_LSHIFT | ND_RSHIFT
  | ND_LT | ND_LE | ND_GT | ND_GE
  | ND_EQ | ND_NE
  | ND_BITAND | ND_BITOR | ND_BITXOR =>
      let op := " " ++ binop_text (n_kind n) ++ " " in
      let is_cmp := is_cmp_kind (n_kind n) in
      let f64mode := expr_is_double (lhs n) || expr_is_double (rhs n)
                     || type_is_double (n_type n) in
      let u64mode := expr_is_u64 (lhs n) || expr_is_u64 (rhs n)
                     || type_is_u64 (n_type n) in
      if f64mode then
        if is_cmp
        then cat [Some "(("; f64_val (lhs n); Some op; f64_val (rhs n);
                  Some ") ? 1 : 0)"]
        else cat [Some "rt.f64bits("; f64_val (lhs n); Some op; f64_val (rhs n);
                  Some ")"]
      else if u64mode then
        cat [Some "("; big (lhs n); Some op; big (rhs n); Some ")"]
      else
        match lhs n, rhs n with
        | Some l, Some r =>
            let lp := pointer_like (n_type l) in
            let rp := pointer_like (n_type r) in
            match n_kind n with
            | ND_ADD =>
                if lp && negb rp then
                  cat [Some "("; sub (lhs n); Some op; sub (rhs n);
                       scale (elem_size (n_type l)) " * "; Some ")"]
                else if rp && negb lp then
                  cat [Some "("; sub (lhs n); scale (elem_size (n_type r)) " * ";
                       Some " + "; sub (rhs n); Some ")"]
                else cat [Some "("; sub (lhs n); Some op; sub (rhs n); Some ")"]
            | ND_SUB =>
                if lp && negb rp then
                  cat [Some "("; sub (lhs n); Some op; sub (rhs n);
                       scale (elem_size (n_type l)) " * "; Some ")"]
                else if lp && rp then
                  cat [Some "(("; sub (lhs n); Some " - "; sub (rhs n); Some ")";
                       scale (elem_size (n_type l)) " / "; Some " | 0)"]
                else cat [Some "("; sub (lhs n); Some op; sub (rhs n); Some ")"]
            | ND_DIV =>
                match n_type n with
                | Some t =>
                    if type_is_integer t
                    then cat [Some "(("; sub (lhs n); Some " / "; sub (rhs n);
                              Some ") | 0)"]
                    else cat [Some "("; sub (lhs n); Some op; sub (rhs n); Some ")"]
                | None => cat [Some "("; sub (lhs n); Some op; sub (rhs n); Some ")"]
                end
            | _ =>
                if is_cmp
                then cat [Some "(("; sub (lhs n); Some op; sub (rhs n);
                          Some ") ? 1 : 0)"]
                else cat [Some "("; sub (lhs n); Some op; sub (rhs n); Some ")"]
            end
        | _, _ => None
        end
  | ND_AND =>
      cat [Some "(("; sub (lhs n); Some " && "; sub (rhs n); Some ") ? 1 : 0)"]
  | ND_OR =>
      cat [Some "(("; sub (lhs n); Some " || "; sub (rhs n); Some ") ? 1 : 0)"]
  | ND_TERNARY =>
      let res_double := type_is_double (n_type n) in
      cat [Some "("; sub (lhs n); Some " ? "; coerced res_double (rhs n);
           Some " : "; coerced res_double (third n); Some ")"]
  | ND_COMMA =>
      cat [Some "("; sub (lhs n); Some ", "; sub (rhs n); Some ")"]
  | _ => None
  end.

(** [gen_expr] on a possibly null node. *)
Definition gen_expr_opt (o : option Node) : option string :=
  match o with Some n => gen_expr n | None => Some "0" end.

(** *** Statements *)

(** [CGVar]; the hash chain link is the tail of the bucket. *)
Record CGVar : Set :=
  mkCGVar {
    v_name : string;
    v_addr : Z;
    v_is_local : bool;
    v_is_param : bool;
    v_type : option CType
  }.

Definition CG_VAR_TABLE_SIZE : nat := 256.

(** The fields of [CodeGen] that the statements below read or write. *)
Record CodeGen : Set :=
  mkCodeGen {
    out : string;
    indent : Z;
    tmp_count : Z;
    stack_offset : Z;
    in_func : bool;
    locals : list (list CGVar);
    current_func_ret_type : option CType
  }.

Definition codegen_init : CodeGen :=
  mkCodeGen EmptyString 0 0 0 false (repeat [] CG_VAR_TABLE_SIZE) None.

Definition emit (cg : CodeGen) (text : string) : CodeGen :=
  mkCodeGen (out cg ++ text) (indent cg) (tmp_count cg) (stack_offset cg)
            (in_func cg) (locals cg) (current_func_ret_type cg).

Definition set_indent (cg : CodeGen) (i : Z) : CodeGen :=
  mkCodeGen (out cg) i (tmp_count cg) (stack_offset cg)
            (in_func cg) (locals cg) (current_func_ret_type cg).

(** The indentation [emit_indent] writes: two spaces per level. *)
Fixpoint indent_text (n : nat) : string :=
  match n with O => EmptyString | S n => "  " ++ indent_text n end.

Definition emit_indent (cg : CodeGen) : CodeGen :=
  emit cg (indent_text (Z.to_nat (indent cg))).

Definition emitln (cg : CodeGen) (text : string) : CodeGen :=
  emit (emit (emit_indent cg) text) (String "010"%char EmptyString).

Definition newline : string := String "010"%char EmptyString.

(** Emission of an expression in statement context. *)
Definition emit_expr (cg : CodeGen) (o : option Node) : option CodeGen :=
  match gen_expr_opt o with
  | Some t => Some (emit cg t)
  | None => None
  end.

Definition and_then (c : option CodeGen) (k : CodeGen -> option CodeGen)
  : option CodeGen :=
  match c with Some cg => k cg | None => None end.

(** [gen_stmt].  With [follow] set the statement is followed by its
    siblings, which is the loop [for (s = n->body; s; s = s->next)
    gen_stmt(cg, s)] of a block; [gen_stmt] proper is [follow = false].
    [None] stands for the statement kinds left out (declarations,
    [for], [switch] and its labels, [goto] and labels). *)
Fixpoint gen_stmts (follow : bool) (n : Node) (cg : CodeGen) {struct n}
  : option CodeGen :=
  let one (o : option Node) (cg : CodeGen) : option CodeGen :=
    match o with Some m => gen_stmts false m cg | None => Some cg end in
  let nested (o : option Node) (cg : CodeGen) : option CodeGen :=
    and_then (one o (set_indent cg (wrap32 (indent cg + 1))))
             (fun cg => Some (set_indent cg (wrap32 (indent cg - 1)))) in
  let this : option CodeGen :=
    match n_kind n with
    | ND_BLOCK =>
        match body n with
        | Some s => gen_stmts true s cg
        | None => Some cg
        end
    | ND_EXPR_STMT =>
        and_then (emit_expr (emit_indent cg) (lhs n))
                 (fun cg => Some (emit cg (";" ++ newline)))
    | ND_IF =>
        and_then (emit_expr (emit (emit_indent cg) "if (") (lhs n)) (fun cg =>
        and_then (nested (rhs n) (emit cg (") {" ++ newline))) (fun cg =>
        match third n with
        | Some e =>
            and_then (nested (Some e) (emitln cg "} else {")) (fun cg =>
            Some (emitln cg "}"))
        | None => Some (emitln cg "}")
        end))
    | ND_WHILE =>
        and_then (emit_expr (emit (emit_indent cg) "while (") (lhs n)) (fun cg =>
        and_then (nested (rhs n) (emit cg (") {" ++ newline))) (fun cg =>
        Some (emitln cg "}")))
    | ND_DO_WHILE =>
        and_then (nested (rhs n) (emitln cg "do {")) (fun cg =>
        and_then (emit_expr (emit (emit_indent cg) "} while (") (lhs n)) (fun cg =>
        Some (emit cg (");" ++ newline))))
    | ND_BREAK => Some (emitln cg "break;")
    | ND_CONTINUE => Some (emitln cg "continue;")
    | ND_RETURN =>
        match lhs n with
        | Some e =>
            if is_aggregate (current_func_ret_type cg) then
              and_then (emit_expr (emit (emit_indent cg) "rt.memcpy(p___retptr, ")
                                  (Some e)) (fun cg =>
              Some (emitln
                      (emit cg (", " ++ print_int (type_sz (current_func_ret_type cg))
                                ++ ");" ++ newline))
                      "rt.mem.sp = saved_sp; return p___retptr;"))
            else
              and_then (emit_expr (emit (emit_indent cg) "var __ret = ") (Some e))
                       (fun cg =>
              Some (emit cg ("; rt.mem.sp = saved_sp; return __ret;" ++ newline)))
        | None => Some (emitln cg "rt.mem.sp = saved_sp; return;")
        end
    | ND_NULL_STMT | ND_TYPEDEF => Some cg
    | ND_VAR_DECL | ND_FOR | ND_SWITCH | ND_CASE | ND_DEFAULT
    | ND_GOTO | ND_LABEL => None
    | _ =>
        and_then (emit_expr (emit_indent cg) (Some n))
                 (fun cg => Some (emit cg (";" ++ newline)))
    end in
  if follow then
    match next n with
    | Some s => and_then this (gen_stmts true s)
    | None => this
    end
  else this.

Definition gen_stmt (n : Node) (cg : CodeGen) : option CodeGen :=
  gen_stmts false n cg.

(** [pat] occurs somewhere in [s]. *)
Fixpoint occurs (pat s : string) : bool :=
  String.prefix pat s
  || match s with
     | String _ rest => occurs pat rest
     | EmptyString => false
     end.

(** The text a [return e;] leaves in the output, given the text of
    [e]. *)
Definition return_text (indent_level : Z) (e_text : string) : string :=
  indent_text (Z.to_nat indent_level) ++ "var __ret = " ++ e_text
  ++ "; rt.mem.sp = saved_sp; return __ret;" ++ newline.

End CodeGen.

(** ** Sample inputs *)

Module Samples.
Import Util TypeSys Ast SymTab Lexer Parser CodeGen.

(** [struct { char c; int i; short s; }] and a union of the same
    members. *)
Definition three_members : list MemberDecl :=
  [ mkDecl (Some "c"%string) ty_char (-1);
    mkDecl (Some "i"%string) ty_int (-1);
    mkDecl (Some "s"%string) ty_short (-1) ].

(** No aggregate type completed yet. *)
Definition no_members : CType -> list Member := fun _ => [].

Definition fresh_struct : CType := fst (type_struct arena_after_init).
Definition fresh_union : CType := fst (type_union arena_after_init).

(** The file scope after [int f();], a function that is declared but
    not defined. *)
Definition declared_f : SymTab :=
  snd (fst (symtab_define symtab_init "f" SYM_FUNC (Some ty_int) no_loc [])).

(** [return 1 + 2;] *)
Definition one_plus_two : Node :=
  set_type (node_binary ND_ADD (node_int_lit 1 ty_int no_loc)
                        (node_int_lit 2 ty_int no_loc) no_loc)
           (Some ty_int).

Definition return_one_plus_two : Node :=
  set_lhs (node_new ND_RETURN no_loc) (Some one_plus_two).

End Samples.

(** ** type.c: compatible types *)

Module TypeCompat.
Import TypeSys.

(** [type_is_compatible] on types without function types inside;
    [None] stands for a function type, whose return and parameter
    types are not part of [CType] here, and for a pointer or array
    type without [base], which the C code dereferences. *)
Fixpoint type_is_compatible (a b : CType) {struct a} : option bool :=
  let bases : option bool :=
    match base a, base b with
    | Some x, Some y => type_is_compatible x y
    | _, _ => None
    end in
  if negb (TypeKind_eqb (kind a) (kind b)) then Some false
  else if negb (Bool.eqb (is_unsigned a) (is_unsigned b)) then Some false
  else
    match kind a with
    | TY_PTR => bases
    | TY_ARRAY =>
        if (array_len a >=? 0) && (array_len b >=? 0)
           && negb (array_len a =? array_len b)
        then Some false
        else bases
    | TY_FUNC => None
    | TY_STRUCT | TY_UNION | TY_ENUM => Some (Type_eqb a b)
    | _ => Some true
    end.

(** No function type inside, and every pointer and array type has its
    [base]. *)
Fixpoint based (t : CType) : bool :=
  match kind t with
  | TY_PTR | TY_ARRAY =>
      match base t with Some b => based b | None => false end
  | TY_FUNC => false
  | _ => true
  end.

(** The kinds compared by the identity of the type object. *)
Definition is_tagged (t : CType) : bool :=
  match kind t with
  | TY_STRUCT | TY_UNION | TY_ENUM => true
  | _ => false
  end.

End TypeCompat.

(** ** symtab.c: tags *)

Module SymTabTags.
Import TypeSys Util SymTab.

Definition set_tags (sc : Scope) (tbl : list (list Tag)) : Scope :=
  mkScope (syms sc) tbl (depth sc) (is_func_scope sc).

(** The scan of a tag chain in [symtab_define_tag]: the entry of that
    name with [t->type = type], and the chain with it. *)
Fixpoint chain_retag (chain : list Tag) (name : string) (t : CType)
  : option (Tag * list Tag) :=
  match chain with
  | [] => None
  | x :: rest =>
      if String.eqb (tag_name x) name
      then Some (mkTag (tag_name x) t, mkTag (tag_name x) t :: rest)
      else match chain_retag rest name t with
           | Some (r, rest') => Some (r, x :: rest')
           | None => None
           end
  end.

(** [symtab_define_tag]; the location is not used. *)
Definition symtab_define_tag (st : SymTab) (name : string) (t : CType)
    (loc : SrcLoc) : Tag * SymTab :=
  let h := sym_hash name in
  let cur := current st in
  match chain_retag (bucket (tags cur) h) name t with
  | Some (tg, chain) =>
      (tg, mkSymTab (set_tags cur (set_bucket (tags cur) h chain)) (parents st))
  | None =>
      let tg := mkTag name t in
      (tg, mkSymTab (set_tags cur (set_bucket (tags cur) h
                                     (tg :: bucket (tags cur) h)))
                    (parents st))
  end.

Fixpoint chain_find_tag (chain : list Tag) (name : string) : option Tag :=
  match chain with
  | [] => None
  | x :: rest => if String.eqb (tag_name x) name then Some x
                 else chain_find_tag rest name
  end.

Definition scope_find_tag (sc : Scope) (name : string) : option Tag :=
  chain_find_tag (bucket (tags sc) (sym_hash name)) name.

Fixpoint scopes_find_tag (scs : list Scope) (name : string) : option Tag :=
  match scs with
  | [] => None
  | sc :: rest =>
      match scope_find_tag sc name with
      | Some t => Some t
      | None => scopes_find_tag rest name
      end
  end.

Definition symtab_lookup_tag (st : SymTab) (name : string) : option Tag :=
  scopes_find_tag (current st :: parents st) name.

Definition symtab_lookup_tag_current (st : SymTab) (name : string) : option Tag :=
  scope_find_tag (current st) name.

(** The tag bucket array has [SCOPE_HASH_SIZE] cells. *)
Definition tags_wf (sc : Scope) : Prop :=
  List.length (tags sc) = SCOPE_HASH_SIZE.

End SymTabTags.

(** ** parser.c: the shape of parsed expressions *)

Module ParserShapes.
Import TypeSys Ast Util SymTab Lexer Parser.

(** The token kinds on which the loop of [parse_postfix_expr] goes on. *)
Definition is_postfix_start (k : TokenKind) : bool :=
  match k with
  | TK_LBRACKET | TK_DOT | TK_ARROW | TK_LPAREN | TK_INC | TK_DEC => true
  | _ => false
  end.

(** The node [parse_primary_expr] makes of an integer literal token. *)
Definition literal_node (t : Token) : Node :=
  node_int_lit (tk_ival t) (int_lit_type (lit_suffix t)) (tk_loc t).

(** The node [parse_binary_expr] makes of an operator token and its
    two operands. *)
Definition binary_node (op : Token) (l r : Node) : Node :=
  typed_binary (binop_kind (tk_kind op)) l r (tk_loc op).

(** Operators and right operands, applied to the left from the first
    pair on. *)
Fixpoint left_nested (l : Node) (rest : list (Token * Token)) : Node :=
  match rest with
  | [] => l
  | (op, t) :: rest' => left_nested (binary_node op l (literal_node t)) rest'
  end.

(** The tokens of a chain of operators and literals. *)
Fixpoint chain_tokens (rest : list (Token * Token)) : list Token :=
  match rest with
  | [] => []
  | (op, t) :: rest' => op :: t :: chain_tokens rest'
  end.

(** A chain whose operators are all ranked at least [min_prec] and at
    most [bound], none above the one before it, and whose operands are
    integer literals. *)
Fixpoint descending (min_prec bound : Z) (rest : list (Token * Token)) : Prop :=
  match rest with
  | [] => True
  | (op, t) :: rest' =>
      min_prec <= get_precedence (tk_kind op) <= bound
      /\ tk_kind t = TK_INT_LIT
      /\ descending min_prec (get_precedence (tk_kind op)) rest'
  end.

(** The tokens of an enumerator list without initializers: the names
    separated by commas. *)
Fixpoint enumerator_tokens (names : list string) : list Token :=
  match names with
  | [] => []
  | [n] => [ident_tok n]
  | n :: rest => ident_tok n :: punct TK_COMMA :: enumerator_tokens rest
  end.

(** The node [parse_assign_expr] makes of an assignment operator
    token and its two operands. *)
Definition assign_node (op : Token) (l r : Node) : Node :=
  set_type (node_binary (assign_op_kind (tk_kind op)) l r (tk_loc op))
           (n_type l).

(** Operators and right operands, applied to the right from the last
    pair back. *)
Fixpoint right_nested (a : Token) (rest : list (Token * Token)) : Node :=
  match rest with
  | [] => literal_node a
  | (op, t) :: rest' => assign_node op (literal_node a) (right_nested t rest')
  end.

(** A chain of assignment operators and integer literals. *)
Fixpoint assignments (rest : list (Token * Token)) : Prop :=
  match rest with
  | [] => True
  | (op, t) :: rest' =>
      is_assign_op (tk_kind op) = true /\ tk_kind t = TK_INT_LIT
      /\ assignments rest'
  end.

(** What may follow an assignment expression of literals: no postfix,
    binary, conditional or assignment operator. *)
Definition ends_assign (tail : list Token) : Prop :=
  get_precedence (tk_kind (cur tail)) < 4
  /\ is_postfix_start (tk_kind (cur tail)) = false
  /\ tk_kind (cur tail) <> TK_QUESTION
  /\ is_assign_op (tk_kind (cur tail)) = false.

(** What may follow a binary expression: a token that is neither a
    binary operator of rank [min_prec] or more nor a postfix operator. *)
Definition ends_binary (min_prec : Z) (tail : list Token) : Prop :=
  get_precedence (tk_kind (cur tail)) < min_prec
  /\ is_postfix_start (tk_kind (cur tail)) = false.

End ParserShapes.

(** ** preprocess.c: names in conditional expressions *)

Module PreprocessNames.
Import Preprocess.

(** An identifier: a letter or underscore, then letters, digits and
    underscores. *)
Definition is_identifier (s : string) : bool :=
  match s with
  | String c q => (isalpha c || Ascii.eqb c "_") && all_chars is_ident_char q
  | EmptyString => false
  end.

(** Text at which a name ends: the end, or a character that cannot be
    part of a name. *)
Definition ends_name (r : string) : bool :=
  match r with
  | String c _ => negb (is_ident_char c)
  | EmptyString => true
  end.

End PreprocessNames.

(** ** preprocess.c: the macro table *)

Module MacroTable.
Import Preprocess.

(** The walk of [undef_macro] along a chain: the first macro of that
    name is unlinked. *)
Fixpoint chain_unlink (chain : list Macro) (name : string) : list Macro :=
  match chain with
  | [] => []
  | m :: rest => if String.eqb (macro_name m) name then rest
                 else m :: chain_unlink rest name
  end.

Definition undef_macro (tbl : MacroTable) (name : string) : MacroTable :=
  let h := macro_hash name in
  SymTab.set_bucket tbl h (chain_unlink (SymTab.bucket tbl h) name).

(** [preprocess_define]: an object-like macro. *)
Definition preprocess_define (tbl : MacroTable) (name value : string)
  : MacroTable :=
  define_macro tbl name value false [] false.

(** No chain holds two macros of one name. *)
Fixpoint chain_unique (chain : list Macro) : Prop :=
  match chain with
  | [] => True
  | m :: rest => chain_find_macro rest (macro_name m) = None /\ chain_unique rest
  end.

(** The table has its [MACRO_TABLE_SIZE] buckets, and no chain holds
    two macros of one name. *)
Definition table_wf (tbl : MacroTable) : Prop :=
  List.length tbl = MACRO_TABLE_SIZE /\ Forall chain_unique tbl.

End MacroTable.

(** ** util.c: the arena allocator *)

Module ArenaBytes.

(** [size_t] of the host: 64 bits. *)
Definition SIZE_MAX : Z := 2 ^ 64 - 1.
Definition wrap_size (x : Z) : Z := x mod 2 ^ 64.

(** [ArenaBlock] without its bytes: [size] and [used]. *)
Record ArenaBlock : Set := mkBlock { blk_size : Z; blk_used : Z }.

(** [Arena]: the blocks from [head] up to the one before [current],
    then [current], which is the last of the chain. *)
Record Arena : Set :=
  mkArena {
    earlier : list ArenaBlock;
    current : ArenaBlock;
    default_block_size : Z
  }.

Definition arena_new_block (size : Z) : ArenaBlock := mkBlock size 0.

Definition arena_init (default_block_size : Z) : Arena :=
  mkArena [] (arena_new_block default_block_size) default_block_size.

(** [(size + 7) & ~(size_t)7] *)
Definition align8 (size : Z) : Z :=
  Z.land (wrap_size (size + 7)) (wrap_size (Z.lnot 7)).

(** A pointer into the arena: the number of its block in the chain
    and the offset in [data]. *)
Record Ptr : Set := mkPtr { block : nat; offset : Z }.

(** [arena_alloc]: the pointer and the arena after the call. *)
Definition arena_alloc (a : Arena) (size : Z) : Ptr * Arena :=
  let size := align8 size in
  let a :=
    if wrap_size (blk_used (current a) + size) >? blk_size (current a) then
      let bsz := if size >? default_block_size a then size
                 else default_block_size a in
      mkArena (earlier a ++ [current a]) (arena_new_block bsz)
              (default_block_size a)
    else a in
  (mkPtr (List.length (earlier a)) (blk_used (current a)),
   mkArena (earlier a)
           (mkBlock (blk_size (current a))
                    (wrap_size (blk_used (current a) + size)))
           (default_block_size a)).

(** A block holds what was handed out of it, in multiples of 8. *)
Definition block_wf (b : ArenaBlock) : Prop :=
  0 <= blk_used b <= blk_size b /\ blk_used b mod 8 = 0
  /\ blk_size b < 2 ^ 63.

Definition arena_wf (a : Arena) : Prop :=
  block_wf (current a) /\ Forall block_wf (earlier a)
  /\ 0 <= default_block_size a < 2 ^ 63.

End ArenaBytes.

(** ** lexer.c: keywords *)

Module LexerKeywords.
Import Lexer.
Local Open Scope string_scope.

(** [keywords[]], without its terminating entry. *)
Definition keywords : list (string * TokenKind) :=
  [ ("auto", TK_AUTO); ("break", TK_BREAK); ("case", TK_CASE);
    ("char", TK_CHAR); ("const", TK_CONST); ("continue", TK_CONTINUE);
    ("default", TK_DEFAULT); ("do", TK_DO); ("double", TK_DOUBLE);
    ("else", TK_ELSE); ("enum", TK_ENUM); ("extern", TK_EXTERN);
    ("float", TK_FLOAT); ("for", TK_FOR); ("goto", TK_GOTO);
    ("if", TK_IF); ("inline", TK_INLINE); ("int", TK_INT);
    ("long", TK_LONG); ("register", TK_REGISTER); ("restrict", TK_RESTRICT);
    ("return", TK_RETURN); ("short", TK_SHORT); ("signed", TK_SIGNED);
    ("sizeof", TK_SIZEOF); ("static", TK_STATIC); ("struct", TK_STRUCT);
    ("switch", TK_SWITCH); ("typedef", TK_TYPEDEF); ("union", TK_UNION);
    ("unsigned", TK_UNSIGNED); ("void", TK_VOID); ("volatile", TK_VOLATILE);
    ("while", TK_WHILE);
    ("_Bool", TK_BOOL); ("_Complex", TK_COMPLEX); ("_Imaginary", TK_IMAGINARY) ].

(** The walk over the table: the first entry of that spelling. *)
Fixpoint lookup_in (kws : list (string * TokenKind)) (s : string) : TokenKind :=
  match kws with
  | [] => TK_IDENT
  | (name, kind) :: rest =>
      if String.eqb name s then kind else lookup_in rest s
  end.

(** [lookup_keyword(s, len)] on the [len] characters at [s]. *)
Definition lookup_keyword (s : string) : TokenKind := lookup_in keywords s.

(** The kinds that the table gives out. *)
Definition is_keyword_kind (k : TokenKind) : bool :=
  existsb (fun p => TokenKind_eqb (snd p) k) keywords.

End LexerKeywords.

(** ** lexer.c: the suffix of an integer literal *)

Module LexSuffix.
Import TypeSys Lexer Parser.
Local Open Scope string_scope.

Definition is_u (c : ascii) : bool := Ascii.eqb c "u" || Ascii.eqb c "U".
Definition is_l (c : ascii) : bool := Ascii.eqb c "l" || Ascii.eqb c "L".

(** The loop over the integer suffixes in [lex_number]:
    [t->lit_suffix] and the input left. *)
Fixpoint int_suffix (p : string) (flags : Z) : Z * string :=
  match p with
  | String c q =>
      if is_u c && negb (z2b (Z.land flags LIT_UNSIGNED)) then
        int_suffix q (Z.lor flags LIT_UNSIGNED)
      else if is_l c && negb (z2b (Z.land flags LIT_LONGLONG)) then
        int_suffix q
          (if z2b (Z.land flags LIT_LONG)
           then Z.lor (Z.land flags (Z.lnot LIT_LONG)) LIT_LONGLONG
           else Z.lor flags LIT_LONG)
      else (flags, p)
  | EmptyString => (flags, p)
  end.

(** The letters of a suffix, counted. *)
Fixpoint count (f : ascii -> bool) (s : string) : nat :=
  match s with
  | String c r => (if f c then 1 else 0) + count f r
  | EmptyString => 0
  end.

(** The type that goes with a [u] and a number of [l]s. *)
Definition suffix_type (unsigned : bool) (longs : nat) : CType :=
  match longs with
  | O => if unsigned then ty_uint else ty_int
  | S O => if unsigned then ty_ulong else ty_long
  | _ => if unsigned then ty_ullong else ty_llong
  end.

(** The flags for a [u] and a number of [l]s. *)
Definition suffix_flags (unsigned : bool) (longs : nat) : Z :=
  (if unsigned then LIT_UNSIGNED else 0)
  + match longs with
    | O => 0
    | S O => LIT_LONG
    | _ => LIT_LONGLONG
    end.

End LexSuffix.

(** ** sema.c: what the check leaves of the tree *)

Module SemaShapes.
Import Util TypeSys Ast SymTab Sema.

(** The tree without its [type] fields. *)
Fixpoint untyped (n : Node) : Node :=
  let sub (o : option Node) : option Node :=
    match o with Some m => Some (untyped m) | None => None end in
  mkNode (n_kind n) None (n_loc n) (sub (lhs n)) (sub (rhs n)) (sub (third n))
         (sub (next n)) (ival n) (ftext n) (cval n) (n_name n) (sub (body n))
         (cast_type n) (sub (cast_expr n)) (sub (case_expr n)) (case_val n).

(** [n'] is [n] but for the types written into it. *)
Definition same_tree (n n' : Node) : Prop := untyped n' = untyped n.

(** From [s] to [s']: the symbol table is the same, diagnostics were
    added at the end, and the arena was allocated from. *)
Definition grows (s s' : Sema) : Prop :=
  s_symtab s' = s_symtab s
  /\ (exists new, s_errs s' = s_errs s ++ new)
  /\ (s_arena s <= s_arena s')%N.

(** [x + 1] as the parser leaves it, [x] not declared. *)
Definition undeclared_plus_one : Node :=
  node_binary ND_ADD (node_ident "x" no_loc) (node_int_lit 1 ty_int no_loc)
              no_loc.

End SemaShapes.

(** ** preprocess.c: the rest of a directive line *)

Module ReadLine.
Import Preprocess.
Local Open Scope string_scope.

(** A line feed or a carriage return. *)
Definition is_eol (c : ascii) : bool :=
  Ascii.eqb c "010" || Ascii.eqb c "013".

(** [pp_skip_line]: up to the next LF or CR, or to the end. *)
Fixpoint skip_line (p : string) : string :=
  match p with
  | String c q => if is_eol c then p else skip_line q
  | EmptyString => p
  end.

(** A backslash followed by LF or by CR LF. *)
Definition is_line_continuation (p : string) : bool :=
  match p with
  | String c q =>
      if negb (Ascii.eqb c "\") then false
      else if starts_with "010" q then true
      else starts_with "013" q && starts_with "010" (drop 1 q)
  | EmptyString => false
  end.

(** The number of characters to skip. *)
Definition skip_line_continuation (p : string) : nat :=
  if starts_with "010" (drop 1 p) then 2
  else if starts_with "013" (drop 1 p) && starts_with "010" (drop 2 p) then 3
  else 0.

(** Inside a block comment: up to its closing star and slash, or to
    the end of the input; LF and CR are counted one line each. *)
Fixpoint skip_comment (p : string) (line : Z) : string * Z :=
  match p with
  | EmptyString => (p, line)
  | String c q =>
      if Ascii.eqb c "*" && starts_with "/" q then (p, line)
      else skip_comment q (if is_eol c then wrap32 (line + 1) else line)
  end.

(** [if (body.len > 0) buf_push(&body, ' ')] *)
Definition separated (body : string) : string :=
  match body with
  | EmptyString => body
  | _ => body ++ " "
  end.

(** The loop of [pp_read_line]: the body read so far, and at the end
    the body, the input left and the line number. *)
Fixpoint read_line_loop (fuel : nat) (p : string) (line : Z) (body : string)
  : option (string * string * Z) :=
  match fuel with
  | O => None
  | S fuel =>
      match p with
      | EmptyString => Some (body, p, line)
      | String c q =>
          if is_eol c then Some (body, p, line)
          else if is_line_continuation p then
            read_line_loop fuel
              (skip_blanks (drop (skip_line_continuation p) p))
              (wrap32 (line + 1)) (separated body)
          else if Ascii.eqb c "/" && starts_with "*" q then
            let '(p', line') := skip_comment (drop 2 p) line in
            read_line_loop fuel (drop 2 p') line' (separated body)
          else if Ascii.eqb c "/" && starts_with "/" q then
            Some (body, skip_line p, line)
          else read_line_loop fuel q line (body ++ String c EmptyString)
      end
  end.

(** [pp_read_line]: the text returned, [pp->p] and [pp->line]. *)
Definition pp_read_line (p : string) (line : Z) : option (string * string * Z) :=
  let p := skip_blanks p in
  match read_line_loop (S (String.length p)) p line EmptyString with
  | Some (body, p', line') => Some (trim_trailing_blanks body, p', line')
  | None => None
  end.

Definition no_eol (c : ascii) : bool := negb (is_eol c).

(** The input left is at a line end or exhausted. *)
Definition at_line_end (p : string) : bool :=
  match p with
  | String c _ => is_eol c
  | EmptyString => true
  end.

(** A character that is neither a line end, nor a backslash, nor a
    slash. *)
Definition ordinary (c : ascii) : bool :=
  negb (is_eol c) && negb (Ascii.eqb c "\") && negb (Ascii.eqb c "/").

End ReadLine.

(** ** preprocess.c: conditional inclusion *)

Module Conditionals.

(** [if_depth] and [skip_depth] of [PPState]; the lines are skipped
    while [skip_depth > 0]. *)
Record Cond : Set := mkCond { if_depth : Z; skip_depth : Z }.

Definition set_skip (pp : Cond) (v : Z) : Cond := mkCond (if_depth pp) v.

(** What the loop of [preprocess] makes of one line, as far as the two
    counters go: [val] is what [pp_eval_expr] returns for the expanded
    expression of [#if] and [#elif] (it is computed only where the code
    computes it), [defined] is [name && find_macro(name)]. *)
Inductive Directive : Set :=
  | D_if (val : Z)
  | D_ifdef (defined : bool)
  | D_ifndef (defined : bool)
  | D_elif (val : Z)
  | D_else
  | D_endif
  | D_other.

(** One line: the branches of the directive chain that touch the
    counters; every other directive and every text line leaves them. *)
Definition directive_step (pp : Cond) (d : Directive) : Cond :=
  match d with
  | D_if val =>
      let pp := mkCond (wrap32 (if_depth pp + 1)) (skip_depth pp) in
      if skip_depth pp >? 0 then set_skip pp (wrap32 (skip_depth pp + 1))
      else if val =? 0 then set_skip pp 1
      else pp
  | D_ifdef defined =>
      let pp := mkCond (wrap32 (if_depth pp + 1)) (skip_depth pp) in
      if skip_depth pp >? 0 then set_skip pp (wrap32 (skip_depth pp + 1))
      else if negb defined then set_skip pp 1
      else pp
  | D_ifndef defined =>
      let pp := mkCond (wrap32 (if_depth pp + 1)) (skip_depth pp) in
      if skip_depth pp >? 0 then set_skip pp (wrap32 (skip_depth pp + 1))
      else if defined then set_skip pp 1
      else pp
  | D_elif val =>
      if skip_depth pp =? 1 then
        if negb (val =? 0) then set_skip pp 0 else pp
      else if skip_depth pp =? 0 then set_skip pp 1
      else pp
  | D_else =>
      if skip_depth pp =? 1 then set_skip pp 0
      else if skip_depth pp =? 0 then set_skip pp 1
      else pp
  | D_endif =>
      let pp := if skip_depth pp >? 0
                then set_skip pp (wrap32 (skip_depth pp - 1)) else pp in
      mkCond (wrap32 (if_depth pp - 1)) (skip_depth pp)
  | D_other => pp
  end.

(** The lines of a file, one after the other. *)
Definition directives (ds : list Directive) (pp : Cond) : Cond :=
  fold_left directive_step ds pp.

Definition is_opening (d : Directive) : bool :=
  match d with D_if _ | D_ifdef _ | D_ifndef _ => true | _ => false end.

Definition is_branch (d : Directive) : bool :=
  match d with D_elif _ | D_else => true | _ => false end.

(** Lines in which every [#if], [#ifdef] and [#ifndef] has its
    [#endif]; [inside] says whether [#elif] and [#else] may stand at
    the outer level of the lines, as they may between an [#if] and its
    [#endif]. *)
Inductive balanced (inside : bool) : list Directive -> Prop :=
  | balanced_nil : balanced inside []
  | balanced_other (ds : list Directive) :
      balanced inside ds -> balanced inside (D_other :: ds)
  | balanced_branch (b : Directive) (ds : list Directive) :
      inside = true -> is_branch b = true -> balanced inside ds ->
      balanced inside (b :: ds)
  | balanced_group (o : Directive) (inner rest : list Directive) :
      is_opening o = true -> balanced true inner -> balanced inside rest ->
      balanced inside (o :: inner ++ D_endif :: rest).

(** The counters can take the lines without overflow. *)
Definition room (pp : Cond) (ds : list Directive) : Prop :=
  INT_MIN <= if_depth pp /\ if_depth pp + Z.of_nat (List.length ds) <= INT_MAX
  /\ 0 <= skip_depth pp
  /\ skip_depth pp + Z.of_nat (List.length ds) <= INT_MAX.

End Conditionals.

(** ** preprocess.c: what the expansion makes of a line *)

Module MacroExpansion.
Import Preprocess PreprocessNames.
Local Open Scope string_scope.

(** The four names [expand_macros_r] answers itself. *)
Definition predefined (name : string) : bool :=
  String.eqb name "__LINE__" || String.eqb name "__FILE__"
  || String.eqb name "__DATE__" || String.eqb name "__TIME__".

(** A character the scanning loop copies by itself: neither a quote
    nor the start of an identifier. *)
Definition plain_char (c : ascii) : bool :=
  negb (Ascii.eqb c dquote) && negb (Ascii.eqb c "'")
  && negb (isalpha c) && negb (Ascii.eqb c "_").

(** The inside of a literal without escapes: no backslash and no
    closing quote. *)
Definition literal_body (quote : ascii) (s : string) : bool :=
  all_chars (fun c => negb (Ascii.eqb c quote) && negb (Ascii.eqb c "\")) s.

(** A name as the loop reads it and looks it up: an identifier of at
    most 255 characters that is followed by something else, and none
    of the predefined names. *)
Definition looked_up (name rest : string) : Prop :=
  is_identifier name = true /\ (String.length name <= 255)%nat
  /\ ends_name rest = true /\ predefined name = false.

(** [s] written [n] times. *)
Fixpoint times (n : nat) (s : string) : string :=
  match n with
  | O => EmptyString
  | S n => s ++ times n s
  end.

(** What [continue] makes of the text emitted for one item and of the
    scan of the rest. *)
Definition then_rest (emitted rest : option string) : option string :=
  match emitted, rest with
  | Some e, Some t => Some (e ++ t)
  | _, _ => None
  end.

(** A character of macro body text that belongs to no name and is
    no operator of the body: neither letter, digit, underscore nor
    [#]. *)
Definition sep_char (c : ascii) : bool :=
  negb (is_ident_char c) && negb (Ascii.eqb c "#").

(** A character of an argument that needs no bookkeeping: no
    parenthesis, comma or double quote. *)
Definition arg_char (c : ascii) : bool :=
  negb (Ascii.eqb c "(") && negb (Ascii.eqb c ")")
  && negb (Ascii.eqb c ",") && negb (Ascii.eqb c dquote).

(** An argument of such characters that does not start with a blank. *)
Definition arg_ok (a : string) : bool :=
  all_chars arg_char a
  && match a with
     | String c _ => negb (is_blank c)
     | EmptyString => true
     end.

(** A macro body after its first stretch of text: the number of a
    parameter and the text that follows it, again and again.  [fill]
    writes it out with [texts] for the parameters: their names give
    the body, the arguments give its replacement. *)
Fixpoint fill (texts : list string) (pieces : list (nat * string)) : string :=
  match pieces with
  | [] => EmptyString
  | (i, t) :: more => nth i texts EmptyString ++ t ++ fill texts more
  end.

(** The parameters exist, the text between them holds no name, and no
    two parameters stand side by side. *)
Fixpoint pieces_ok (k : nat) (pieces : list (nat * string)) : Prop :=
  match pieces with
  | [] => True
  | (i, t) :: more =>
      (i < k)%nat /\ all_chars sep_char t = true
      /\ (more = [] \/ t <> EmptyString) /\ pieces_ok k more
  end.

Section Expands.

Variable env : ExpandEnv.

(** The scanning loop of [expand_macros_r] at depth [32 - levels];
    macro bodies are expanded by [expand_macros_r] at [levels]. *)
Definition scan (levels : nat) : nat -> string -> option string :=
  fix scan (fuel : nat) (p : string) {struct fuel} : option string :=
    match fuel with
    | O => None
    | S fuel =>
      let continue (emitted : option string) (rest : string) : option string :=
        match emitted, scan fuel rest with
        | Some e, Some t => Some (e ++ t)
        | _, _ => None
        end in
      match p with
      | EmptyString => Some EmptyString
      | String c q =>
          if Ascii.eqb c dquote || Ascii.eqb c "'" then
            let '(t, rest) := copy_quoted c q in
            continue (Some (String c t)) rest
          else if isalpha c || Ascii.eqb c "_" then
            let ident := take_ident p in
            let rest := skip_ident p in
            let name := cut_name ident in
            if String.eqb name "__LINE__" then
              continue (Some (print_int (env_line env))) rest
            else if String.eqb name "__FILE__" then
              continue (Some (quoted (env_filename env))) rest
            else if String.eqb name "__DATE__" then
              continue (Some (date_text env)) rest
            else if String.eqb name "__TIME__" then
              continue (Some (time_text env)) rest
            else
              match find_macro (macros env) name with
              | Some m =>
                  if negb (is_func m) then
                    continue (expand_macros_r env levels (macro_body m)) rest
                  else if starts_with "(" rest then
                    match collect_args 65 1 0 (drop 1 rest) with
                    | Some (args, rest') =>
                        match substitute (S (String.length (macro_body m)))
                                         m args EmptyString (macro_body m) with
                        | Some expanded =>
                            continue (expand_macros_r env levels expanded) rest'
                        | None => None
                        end
                    | None => None
                    end
                  else continue (Some name) rest
              | None => continue (Some name) rest
              end
          else continue (Some (String c EmptyString)) q
      end
    end.

(** [expands d input output]: the line [output] is [input] with the
    object-like macros replaced, their bodies expanded in turn, the
    replacements nested at most [d] deep.  Literals, other names and
    other characters stay. *)
Inductive expands : nat -> string -> string -> Prop :=
  | expands_end (d : nat) : expands d EmptyString EmptyString
  | expands_char (d : nat) (c : ascii) (q t : string) :
      plain_char c = true -> expands d q t ->
      expands d (String c q) (String c t)
  | expands_literal (d : nat) (c : ascii) (s q t : string) :
      Ascii.eqb c dquote || Ascii.eqb c "'" = true ->
      literal_body c s = true -> expands d q t ->
      expands d (String c (s ++ String c q)) (String c (s ++ String c t))
  | expands_name (d : nat) (name q t : string) :
      looked_up name q -> find_macro (macros env) name = None ->
      expands d q t ->
      expands d (name ++ q) (name ++ t)
  | expands_function_name (d : nat) (name q t : string) (m : Macro) :
      looked_up name q -> find_macro (macros env) name = Some m ->
      is_func m = true -> starts_with "(" q = false ->
      expands d q t ->
      expands d (name ++ q) (name ++ t)
  | expands_macro (d : nat) (name q b t : string) (m : Macro) :
      looked_up name q -> find_macro (macros env) name = Some m ->
      is_func m = false ->
      expands d (macro_body m) b -> expands (S d) q t ->
      expands (S d) (name ++ q) (b ++ t).

End Expands.

(** The surroundings after [#define N 42], and after [#define A (A)]. *)
Definition env_N_42 : ExpandEnv :=
  mkEnv (MacroTable.preprocess_define empty_macro_table "N" "42")
        "main.c" 1 EmptyString EmptyString.

(** The surroundings after [#define MAX(a,b) ((a)>(b)?(a):(b))]. *)
Definition env_MAX : ExpandEnv :=
  mkEnv (define_macro empty_macro_table "MAX" "((a)>(b)?(a):(b))" true
                      ["a"; "b"] false)
        "main.c" 1 EmptyString EmptyString.

Definition env_A_A : ExpandEnv :=
  mkEnv (MacroTable.preprocess_define empty_macro_table "A" "(A)")
        "main.c" 1 EmptyString EmptyString.

End MacroExpansion.

(** ** preprocess.c: the expression of [#if] *)

Module IfDirective.
Import Preprocess.
Local Open Scope string_scope.

(** [find_macro(name) != NULL] *)
Definition is_macro (tbl : MacroTable) (name : string) : bool :=
  match find_macro tbl name with
  | Some _ => true
  | None => false
  end.

(** The loop of [pp_replace_defined]: the text written to [out]. *)
Fixpoint replace_defined_loop (tbl : MacroTable) (fuel : nat) (p : string)
  : option string :=
  match fuel with
  | O => None
  | S fuel =>
      match p with
      | EmptyString => Some EmptyString
      | String c q =>
          if at_defined p then
            let '(name, rest) := defined_operand (drop 7 p) in
            match replace_defined_loop tbl fuel rest with
            | Some t => Some (String (if is_macro tbl name then "1" else "0") t)
            | None => None
            end
          else
            match replace_defined_loop tbl fuel q with
            | Some t => Some (String c t)
            | None => None
            end
      end
  end.

Definition pp_replace_defined (tbl : MacroTable) (expr : string)
  : option string :=
  replace_defined_loop tbl (S (String.length expr)) expr.

(** What [#if] and [#elif] make of the text of their line:
    [pp_replace_defined], then [expand_macros], then [pp_eval_expr]. *)
Definition if_value (env : ExpandEnv) (expr : string) : option (Outcome Z) :=
  match pp_replace_defined (macros env) expr with
  | Some dexpr =>
      match expand_macros env dexpr with
      | Some estr => Some (pp_eval_expr (is_macro (macros env)) estr)
      | None => None
      end
  | None => None
  end.

(** The surroundings after [#define X 0], and after
    [#define undefined 1]. *)
Definition env_X_0 : ExpandEnv :=
  mkEnv (MacroTable.preprocess_define empty_macro_table "X" "0")
        "main.c" 1 EmptyString EmptyString.

Definition env_undefined_1 : ExpandEnv :=
  mkEnv (MacroTable.preprocess_define empty_macro_table "undefined" "1")
        "main.c" 1 EmptyString EmptyString.

End IfDirective.

(** ** codegen.c: the parentheses of an expression *)

Module ExprText.
Import Ast CodeGen.
Local Open Scope string_scope.

(** The nesting depth after reading [s] at depth [d]; [None] when a
    closing parenthesis has no opening one. *)
Fixpoint paren_depth (s : string) (d : Z) : option Z :=
  match s with
  | EmptyString => Some d
  | String c r =>
      if Ascii.eqb c "(" then paren_depth r (d + 1)
      else if Ascii.eqb c ")" then
        if d >? 0 then paren_depth r (d - 1) else None
      else paren_depth r d
  end.

(** [t] takes the depth from [a] to [b]. *)
Definition moves (t : string) (a b : Z) : Prop :=
  forall d, 0 <= d -> paren_depth t (d + a) = Some (d + b).

(** Every parenthesis of [t] has its partner in [t]. *)
Definition balanced_text (t : string) : Prop := paren_depth t 0 = Some 0.

Definition no_paren (c : ascii) : bool :=
  negb (Ascii.eqb c "(") && negb (Ascii.eqb c ")").

(** The texts of the floating literals of an expression hold no
    parenthesis. *)
Fixpoint float_texts_plain (n : Node) : bool :=
  let sub (o : option Node) : bool :=
    match o with Some m => float_texts_plain m | None => true end in
  Preprocess.all_chars no_paren (ftext n)
  && sub (lhs n) && sub (rhs n) && sub (third n).

(** The operand forms of [gen_expr], over the generator [gen] of the
    operands: a possibly null operand, [gen_f64_val], an operand of a
    64-bit operation, and a branch of [?:]. *)
Definition sub_of (gen : Node -> option string) (o : option Node)
  : option string :=
  match o with Some m => gen m | None => Some "0" end.

Definition f64_val_of (gen : Node -> option string) (o : option Node)
  : option string :=
  if expr_is_double o then cat [Some "rt.f64("; sub_of gen o; Some ")"]
  else if expr_is_u64 o then cat [Some "Number("; sub_of gen o; Some ")"]
  else sub_of gen o.

Definition big_of (gen : Node -> option string) (o : option Node)
  : option string :=
  cat [when (negb (expr_is_u64 o)) "BigInt("; sub_of gen o;
       when (negb (expr_is_u64 o)) ")"].

Definition coerced_of (gen : Node -> option string) (res_double : bool)
    (o : option Node) : option string :=
  if res_double && expr_is_u64 o && negb (expr_is_double o)
  then cat [Some "rt.f64bits(Number("; sub_of gen o; Some "))"]
  else if res_double && negb (expr_is_double o) && negb (expr_is_u64 o)
  then cat [Some "rt.f64bits("; sub_of gen o; Some ")"]
  else sub_of gen o.

End ExprText.

(** ** codegen.c: what a statement leaves of the generator *)

Module CodeGenShapes.
Import Ast CodeGen.

(** [cg'] is [cg] with text appended to its output and nothing else
    changed. *)
Definition appended (cg cg' : CodeGen) : Prop := exists t, cg' = emit cg t.

(** A statement generated one level deeper:
    [cg->indent++; gen; cg->indent--]. *)
Definition one_level_deeper (gen : CodeGen -> option CodeGen) (cg : CodeGen)
  : option CodeGen :=
  and_then (gen (set_indent cg (wrap32 (indent cg + 1))))
           (fun cg => Some (set_indent cg (wrap32 (indent cg - 1)))).

(** [m] is one of the nodes [n] points to. *)
Definition child (m n : Node) : Prop :=
  lhs n = Some m \/ rhs n = Some m \/ third n = Some m \/ next n = Some m
  \/ body n = Some m \/ cast_expr n = Some m \/ case_expr n = Some m.

(** The output of a generator run. *)
Definition out_of (r : option CodeGen) : option string := option_map out r.

End CodeGenShapes.

(** * Properties *)

Import TypeSys.

(** ** Usual arithmetic conversions *)

Lemma TypeKind_eqb_eq (a b : TypeKind) : TypeKind_eqb a b = true <-> a = b.
Proof.
  split.
  - destruct a, b; simpl; intro H; try reflexivity; discriminate H.
  - intros ->. destruct b; reflexivity.
Qed.

Lemma Type_eqb_sound : forall a b, Type_eqb a b = true -> a = b.
Proof.
  fix IH 1.
  intros [i k s al u q il ba len] [i' k' s' al' u' q' il' ba' len'] H.
  simpl in H.
  rewrite !andb_true_iff in H.
  destruct H as [[[[[[[[Hi Hk] Hs] Hal] Hu] Hq] Hil] Hba] Hlen].
  apply N.eqb_eq in Hi. apply TypeKind_eqb_eq in Hk.
  apply Z.eqb_eq in Hs, Hal, Hq, Hlen.
  apply Bool.eqb_prop in Hu, Hil.
  assert (ba = ba') as ->.
  { destruct ba as [x|], ba' as [y|]; try discriminate; trivial.
    f_equal. now apply IH. }
  now subst.
Qed.

Lemma rank_promoted (t : CType) : 4 <= type_rank (type_int_promote t).
Proof.
  unfold type_int_promote.
  destruct (type_rank t <? type_rank ty_int) eqn:E.
  - cbn. lia.
  - apply Z.ltb_ge in E. cbn in E. exact E.
Qed.

Lemma rank_le_6 (t : CType) : type_rank t <= 6.
Proof. unfold type_rank. destruct (kind t); lia. Qed.

(** An operand that outranks a promoted operand is [long] or
    [long long], so the last resort of [type_usual_arith] is never
    taken. *)
Lemma outranked_kind (u s : CType) :
  4 <= type_rank u -> type_rank u < type_rank s ->
  kind s = TY_LONG \/ kind s = TY_LLONG.
Proof.
  generalize (type_rank u). intros ru Hu.
  unfold type_rank. destruct (kind s); intros; auto; lia.
Qed.

Lemma mixed_sign_case (u s : CType) :
  4 <= type_rank u ->
  (if type_rank u >=? type_rank s then u
   else if size s >? size u then s
   else match kind s with
        | TY_INT => ty_uint
        | TY_LONG => ty_ulong
        | TY_LLONG => ty_ullong
        | _ => ty_uint
        end) =
  (if type_rank s <=? type_rank u then u
   else if size u <? size s then s
   else unsigned_counterpart s).
Proof.
  intro Hu.
  rewrite Z.geb_leb, Z.gtb_ltb.
  destruct (type_rank s <=? type_rank u) eqn:E; trivial.
  destruct (size u <? size s); trivial.
  apply Z.leb_gt in E.
  unfold unsigned_counterpart.
  destruct (outranked_kind u s Hu E) as [-> | ->]; reflexivity.
Qed.

(** C1.  [type_usual_arith] computes the common type the specification
    describes: [long double], [double] or [float] when an operand has
    that kind (in this order); otherwise, on the integer-promoted
    operands, the higher rank for equal signedness, the unsigned operand
    when its rank is at least the signed one's, the signed operand when
    it is strictly larger, and else the unsigned counterpart of the
    signed operand.  In particular [long] with [unsigned int] gives
    [unsigned long], in either order. *)
Theorem type_usual_arith_correct :
  (forall a b : CType, type_usual_arith a b = usual_arith_spec a b)
  /\ type_usual_arith ty_long ty_uint = ty_ulong
  /\ type_usual_arith ty_uint ty_long = ty_ulong.
Proof.
  split; [| split; reflexivity].
  intros a b. unfold type_usual_arith, usual_arith_spec, has_kind.
  destruct (TypeKind_eqb (kind a) TY_LDOUBLE || TypeKind_eqb (kind b) TY_LDOUBLE);
    trivial.
  destruct (TypeKind_eqb (kind a) TY_DOUBLE || TypeKind_eqb (kind b) TY_DOUBLE);
    trivial.
  destruct (TypeKind_eqb (kind a) TY_FLOAT || TypeKind_eqb (kind b) TY_FLOAT);
    trivial.
  pose proof (rank_promoted a) as Ha. pose proof (rank_promoted b) as Hb.
  set (a' := type_int_promote a) in *. set (b' := type_int_promote b) in *.
  cbv zeta. unfold common_integer_type.
  destruct (Type_eqb a' b') eqn:E.
  - apply Type_eqb_sound in E. rewrite <- E.
    rewrite Bool.eqb_reflx, Z.leb_refl. reflexivity.
  - destruct (Bool.eqb (is_unsigned a') (is_unsigned b')) eqn:S.
    + now rewrite Z.geb_leb.
    + destruct (is_unsigned a'); now apply mixed_sign_case.
Qed.

(** ** Symbol table *)

Import Util SymTab.

Lemma sym_hash_bound (name : string) : (sym_hash name < SCOPE_HASH_SIZE)%nat.
Proof.
  unfold sym_hash, SCOPE_HASH_SIZE.
  pose proof (Z.mod_pos_bound (hash_loop 0 name) (Z.of_nat 64)) as H.
  change (Z.of_nat 64) with 64 in *. lia.
Qed.

Lemma bucket_set_bucket {A : Set} (tbl : list (list A)) h chain :
  (h < List.length tbl)%nat -> bucket (set_bucket tbl h chain) h = chain.
Proof.
  unfold bucket. revert h. induction tbl as [|b tbl IH]; intros [|h] H;
    simpl in *; try lia; trivial.
  apply IH. lia.
Qed.

Lemma length_set_bucket {A : Set} (tbl : list (list A)) h chain :
  List.length (set_bucket tbl h chain) = List.length tbl.
Proof.
  revert h. induction tbl as [|b tbl IH]; intros [|h]; simpl; auto.
Qed.

Lemma count_set_bucket (tbl : list (list Symbol)) h chain :
  (h < List.length tbl)%nat ->
  (fold_right (fun c n => List.length c + n) 0 (set_bucket tbl h chain)
   + List.length (bucket tbl h)
   = fold_right (fun c n => List.length c + n) 0 tbl + List.length chain)%nat.
Proof.
  unfold bucket. revert h. induction tbl as [|b tbl IH]; intros [|h] H;
    simpl in *; try lia.
  specialize (IH h ltac:(lia)). lia.
Qed.

Lemma chain_find_none_scan chain name k t :
  chain_find chain name = None -> define_scan chain name k t = NotFound.
Proof.
  induction chain as [|s rest IH]; simpl; trivial.
  destruct (String.eqb (sym_name s) name); [discriminate|].
  intro H. now rewrite IH.
Qed.

Lemma chain_find_refused_scan chain name k t old :
  chain_find chain name = Some old -> redeclaration_allowed old k = false ->
  define_scan chain name k t = Redefinition old.
Proof.
  unfold redeclaration_allowed.
  induction chain as [|s rest IH]; simpl; [discriminate|].
  destruct (String.eqb (sym_name s) name).
  - intros [= ->] H. apply orb_false_elim in H as [H1 H2]. rewrite H2.
    destruct (SymKind_eqb (sym_kind old) SYM_FUNC), (SymKind_eqb k SYM_FUNC),
      (is_defined old); simpl in *; trivial; discriminate.
  - intros H1 H2. now rewrite IH.
Qed.

Lemma chain_find_allowed_scan chain name k t old :
  chain_find chain name = Some old -> redeclaration_allowed old k = true ->
  exists chain',
    define_scan chain name k t = Redeclared (set_sym_type old t) chain'
    /\ chain_find chain' name = Some (set_sym_type old t)
    /\ List.length chain' = List.length chain.
Proof.
  unfold redeclaration_allowed.
  induction chain as [|s rest IH]; simpl; [discriminate|].
  destruct (String.eqb (sym_name s) name) eqn:E.
  - intros [= ->] H. exists (set_sym_type old t :: rest).
    split; [|split; trivial].
    + destruct (SymKind_eqb (sym_kind old) SYM_FUNC), (SymKind_eqb k SYM_FUNC),
        (is_defined old), (StorageClass_eqb (sc old) SC_EXTERN);
        simpl in *; trivial; discriminate.
    + simpl. now rewrite E.
  - intros H1 H2. destruct (IH H1 H2) as (chain' & -> & F & L).
    exists (s :: chain'). simpl. rewrite E, F, L. auto.
Qed.

(** C8.  [symtab_define] appends the redefinition diagnostic exactly
    when the name is bound in the current scope and neither exception
    (an undefined function redeclared as a function; an [extern] entry)
    applies, and it then returns the entry untouched.  When an exception
    applies nothing is added: the entry is returned with its type
    replaced.  A name that is not bound in the current scope, whatever
    the enclosing scopes hold, gets a fresh entry and no diagnostic. *)
Theorem symtab_define_redefinition
    (st : SymTab) (name : string) (k : SymKind) (t : option CType)
    (loc : SrcLoc) (es : ErrorSink) :
  scope_wf (current st) ->
  let '(s, st', es') := symtab_define st name k t loc es in
  (es' = error_at loc (redefinition_msg name) es
   <-> exists old, symtab_lookup_current st name = Some old
                   /\ redeclaration_allowed old k = false)
  /\ (es' = es \/ es' = error_at loc (redefinition_msg name) es)
  /\ (forall old, symtab_lookup_current st name = Some old ->
        redeclaration_allowed old k = false -> s = old /\ st' = st)
  /\ (forall old, symtab_lookup_current st name = Some old ->
        redeclaration_allowed old k = true ->
        s = set_sym_type old t
        /\ symtab_lookup_current st' name = Some s
        /\ scope_count (current st') = scope_count (current st)
        /\ parents st' = parents st)
  /\ (symtab_lookup_current st name = None ->
        s = mkSymbol name k t SC_NONE 0 0 false
                     (negb (Nat.eqb (List.length (parents st)) 0)) loc
        /\ symtab_lookup_current st' name = Some s
        /\ scope_count (current st') = S (scope_count (current st))
        /\ parents st' = parents st).
Proof.
  intro WF. unfold scope_wf in WF.
  pose proof (sym_hash_bound name) as HB. rewrite <- WF in HB.
  assert (NE : forall m, error_at loc m es <> es).
  { intros m H. apply (f_equal (@List.length _)) in H.
    unfold error_at in H. rewrite length_app in H. simpl in H. lia. }
  unfold symtab_define, symtab_lookup_current, scope_find.
  destruct (chain_find (bucket (syms (current st)) (sym_hash name)) name)
    as [old|] eqn:F.
  - destruct (redeclaration_allowed old k) eqn:A.
    + destruct (chain_find_allowed_scan _ _ k t _ F A) as (chain' & -> & F' & L).
      split; [|split; [|split; [|split]]].
      * split.
        -- intro H. symmetry in H. now apply NE in H.
        -- intros (o & [= <-] & H). congruence.
      * now left.
      * intros o [= <-] H. congruence.
      * intros o [= <-] _. simpl.
        rewrite bucket_set_bucket by assumption.
        repeat split; trivial.
        unfold scope_count. simpl.
        pose proof (count_set_bucket (syms (current st)) _ chain' HB). lia.
      * discriminate.
    + rewrite (chain_find_refused_scan _ _ k t _ F A).
      split; [|split; [|split; [|split]]].
      * split; [intros _; now exists old | trivial].
      * now right.
      * intros o [= <-] _. now split.
      * intros o [= <-]. congruence.
      * discriminate.
  - rewrite (chain_find_none_scan _ _ k t F).
    split; [|split; [|split; [|split]]].
    + split.
      * intro H. symmetry in H. now apply NE in H.
      * intros (o & [=] & _).
    + now left.
    + discriminate.
    + discriminate.
    + intros _. simpl. rewrite bucket_set_bucket by assumption.
      simpl. rewrite String.eqb_refl.
      repeat split; trivial.
      unfold scope_count. simpl.
      pose proof (count_set_bucket (syms (current st)) _
                    (mkSymbol name k t SC_NONE 0 0 false
                       (negb (Nat.eqb (List.length (parents st)) 0)) loc
                     :: bucket (syms (current st)) (sym_hash name)) HB) as C.
      simpl in C. lia.
Qed.

(** Redeclaring the undefined function [f] of the file scope as a
    function is accepted: no diagnostic, the entry's type replaced. *)
Lemma symtab_define_redefinition_witness :
  scope_wf (current Samples.declared_f)
  /\ (let '(s, st', es') :=
        symtab_define Samples.declared_f "f" SYM_FUNC (Some ty_long) no_loc [] in
      sym_type s = Some ty_long /\ es' = []
      /\ scope_count (current st') = scope_count (current Samples.declared_f)).
Proof.
  split; [reflexivity|].
  pose proof (symtab_define_redefinition Samples.declared_f "f" SYM_FUNC
                (Some ty_long) no_loc [] eq_refl) as H.
  destruct (symtab_define Samples.declared_f "f" SYM_FUNC (Some ty_long) no_loc [])
    as [[s st'] es'].
  destruct H as (H1 & H2 & _ & H4 & _).
  destruct (H4 (mkSymbol "f" SYM_FUNC (Some ty_int) SC_NONE 0 0 false false no_loc)
               eq_refl eq_refl) as (Hs & _ & Hc & _).
  split; [now rewrite Hs|]. split; [|exact Hc].
  destruct H2 as [E|E]; [exact E|].
  exfalso. apply H1 in E. destruct E as (old & [= <-] & E). discriminate E.
Defined.

(** ** Struct and union layout *)

Import Parser.

Lemma wrap32_id (x : Z) : in_int x -> wrap32 x = x.
Proof.
  unfold in_int, INT_MIN, INT_MAX, wrap32, wrap. intro H.
  change (2 ^ (32 - 1)) with 2147483648. change (2 ^ 32) with 4294967296.
  change (2 ^ 31) with 2147483648 in H.
  rewrite Z.mod_small; lia.
Qed.

Lemma pow2_pos (a : Z) : is_pow2 a -> 0 < a.
Proof. intros (k & Hk & ->). now apply Z.pow_pos_nonneg. Qed.

Lemma round_up_bounds (x a : Z) : 0 < a -> x <= round_up x a <= x + a - 1.
Proof.
  intro Ha. unfold round_up.
  pose proof (Z.mul_div_le (x + a - 1) a Ha).
  pose proof (Z.mul_succ_div_gt (x + a - 1) a Ha).
  lia.
Qed.

Lemma round_up_least (x a : Z) : 0 < a -> least_multiple_geq a x (round_up x a).
Proof.
  intro Ha. pose proof (round_up_bounds x a Ha) as B.
  split; [|split; [lia|]].
  - exists ((x + a - 1) / a). unfold round_up. apply Z.mul_comm.
  - intros m [j ->] Hm. unfold round_up in *.
    set (q := (x + a - 1) / a) in *.
    destruct (Z_lt_le_dec j q) as [L|L]; [|nia].
    assert (j * a <= a * q - a) by nia. lia.
Qed.

Lemma least_multiple_unique a x r r' :
  least_multiple_geq a x r -> least_multiple_geq a x r' -> r = r'.
Proof.
  intros (D & L & M) (D' & L' & M').
  specialize (M r' D' L'). specialize (M' r D L). lia.
Qed.

(** The bit trick of the member loop computes the rounding. *)
Lemma align_up_round_up (x a : Z) :
  is_pow2 a -> in_int x -> in_int a -> in_int (x + a) ->
  align_up x a = round_up x a.
Proof.
  intros P Hx Ha Hxa. pose proof (pow2_pos a P) as Pa.
  destruct P as (k & Hk & ->).
  unfold align_up. unfold in_int in *.
  rewrite (wrap32_id (x + 2 ^ k)) by assumption.
  rewrite (wrap32_id (x + 2 ^ k - 1)) by (unfold in_int; lia).
  rewrite (wrap32_id (2 ^ k - 1)) by (unfold in_int, INT_MIN in *; lia).
  replace (2 ^ k - 1) with (Z.ones k) by (rewrite Z.ones_equiv; lia).
  rewrite <- Z.ldiff_land, Z.ldiff_ones_r by assumption.
  rewrite Z.shiftl_mul_pow2, Z.shiftr_div_pow2 by assumption.
  unfold round_up. lia.
Qed.

Lemma pow2_max (a b : Z) : is_pow2 a -> is_pow2 b -> is_pow2 (Z.max a b).
Proof. intros. destruct (Z.max_spec a b) as [[_ ->]|[_ ->]]; assumption. Qed.

Lemma max_member_align_ge1 ds : 1 <= max_member_align ds.
Proof. induction ds; simpl; unfold max_member_align in *; simpl; lia. Qed.

Lemma max_member_align_pow2 ds :
  Forall (fun d => is_pow2 (align (d_type d))) ds -> is_pow2 (max_member_align ds).
Proof.
  induction 1; unfold max_member_align in *; simpl.
  - exists 0. split; [lia|reflexivity].
  - now apply pow2_max.
Qed.

Lemma spec_offsets_laid_out ds : forall mark,
  Forall (fun d => is_pow2 (align (d_type d))) ds ->
  laid_out mark ds (spec_offsets mark ds) (spec_mark mark ds).
Proof.
  induction ds as [|d ds IH]; intros mark H; simpl; trivial.
  inversion H; subst. split; [|now apply IH].
  apply round_up_least. now apply pow2_pos.
Qed.

(** The member loop on a struct body. *)
Lemma layout_members_struct ds : forall st,
  plain_members ds -> in_int (cur_offset st) -> 1 <= max_align st ->
  layout_fits (cur_offset st) ds ->
  map offset (fst (layout_members true st ds)) = spec_offsets (cur_offset st) ds
  /\ cur_offset (snd (layout_members true st ds)) = spec_mark (cur_offset st) ds
  /\ max_align (snd (layout_members true st ds))
     = Z.max (max_align st) (max_member_align ds)
  /\ in_int (spec_mark (cur_offset st) ds).
Proof.
  induction ds as [|d ds IH]; intros st PM Hoff Hma Fit.
  - simpl. split; [|split; [|split]]; trivial. unfold max_member_align. simpl. lia.
  - inversion PM as [|? ? [Hbw Hp] PM']; subst.
    destruct Fit as (Fa & Fma & Fend & Fit).
    cbn [layout_members]. unfold layout_member.
    unfold type_alignof, type_sizeof.
    rewrite (align_up_round_up _ _ Hp Hoff Fa Fma).
    apply Z.ltb_lt in Hbw. rewrite Hbw.
    rewrite (wrap32_id _ Fend).
    set (al := align (d_type d)) in *.
    set (off := round_up (cur_offset st) al) in *.
    set (st' := mkLayout (off + size (d_type d))
                  (if al >? max_align st then al else max_align st)
                  (wrap32 (next_idx st + 1))).
    assert (Hma' : 1 <= max_align st').
    { simpl. destruct (al >? max_align st) eqn:E; [|assumption].
      apply Z.gtb_lt in E. lia. }
    specialize (IH st' PM' Fend Hma' Fit).
    destruct (layout_members true st' ds) as [ms st''] eqn:E. simpl in *.
    destruct IH as (I1 & I2 & I3 & I4).
    split; [|split; [|split]]; trivial.
    + now rewrite I1.
    + rewrite I3. unfold max_member_align. simpl.
      fold (max_member_align ds). fold al.
      destruct (al >? max_align st) eqn:G.
      * apply Z.gtb_lt in G. lia.
      * rewrite Z.gtb_ltb in G. apply Z.ltb_ge in G. lia.
Qed.

Lemma fold_max_base (f : MemberDecl -> Z) ds : forall s c,
  fold_right (fun d a => Z.max (f d) a) (Z.max s c) ds
  = Z.max s (fold_right (fun d a => Z.max (f d) a) c ds).
Proof. induction ds as [|d ds IH]; intros; simpl; [|rewrite IH]; lia. Qed.

(** The member loop on a union body. *)
Lemma layout_members_union ds : forall st,
  Forall (fun m => offset m = 0) (fst (layout_members false st ds))
  /\ cur_offset (snd (layout_members false st ds))
     = fold_right (fun d a => Z.max (size (d_type d)) a) (cur_offset st) ds
  /\ max_align (snd (layout_members false st ds))
     = fold_right (fun d a => Z.max (align (d_type d)) a) (max_align st) ds.
Proof.
  induction ds as [|d ds IH]; intros st.
  - simpl. repeat split; trivial.
  - cbn [layout_members]. unfold layout_member.
    unfold type_alignof, type_sizeof.
    set (st' := mkLayout _ _ _).
    specialize (IH st').
    destruct (layout_members false st' ds) as [ms st''] eqn:E.
    destruct IH as (I1 & I2 & I3). cbn [fst snd] in *.
    split; [|split].
    + constructor; trivial.
    + rewrite I2. subst st'. cbn [cur_offset fold_right].
      rewrite <- fold_max_base. f_equal.
      destruct (size (d_type d) >? cur_offset st) eqn:G.
      * apply Z.gtb_lt in G. lia.
      * rewrite Z.gtb_ltb in G. apply Z.ltb_ge in G. lia.
    + rewrite I3. subst st'. cbn [max_align fold_right].
      rewrite <- fold_max_base. f_equal.
      destruct (align (d_type d) >? max_align st) eqn:G.
      * apply Z.gtb_lt in G. lia.
      * rewrite Z.gtb_ltb in G. apply Z.ltb_ge in G. lia.
Qed.

Lemma shift_member_anonymous by_ m :
  is_anonymous_aggregate (shift_member by_ m) = is_anonymous_aggregate m.
Proof. reflexivity. Qed.

Section FlattenFacts.

Variable members_of : CType -> list Member.

(** Members of completed aggregates are flat already. *)
Hypothesis members_flat :
  forall t, Forall (fun m => is_anonymous_aggregate m = false) (members_of t).

Lemma flatten_pass_flat ms :
  Forall (fun m => is_anonymous_aggregate m = false)
         (fst (flatten_pass members_of ms)).
Proof.
  induction ms as [|m ms IH]; simpl; [constructor|].
  destruct (flatten_pass members_of ms) as [out ch]. simpl in IH.
  destruct (is_anonymous_aggregate m) eqn:E; simpl.
  - apply Forall_app. split; trivial.
    apply Forall_map. eapply Forall_impl; [|apply members_flat].
    intros a Ha. now rewrite shift_member_anonymous.
  - now constructor.
Qed.

Lemma flatten_pass_id ms :
  Forall (fun m => is_anonymous_aggregate m = false) ms ->
  flatten_pass members_of ms = (ms, false).
Proof.
  induction 1 as [|m ms Hm _ IH]; simpl; trivial.
  now rewrite IH, Hm.
Qed.

Lemma flatten_two_passes fuel ms :
  (2 <= fuel)%nat ->
  flatten members_of fuel ms = Some (fst (flatten_pass members_of ms)).
Proof.
  destruct fuel as [|[|fuel]]; try lia. intros _.
  cbn [flatten].
  pose proof (flatten_pass_flat ms) as F.
  destruct (flatten_pass members_of ms) as [out ch]. simpl in *.
  rewrite (flatten_pass_id out F).
  now destruct ch.
Qed.

End FlattenFacts.

Lemma named_members_flat is_struct ds : forall st,
  Forall (fun d => d_name d <> None) ds ->
  Forall (fun m => is_anonymous_aggregate m = false)
         (fst (layout_members is_struct st ds)).
Proof.
  induction ds as [|d ds IH]; intros st H; simpl; [constructor|].
  inversion H; subst.
  specialize (IH (snd (layout_member is_struct st d)) H3).
  destruct (layout_member is_struct st d) as [m st'] eqn:E.
  destruct (layout_members is_struct st' ds) as [ms st''] eqn:E'.
  simpl in IH. rewrite E' in IH. simpl in *. constructor; trivial.
  unfold layout_member in E.
  destruct is_struct; injection E as <- _; unfold is_anonymous_aggregate; simpl;
    destruct (d_name d); congruence.
Qed.

Lemma fits_max_align ds : forall mark,
  layout_fits mark ds -> in_int (max_member_align ds).
Proof.
  induction ds as [|d ds IH]; intros mark H.
  - unfold max_member_align, in_int, INT_MIN, INT_MAX. simpl. lia.
  - destruct H as (Ha & _ & _ & H). specialize (IH _ H).
    unfold max_member_align in *. simpl. unfold in_int in *. lia.
Qed.

Lemma plain_members_pow2 ds :
  plain_members ds -> Forall (fun d => is_pow2 (align (d_type d))) ds.
Proof. apply Forall_impl. now intros d [_ H]. Qed.


Lemma pow2_1 : is_pow2 1.
Proof. exists 0. split; [lia|reflexivity]. Qed.
Lemma pow2_2 : is_pow2 2.
Proof. exists 1. split; [lia|reflexivity]. Qed.
Lemma pow2_4 : is_pow2 4.
Proof. exists 2. split; [lia|reflexivity]. Qed.
Lemma pow2_8 : is_pow2 8.
Proof. exists 3. split; [lia|reflexivity]. Qed.


(** With member sizes that are not negative the mark is a high-water
    mark: no member ends above the final mark. *)
Lemma laid_out_high_water : forall ds mark offs final,
  Forall (fun d => 0 <= size (d_type d)) ds ->
  laid_out mark ds offs final ->
  mark <= final
  /\ Forall2 (fun d o => o + size (d_type d) <= final) ds offs.
Proof.
  induction ds as [|d ds IH]; intros mark [|o offs] final Hs H; simpl in H;
    try contradiction.
  - subst. split; [lia|constructor].
  - inversion Hs as [|? ? Hd Hrest]; subst.
    destruct H as [(_ & Hge & _) Hl].
    destruct (IH _ _ _ Hrest Hl) as [Hm Hf].
    split; [lia|]. constructor; [lia|exact Hf].
Qed.

(** A flexible array member ([int d[];], an array of length -1) has a
    negative size, and the mark goes down with it:
    [struct { int n; int d[]; }] is completed with size 0. *)
Example flexible_array_member :
  let d := fst (type_array arena_after_init ty_int (-1)) in
  size d = -4
  /\ option_map (fun r => size (snd r))
       (complete_aggregate Samples.no_members 2 true Samples.fresh_struct
          [ mkDecl (Some "n"%string) ty_int (-1);
            mkDecl (Some "d"%string) d (-1) ]) = Some 0.
Proof. split; vm_compute; reflexivity. Qed.

(** ** Constant expressions in declarations *)

Import Ast Lexer.

Section FoldingContexts.

Let start (toks : Lexer) : PState :=
  parser_init toks arena_after_init symtab_init [].

Let one_plus_two : list Token := [int_tok 1 0; punct TK_PLUS; int_tok 2 0].

(** C5, evaluated on the code.  Of the four contexts only the array
    dimension goes through [try_eval_const]: [[1 + 2]] gives an array of
    3 elements.  The enumerator list, the [case] label and the bit-field
    width look at the parsed node alone and take a value from it only
    when it is an integer literal: [enum { A = 1 + 2 }] leaves [A] at
    the running value 0 (a literal initializer, [A = 3], is taken),
    [case 1 + 2:] leaves [case_val] at 0 and [int x : 2 + 1] records
    the width 1, although the folder evaluates all three expressions
    to 3. *)
Theorem folding_contexts_evaluated :
  (* the folder on [1 + 2] *)
  option_map (fun r => try_eval_const (fst r))
             (parse_cond_expr 16 (start one_plus_two)) = Some (Folded 3)
  (* array dimension *)
  /\ option_map (fun r => (array_len (fst r), size (fst r)))
       (parse_array_suffix 16 ty_int
          (start (punct TK_LBRACKET :: one_plus_two ++ [punct TK_RBRACKET])))
     = Some (3, 12)
  (* enumerator with a folded initializer, and with a literal one *)
  /\ option_map (fun r => option_map enum_val (symtab_lookup (symtab (snd r)) "A"))
       (parse_enumerators 16 0
          (start (ident_tok "A" :: punct TK_ASSIGN :: one_plus_two
                  ++ [punct TK_RBRACE])))
     = Some (Some 0)
  /\ option_map (fun r => option_map enum_val (symtab_lookup (symtab (snd r)) "A"))
       (parse_enumerators 16 0
          (start [ident_tok "A"; punct TK_ASSIGN; int_tok 3 0; punct TK_RBRACE]))
     = Some (Some 3)
  (* case label *)
  /\ option_map (fun r => (case_val (fst r),
                           try_eval_const_opt (case_expr (fst r))))
       (parse_case_label 16
          (start (punct TK_CASE :: one_plus_two ++ [punct TK_COLON])))
     = Some (0, Folded 3)
  (* bit-field width *)
  /\ option_map fst
       (parse_bitfield_width 16
          (start [punct TK_COLON; int_tok 2 0; punct TK_PLUS; int_tok 1 0;
                  punct TK_SEMICOLON]))
     = Some 1.
Proof. repeat split; vm_compute; reflexivity. Qed.

End FoldingContexts.

(** ** Unary operators in the semantic analyzer *)

Import Sema.

Lemma promote_below_int (t : CType) :
  type_rank t < type_rank ty_int -> type_int_promote t = ty_int.
Proof.
  intro H. unfold type_int_promote. apply Z.ltb_lt in H. now rewrite H.
Qed.

(** [type_rank] has no case for the floating kinds, so they rank below
    [int] and are promoted to it. *)
Lemma promote_floating (t : CType) :
  type_is_float t = true -> type_int_promote t = ty_int.
Proof.
  intro H. apply promote_below_int. unfold type_is_float in H.
  unfold type_rank. destruct (kind t); try discriminate; cbn; lia.
Qed.

(** C6, evaluated on the code.  [!e] gets [int] and [-e], [+e], [~e]
    get [type_int_promote] of the operand type, which is [int] below
    the rank of [int] -- but also for [float], [double] and
    [long double]: after analysis [-1.5] has type [int], not
    [double]. *)
Theorem unary_minus_of_double_is_int :
  (forall t, type_is_float t = true -> type_int_promote t = ty_int)
  /\ (forall s : Sema,
        option_map (fun r => n_type (fst r))
          (check_expr (node_unary ND_NEG (node_float_lit "1.5" ty_double no_loc)
                                  no_loc) s)
        = Some (Some ty_int))
  /\ (forall s : Sema,
        option_map (fun r => n_type (fst r))
          (check_expr (node_unary ND_POS (node_float_lit "1.5" ty_double no_loc)
                                  no_loc) s)
        = Some (Some ty_int))
  /\ ty_int <> ty_double.
Proof.
  split; [exact promote_floating|].
  split; [reflexivity|]. split; [reflexivity|]. discriminate.
Qed.

(** ** Comparisons in the code generator *)

Import CodeGen.

Section Comparisons.

Let less (suffix : Z) : Lexer := [int_tok 1 suffix; punct TK_LT; int_tok 2 suffix].

(** Parse, analyze, and lower an expression given by its tokens. *)
Let lower (toks : Lexer) : option (option CType * string) :=
  match parse_expr 16 (parser_init toks arena_after_init symtab_init []) with
  | Some (n, p) =>
      match check_expr n (sema_init (arena p) (symtab p) (errs p)) with
      | Some (n', _) =>
          match gen_expr n' with
          | Some text => Some (n_type n', text)
          | None => None
          end
      | None => None
      end
  | None => None
  end.

(** C7, evaluated on the code.  A comparison has static type [int] in
    every mode.  With [int] operands and with [double] operands its
    lowering ends in [? 1 : 0]; with [long long] operands the lowering
    is the bare JavaScript comparison, whose value is a boolean:
    [1LL < 2LL] becomes [(1 < 2)]. *)
Theorem comparison_lowering_evaluated :
  lower (less 0) = Some (Some ty_int, "((1 < 2) ? 1 : 0)"%string)
  /\ lower [float_tok "1.5" 0; punct TK_LT; float_tok "2.5" 0]
     = Some (Some ty_int,
             "((rt.f64(rt.f64bits(1.5)) < rt.f64(rt.f64bits(2.5))) ? 1 : 0)"%string)
  /\ lower (less LIT_LONGLONG) = Some (Some ty_int, "(1 < 2)"%string)
  /\ lower [int_tok 1 LIT_LONGLONG; punct TK_EQ; int_tok 2 0]
     = Some (Some ty_int, "(1 === BigInt(2))"%string).
Proof. repeat split; vm_compute; reflexivity. Qed.

End Comparisons.

(** ** The return statement *)

Lemma append_assoc (a b c : string) :
  ((a ++ b) ++ c = a ++ (b ++ c))%string.
Proof. induction a as [|x a IH]; simpl; [reflexivity|now rewrite IH]. Qed.

Lemma append_nil_r (a : string) : (a ++ EmptyString = a)%string.
Proof. induction a as [|x a IH]; simpl; [reflexivity|now rewrite IH]. Qed.

Lemma no_restore_before_value (k : nat) :
  occurs "rt.mem.sp" (indent_text k ++ "var __ret = ") = false.
Proof.
  induction k as [|k IH]; [reflexivity|].
  change (indent_text (S k) ++ "var __ret = ")%string
    with (String " " (String " " (indent_text k ++ "var __ret = "))).
  cbn [occurs]. rewrite IH. reflexivity.
Qed.



(** ** The constant-expression evaluator of the preprocessor *)

Import Preprocess.

(** *** Characters *)

Lemma suffix_char_cases (c : ascii) :
  is_suffix_char c = true ->
  c = "u"%char \/ c = "U"%char \/ c = "l"%char \/ c = "L"%char.
Proof.
  unfold is_suffix_char. rewrite !orb_true_iff, !Ascii.eqb_eq. tauto.
Qed.

Lemma suffix_is_alnum (c : ascii) : is_suffix_char c = true -> isalnum c = true.
Proof.
  intro H. destruct (suffix_char_cases c H) as [->|[->|[->| ->]]]; reflexivity.
Qed.

Lemma suffix_not_digit (base : Z) (c : ascii) :
  base <= 16 -> is_suffix_char c = true -> is_digit_of base c = false.
Proof.
  intros Hb H. unfold is_digit_of, digit_val.
  destruct (suffix_char_cases c H) as [->|[->|[->| ->]]]; cbn;
    match goal with |- context [?v <? base] =>
      destruct (Z.ltb_spec v base); [lia|reflexivity] end.
Qed.

Lemma not_alnum_not_digit (base : Z) (c : ascii) :
  isalnum c = false -> is_digit_of base c = false.
Proof.
  unfold isalnum, isalpha, is_digit_of, digit_val. intro H.
  apply orb_false_elim in H as [H1 H2]. apply orb_false_elim in H1 as [H0 H1].
  now rewrite H0, H1, H2.
Qed.

Lemma not_alnum_not_suffix (c : ascii) :
  isalnum c = false -> is_suffix_char c = false.
Proof.
  intro H. destruct (is_suffix_char c) eqn:E; trivial.
  apply suffix_is_alnum in E. congruence.
Qed.

Lemma isdigit_digit_of_10 (c : ascii) :
  isdigit c = true -> digit_val 10 c = Some (code c - 48).
Proof.
  unfold digit_val, isdigit. intro H. rewrite H.
  apply andb_prop in H as [H1 H2]. apply Z.leb_le in H1, H2.
  destruct (Z.ltb_spec (code c - 48) 10); [reflexivity|lia].
Qed.

Lemma all_digits_10 (ds : string) :
  all_chars isdigit ds = true -> all_chars (is_digit_of 10) ds = true.
Proof.
  induction ds as [|c ds IH]; simpl; trivial.
  intro H. apply andb_prop in H as [H1 H2].
  unfold is_digit_of at 1. rewrite (isdigit_digit_of_10 c H1). now apply IH.
Qed.

(** *** Numbers *)

Lemma scan_digits_app (base : Z) (ds rest : string) : forall acc,
  all_chars (is_digit_of base) ds = true -> stops base rest ->
  scan_digits base acc (ds ++ rest) = (horner base acc ds, rest).
Proof.
  induction ds as [|c ds IH]; intros acc Hd Hr; simpl in *.
  - destruct rest as [|c rest]; trivial. simpl in Hr.
    unfold is_digit_of in Hr. simpl. now destruct (digit_val base c).
  - apply andb_prop in Hd as [H1 H2]. unfold is_digit_of in H1.
    destruct (digit_val base c); [|discriminate]. now apply IH.
Qed.

Lemma skip_suffix_app (sfx r : string) :
  all_chars is_suffix_char sfx = true -> ends_token r = true ->
  skip_suffix (sfx ++ r) = r.
Proof.
  induction sfx as [|c sfx IH]; simpl; intros Hs Hr.
  - destruct r as [|c r]; trivial. simpl in *.
    apply negb_true_iff in Hr. now rewrite (not_alnum_not_suffix c Hr).
  - apply andb_prop in Hs as [H1 H2]. rewrite H1. now apply IH.
Qed.

Lemma stops_after_suffix (base : Z) (sfx r : string) :
  base <= 16 -> all_chars is_suffix_char sfx = true -> ends_token r = true ->
  stops base (sfx ++ r).
Proof.
  intros Hb Hs Hr. destruct sfx as [|c sfx]; simpl in *.
  - destruct r as [|c r]; simpl in *; trivial.
    apply negb_true_iff in Hr. now apply not_alnum_not_digit.
  - apply andb_prop in Hs as [H1 _]. now apply suffix_not_digit.
Qed.

(** The number branch reads a literal in full and returns its value. *)
Lemma pp_number_literal (a : string) (v : Z) (r : string) :
  int_literal a v -> ends_token r = true -> pp_number (a ++ r) = (v, r).
Proof.
  intros L Hr. unfold pp_number, strtoll.
  destruct L as [d ds sfx Hd Hnz Hds Hs | ds sfx Hds Hs | x h ds sfx Hx Hds Hs].
  - (* decimal *)
    assert (E1 : is_hex_prefix (String d (ds ++ sfx) ++ r) = false).
    { simpl. destruct (ds ++ sfx ++ r)%string as [|? [|? ?]]; rewrite ?Hnz; trivial;
        simpl; destruct ((ds ++ sfx) ++ r)%string as [|? [|? ?]];
        rewrite ?Hnz; reflexivity. }
    rewrite E1. cbn [append starts_with]. rewrite Hnz.
    rewrite append_assoc.
    change (String d (ds ++ sfx ++ r))%string
      with (String d ds ++ (sfx ++ r))%string.
    rewrite scan_digits_app.
    + now rewrite skip_suffix_app.
    + cbn [all_chars]. unfold is_digit_of at 1.
      rewrite (isdigit_digit_of_10 d Hd). now apply all_digits_10.
    + apply stops_after_suffix; trivial. lia.
  - (* octal *)
    assert (E1 : is_hex_prefix (String "0" (ds ++ sfx) ++ r) = false).
    { cbn [append]. rewrite append_assoc.
      destruct ds as [|c ds].
      - cbn [append]. destruct sfx as [|c sfx].
        + cbn [append]. destruct r as [|c [|h r]]; trivial. simpl in Hr.
          apply negb_true_iff in Hr. simpl.
          destruct (Ascii.eqb c "x") eqn:E; [apply Ascii.eqb_eq in E; subst; discriminate|].
          destruct (Ascii.eqb c "X") eqn:E'; [apply Ascii.eqb_eq in E'; subst; discriminate|].
          reflexivity.
        + simpl in Hs. apply andb_prop in Hs as [H1 _].
          destruct (suffix_char_cases c H1) as [->|[->|[->| ->]]]; cbn [append];
            destruct (sfx ++ r)%string; reflexivity.
      - simpl in Hds. apply andb_prop in Hds as [H1 _]. cbn [append].
        destruct (Ascii.eqb c "x") eqn:E; [apply Ascii.eqb_eq in E; subst; discriminate|].
        destruct (Ascii.eqb c "X") eqn:E'; [apply Ascii.eqb_eq in E'; subst; discriminate|].
        simpl. rewrite E, E'. now destruct (ds ++ sfx ++ r)%string. }
    rewrite E1. cbn [append starts_with]. rewrite Ascii.eqb_refl.
    rewrite append_assoc.
    change (String "0" (ds ++ sfx ++ r))%string
      with (String "0" ds ++ (sfx ++ r))%string.
    rewrite scan_digits_app.
    + rewrite skip_suffix_app by assumption. reflexivity.
    + cbn [all_chars]. now rewrite Hds.
    + apply stops_after_suffix; trivial. lia.
  - (* hexadecimal *)
    assert (E1 : is_hex_prefix (String "0" (String x (String h ds ++ sfx)) ++ r) = true).
    { cbn [append is_hex_prefix]. rewrite Hx. simpl in Hds.
      apply andb_prop in Hds as [H1 _]. now rewrite H1. }
    rewrite E1. cbn [append]. rewrite append_assoc.
    change (String h (ds ++ sfx ++ r))%string
      with (String h ds ++ (sfx ++ r))%string.
    rewrite scan_digits_app; trivial.
    + now rewrite skip_suffix_app.
    + apply stops_after_suffix; trivial. lia.
Qed.

(** *** Primaries *)

Section EvaluatorFacts.

Variable macro_defined : string -> bool.

Lemma literal_head (a : string) (v : Z) :
  int_literal a v -> exists d q, a = String d q /\ isdigit d = true.
Proof.
  intros [d ds sfx Hd _ _ _ | ds sfx _ _ | x h ds sfx _ _ _]; eauto.
Qed.

(** At a digit [pp_eval_primary] takes the number branch. *)
Lemma primary_digit (fuel : nat) (c : ascii) (q : string) :
  isdigit c = true ->
  pp_eval_primary macro_defined (S fuel) (String c q)
  = Val (pp_number (String c q)).
Proof.
  intro H.
  destruct c as [[] [] [] [] [] [] [] []];
    try (vm_compute in H; discriminate H); reflexivity.
Qed.

Lemma primary_literal (fuel : nat) (a : string) (v : Z) (r : string) :
  int_literal a v -> ends_token r = true ->
  pp_eval_primary macro_defined (S fuel) (a ++ r) = Val (v, r).
Proof.
  intros L Hr. destruct (literal_head a v L) as (d & q & -> & Hd).
  cbn [append]. rewrite (primary_digit fuel d (q ++ r) Hd).
  change (String d (q ++ r)) with (String d q ++ r)%string.
  now rewrite (pp_number_literal _ _ _ L Hr).
Qed.

Lemma primary_blank (fuel : nat) (p : string) :
  pp_eval_primary macro_defined fuel (String " " p)
  = pp_eval_primary macro_defined fuel p.
Proof. destruct fuel; reflexivity. Qed.

Lemma loop_blank (fuel : nat) (lhs : Z) (p : string) :
  pp_eval_loop macro_defined fuel lhs (String " " p)
  = pp_eval_loop macro_defined fuel lhs p.
Proof. destruct fuel; reflexivity. Qed.

Lemma loop_end (fuel : nat) (lhs : Z) :
  pp_eval_loop macro_defined (S fuel) lhs EmptyString = Val lhs.
Proof. reflexivity. Qed.

(** One turn of the operator loop. *)
Lemma loop_plus (fuel : nat) (lhs : Z) (q : string) :
  pp_eval_loop macro_defined (S fuel) lhs (String "+" (String " " q))
  = obind (pp_eval_primary macro_defined fuel (String " " q)) (fun '(r, q') =>
      pp_eval_loop macro_defined fuel (Int64.add lhs r) q').
Proof.
  cbn [pp_eval_loop skip_blanks is_blank Ascii.eqb Bool.eqb orb starts_with negb].
  unfold loop_apply, pure.
  destruct (pp_eval_primary macro_defined fuel (String " " q)) as [[r q']| | |];
    reflexivity.
Qed.

Lemma loop_star (fuel : nat) (lhs : Z) (q : string) :
  pp_eval_loop macro_defined (S fuel) lhs (String "*" q)
  = obind (pp_eval_primary macro_defined fuel q) (fun '(r, q') =>
      pp_eval_loop macro_defined fuel (Int64.mul lhs r) q').
Proof.
  cbn [pp_eval_loop skip_blanks is_blank Ascii.eqb Bool.eqb orb].
  unfold loop_apply, pure.
  destruct (pp_eval_primary macro_defined fuel q) as [[r q']| | |]; reflexivity.
Qed.

Lemma loop_and (fuel : nat) (lhs : Z) (q : string) :
  pp_eval_loop macro_defined (S fuel) lhs (String "&" (String "&" q))
  = if z2b lhs
    then obind (pp_eval_primary macro_defined fuel q) (fun '(r, q') =>
           pp_eval_loop macro_defined fuel (b2z (z2b r)) q')
    else pp_eval_loop macro_defined fuel 0 q.
Proof.
  cbn [pp_eval_loop skip_blanks is_blank Ascii.eqb Bool.eqb orb starts_with drop].
  unfold loop_apply, rel.
  destruct (z2b lhs); [|reflexivity].
  destruct (pp_eval_primary macro_defined fuel q) as [[r q']| | |]; reflexivity.
Qed.

Lemma loop_or (fuel : nat) (lhs : Z) (q : string) :
  pp_eval_loop macro_defined (S fuel) lhs (String "|" (String "|" q))
  = if z2b lhs
    then pp_eval_loop macro_defined fuel 1 q
    else obind (pp_eval_primary macro_defined fuel q) (fun '(r, q') =>
           pp_eval_loop macro_defined fuel (b2z (z2b r)) q').
Proof.
  cbn [pp_eval_loop skip_blanks is_blank Ascii.eqb Bool.eqb orb starts_with drop].
  unfold loop_apply, rel.
  destruct (z2b lhs); [reflexivity|].
  destruct (pp_eval_primary macro_defined fuel q) as [[r q']| | |]; reflexivity.
Qed.

(** The loop ends at a digit: no operator starts with one. *)
Lemma loop_at_digit (fuel : nat) (lhs : Z) (d : ascii) (q : string) :
  isdigit d = true ->
  pp_eval_loop macro_defined (S fuel) lhs (String d q) = Val lhs.
Proof.
  intro H.
  destruct d as [[] [] [] [] [] [] [] []];
    try (vm_compute in H; discriminate H); reflexivity.
Qed.

Lemma loop_at_literal (fuel : nat) (lhs : Z) (a : string) (v : Z) (r : string) :
  int_literal a v ->
  pp_eval_loop macro_defined (S fuel) lhs (String " " (a ++ r)) = Val lhs.
Proof.
  intro L. destruct (literal_head a v L) as (d & q & -> & Hd).
  rewrite loop_blank. cbn [append]. now apply loop_at_digit.
Qed.

(** A literal operand after an operator, separated by one blank. *)
Lemma operand_literal (fuel : nat) (a : string) (v : Z) (r : string) :
  int_literal a v -> ends_token r = true ->
  pp_eval_primary macro_defined (S fuel) (String " " (a ++ r)) = Val (v, r).
Proof. intros. rewrite primary_blank. now apply primary_literal. Qed.

End EvaluatorFacts.

Lemma length_append (a b : string) :
  String.length (a ++ b) = (String.length a + String.length b)%nat.
Proof. induction a as [|c a IH]; simpl; [reflexivity|now rewrite IH]. Qed.

(** *** Expressions of three literals *)

Section ThreeLiterals.

Variable macro_defined : string -> bool.
Variables (a b c : string) (va vb vc : Z).
Hypothesis lit_a : int_literal a va.
Hypothesis lit_b : int_literal b vb.
Hypothesis lit_c : int_literal c vc.

Let eval_fuel := pp_eval_expr_fuel macro_defined.

Lemma sum_then_product (k : nat) :
  eval_fuel (5 + k) (a ++ " + " ++ b ++ " * " ++ c)
  = Val (Int64.mul (Int64.add va vb) vc).
Proof.
  unfold eval_fuel, pp_eval_expr_fuel. cbn [Nat.add append].
  rewrite (primary_literal _ _ a va (String " " _) lit_a eq_refl). cbn [obind].
  rewrite loop_blank, loop_plus.
  rewrite (operand_literal _ _ b vb (String " " _) lit_b eq_refl). cbn [obind].
  rewrite loop_blank, loop_star.
  rewrite <- (append_nil_r c).
  rewrite (operand_literal _ _ c vc EmptyString lit_c eq_refl). reflexivity.
Qed.

Lemma and_then_or (k : nat) :
  eval_fuel (5 + k) (a ++ " && " ++ b ++ " || " ++ c)
  = Val (b2z (z2b va && (z2b vb || z2b vc))).
Proof.
  unfold eval_fuel, pp_eval_expr_fuel. cbn [Nat.add append].
  rewrite (primary_literal _ _ a va (String " " _) lit_a eq_refl). cbn [obind].
  rewrite loop_blank, loop_and.
  destruct (z2b va) eqn:Ea; cbn [andb].
  - rewrite (operand_literal _ _ b vb (String " " _) lit_b eq_refl). cbn [obind].
    rewrite loop_blank, loop_or.
    destruct (z2b vb) eqn:Eb; cbn [b2z z2b Z.eqb negb orb].
    + (* [||] after a non-zero value: the operand is not read *)
      rewrite <- (append_nil_r c).
      now rewrite (loop_at_literal _ _ _ c vc EmptyString lit_c).
    + rewrite <- (append_nil_r c).
      rewrite (operand_literal _ _ c vc EmptyString lit_c eq_refl). reflexivity.
  - (* [&&] after zero: the operand is not read, and the scan ends at it *)
    now rewrite (loop_at_literal _ _ _ b vb _ lit_b).
Qed.

Lemma or_then_and (k : nat) :
  eval_fuel (5 + k) (a ++ " || " ++ b ++ " && " ++ c)
  = Val (b2z (z2b va || (z2b vb && z2b vc))).
Proof.
  unfold eval_fuel, pp_eval_expr_fuel. cbn [Nat.add append].
  rewrite (primary_literal _ _ a va (String " " _) lit_a eq_refl). cbn [obind].
  rewrite loop_blank, loop_or.
  destruct (z2b va) eqn:Ea; cbn [orb].
  - now rewrite (loop_at_literal _ _ _ b vb _ lit_b).
  - rewrite (operand_literal _ _ b vb (String " " _) lit_b eq_refl). cbn [obind].
    rewrite loop_blank, loop_and.
    destruct (z2b vb) eqn:Eb; cbn [b2z z2b Z.eqb negb andb].
    + rewrite <- (append_nil_r c).
      rewrite (operand_literal _ _ c vc EmptyString lit_c eq_refl). reflexivity.
    + rewrite <- (append_nil_r c).
      now rewrite (loop_at_literal _ _ _ c vc EmptyString lit_c).
Qed.

End ThreeLiterals.

(** The depth bound of [pp_eval_expr] on a three-operand expression. *)
Lemma fuel_three_operands (a op1 b op2 c : string) :
  exists k,
    (2 * String.length (a ++ String " " op1 ++ b ++ String " " op2 ++ c) + 2
     = 5 + k)%nat.
Proof.
  exists (2 * String.length (a ++ String " " op1 ++ b ++ String " " op2 ++ c) + 2 - 5)%nat.
  rewrite ?length_append. cbn [String.length]. rewrite ?length_append.
  cbn [String.length]. rewrite ?length_append. lia.
Qed.


Lemma literal_1 : int_literal "1" 1.
Proof. exact (lit_decimal "1" EmptyString EmptyString eq_refl eq_refl eq_refl eq_refl). Qed.
Lemma literal_2 : int_literal "2" 2.
Proof. exact (lit_decimal "2" EmptyString EmptyString eq_refl eq_refl eq_refl eq_refl). Qed.
Lemma literal_3 : int_literal "3" 3.
Proof. exact (lit_decimal "3" EmptyString EmptyString eq_refl eq_refl eq_refl eq_refl). Qed.



(** ** Termination of the evaluator *)

Lemma skip_blanks_le (p : string) :
  (String.length (skip_blanks p) <= String.length p)%nat.
Proof. induction p as [|c p IH]; simpl; [lia|]. destruct (is_blank c); simpl; lia. Qed.

Lemma skip_blanks_idem (p : string) : skip_blanks (skip_blanks p) = skip_blanks p.
Proof.
  induction p as [|c p IH]; simpl; trivial.
  destruct (is_blank c) eqn:E; trivial. simpl. now rewrite E.
Qed.

Lemma skip_ident_le (p : string) :
  (String.length (skip_ident p) <= String.length p)%nat.
Proof. induction p as [|c p IH]; simpl; [lia|]. destruct (is_ident_char c); simpl; lia. Qed.

Lemma skip_suffix_le (p : string) :
  (String.length (skip_suffix p) <= String.length p)%nat.
Proof. induction p as [|c p IH]; simpl; [lia|]. destruct (is_suffix_char c); simpl; lia. Qed.

Lemma scan_digits_le (base : Z) (p : string) : forall acc,
  (String.length (snd (scan_digits base acc p)) <= String.length p)%nat.
Proof.
  induction p as [|c p IH]; intro acc; simpl; [lia|].
  destruct (digit_val base c); simpl; [|lia]. specialize (IH (acc * base + z)). lia.
Qed.

Lemma drop_le (n : nat) (p : string) :
  (String.length (drop n p) <= String.length p)%nat.
Proof.
  revert p. induction n as [|n IH]; intros [|c p]; simpl; try lia.
  specialize (IH p). lia.
Qed.

Lemma skip_to_close_le (p : string) : forall depth,
  (String.length (skip_to_close depth p) <= String.length p)%nat.
Proof.
  induction p as [|c p IH]; intro depth; simpl; [lia|].
  match goal with |- context [if ?b then _ else _] => destruct b end;
    [|lia].
  match goal with |- context [skip_to_close ?d p] => specialize (IH d) end. lia.
Qed.

Lemma pp_number_le (p : string) :
  (String.length (snd (pp_number p)) <= String.length p)%nat.
Proof.
  unfold pp_number, strtoll.
  destruct (is_hex_prefix p) eqn:H.
  - destruct p as [|z [|x q]]; try discriminate H.
    pose proof (scan_digits_le 16 q 0) as L.
    destruct (scan_digits 16 0 q) as [v rest]. simpl in *.
    pose proof (skip_suffix_le rest). lia.
  - destruct (starts_with "0" p).
    + pose proof (scan_digits_le 8 p 0) as L.
      destruct (scan_digits 8 0 p) as [v rest]. simpl in *.
      pose proof (skip_suffix_le rest). lia.
    + pose proof (scan_digits_le 10 p 0) as L.
      destruct (scan_digits 10 0 p) as [v rest]. simpl in *.
      pose proof (skip_suffix_le rest). lia.
Qed.

Lemma defined_operand_le (p : string) :
  (String.length (snd (defined_operand p)) <= String.length p)%nat.
Proof.
  unfold defined_operand.
  pose proof (skip_blanks_le p) as L0.
  destruct (skip_blanks p) as [|c q] eqn:E.
  - simpl. lia.
  - assert (G : (String.length (skip_ident (skip_blanks (String c q)))
                 <= String.length p)%nat).
    { pose proof (skip_ident_le (skip_blanks (String c q))).
      pose proof (skip_blanks_le (String c q)). lia. }
    assert (P : (String.length
                   (let r := skip_blanks (skip_ident (skip_blanks q)) in
                    match r with String ")" r' => r' | _ => r end)
                 <= String.length p)%nat).
    { pose proof (skip_blanks_le (skip_ident (skip_blanks q))).
      pose proof (skip_ident_le (skip_blanks q)).
      pose proof (skip_blanks_le q). simpl in L0.
      destruct (skip_blanks (skip_ident (skip_blanks q))) as [|d r]; simpl in *; [lia|].
      destruct d as [[] [] [] [] [] [] [] []]; simpl; lia. }
    destruct c as [[] [] [] [] [] [] [] []]; simpl snd; assumption.
Qed.

Lemma guarded_not_nofuel (op : Z -> Z -> option Z) (l r : Z) :
  guarded op l r <> NoFuel.
Proof.
  unfold guarded. destruct (r =? 0); [discriminate|].
  destruct (op l r); discriminate.
Qed.

Section Termination.

Variable macro_defined : string -> bool.

Lemma loop_apply_ok (prim : string -> Outcome (Z * string))
    (loop : Z -> string -> Outcome Z) (lhs : Z) (f : Z -> Z -> Outcome Z)
    (q : string) (n : nat) :
  (forall p, (String.length p <= n)%nat -> primary_ok (prim p) p) ->
  (forall l p, (String.length p <= n)%nat -> loop l p <> NoFuel) ->
  (forall l r, f l r <> NoFuel) ->
  (String.length q <= n)%nat ->
  loop_apply prim loop lhs f q <> NoFuel.
Proof.
  intros HP HL Hf Hq. unfold loop_apply.
  specialize (HP q Hq). destruct (prim q) as [[r q']| | |]; simpl in *;
    try discriminate; [|contradiction].
  specialize (Hf lhs r). destruct (f lhs r); simpl; try discriminate;
    [|contradiction].
  apply HL. lia.
Qed.

(** The branches of [pp_eval_primary] that make no call. *)
Lemma primary_leaf (c : ascii) (q p : string) :
  (String.length (String c q) <= String.length p)%nat ->
  primary_ok
    (if at_defined (String c q) then
       let '(name, r) := defined_operand (drop 7 (String c q)) in
       Val (b2z (macro_defined name), r)
     else if isdigit c then Val (pp_number (String c q))
     else if Ascii.eqb c "'" then
       match q with
       | String v r =>
           Val (char_value v, if starts_with "'" r then drop 1 r else r)
       | EmptyString => ReadPastEnd
       end
     else if isalpha c || Ascii.eqb c "_" then Val (0, skip_ident (String c q))
     else Val (0, String c q)) p.
Proof.
  intro H.
  destruct (at_defined (String c q)).
  { pose proof (defined_operand_le (drop 7 (String c q))) as L.
    pose proof (drop_le 7 (String c q)) as D.
    destruct (defined_operand (drop 7 (String c q))) as [name r].
    simpl snd in L. unfold primary_ok. lia. }
  destruct (isdigit c).
  { pose proof (pp_number_le (String c q)) as L.
    destruct (pp_number (String c q)) as [v r]. simpl snd in L.
    unfold primary_ok. lia. }
  destruct (Ascii.eqb c "'").
  { destruct q as [|v r]; [exact I|]. unfold primary_ok.
    pose proof (drop_le 1 r). simpl String.length in H.
    destruct (starts_with "'" r); lia. }
  destruct (isalpha c || Ascii.eqb c "_").
  { pose proof (skip_ident_le (String c q)). unfold primary_ok. lia. }
  exact H.
Qed.

Lemma primary_ok_obind (o : Outcome (Z * string)) (g : Z -> Z) (q p : string) :
  primary_ok o q -> (String.length q <= String.length p)%nat ->
  primary_ok (obind o (fun '(v, r) => Val (g v, r))) p.
Proof.
  destruct o as [[v r]| | |]; simpl; trivial. lia.
Qed.

Lemma pp_eval_terminates_aux : forall fuel,
  (forall p, (2 * String.length p < fuel)%nat ->
     primary_ok (pp_eval_primary macro_defined fuel p) p) /\
  (forall lhs p, (2 * String.length p < fuel)%nat ->
     pp_eval_loop macro_defined fuel lhs p <> NoFuel).
Proof.
  induction fuel as [fuel IH] using lt_wf_ind.
  destruct fuel as [|f]; [split; intros; lia|].
  destruct (IH f (Nat.lt_succ_diag_r f)) as [IHp IHl].
  split.
  - intros p Hp. cbn [pp_eval_primary].
    pose proof (skip_blanks_le p) as L.
    destruct (skip_blanks p) as [|c q]; [simpl; lia|].
    assert (Lq : (S (String.length q) <= String.length p)%nat) by exact L.
    assert (Hq : (2 * String.length q < f)%nat) by lia.
    destruct c as [[] [] [] [] [] [] [] []]; cbv beta iota;
      try (apply primary_leaf; exact L).
    + (* [+] *)
      specialize (IHp q Hq). unfold primary_ok in *.
      destruct (pp_eval_primary macro_defined f q) as [[v r]| | |]; trivial. lia.
    + (* [-] *)
      apply primary_ok_obind with (g := Int64.neg) (q := q); [apply IHp; exact Hq|lia].
    + (* [!] *)
      apply primary_ok_obind with (g := fun v => b2z (v =? 0)) (q := q);
        [apply IHp; exact Hq|lia].
    + (* parenthesis *)
      destruct f as [|f']; [lia|].
      destruct (IH f') as [IHp' IHl']; [lia|].
      assert (Hq' : (2 * String.length q < f')%nat) by lia.
      specialize (IHp' q Hq').
      destruct (pp_eval_primary macro_defined f' q) as [[v r]| | |];
        simpl in IHp' |- *; trivial.
      assert (Hr : (2 * String.length r < f')%nat) by lia.
      specialize (IHl' v r Hr).
      destruct (pp_eval_loop macro_defined f' v r); simpl; trivial;
        [|now elim IHl'].
      pose proof (skip_to_close_le q 1). lia.
  - intros lhs p Hp. cbn [pp_eval_loop].
    pose proof (skip_blanks_le p) as L.
    destruct (skip_blanks p) as [|c q]; [discriminate|].
    assert (Lq : (S (String.length q) <= String.length p)%nat) by exact L.
    assert (AP : forall g q', (forall l r, g l r <> NoFuel) ->
              (String.length q' <= String.length q)%nat ->
              loop_apply (pp_eval_primary macro_defined f)
                (pp_eval_loop macro_defined f) lhs g q' <> NoFuel).
    { intros g q' Hg Hq'.
      apply loop_apply_ok with (n := String.length q); trivial.
      - intros p0 Hp0. apply IHp. lia.
      - intros l p0 Hp0. apply IHl. lia. }
    pose proof (drop_le 1 q) as D.
    destruct c as [[] [] [] [] [] [] [] []]; cbv beta iota zeta;
      try discriminate;
      repeat match goal with
             | |- context [if ?b then _ else _] => destruct b
             end;
      try discriminate;
      try (apply IHl; lia);
      apply AP; trivial; try (intros; discriminate);
      apply guarded_not_nofuel.
Qed.

(** [pp_eval_expr] returns on every text: the bound in its definition
    is never the reason for its outcome. *)
Lemma pp_eval_expr_terminates (expr : string) :
  pp_eval_expr macro_defined expr <> NoFuel.
Proof.
  unfold pp_eval_expr.
  replace (2 * String.length expr + 2)%nat
    with (S (S (2 * String.length expr))) by lia.
  cbn [pp_eval_expr_fuel].
  destruct (pp_eval_terminates_aux (S (2 * String.length expr))) as [HP HL].
  specialize (HP expr (Nat.lt_succ_diag_r _)).
  destruct (pp_eval_primary macro_defined (S (2 * String.length expr)) expr)
    as [[v r]| | |]; simpl in HP |- *; try discriminate; [|contradiction].
  apply HL. lia.
Qed.

End Termination.

(** C10.  The evaluator returns on every text, and a zero divisor
    gives 0 for [/] and [%]; but the guard leaves [LLONG_MIN / -1],
    whose quotient does not fit: on [-9223372036854775807 - 1 / -1] the
    evaluator, which works left to right, divides [LLONG_MIN] by [-1]
    and the host traps.  On a quote at the end of the text the
    character-literal branch moves past the terminator and reads
    there. *)
Theorem pp_eval_expr_faults :
  (forall macro_defined expr, pp_eval_expr macro_defined expr <> NoFuel)
  /\ (forall op lhs, guarded op lhs 0 = Val 0)
  /\ pp_eval_expr (fun _ => false) "1/0" = Val 0
  /\ pp_eval_expr (fun _ => false) "7 % 0" = Val 0
  /\ pp_eval_expr (fun _ => false) "-9223372036854775807 - 1" = Val LLONG_MIN
  /\ pp_eval_expr (fun _ => false) "-9223372036854775807 - 1 / -1" = DivideTrap
  /\ pp_eval_expr (fun _ => false) "-9223372036854775807 - 1 % -1" = DivideTrap
  /\ pp_eval_expr (fun _ => false) "'" = ReadPastEnd.
Proof.
  split; [exact pp_eval_expr_terminates|].
  split; [reflexivity|].
  repeat split; vm_compute; reflexivity.
Qed.

(** ** Variadic macros *)

Section VariadicMacros.

Let env_with (body : string) : ExpandEnv :=
  mkEnv (define_macro empty_macro_table "LOG" body true ["fmt"%string] true)
        "t.c" 1 EmptyString EmptyString.

(** C4, evaluated on the code.  With
    [#define LOG(fmt, ...) printf(fmt, __VA_ARGS__)] the call
    [LOG(1, 2, 3)] expands to [printf(1, __VA_ARGS__)]: the body scan
    compares the length of the identifier with 12, and [__VA_ARGS__]
    has 11 characters, so it is copied like any other identifier.  An
    identifier of 12 characters that starts with [__VA_ARGS__] is what
    the extra arguments, joined by commas, are put for. *)
Theorem va_args_not_substituted :
  String.length "__VA_ARGS__" = 11%nat
  /\ is_va_args "__VA_ARGS__" = false
  /\ expand_macros (env_with "printf(fmt, __VA_ARGS__)") "LOG(1, 2, 3)"
     = Some "printf(1, __VA_ARGS__)"%string
  /\ expand_macros (env_with "printf(fmt, __VA_ARGS__)") "LOG(1)"
     = Some "printf(1, __VA_ARGS__)"%string
  /\ expand_macros (env_with "printf(fmt, __VA_ARGS__x)") "LOG(1, 2, 3)"
     = Some "printf(1, 2,3)"%string.
Proof. repeat split; vm_compute; reflexivity. Qed.

End VariadicMacros.

(** * Further properties of the code *)

(** ** type.c: conversions *)

Lemma Type_eqb_refl : forall a, Type_eqb a a = true.
Proof.
  fix IH 1.
  intros [i k s al u q il ba len]. simpl.
  rewrite N.eqb_refl, !Z.eqb_refl, !Bool.eqb_reflx.
  replace (TypeKind_eqb k k) with true by (destruct k; reflexivity).
  destruct ba as [x|]; simpl; [rewrite IH|]; reflexivity.
Qed.

Lemma Type_eqb_sym (a b : CType) : Type_eqb a b = Type_eqb b a.
Proof.
  destruct (Type_eqb a b) eqn:E.
  - apply Type_eqb_sound in E. subst. symmetry. apply Type_eqb_refl.
  - destruct (Type_eqb b a) eqn:E'; trivial.
    apply Type_eqb_sound in E'. subst. now rewrite Type_eqb_refl in E.
Qed.

(** X1.  The common type does not depend on the order of the operands, up
    to the identity of the type object: the two results have the same
    rank and signedness, and they are the same type unless the two
    promoted operands are different types of one rank and signedness.
    That case exists: an enumerated type and [int] give whichever comes
    first. *)
Theorem type_usual_arith_order (a b : CType) :
  type_rank (type_usual_arith a b) = type_rank (type_usual_arith b a)
  /\ is_unsigned (type_usual_arith a b) = is_unsigned (type_usual_arith b a)
  /\ (type_usual_arith a b <> type_usual_arith b a ->
      type_rank (type_int_promote a) = type_rank (type_int_promote b)
      /\ is_unsigned (type_int_promote a) = is_unsigned (type_int_promote b)
      /\ type_usual_arith a b = type_int_promote a
      /\ type_usual_arith b a = type_int_promote b)
  /\ (kind a = TY_ENUM -> is_unsigned a = false ->
      type_usual_arith a ty_int = a /\ type_usual_arith ty_int a = ty_int).
Proof.
  assert (G : type_usual_arith a b = type_usual_arith b a
              \/ (type_rank (type_int_promote a) = type_rank (type_int_promote b)
                  /\ is_unsigned (type_int_promote a) = is_unsigned (type_int_promote b)
                  /\ type_usual_arith a b = type_int_promote a
                  /\ type_usual_arith b a = type_int_promote b)).
  { unfold type_usual_arith.
    rewrite (orb_comm (TypeKind_eqb (kind b) TY_LDOUBLE)),
            (orb_comm (TypeKind_eqb (kind b) TY_DOUBLE)),
            (orb_comm (TypeKind_eqb (kind b) TY_FLOAT)).
    destruct (TypeKind_eqb (kind a) TY_LDOUBLE || TypeKind_eqb (kind b) TY_LDOUBLE);
      [now left|].
    destruct (TypeKind_eqb (kind a) TY_DOUBLE || TypeKind_eqb (kind b) TY_DOUBLE);
      [now left|].
    destruct (TypeKind_eqb (kind a) TY_FLOAT || TypeKind_eqb (kind b) TY_FLOAT);
      [now left|].
    set (a' := type_int_promote a). set (b' := type_int_promote b). cbv zeta.
    rewrite (Type_eqb_sym b' a').
    destruct (Type_eqb a' b') eqn:E.
    { apply Type_eqb_sound in E. left. congruence. }
    replace (Bool.eqb (is_unsigned b') (is_unsigned a'))
      with (Bool.eqb (is_unsigned a') (is_unsigned b'))
      by (destruct (is_unsigned a'), (is_unsigned b'); reflexivity).
    destruct (Bool.eqb (is_unsigned a') (is_unsigned b')) eqn:S.
    - apply Bool.eqb_prop in S.
      destruct (Z.compare_spec (type_rank a') (type_rank b')) as [C|C|C].
      + right. rewrite C, Z.geb_leb, Z.leb_refl. auto.
      + left. rewrite !Z.geb_leb.
        destruct (type_rank b' <=? type_rank a') eqn:L1;
          destruct (type_rank a' <=? type_rank b') eqn:L2; trivial;
          try apply Z.leb_le in L1; try apply Z.leb_gt in L2; lia.
      + left. rewrite !Z.geb_leb.
        destruct (type_rank b' <=? type_rank a') eqn:L1;
          destruct (type_rank a' <=? type_rank b') eqn:L2; trivial;
          try apply Z.leb_gt in L1; try apply Z.leb_le in L2; lia.
    - left. destruct (is_unsigned a'), (is_unsigned b'); try discriminate S;
        reflexivity. }
  split; [|split; [|split]].
  - destruct G as [-> | (R & _ & -> & ->)]; trivial.
  - destruct G as [-> | (_ & U & -> & ->)]; trivial.
  - intro N. destruct G as [E | G]; [contradiction | exact G].
  - intros K U.
    assert (P : type_int_promote a = a)
      by (unfold type_int_promote, type_rank; rewrite K; reflexivity).
    assert (NE : Type_eqb a ty_int = false).
    { destruct (Type_eqb a ty_int) eqn:E; trivial.
      apply Type_eqb_sound in E. rewrite E in K. discriminate K. }
    unfold type_usual_arith.
    change (type_int_promote ty_int) with ty_int.
    rewrite K, P, (Type_eqb_sym ty_int a), NE, U. simpl.
    unfold type_rank. rewrite K. split; reflexivity.
Qed.

Lemma type_usual_arith_order_witness :
  let e := fst (type_enum arena_after_init) in
  type_usual_arith e ty_int = e /\ type_usual_arith ty_int e = ty_int.
Proof.
  intro e. destruct (type_usual_arith_order e ty_int) as (_ & _ & _ & H).
  apply H; reflexivity.
Defined.

Lemma promote_integer (t : CType) :
  type_is_integer t = true -> type_is_integer (type_int_promote t) = true.
Proof.
  unfold type_int_promote. destruct (type_rank t <? type_rank ty_int); trivial.
Qed.

(** X2.  The common type of two integer operands is an integer type that is
    ranked at least as high as [int] and as each promoted operand, and
    it is one of the promoted operands or the unsigned type of the
    rank of the signed one. *)
Theorem type_usual_arith_integers (a b : CType) :
  type_is_integer a = true -> type_is_integer b = true ->
  let r := type_usual_arith a b in
  type_is_integer r = true
  /\ 4 <= type_rank r
  /\ type_rank (type_int_promote a) <= type_rank r
  /\ type_rank (type_int_promote b) <= type_rank r
  /\ (r = type_int_promote a \/ r = type_int_promote b
      \/ (is_unsigned r = true
          /\ is_unsigned (type_int_promote a) <> is_unsigned (type_int_promote b))).
Proof.
  intros Ia Ib.
  assert (Fa : forall k, In k [TY_LDOUBLE; TY_DOUBLE; TY_FLOAT] ->
                         TypeKind_eqb (kind a) k = false).
  { intros k Hk. unfold type_is_integer in Ia.
    destruct (kind a); try discriminate Ia;
      simpl in Hk; intuition subst; reflexivity. }
  assert (Fb : forall k, In k [TY_LDOUBLE; TY_DOUBLE; TY_FLOAT] ->
                         TypeKind_eqb (kind b) k = false).
  { intros k Hk. unfold type_is_integer in Ib.
    destruct (kind b); try discriminate Ib;
      simpl in Hk; intuition subst; reflexivity. }
  unfold type_usual_arith.
  rewrite !Fa, !Fb by (simpl; auto). cbv zeta. simpl orb. cbv iota.
  pose proof (rank_promoted a) as Ra. pose proof (rank_promoted b) as Rb.
  pose proof (promote_integer a Ia) as Pa. pose proof (promote_integer b Ib) as Pb.
  set (a' := type_int_promote a) in *. set (b' := type_int_promote b) in *.
  destruct (Type_eqb a' b') eqn:E.
  { apply Type_eqb_sound in E. subst b'. rewrite <- E in *.
    repeat split; auto; lia. }
  destruct (Bool.eqb (is_unsigned a') (is_unsigned b')) eqn:S.
  - rewrite Z.geb_leb.
    destruct (type_rank b' <=? type_rank a') eqn:L;
      [apply Z.leb_le in L | apply Z.leb_gt in L]; repeat split; auto; lia.
  - assert (D : is_unsigned a' <> is_unsigned b').
    { intro H. rewrite H in S. now rewrite Bool.eqb_reflx in S. }
    assert (M : forall u s, 4 <= type_rank u -> 4 <= type_rank s ->
              type_is_integer u = true -> type_is_integer s = true ->
              let r := if type_rank u >=? type_rank s then u
                       else if size s >? size u then s
                       else match kind s with
                            | TY_INT => ty_uint
                            | TY_LONG => ty_ulong
                            | TY_LLONG => ty_ullong
                            | _ => ty_uint
                            end in
              type_is_integer r = true /\ type_rank u <= type_rank r
              /\ type_rank s <= type_rank r
              /\ (r = u \/ r = s \/ is_unsigned r = true)).
    { intros u s Ru Rs Iu Is. rewrite Z.geb_leb. cbv zeta.
      destruct (type_rank s <=? type_rank u) eqn:L;
        [apply Z.leb_le in L; repeat split; auto; lia | apply Z.leb_gt in L].
      destruct (size s >? size u); [repeat split; auto; lia|].
      destruct (outranked_kind u s Ru L) as [K | K]; rewrite K;
        unfold type_rank in *; rewrite K in *; cbn;
        repeat split; auto; try lia;
        destruct (kind u); lia. }
    destruct (is_unsigned a') eqn:Ua.
    + destruct (M a' b' Ra Rb Pa Pb) as (H1 & H2 & H3 & H4).
      repeat split; trivial; try lia. intuition.
    + destruct (M b' a' Rb Ra Pb Pa) as (H1 & H2 & H3 & H4).
      repeat split; trivial; try lia. intuition.
Qed.

Lemma type_usual_arith_integers_witness :
  4 <= type_rank (type_usual_arith ty_char ty_ushort)
  /\ type_rank (type_int_promote ty_long) <= type_rank (type_usual_arith ty_long ty_uint).
Proof.
  split.
  - apply (type_usual_arith_integers ty_char ty_ushort eq_refl eq_refl).
  - apply (type_usual_arith_integers ty_long ty_uint eq_refl eq_refl).
Defined.

(** X3.  The default argument promotions never leave a [float] or an
    integer type ranked below [int], and promoting twice is promoting
    once. *)
Theorem type_default_arg_promote_fixed (t : CType) :
  let p := type_default_arg_promote t in
  kind p <> TY_FLOAT
  /\ (type_is_integer p = true -> 4 <= type_rank p)
  /\ type_default_arg_promote p = p.
Proof.
  unfold type_default_arg_promote, type_int_promote.
  change (type_rank ty_int) with 4.
  destruct (type_is_integer t) eqn:I.
  - destruct (type_rank t <? 4) eqn:R; cbv zeta.
    + split; [discriminate|]. split; [intros _; cbn; lia | reflexivity].
    + rewrite I, R. split; [|split; [|reflexivity]].
      * unfold type_is_integer in I. destruct (kind t); discriminate.
      * intros _. now apply Z.ltb_ge in R.
  - destruct (TypeKind_eqb (kind t) TY_FLOAT) eqn:F; cbv zeta.
    + split; [discriminate|]. split; [discriminate | reflexivity].
    + rewrite I, F. split; [|split; [|reflexivity]].
      * intro K. rewrite K in F. discriminate F.
      * discriminate.
Qed.

Lemma type_default_arg_promote_fixed_witness :
  4 <= type_rank (type_default_arg_promote ty_uchar).
Proof.
  destruct (type_default_arg_promote_fixed ty_uchar) as (_ & H & _).
  apply H. reflexivity.
Defined.

(** ** symtab.c: definitions and scopes *)

Lemma bucket_set_bucket_other {A : Set} (tbl : list (list A)) h h' chain :
  h <> h' -> bucket (set_bucket tbl h chain) h' = bucket tbl h'.
Proof.
  unfold bucket. revert h h'.
  induction tbl as [|b tbl IH]; intros [|h] [|h'] H; simpl; trivial;
    try contradiction.
  apply IH. congruence.
Qed.

Lemma define_scan_redeclared chain name k t s chain' :
  define_scan chain name k t = Redeclared s chain' ->
  chain_find chain' name = Some s /\ sym_name s = name
  /\ (forall other, other <> name ->
        chain_find chain' other = chain_find chain other).
Proof.
  revert s chain'. induction chain as [|x rest IH]; intros s chain'; simpl;
    [discriminate|].
  destruct (String.eqb (sym_name x) name) eqn:E.
  - apply String.eqb_eq in E.
    assert (R : Redeclared (set_sym_type x t) (set_sym_type x t :: rest)
                = Redeclared s chain' ->
                chain_find chain' name = Some s /\ sym_name s = name
                /\ (forall other, other <> name ->
                      chain_find chain' other = chain_find (x :: rest) other)).
    { intros [= <- <-]. simpl. rewrite E, String.eqb_refl.
      repeat split; trivial. intros other N.
      destruct (String.eqb name other) eqn:E'; trivial.
      apply String.eqb_eq in E'. congruence. }
    destruct (SymKind_eqb (sym_kind x) SYM_FUNC && SymKind_eqb k SYM_FUNC
              && negb (is_defined x)); [exact R|].
    destruct (StorageClass_eqb (sc x) SC_EXTERN); [exact R | discriminate].
  - destruct (define_scan rest name k t) as [s' rest'| |] eqn:D;
      try discriminate.
    intros [= <- <-]. destruct (IH _ _ eq_refl) as (F & N & O).
    simpl. rewrite E. repeat split; trivial.
    intros other Ho. rewrite (O other Ho). reflexivity.
Qed.

Lemma define_scan_redefinition chain name k t s :
  define_scan chain name k t = Redefinition s ->
  chain_find chain name = Some s /\ sym_name s = name.
Proof.
  induction chain as [|x rest IH]; simpl; [discriminate|].
  destruct (String.eqb (sym_name x) name) eqn:E.
  - apply String.eqb_eq in E.
    destruct (SymKind_eqb (sym_kind x) SYM_FUNC && SymKind_eqb k SYM_FUNC
              && negb (is_defined x)); [discriminate|].
    destruct (StorageClass_eqb (sc x) SC_EXTERN); [discriminate|].
    intros [= <-]. auto.
  - destruct (define_scan rest name k t) eqn:D; try discriminate.
    intros [= <-]. now apply IH.
Qed.

Lemma define_scan_not_found chain name k t :
  define_scan chain name k t = NotFound -> chain_find chain name = None.
Proof.
  induction chain as [|x rest IH]; simpl; trivial.
  destruct (String.eqb (sym_name x) name).
  - destruct (SymKind_eqb (sym_kind x) SYM_FUNC && SymKind_eqb k SYM_FUNC
              && negb (is_defined x)); [discriminate|].
    destruct (StorageClass_eqb (sc x) SC_EXTERN); discriminate.
  - destruct (define_scan rest name k t); try discriminate. auto.
Qed.

(** Looking up a name in a scope whose bucket [h] was replaced. *)
Lemma scope_find_set_bucket (c : Scope) h chain other :
  scope_wf c -> (h < SCOPE_HASH_SIZE)%nat ->
  scope_find (set_syms c (set_bucket (syms c) h chain)) other
  = if Nat.eqb h (sym_hash other) then chain_find chain other
    else scope_find c other.
Proof.
  intros WF Hh. unfold scope_find, scope_wf in *. simpl.
  destruct (Nat.eqb h (sym_hash other)) eqn:E.
  - apply Nat.eqb_eq in E. subst. rewrite bucket_set_bucket; trivial. lia.
  - apply Nat.eqb_neq in E. now rewrite bucket_set_bucket_other.
Qed.

(** X4.  After [symtab_define] the name is bound, in the current scope, to
    the entry the call returned, whichever of its three ways the call
    took; every other name is looked up as before; the enclosing scopes
    and the shape of the bucket array are untouched. *)
Theorem symtab_define_lookup
    (st : SymTab) (name : string) (k : SymKind) (t : option CType)
    (loc : SrcLoc) (es : ErrorSink) :
  scope_wf (current st) ->
  let '(s, st', _) := symtab_define st name k t loc es in
  symtab_lookup st' name = Some s
  /\ symtab_lookup_current st' name = Some s
  /\ sym_name s = name
  /\ (forall other, other <> name ->
        symtab_lookup st' other = symtab_lookup st other
        /\ symtab_lookup_current st' other = symtab_lookup_current st other)
  /\ parents st' = parents st
  /\ scope_wf (current st').
Proof.
  intro WF. pose proof (sym_hash_bound name) as HB.
  unfold symtab_define.
  destruct (define_scan (bucket (syms (current st)) (sym_hash name)) name k t)
    as [s chain'|s|] eqn:D.
  - destruct (define_scan_redeclared _ _ _ _ _ _ D) as (F & N & O).
    unfold symtab_lookup, symtab_lookup_current. simpl.
    rewrite scope_find_set_bucket, Nat.eqb_refl, F by assumption.
    repeat split; trivial.
    + rewrite scope_find_set_bucket by assumption.
      destruct (Nat.eqb (sym_hash name) (sym_hash other)) eqn:E; trivial.
      apply Nat.eqb_eq in E. unfold scope_find. rewrite <- E, O; trivial.
    + rewrite scope_find_set_bucket by assumption.
      destruct (Nat.eqb (sym_hash name) (sym_hash other)) eqn:E; trivial.
      apply Nat.eqb_eq in E. unfold scope_find. rewrite <- E, O; trivial.
    + unfold scope_wf in *. simpl. now rewrite length_set_bucket.
  - destruct (define_scan_redefinition _ _ _ _ _ D) as (F & N).
    unfold symtab_lookup, symtab_lookup_current. simpl.
    unfold scope_find at 1 2. rewrite F. repeat split; trivial.
  - apply define_scan_not_found in D.
    unfold symtab_lookup, symtab_lookup_current. simpl.
    rewrite scope_find_set_bucket, Nat.eqb_refl by assumption.
    simpl. rewrite String.eqb_refl.
    assert (O : forall other, other <> name ->
              scope_find
                (set_syms (current st)
                   (set_bucket (syms (current st)) (sym_hash name)
                      (mkSymbol name k t SC_NONE 0 0 false
                         (negb (Nat.eqb (List.length (parents st)) 0)) loc
                       :: bucket (syms (current st)) (sym_hash name)))) other
              = scope_find (current st) other).
    { intros other Ho. rewrite scope_find_set_bucket by assumption.
      destruct (Nat.eqb (sym_hash name) (sym_hash other)) eqn:E; trivial.
      apply Nat.eqb_eq in E. simpl.
      destruct (String.eqb name other) eqn:E'.
      - apply String.eqb_eq in E'. congruence.
      - unfold scope_find. now rewrite E. }
    repeat split; trivial.
    + now rewrite O.
    + now apply O.
    + unfold scope_wf in *. simpl. now rewrite length_set_bucket.
Qed.

Lemma symtab_define_lookup_witness :
  let '(s, st', _) :=
    symtab_define Samples.declared_f "g" SYM_VAR (Some ty_int) no_loc [] in
  symtab_lookup st' "g" = Some s
  /\ symtab_lookup st' "f" = symtab_lookup Samples.declared_f "f".
Proof.
  pose proof (symtab_define_lookup Samples.declared_f "g" SYM_VAR (Some ty_int)
                no_loc [] eq_refl) as H.
  destruct (symtab_define Samples.declared_f "g" SYM_VAR (Some ty_int) no_loc [])
    as [[s st'] es'].
  destruct H as (H1 & _ & _ & H4 & _).
  split; [exact H1|]. apply H4. discriminate.
Defined.

(** X5.  A block scope: a name defined after [symtab_enter_scope] gets a
    fresh local entry and no diagnostic, whatever the enclosing scopes
    hold under that name; it hides them until [symtab_leave_scope],
    which gives back the table as it was on entry.  The file scope is
    never left. *)
Theorem symtab_block_scope
    (st : SymTab) (name : string) (k : SymKind) (t : option CType)
    (loc : SrcLoc) (es : ErrorSink) :
  let '(s, st', es') := symtab_define (symtab_enter_scope st) name k t loc es in
  es' = es
  /\ s = mkSymbol name k t SC_NONE 0 0 false true loc
  /\ symtab_lookup st' name = Some s
  /\ (forall other, other <> name ->
        symtab_lookup st' other = symtab_lookup st other)
  /\ symtab_leave_scope st' = st
  /\ symtab_leave_scope symtab_init = symtab_init.
Proof.
  assert (WF : scope_wf (new_scope (Some (current st)))) by reflexivity.
  assert (E : forall other, scope_find (new_scope (Some (current st))) other = None).
  { intro other. unfold scope_find, bucket, new_scope.
    cbv beta iota delta [syms]. rewrite nth_repeat. reflexivity. }
  pose proof (sym_hash_bound name) as HB.
  unfold symtab_define.
  change (current (symtab_enter_scope st)) with (new_scope (Some (current st))).
  pose proof (E name) as En. unfold scope_find in En.
  rewrite (chain_find_none_scan _ _ k t En).
  unfold symtab_lookup.
  change (parents (symtab_enter_scope st)) with (current st :: parents st).
  cbn [current parents scopes_find List.length Nat.eqb negb].
  split; [reflexivity|]. split; [reflexivity|].
  split; [|split; [|split; [|reflexivity]]].
  - rewrite scope_find_set_bucket, Nat.eqb_refl by assumption.
    simpl. now rewrite String.eqb_refl.
  - intros other Ho. rewrite scope_find_set_bucket by assumption.
    destruct (Nat.eqb (sym_hash name) (sym_hash other)); [|now rewrite E].
    cbn [chain_find sym_name]. destruct (String.eqb name other) eqn:E'.
    + apply String.eqb_eq in E'. congruence.
    + fold (scope_find (new_scope (Some (current st))) name) in En.
      unfold scope_find in En.
      replace (bucket (syms (new_scope (Some (current st)))) (sym_hash name))
        with (@nil Symbol); [reflexivity|].
      unfold bucket, new_scope. cbv beta iota delta [syms].
      now rewrite nth_repeat.
  - unfold symtab_leave_scope. simpl. destruct st; reflexivity.
Qed.

(** ** symtab.c: tags *)

Import SymTabTags.

Lemma chain_retag_found chain name t tg chain' :
  chain_retag chain name t = Some (tg, chain') ->
  chain_find_tag chain' name = Some tg
  /\ tag_name tg = name /\ tag_type tg = t
  /\ List.length chain' = List.length chain
  /\ (forall other, other <> name ->
        chain_find_tag chain' other = chain_find_tag chain other).
Proof.
  revert tg chain'. induction chain as [|x rest IH]; intros tg chain'; simpl;
    [discriminate|].
  destruct (String.eqb (tag_name x) name) eqn:E.
  - intros [= <- <-]. simpl. rewrite E. apply String.eqb_eq in E.
    repeat split; trivial. intros other Ho. rewrite E.
    destruct (String.eqb name other) eqn:E'; trivial.
    apply String.eqb_eq in E'. congruence.
  - destruct (chain_retag rest name t) as [[r rest']|] eqn:R; [|discriminate].
    intros [= <- <-]. destruct (IH _ _ eq_refl) as (F & N & T & L & O).
    simpl. rewrite E, F, L. repeat split; trivial.
    intros other Ho. now rewrite O.
Qed.

Lemma chain_retag_none chain name t :
  chain_retag chain name t = None -> chain_find_tag chain name = None.
Proof.
  induction chain as [|x rest IH]; simpl; trivial.
  destruct (String.eqb (tag_name x) name); [discriminate|].
  destruct (chain_retag rest name t) as [[r rest']|]; [discriminate|auto].
Qed.

Lemma scope_find_tag_set_bucket (c : Scope) h chain other :
  tags_wf c -> (h < SCOPE_HASH_SIZE)%nat ->
  scope_find_tag (set_tags c (set_bucket (tags c) h chain)) other
  = if Nat.eqb h (sym_hash other) then chain_find_tag chain other
    else scope_find_tag c other.
Proof.
  intros WF Hh. unfold scope_find_tag, tags_wf in *. simpl.
  destruct (Nat.eqb h (sym_hash other)) eqn:E.
  - apply Nat.eqb_eq in E. subst. rewrite bucket_set_bucket; trivial. lia.
  - apply Nat.eqb_neq in E. now rewrite bucket_set_bucket_other.
Qed.

(** X6.  [symtab_define_tag] binds the tag to the type in the current
    scope and reports nothing: a tag already in the current scope has
    its type replaced in place, the number of entries unchanged, and
    any other tag is looked up as before. *)
Theorem symtab_define_tag_lookup
    (st : SymTab) (name : string) (t : CType) (loc : SrcLoc) :
  tags_wf (current st) ->
  let '(tg, st') := symtab_define_tag st name t loc in
  symtab_lookup_tag st' name = Some tg
  /\ tag_name tg = name /\ tag_type tg = t
  /\ (forall other, other <> name ->
        symtab_lookup_tag st' other = symtab_lookup_tag st other)
  /\ (symtab_lookup_tag_current st name <> None ->
        List.length (bucket (tags (current st')) (sym_hash name))
        = List.length (bucket (tags (current st)) (sym_hash name)))
  /\ parents st' = parents st
  /\ syms (current st') = syms (current st)
  /\ tags_wf (current st').
Proof.
  intro WF. pose proof (sym_hash_bound name) as HB.
  assert (HB' : (sym_hash name < List.length (tags (current st)))%nat)
    by (unfold tags_wf in WF; lia).
  unfold symtab_define_tag.
  destruct (chain_retag (bucket (tags (current st)) (sym_hash name)) name t)
    as [[tg chain']|] eqn:R.
  - destruct (chain_retag_found _ _ _ _ _ R) as (F & N & T & L & O).
    unfold symtab_lookup_tag. simpl.
    rewrite scope_find_tag_set_bucket, Nat.eqb_refl, F by assumption.
    repeat split; trivial.
    + intros other Ho. rewrite scope_find_tag_set_bucket by assumption.
      destruct (Nat.eqb (sym_hash name) (sym_hash other)) eqn:E; trivial.
      apply Nat.eqb_eq in E. unfold scope_find_tag. rewrite <- E, O; trivial.
    + intros _. now rewrite bucket_set_bucket.
    + unfold tags_wf in *. simpl. now rewrite length_set_bucket.
  - apply chain_retag_none in R.
    unfold symtab_lookup_tag. simpl.
    rewrite scope_find_tag_set_bucket, Nat.eqb_refl by assumption.
    simpl. rewrite String.eqb_refl.
    repeat split; trivial.
    + intros other Ho. rewrite scope_find_tag_set_bucket by assumption.
      destruct (Nat.eqb (sym_hash name) (sym_hash other)) eqn:E; trivial.
      apply Nat.eqb_eq in E. simpl.
      destruct (String.eqb name other) eqn:E'.
      * apply String.eqb_eq in E'. congruence.
      * unfold scope_find_tag. now rewrite E.
    + intro H. exfalso. apply H. exact R.
    + unfold tags_wf in *. simpl. now rewrite length_set_bucket.
Qed.

Lemma symtab_define_tag_lookup_witness :
  let st1 := snd (symtab_define_tag symtab_init "S" ty_int no_loc) in
  let '(tg2, st2) := symtab_define_tag st1 "S" ty_long no_loc in
  symtab_lookup_tag st2 "S" = Some tg2 /\ tag_type tg2 = ty_long
  /\ List.length (bucket (tags (current st2)) (sym_hash "S"))
     = List.length (bucket (tags (current st1)) (sym_hash "S")).
Proof.
  intro st1.
  pose proof (symtab_define_tag_lookup st1 "S" ty_long no_loc eq_refl) as G.
  destruct (symtab_define_tag st1 "S" ty_long no_loc) as [tg2 st2].
  destruct G as (G1 & _ & G3 & _ & G5 & _).
  split; [exact G1|]. split; [exact G3|].
  apply G5. vm_compute. discriminate.
Defined.

(** ** parser.c: precedence climbing *)

Import ParserShapes.

Lemma set_lexer_twice (p : PState) (l l' : Lexer.Lexer) :
  set_lexer (set_lexer p l) l' = set_lexer p l'.
Proof. reflexivity. Qed.

Lemma operator_not_postfix (k : TokenKind) :
  0 <= get_precedence k -> is_postfix_start k = false.
Proof. destruct k; simpl; trivial; lia. Qed.

(** An integer literal that no postfix operator follows. *)
Lemma parse_unary_literal (f : nat) (p : PState) (t : Token) (l : Lexer.Lexer) :
  tk_kind t = TK_INT_LIT ->
  is_postfix_start (tk_kind (cur l)) = false ->
  parse_unary_expr (3 + f) (set_lexer p (t :: l))
  = Some (literal_node t, set_lexer p l).
Proof.
  intros Ht Hl.
  destruct t as [k loc s v fv sf]. simpl in Ht. subst k.
  destruct l as [|[kr locr sr vr fvr sfr] l'].
  - destruct f; reflexivity.
  - simpl in Hl. destruct f; destruct kr; try discriminate Hl; reflexivity.
Qed.

Lemma binary_loop_stop (f : nat) (p : PState) (min_prec : Z) (l : Node)
    (toks : Lexer.Lexer) :
  get_precedence (tk_kind (cur toks)) < min_prec ->
  binary_loop (S f) min_prec l (set_lexer p toks) = Some (l, set_lexer p toks).
Proof.
  intro H. apply Z.ltb_lt in H.
  simpl. unfold bind, get_tok, TOK. simpl. rewrite H. reflexivity.
Qed.

Lemma binary_loop_step (f : nat) (p : PState) (min_prec : Z) (l : Node)
    (op : Token) (toks : Lexer.Lexer) :
  min_prec <= get_precedence (tk_kind op) ->
  binary_loop (S f) min_prec l (set_lexer p (op :: toks))
  = match parse_binary_expr f (get_precedence (tk_kind op) + 1)
            (set_lexer p toks) with
    | Some (r, p') => binary_loop f min_prec (binary_node op l r) p'
    | None => None
    end.
Proof.
  intro H. apply Z.ltb_ge in H.
  simpl. unfold bind, get_tok, TOK. simpl. rewrite H. reflexivity.
Qed.

Lemma parse_binary_unfold (f : nat) (p : PState) (min_prec : Z) :
  parse_binary_expr (S f) min_prec p
  = match parse_unary_expr f p with
    | Some (l, p') => binary_loop f min_prec l p'
    | None => None
    end.
Proof. reflexivity. Qed.

Lemma cur_chain_tokens (rest : list (Token * Token)) (tail : list Token) :
  cur (chain_tokens rest ++ tail)
  = match rest with (op, _) :: _ => op | [] => cur tail end.
Proof. destruct rest as [|[op t] rest]; reflexivity. Qed.

(** The loop of [parse_binary_expr] over a descending chain. *)
Lemma binary_loop_chain : forall (rest : list (Token * Token)) (k : nat)
    (p : PState) (min_prec bound : Z) (l : Node) (tail : list Token),
  0 <= min_prec ->
  descending min_prec bound rest ->
  ends_binary min_prec tail ->
  binary_loop (List.length rest + 5 + k) min_prec l
              (set_lexer p (chain_tokens rest ++ tail))
  = Some (left_nested l rest, set_lexer p tail).
Proof.
  induction rest as [|[op t] rest IH]; intros k p min_prec bound l tail M D E.
  - cbn [List.length chain_tokens app left_nested].
    change (0 + 5 + k)%nat with (S (4 + k)).
    apply binary_loop_stop. apply E.
  - destruct D as ((D1 & D2) & Dt & D).
    change (List.length ((op, t) :: rest) + 5 + k)%nat
      with (S (List.length rest + 5 + k)).
    cbn [chain_tokens app].
    rewrite binary_loop_step by assumption.
    replace (List.length rest + 5 + k)%nat
      with (S (3 + (List.length rest + 1 + k)))%nat by lia.
    rewrite parse_binary_unfold.
    assert (N : is_postfix_start (tk_kind (cur (chain_tokens rest ++ tail))) = false).
    { rewrite cur_chain_tokens. destruct rest as [|[op' t'] rest'].
      - apply E.
      - apply operator_not_postfix. destruct D as ((D' & _) & _). lia. }
    rewrite (parse_unary_literal _ p t _ Dt N).
    replace (3 + (List.length rest + 1 + k))%nat
      with (S (List.length rest + 3 + k)) by lia.
    rewrite binary_loop_stop.
    + cbn [left_nested]. fold (literal_node t).
      replace (S (S (List.length rest + 3 + k)))
        with (List.length rest + 5 + k)%nat by lia.
      apply (IH k p min_prec (get_precedence (tk_kind op))); assumption.
    + rewrite cur_chain_tokens. destruct rest as [|[op' t'] rest'].
      * destruct E as [E _]. lia.
      * destruct D as ((_ & D') & _). lia.
Qed.

(** X7.  A chain of binary operators whose ranks do not go up is parsed
    nested to the left, whatever its length: [a * b + c - d] is
    [((a * b) + c) - d]. *)
Theorem parse_binary_left_nested
    (p : PState) (min_prec bound : Z) (a : Token) (rest : list (Token * Token))
    (tail : list Token) (fuel : nat) :
  0 <= min_prec ->
  tk_kind a = TK_INT_LIT ->
  descending min_prec bound rest ->
  ends_binary min_prec tail ->
  (List.length rest + 9 <= fuel)%nat ->
  parse_binary_expr fuel min_prec (set_lexer p (a :: chain_tokens rest ++ tail))
  = Some (left_nested (literal_node a) rest, set_lexer p tail).
Proof.
  intros M A D E F.
  replace fuel with (S (3 + (List.length rest + 5 + (fuel - List.length rest - 9))))
    by lia.
  rewrite parse_binary_unfold.
  assert (N : is_postfix_start (tk_kind (cur (chain_tokens rest ++ tail))) = false).
  { rewrite cur_chain_tokens. destruct rest as [|[op' t'] rest'].
    - apply E.
    - apply operator_not_postfix. destruct D as ((D' & _) & _). lia. }
  rewrite (parse_unary_literal _ p a _ A N).
  replace (3 + (List.length rest + 5 + (fuel - List.length rest - 9)))%nat
    with (List.length rest + 5 + (fuel - List.length rest - 6))%nat by lia.
  now apply binary_loop_chain with (bound := bound).
Qed.

(** X8.  An operator of higher rank after one of lower rank takes the
    operand between them: [a + b * c] is [a + (b * c)], for every pair
    of binary operators ranked that way. *)
Theorem parse_binary_precedence
    (p : PState) (a op1 b op2 c : Token) (tail : list Token) (fuel : nat) :
  tk_kind a = TK_INT_LIT -> tk_kind b = TK_INT_LIT -> tk_kind c = TK_INT_LIT ->
  4 <= get_precedence (tk_kind op1) < get_precedence (tk_kind op2) ->
  ends_binary 4 tail ->
  (12 <= fuel)%nat ->
  parse_binary_expr fuel 4 (set_lexer p (a :: op1 :: b :: op2 :: c :: tail))
  = Some (binary_node op1 (literal_node a)
            (binary_node op2 (literal_node b) (literal_node c)),
          set_lexer p tail).
Proof.
  intros A B C [P1 P2] [E1 E2] F.
  replace fuel with (9 + (fuel - 9))%nat by lia.
  generalize (fuel - 9)%nat. intro k.
  change (9 + k)%nat with (S (3 + (5 + k))).
  rewrite parse_binary_unfold.
  rewrite (parse_unary_literal _ p a _ A)
    by (apply operator_not_postfix; simpl; lia).
  change (3 + (5 + k))%nat with (S (S (3 + (3 + k)))).
  rewrite binary_loop_step by (simpl; lia).
  rewrite parse_binary_unfold.
  rewrite (parse_unary_literal _ p b _ B)
    by (apply operator_not_postfix; simpl; lia).
  change (op2 :: c :: tail) with (chain_tokens [(op2, c)] ++ tail).
  change (3 + (3 + k))%nat with (List.length [(op2, c)] + 5 + k)%nat.
  rewrite (binary_loop_chain [(op2, c)] k p _ (get_precedence (tk_kind op2))
             (literal_node b) tail).
  - cbn [left_nested]. now apply binary_loop_stop.
  - lia.
  - simpl. repeat split; trivial; lia.
  - split; [lia | exact E2].
Qed.

Lemma parse_binary_left_nested_witness :
  option_map (fun r => (try_eval_const (fst r), lexer (snd r)))
    (parse_binary_expr 16 4
       (set_lexer (parser_init [] arena_after_init symtab_init [])
          (int_tok 1 0
           :: chain_tokens [(punct TK_STAR, int_tok 2 0);
                            (punct TK_PLUS, int_tok 3 0);
                            (punct TK_MINUS, int_tok 4 0)]
           ++ [punct TK_SEMICOLON])))
  = Some (Folded ((1 * 2 + 3) - 4), [punct TK_SEMICOLON]).
Proof.
  rewrite (parse_binary_left_nested _ 4 13 (int_tok 1 0)
             [(punct TK_STAR, int_tok 2 0); (punct TK_PLUS, int_tok 3 0);
              (punct TK_MINUS, int_tok 4 0)] [punct TK_SEMICOLON] 16).
  - reflexivity.
  - lia.
  - reflexivity.
  - simpl. repeat split; lia.
  - split; [simpl; lia | reflexivity].
  - simpl. lia.
Defined.

Lemma parse_binary_precedence_witness :
  option_map (fun r => (try_eval_const (fst r), lexer (snd r)))
    (parse_binary_expr 16 4
       (set_lexer (parser_init [] arena_after_init symtab_init [])
          [int_tok 1 0; punct TK_PLUS; int_tok 2 0; punct TK_STAR; int_tok 3 0;
           punct TK_RPAREN]))
  = Some (Folded (1 + 2 * 3), [punct TK_RPAREN]).
Proof.
  rewrite (parse_binary_precedence _ (int_tok 1 0) (punct TK_PLUS) (int_tok 2 0)
             (punct TK_STAR) (int_tok 3 0) [punct TK_RPAREN] 16).
  - reflexivity.
  - reflexivity.
  - reflexivity.
  - reflexivity.
  - simpl. lia.
  - split; [simpl; lia | reflexivity].
  - lia.
Defined.

(** ** preprocess.c: [defined] and names in [#if] *)

Import PreprocessNames.

Section DefinedOperator.

Local Open Scope string_scope.

Variable macro_defined : string -> bool.

Lemma identifier_chars (s : string) :
  is_identifier s = true -> all_chars is_ident_char s = true.
Proof.
  destruct s as [|c q]; [discriminate|]. simpl.
  intro H. apply andb_prop in H as [H1 H2]. rewrite H2, andb_true_r.
  unfold is_ident_char, isalnum.
  destruct (isalpha c); trivial. simpl in *. rewrite H1. apply orb_true_r.
Qed.

Lemma ident_not_blank (c : ascii) : is_ident_char c = true -> is_blank c = false.
Proof.
  destruct c as [[] [] [] [] [] [] [] []]; intro H; try reflexivity;
    vm_compute in H; discriminate H.
Qed.

Lemma take_skip_ident (name r : string) :
  all_chars is_ident_char name = true -> ends_name r = true ->
  take_ident (name ++ r) = name /\ skip_ident (name ++ r) = r.
Proof.
  intros Hn Hr. induction name as [|c q IH].
  - cbn [append]. destruct r as [|d r']; [split; reflexivity|].
    cbn [ends_name] in Hr. apply negb_true_iff in Hr.
    cbn [take_ident skip_ident]. rewrite Hr. split; reflexivity.
  - cbn [all_chars] in Hn. apply andb_prop in Hn as [Hc Hq].
    cbn [append take_ident skip_ident]. rewrite Hc.
    destruct (IH Hq) as [-> ->]. split; reflexivity.
Qed.

Lemma substring_all (s : string) (n : nat) :
  (String.length s <= n)%nat -> String.substring 0 n s = s.
Proof.
  revert n. induction s as [|c s IH]; intros [|n] H; simpl in *; trivial;
    try lia.
  rewrite IH; trivial. lia.
Qed.

Lemma skip_blanks_name (name : string) (c : ascii) (r : string) :
  all_chars is_ident_char name = true -> is_blank c = false ->
  skip_blanks (name ++ String c r) = name ++ String c r.
Proof.
  intros Hn Hc. destruct name as [|d q]; cbn [append skip_blanks].
  - now rewrite Hc.
  - cbn [all_chars] in Hn. apply andb_prop in Hn as [Hd _].
    now rewrite (ident_not_blank d Hd).
Qed.

Lemma skip_blanks_identifier (name r : string) :
  is_identifier name = true -> skip_blanks (name ++ r) = name ++ r.
Proof.
  intro H. pose proof (identifier_chars name H) as A.
  destruct name as [|d q]; [discriminate H|].
  cbn [all_chars] in A. apply andb_prop in A as [Hd _].
  cbn [append skip_blanks]. now rewrite (ident_not_blank d Hd).
Qed.

(** A name other than [defined] is not taken for the operator. *)
Lemma name_not_operator (name : string) :
  all_chars is_ident_char name = true -> name <> "defined"%string ->
  at_defined name = false.
Proof.
  intros Hn Hd. unfold at_defined.
  destruct (String.prefix "defined" name) eqn:P; trivial.
  do 7 (destruct name as [|? name]; [discriminate P|];
        cbn [String.prefix] in P;
        match type of P with
        | (if ?d then _ else _) = true =>
            destruct d as [<-|]; [|discriminate P]
        end).
  destruct name as [|c rest]; [now elim Hd|].
  cbn [String.get]. do 7 (cbn [all_chars] in Hn; apply andb_prop in Hn as [_ Hn]).
  cbn [all_chars] in Hn. apply andb_prop in Hn as [Hc _].
  simpl. now rewrite Hc.
Qed.

Lemma primary_defined_paren (fuel : nat) (name r : string) :
  all_chars is_ident_char name = true ->
  (String.length name <= 255)%nat ->
  pp_eval_primary macro_defined (S fuel) ("defined(" ++ name ++ ")" ++ r)
  = Val (b2z (macro_defined name), r).
Proof.
  intros Hn Hl. simpl.
  rewrite (skip_blanks_name name ")" r Hn eq_refl).
  unfold defined_name.
  destruct (take_skip_ident name (String ")" r) Hn eq_refl) as [-> ->].
  rewrite (substring_all name 255 Hl). reflexivity.
Qed.

Lemma primary_defined_paren_end (fuel : nat) (name : string) :
  all_chars is_ident_char name = true ->
  (String.length name <= 255)%nat ->
  pp_eval_primary macro_defined (S fuel) ("defined(" ++ name ++ ")")
  = Val (b2z (macro_defined name), "").
Proof. exact (fun Hn Hl => primary_defined_paren fuel name "" Hn Hl). Qed.

Lemma primary_defined_bare (fuel : nat) (name r : string) :
  is_identifier name = true -> ends_name r = true ->
  (String.length name <= 255)%nat ->
  pp_eval_primary macro_defined (S fuel) ("defined " ++ name ++ r)
  = Val (b2z (macro_defined name), r).
Proof.
  intros Hi Hr Hl. pose proof (identifier_chars name Hi) as Hn.
  cbn [append pp_eval_primary skip_blanks is_blank Ascii.eqb Bool.eqb orb].
  assert (A : at_defined (String "d" (String "e" (String "f" (String "i"
                (String "n" (String "e" (String "d" (String " " (name ++ r)))))))))
              = true) by reflexivity.
  rewrite A.
  cbn [drop]. unfold defined_operand.
  cbn [skip_blanks is_blank Ascii.eqb Bool.eqb orb].
  rewrite !(skip_blanks_identifier name r Hi).
  destruct (take_skip_ident name r Hn Hr) as [T S].
  unfold defined_name. rewrite T, S, (substring_all name 255 Hl).
  destruct name as [|c q]; [discriminate Hi|].
  cbn [append].
  destruct c as [[] [] [] [] [] [] [] []]; try reflexivity;
    vm_compute in Hi; discriminate Hi.
Qed.

Lemma primary_identifier (fuel : nat) (name : string) :
  is_identifier name = true -> name <> "defined"%string ->
  pp_eval_primary macro_defined (S fuel) name = Val (0, EmptyString).
Proof.
  intros Hi Hd. pose proof (identifier_chars name Hi) as Hn.
  pose proof (name_not_operator name Hn Hd) as A.
  pose proof (skip_blanks_identifier name EmptyString Hi) as B.
  pose proof (take_skip_ident name EmptyString Hn eq_refl) as [_ S].
  rewrite append_nil_r in B, S.
  cbn [pp_eval_primary]. rewrite B.
  destruct name as [|c q]; [discriminate Hi|].
  rewrite A, S.
  cbn [is_identifier] in Hi. apply andb_prop in Hi as [Hc _].
  destruct c as [[] [] [] [] [] [] [] []]; try reflexivity;
    vm_compute in Hc; discriminate Hc.
Qed.

Lemma primary_not (fuel : nat) (q : string) :
  pp_eval_primary macro_defined (S fuel) (String "!" q)
  = obind (pp_eval_primary macro_defined fuel q)
          (fun '(v, r) => Val (b2z (v =? 0)%Z, r)).
Proof. reflexivity. Qed.

Lemma loop_at_name (fuel : nat) (lhs : Z) (c : ascii) (q : string) :
  isalpha c || Ascii.eqb c "_" = true ->
  pp_eval_loop macro_defined (S fuel) lhs (String c q) = Val lhs.
Proof.
  intro H.
  destruct c as [[] [] [] [] [] [] [] []]; try reflexivity;
    vm_compute in H; discriminate H.
Qed.

(** [2 * length + 2] units of fuel, with the first few in sight. *)
Lemma fuel_of_length (n : nat) :
  (3 <= n)%nat -> exists k, (2 * n + 2)%nat = S (S (S (S (S (S k))))).
Proof. intro H. exists (2 * n - 4)%nat. lia. Qed.

(** X9.  [defined(NAME)] and [defined NAME] give 1 when the macro table
    holds [NAME] and 0 when it does not; [!], [&&] and [||] combine two
    such tests as in C; a name that is not a macro stands for 0. *)
Theorem pp_eval_expr_defined (a b : string) :
  is_identifier a = true -> is_identifier b = true ->
  (String.length a <= 255)%nat -> (String.length b <= 255)%nat ->
  pp_eval_expr macro_defined ("defined(" ++ a ++ ")")
    = Val (b2z (macro_defined a))
  /\ pp_eval_expr macro_defined ("defined " ++ a)
    = Val (b2z (macro_defined a))
  /\ pp_eval_expr macro_defined ("!defined(" ++ a ++ ")")
    = Val (b2z (negb (macro_defined a)))
  /\ pp_eval_expr macro_defined ("defined(" ++ a ++ ") && defined(" ++ b ++ ")")
    = Val (b2z (macro_defined a && macro_defined b))
  /\ pp_eval_expr macro_defined ("defined(" ++ a ++ ") || defined(" ++ b ++ ")")
    = Val (b2z (macro_defined a || macro_defined b))
  /\ (a <> "defined" -> pp_eval_expr macro_defined a = Val 0).
Proof.
  intros Ia Ib La Lb.
  pose proof (identifier_chars a Ia) as Ca.
  pose proof (identifier_chars b Ib) as Cb.
  assert (Na : (1 <= String.length a)%nat)
    by (destruct a; [discriminate Ia | simpl; lia]).
  split; [|split; [|split; [|split; [|split]]]]; unfold pp_eval_expr.
  - destruct (fuel_of_length (String.length ("defined(" ++ a ++ ")")))
      as [k ->]; [simpl; lia|].
    cbn [pp_eval_expr_fuel].
    rewrite primary_defined_paren_end by assumption. reflexivity.
  - destruct (fuel_of_length (String.length ("defined " ++ a)))
      as [k ->]; [simpl; lia|].
    cbn [pp_eval_expr_fuel].
    replace ("defined " ++ a) with ("defined " ++ a ++ "")
      by (now rewrite append_nil_r).
    rewrite primary_defined_bare by (trivial; reflexivity). reflexivity.
  - destruct (fuel_of_length (String.length ("!defined(" ++ a ++ ")")))
      as [k ->]; [simpl; lia|].
    cbn [pp_eval_expr_fuel].
    change ("!defined(" ++ a ++ ")") with (String "!" ("defined(" ++ a ++ ")")).
    rewrite primary_not, primary_defined_paren_end by assumption.
    cbn [obind]. rewrite loop_end.
    destruct (macro_defined a); reflexivity.
  - destruct (fuel_of_length
                (String.length ("defined(" ++ a ++ ") && defined(" ++ b ++ ")")))
      as [k ->]; [simpl; lia|].
    cbn [pp_eval_expr_fuel].
    change ("defined(" ++ a ++ ") && defined(" ++ b ++ ")")
      with ("defined(" ++ a ++ ")" ++ String " " (String "&" (String "&"
              (String " " ("defined(" ++ b ++ ")"))))).
    rewrite primary_defined_paren by assumption.
    cbn [obind]. rewrite loop_blank, loop_and.
    destruct (macro_defined a); cbn [b2z z2b Z.eqb negb andb].
    + rewrite primary_blank; rewrite primary_defined_paren_end by assumption.
      cbn [obind]. rewrite loop_end. destruct (macro_defined b); reflexivity.
    + rewrite loop_blank. apply loop_at_name. reflexivity.
  - destruct (fuel_of_length
                (String.length ("defined(" ++ a ++ ") || defined(" ++ b ++ ")")))
      as [k ->]; [simpl; lia|].
    cbn [pp_eval_expr_fuel].
    change ("defined(" ++ a ++ ") || defined(" ++ b ++ ")")
      with ("defined(" ++ a ++ ")" ++ String " " (String "|" (String "|"
              (String " " ("defined(" ++ b ++ ")"))))).
    rewrite primary_defined_paren by assumption.
    cbn [obind]. rewrite loop_blank, loop_or.
    destruct (macro_defined a); cbn [b2z z2b Z.eqb negb orb].
    + rewrite loop_blank. apply loop_at_name. reflexivity.
    + rewrite primary_blank; rewrite primary_defined_paren_end by assumption.
      cbn [obind]. rewrite loop_end. destruct (macro_defined b); reflexivity.
  - intro Hd.
    assert (E : exists k, (2 * String.length a + 2)%nat = S (S (S k)))
      by (exists (2 * String.length a - 1)%nat; lia).
    destruct E as [k ->].
    cbn [pp_eval_expr_fuel].
    rewrite primary_identifier by assumption.
    cbn [obind]. apply loop_end.
Qed.

End DefinedOperator.

Lemma pp_eval_expr_defined_witness :
  pp_eval_expr (String.eqb "FOO") "defined(FOO) && defined(BAR)" = Val 0
  /\ pp_eval_expr (String.eqb "FOO") "defined FOO" = Val 1
  /\ pp_eval_expr (String.eqb "FOO") "BAR" = Val 0.
Proof.
  destruct (pp_eval_expr_defined (String.eqb "FOO") "FOO" "BAR" eq_refl eq_refl)
    as (_ & H2 & _ & H4 & _); [simpl; lia | simpl; lia |].
  destruct (pp_eval_expr_defined (String.eqb "FOO") "BAR" "FOO" eq_refl eq_refl)
    as (_ & _ & _ & _ & _ & H6); [simpl; lia | simpl; lia |].
  split; [exact H4|]. split; [exact H2|]. apply H6. discriminate.
Defined.

(** ** preprocess.c: the macro table *)

Import MacroTable.

Lemma macro_hash_bound (name : string) : (macro_hash name < MACRO_TABLE_SIZE)%nat.
Proof.
  unfold macro_hash, MACRO_TABLE_SIZE.
  pose proof (Z.mod_pos_bound (hash_loop 0 name) (Z.of_nat 1024)) as H.
  change (Z.of_nat 1024) with 1024 in *. lia.
Qed.

Lemma Forall_set_bucket {A : Set} (P : list A -> Prop) (tbl : list (list A)) h chain :
  Forall P tbl -> P chain -> Forall P (set_bucket tbl h chain).
Proof.
  intros H Hc. revert h. induction H as [|b tbl Hb Ht IH]; intros [|h]; simpl;
    constructor; auto.
Qed.

Lemma Forall_bucket {A : Set} (P : list A -> Prop) (tbl : list (list A)) h :
  Forall P tbl -> P [] -> P (bucket tbl h).
Proof.
  intros H H0. unfold bucket. revert h.
  induction H as [|b tbl Hb Ht IH]; intros [|h]; simpl; auto.
Qed.

Lemma chain_redefine_some chain name body f ps v chain' :
  chain_redefine chain name body f ps v = Some chain' ->
  chain_unique chain ->
  (exists m, chain_find_macro chain' name = Some m /\ macro_name m = name
             /\ macro_body m = body /\ params m = ps /\ is_func m = f
             /\ is_variadic m = v)
  /\ (forall other, other <> name ->
        chain_find_macro chain' other = chain_find_macro chain other)
  /\ chain_unique chain'.
Proof.
  revert chain'. induction chain as [|x rest IH]; intros chain'; simpl;
    [discriminate|].
  destruct (String.eqb (macro_name x) name) eqn:E.
  - intros [= <-] [U1 U2]. pose proof E as E'. apply String.eqb_eq in E'.
    split; [|split].
    + eexists. simpl. rewrite E. repeat split; trivial.
    + intros other Ho. simpl. rewrite E'.
      destruct (String.eqb name other) eqn:N; trivial.
      apply String.eqb_eq in N. congruence.
    + simpl. auto.
  - destruct (chain_redefine rest name body f ps v) as [rest'|] eqn:R;
      [|discriminate].
    intros [= <-] [U1 U2]. destruct (IH _ eq_refl U2) as ((m & F & G) & O & U).
    split; [|split].
    + exists m. simpl. rewrite E. auto.
    + intros other Ho. simpl. now rewrite O.
    + simpl. split; trivial. rewrite O; trivial.
      intro H. rewrite H, String.eqb_refl in E. discriminate E.
Qed.

Lemma chain_redefine_none chain name body f ps v :
  chain_redefine chain name body f ps v = None ->
  chain_find_macro chain name = None.
Proof.
  induction chain as [|x rest IH]; simpl; trivial.
  destruct (String.eqb (macro_name x) name); [discriminate|].
  destruct (chain_redefine rest name body f ps v); [discriminate|auto].
Qed.

Lemma chain_unlink_spec chain name :
  chain_unique chain ->
  chain_find_macro (chain_unlink chain name) name = None
  /\ (forall other, other <> name ->
        chain_find_macro (chain_unlink chain name) other
        = chain_find_macro chain other)
  /\ chain_unique (chain_unlink chain name).
Proof.
  induction chain as [|x rest IH]; simpl; [auto|].
  intros [U1 U2]. destruct (IH U2) as (F & O & U).
  destruct (String.eqb (macro_name x) name) eqn:E.
  - apply String.eqb_eq in E. subst name. split; [exact U1|]. split; trivial.
    intros other Ho. destruct (String.eqb (macro_name x) other) eqn:N; trivial.
    apply String.eqb_eq in N. congruence.
  - simpl. rewrite E. split; [exact F|]. split.
    + intros other Ho. now rewrite O.
    + split; trivial. rewrite O; trivial.
      intro H. rewrite H, String.eqb_refl in E. discriminate E.
Qed.

Lemma find_macro_set_bucket (tbl : MacroTable) h chain other :
  List.length tbl = MACRO_TABLE_SIZE -> (h < MACRO_TABLE_SIZE)%nat ->
  find_macro (set_bucket tbl h chain) other
  = if Nat.eqb h (macro_hash other) then chain_find_macro chain other
    else find_macro tbl other.
Proof.
  intros L Hh. unfold find_macro.
  destruct (Nat.eqb h (macro_hash other)) eqn:E.
  - apply Nat.eqb_eq in E. subst. rewrite bucket_set_bucket; trivial. lia.
  - apply Nat.eqb_neq in E. now rewrite bucket_set_bucket_other.
Qed.

(** X10.  The macro table is a finite map from names: [define_macro] binds
    the name to the new body and parameters (a macro of that name is
    overwritten in place, never doubled), [undef_macro] removes the
    binding, and neither touches any other name. *)
Theorem macro_table_map (tbl : MacroTable) (name body : string) (f : bool)
    (ps : list string) (v : bool) :
  table_wf tbl ->
  let tbl' := define_macro tbl name body f ps v in
  table_wf tbl'
  /\ (exists m, find_macro tbl' name = Some m /\ macro_name m = name
                /\ macro_body m = body /\ params m = ps /\ is_func m = f
                /\ is_variadic m = v)
  /\ (forall other, other <> name -> find_macro tbl' other = find_macro tbl other)
  /\ table_wf (undef_macro tbl name)
  /\ find_macro (undef_macro tbl name) name = None
  /\ find_macro (undef_macro tbl' name) name = None
  /\ (forall other, other <> name ->
        find_macro (undef_macro tbl name) other = find_macro tbl other).
Proof.
  intros [L U] tbl'.
  pose proof (macro_hash_bound name) as HB.
  assert (Ub : chain_unique (bucket tbl (macro_hash name)))
    by (apply Forall_bucket; simpl; trivial).
  assert (D : table_wf tbl'
              /\ (exists m, find_macro tbl' name = Some m /\ macro_name m = name
                    /\ macro_body m = body /\ params m = ps /\ is_func m = f
                    /\ is_variadic m = v)
              /\ (forall other, other <> name ->
                    find_macro tbl' other = find_macro tbl other)).
  { unfold tbl', define_macro.
    destruct (chain_redefine (bucket tbl (macro_hash name)) name body f ps v)
      as [chain'|] eqn:R.
    - destruct (chain_redefine_some _ _ _ _ _ _ _ R Ub) as (F & O & U').
      split; [|split].
      + split; [now rewrite length_set_bucket | now apply Forall_set_bucket].
      + rewrite find_macro_set_bucket, Nat.eqb_refl by assumption. exact F.
      + intros other Ho. rewrite find_macro_set_bucket by assumption.
        destruct (Nat.eqb (macro_hash name) (macro_hash other)) eqn:E; trivial.
        apply Nat.eqb_eq in E. unfold find_macro. rewrite <- E. now apply O.
    - apply chain_redefine_none in R.
      split; [|split].
      + split; [now rewrite length_set_bucket|].
        apply Forall_set_bucket; trivial. simpl. auto.
      + rewrite find_macro_set_bucket, Nat.eqb_refl by assumption.
        eexists. simpl. rewrite String.eqb_refl. repeat split; trivial.
      + intros other Ho. rewrite find_macro_set_bucket by assumption.
        destruct (Nat.eqb (macro_hash name) (macro_hash other)) eqn:E; trivial.
        apply Nat.eqb_eq in E. simpl.
        destruct (String.eqb name other) eqn:N.
        * apply String.eqb_eq in N. congruence.
        * unfold find_macro. now rewrite <- E. }
  assert (R : forall t, table_wf t ->
              table_wf (undef_macro t name)
              /\ find_macro (undef_macro t name) name = None
              /\ (forall other, other <> name ->
                    find_macro (undef_macro t name) other = find_macro t other)).
  { intros t [Lt Ut]. unfold undef_macro.
    assert (Uc : chain_unique (bucket t (macro_hash name)))
      by (apply Forall_bucket; simpl; trivial).
    destruct (chain_unlink_spec _ name Uc) as (F & O & U').
    split; [|split].
    - split; [now rewrite length_set_bucket | now apply Forall_set_bucket].
    - rewrite find_macro_set_bucket, Nat.eqb_refl by assumption. exact F.
    - intros other Ho. rewrite find_macro_set_bucket by assumption.
      destruct (Nat.eqb (macro_hash name) (macro_hash other)) eqn:E; trivial.
      apply Nat.eqb_eq in E. unfold find_macro. rewrite <- E. now apply O. }
  destruct D as (D1 & D2 & D3).
  destruct (R tbl (conj L U)) as (R1 & R2 & R3).
  destruct (R tbl' D1) as (_ & R2' & _).
  repeat split; trivial; apply D1 || apply R1.
Qed.

Lemma macro_table_map_witness :
  table_wf empty_macro_table
  /\ (exists m, find_macro (define_macro empty_macro_table "N" "42" false [] false) "N"
                = Some m /\ macro_body m = "42"%string)
  /\ find_macro (undef_macro (define_macro empty_macro_table "N" "42" false [] false)
                             "N") "N" = None.
Proof.
  assert (W : table_wf empty_macro_table).
  { split; [reflexivity|]. unfold empty_macro_table.
    apply Forall_forall. intros c Hc. apply repeat_spec in Hc. subst. exact I. }
  destruct (macro_table_map empty_macro_table "N" "42" false [] false W)
    as (_ & (m & F & _ & B & _) & _ & _ & _ & U & _).
  split; [exact W|]. split; [|exact U].
  exists m. split; assumption.
Defined.

(** ** parser.c: enumerators *)

Lemma wrap_add_l (w a b : Z) : 0 < w -> wrap w (wrap w a + b) = wrap w (a + b).
Proof.
  intro Hw. unfold wrap.
  assert (P : 0 < 2 ^ w) by (apply Z.pow_pos_nonneg; lia).
  f_equal.
  replace ((a + 2 ^ (w - 1)) mod 2 ^ w - 2 ^ (w - 1) + b + 2 ^ (w - 1))
    with ((a + 2 ^ (w - 1)) mod 2 ^ w + b) by lia.
  rewrite Zplus_mod_idemp_l. f_equal. lia.
Qed.

Lemma wrap64_in_range (v : Z) : LLONG_MIN <= v <= LLONG_MAX -> wrap64 v = v.
Proof.
  unfold wrap64, wrap, LLONG_MIN, LLONG_MAX. intro H.
  rewrite Z.mod_small; lia.
Qed.

Lemma set_bucket_twice {A : Set} (tbl : list (list A)) h c1 c2 :
  set_bucket (set_bucket tbl h c1) h c2 = set_bucket tbl h c2.
Proof.
  revert h. induction tbl as [|b tbl IH]; intros [|h]; simpl; trivial.
  now rewrite IH.
Qed.

Lemma symtab_lookup_through (st : SymTab) (name : string) :
  symtab_lookup st name
  = match symtab_lookup_current st name with
    | Some s => Some s
    | None => scopes_find (parents st) name
    end.
Proof. reflexivity. Qed.

(** [symtab_define] of a fresh enumerator, and [es->enum_val = val]. *)
Lemma define_enum_const_fresh (n : string) (loc : SrcLoc) (v : Z) (p : PState) :
  scope_wf (current (symtab p)) ->
  symtab_lookup_current (symtab p) n = None ->
  exists st1,
    define_enum_const n loc v p = Some (tt, set_symtab p st1)
    /\ parents st1 = parents (symtab p)
    /\ scope_wf (current st1)
    /\ (exists s, symtab_lookup_current st1 n = Some s
                  /\ sym_kind s = SYM_ENUM_CONST /\ sym_type s = Some ty_int
                  /\ enum_val s = v)
    /\ (forall other, other <> n ->
          symtab_lookup_current st1 other = symtab_lookup_current (symtab p) other).
Proof.
  intros WF Fr. pose proof (sym_hash_bound n) as HB.
  unfold define_enum_const, symtab_define.
  unfold symtab_lookup_current, scope_find in Fr.
  rewrite (chain_find_none_scan _ _ SYM_ENUM_CONST (Some ty_int) Fr).
  cbn [current parents syms set_syms].
  rewrite bucket_set_bucket by (unfold scope_wf in WF; lia).
  cbn [chain_set_enum_val sym_name]. rewrite String.eqb_refl.
  rewrite set_bucket_twice.
  exists (mkSymTab
            (set_syms (current (symtab p))
               (set_bucket (syms (current (symtab p))) (sym_hash n)
                  (set_enum_val
                     (mkSymbol n SYM_ENUM_CONST (Some ty_int) SC_NONE 0 0 false
                        (negb (Nat.eqb (List.length (parents (symtab p))) 0)) loc) v
                   :: bucket (syms (current (symtab p))) (sym_hash n))))
            (parents (symtab p))).
  split; [reflexivity|].
  split; [reflexivity|]. split.
  { unfold scope_wf in *. cbn [current syms set_syms].
    now rewrite length_set_bucket. }
  unfold symtab_lookup_current. cbn [current].
  split.
  - eexists. rewrite scope_find_set_bucket, Nat.eqb_refl by assumption.
    cbn [chain_find sym_name set_enum_val]. rewrite String.eqb_refl.
    repeat split; reflexivity.
  - intros other Ho. rewrite scope_find_set_bucket by assumption.
    destruct (Nat.eqb (sym_hash n) (sym_hash other)) eqn:E; trivial.
    apply Nat.eqb_eq in E.
    cbn [chain_find sym_name set_enum_val].
    destruct (String.eqb n other) eqn:E'.
    + apply String.eqb_eq in E'. congruence.
    + unfold scope_find. now rewrite E.
Qed.

Lemma enum_step_comma (f : nat) (v : Z) (p : PState) (n : string) (l : list Token) :
  parse_enumerators (S f) v (set_lexer p (ident_tok n :: punct TK_COMMA :: l))
  = match define_enum_const n no_loc v (set_lexer p (punct TK_COMMA :: l)) with
    | Some (_, p1) => parse_enumerators f (wrap64 (v + 1)) (set_lexer p1 l)
    | None => None
    end.
Proof.
  cbn [parse_enumerators]. unfold bind, get_tok, NEXT, MATCH, ret, TOK.
  cbn [lexer set_lexer cur hd tk_kind ident_tok lexer_next tl punct tk_str tk_loc].
  unfold lexer_match.
  cbn [lexer set_lexer cur hd tk_kind ident_tok lexer_next tl punct tk_str tk_loc].
  change (TokenKind_eqb TK_COMMA TK_ASSIGN) with false.
  change (TokenKind_eqb TK_RBRACE TK_ASSIGN) with false.
  cbv iota. unfold define_enum_const.
  cbn [symtab errs set_lexer lexer].
  destruct (symtab_define (symtab p) n SYM_ENUM_CONST (Some ty_int) no_loc (errs p))
    as [[s st] es].
  reflexivity.
Qed.

Lemma enum_step_last (f : nat) (v : Z) (p : PState) (n : string) (l : list Token) :
  parse_enumerators (S f) v (set_lexer p (ident_tok n :: punct TK_RBRACE :: l))
  = match define_enum_const n no_loc v (set_lexer p (punct TK_RBRACE :: l)) with
    | Some (_, p1) => Some (tt, set_lexer p1 l)
    | None => None
    end.
Proof.
  cbn [parse_enumerators]. unfold bind, get_tok, NEXT, MATCH, ret, TOK.
  cbn [lexer set_lexer cur hd tk_kind ident_tok lexer_next tl punct tk_str tk_loc].
  unfold lexer_match.
  cbn [lexer set_lexer cur hd tk_kind ident_tok lexer_next tl punct tk_str tk_loc].
  change (TokenKind_eqb TK_COMMA TK_ASSIGN) with false.
  change (TokenKind_eqb TK_RBRACE TK_ASSIGN) with false.
  cbv iota. unfold define_enum_const.
  cbn [symtab errs set_lexer lexer].
  destruct (symtab_define (symtab p) n SYM_ENUM_CONST (Some ty_int) no_loc (errs p))
    as [[s st] es].
  reflexivity.
Qed.

Lemma enum_step_end (f : nat) (v : Z) (p : PState) (l : list Token) :
  parse_enumerators (S f) v (set_lexer p (punct TK_RBRACE :: l))
  = Some (tt, set_lexer p l).
Proof. reflexivity. Qed.

Lemma enumerators_loop : forall (names : list string) (v : Z) (p : PState)
    (tail : list Token) (k : nat),
  LLONG_MIN <= v <= LLONG_MAX ->
  scope_wf (current (symtab p)) ->
  NoDup names ->
  Forall (fun n => symtab_lookup_current (symtab p) n = None) names ->
  exists st',
    parse_enumerators (List.length names + 1 + k) v
      (set_lexer p (enumerator_tokens names ++ punct TK_RBRACE :: tail))
    = Some (tt, set_symtab (set_lexer p tail) st')
    /\ parents st' = parents (symtab p)
    /\ (forall i n, nth_error names i = Some n ->
          exists s, symtab_lookup st' n = Some s
                    /\ sym_kind s = SYM_ENUM_CONST /\ sym_type s = Some ty_int
                    /\ enum_val s = wrap64 (v + Z.of_nat i))
    /\ (forall other, ~ In other names ->
          symtab_lookup_current st' other
          = symtab_lookup_current (symtab p) other).
Proof.
  induction names as [|n names IH]; intros v p tail k Hv WF ND Fr.
  - exists (symtab p). cbn [List.length enumerator_tokens app Nat.add].
    rewrite enum_step_end. split; [destruct p; reflexivity|].
    split; [reflexivity|]. split; [|reflexivity].
    intros [|i] m H; discriminate H.
  - inversion ND as [|? ? Nin ND']; subst.
    inversion Fr as [|? ? Fn Fr']; subst.
    destruct (define_enum_const_fresh n no_loc v p WF Fn)
      as (st1 & D & P1 & WF1 & (s & L1 & K1 & T1 & V1) & O1).
    assert (Here : forall st', parents st' = parents st1 ->
              (forall other, ~ In other names ->
                 symtab_lookup_current st' other = symtab_lookup_current st1 other) ->
              exists s0, symtab_lookup st' n = Some s0
                         /\ sym_kind s0 = SYM_ENUM_CONST
                         /\ sym_type s0 = Some ty_int
                         /\ enum_val s0 = wrap64 (v + Z.of_nat 0)).
    { intros st' _ O. exists s. rewrite symtab_lookup_through, (O n Nin), L1.
      repeat split; trivial. rewrite Z.add_0_r, wrap64_in_range; trivial. }
    destruct names as [|m names].
    + exists st1. cbn [List.length enumerator_tokens app Nat.add].
      rewrite enum_step_last.
      assert (D' : define_enum_const n no_loc v
                     (set_lexer p (punct TK_RBRACE :: tail))
                   = Some (tt, set_symtab (set_lexer p (punct TK_RBRACE :: tail)) st1)).
      { unfold define_enum_const in *. cbn [symtab errs set_lexer] in *.
        destruct (symtab_define (symtab p) n SYM_ENUM_CONST (Some ty_int) no_loc
                    (errs p)) as [[s0 st0] es0].
        injection D as Ds De. rewrite Ds, De. reflexivity. }
      rewrite D'. split; [reflexivity|]. split; [exact P1|]. split.
      * intros [|[|i]] x H; try discriminate H. injection H as <-.
        apply (Here st1); trivial.
      * intros other Ho. apply O1. intro E. apply Ho. now left.
    + set (p1 := set_symtab p st1).
      assert (Fr1 : Forall (fun x => symtab_lookup_current (symtab p1) x = None)
                           (m :: names)).
      { apply Forall_forall. intros x Hx. cbn [p1 symtab set_symtab].
        rewrite O1; [exact (proj1 (Forall_forall _ _) Fr' x Hx)|].
        intro E. subst. contradiction. }
      assert (Hv1 : LLONG_MIN <= wrap64 (v + 1) <= LLONG_MAX).
      { unfold wrap64, wrap, LLONG_MIN, LLONG_MAX.
        pose proof (Z.mod_pos_bound (v + 1 + 2 ^ (64 - 1)) (2 ^ 64) eq_refl).
        change (2 ^ (64 - 1)) with 9223372036854775808 in *.
        change (2 ^ 64) with 18446744073709551616 in *.
        change (2 ^ 63) with 9223372036854775808. lia. }
      destruct (IH (wrap64 (v + 1)) p1 tail k Hv1 WF1 ND' Fr1)
        as (st' & R & P' & Vs & O').
      exists st'.
      change (List.length (n :: m :: names) + 1 + k)%nat
        with (S (List.length (m :: names) + 1 + k)).
      change (enumerator_tokens (n :: m :: names) ++ punct TK_RBRACE :: tail)
        with (ident_tok n :: punct TK_COMMA
              :: (enumerator_tokens (m :: names) ++ punct TK_RBRACE :: tail)).
      rewrite enum_step_comma.
      assert (D' : forall l, define_enum_const n no_loc v (set_lexer p l)
                   = Some (tt, set_symtab (set_lexer p l) st1)).
      { intro l. unfold define_enum_const in *. cbn [symtab errs set_lexer] in *.
        destruct (symtab_define (symtab p) n SYM_ENUM_CONST (Some ty_int) no_loc
                    (errs p)) as [[s0 st0] es0].
        injection D as Ds De. rewrite Ds, De. reflexivity. }
      rewrite D'.
      change (set_lexer (set_symtab (set_lexer p (punct TK_COMMA
                :: enumerator_tokens (m :: names) ++ punct TK_RBRACE :: tail)) st1)
                (enumerator_tokens (m :: names) ++ punct TK_RBRACE :: tail))
        with (set_lexer p1 (enumerator_tokens (m :: names)
                            ++ punct TK_RBRACE :: tail)).
      rewrite R. split; [reflexivity|].
      split; [now rewrite P'|]. split.
      * intros [|i] x H.
        -- injection H as <-. apply (Here st'); trivial.
        -- destruct (Vs i x H) as (s0 & A & B & C & E).
           exists s0. repeat split; trivial.
           rewrite E. unfold wrap64. rewrite wrap_add_l by lia.
           f_equal. lia.
      * intros other Ho. rewrite O'.
        -- cbn [p1 symtab set_symtab]. apply O1. intro E. apply Ho. now left.
        -- intro E. apply Ho. now right.
Qed.

(** X11.  Enumerators without initializers count up from the running value:
    after the list [n0, n1, ..., nk }] of new, distinct names, the
    i-th name is an enumeration constant of type [int] with value
    [val + i]; nothing is reported, the closing brace is consumed, and
    no other name changes.  The count is assumed not to pass
    [LLONG_MAX]. *)
Theorem parse_enumerators_count (names : list string) (v : Z) (p : PState)
    (tail : list Token) (fuel : nat) :
  LLONG_MIN <= v -> v + Z.of_nat (List.length names) <= LLONG_MAX ->
  scope_wf (current (symtab p)) ->
  NoDup names ->
  Forall (fun n => symtab_lookup_current (symtab p) n = None) names ->
  (List.length names + 1 <= fuel)%nat ->
  exists st',
    parse_enumerators fuel v
      (set_lexer p (enumerator_tokens names ++ punct TK_RBRACE :: tail))
    = Some (tt, set_symtab (set_lexer p tail) st')
    /\ (forall i n, nth_error names i = Some n ->
          exists s, symtab_lookup st' n = Some s
                    /\ sym_kind s = SYM_ENUM_CONST /\ sym_type s = Some ty_int
                    /\ enum_val s = v + Z.of_nat i)
    /\ (forall other, ~ In other names ->
          symtab_lookup st' other = symtab_lookup (symtab p) other).
Proof.
  intros Hv Hm WF ND Fr F.
  destruct (enumerators_loop names v p tail (fuel - List.length names - 1)
              ltac:(lia) WF ND Fr) as (st' & R & P & Vs & O).
  exists st'.
  replace (List.length names + 1 + (fuel - List.length names - 1))%nat
    with fuel in R by lia.
  split; [exact R|]. split.
  - intros i n H. destruct (Vs i n H) as (s & A & B & C & E).
    exists s. repeat split; trivial. rewrite E.
    assert (i < List.length names)%nat
      by (apply nth_error_Some; congruence).
    apply wrap64_in_range. lia.
  - intros other Ho. rewrite !symtab_lookup_through, (O other Ho), P. reflexivity.
Qed.

Lemma parse_enumerators_count_witness :
  exists st',
    parse_enumerators 8 0
      (set_lexer (parser_init [] arena_after_init symtab_init [])
         (enumerator_tokens ["RED"; "GREEN"; "BLUE"]%string
          ++ punct TK_RBRACE :: [punct TK_SEMICOLON]))
    = Some (tt, set_symtab
                  (set_lexer (parser_init [] arena_after_init symtab_init [])
                             [punct TK_SEMICOLON]) st')
    /\ option_map enum_val (symtab_lookup st' "BLUE") = Some 2.
Proof.
  destruct (parse_enumerators_count ["RED"; "GREEN"; "BLUE"]%string 0
              (parser_init [] arena_after_init symtab_init [])
              [punct TK_SEMICOLON] 8) as (st' & R & Vs & _).
  - unfold LLONG_MIN. lia.
  - unfold LLONG_MAX. simpl. lia.
  - reflexivity.
  - repeat constructor; simpl; intuition discriminate.
  - repeat constructor.
  - simpl. lia.
  - exists st'. split; [exact R|].
    destruct (Vs 2%nat "BLUE"%string eq_refl) as (s & L & _ & _ & V).
    rewrite L. simpl. now rewrite V.
Defined.

(** ** codegen.c: statements only append *)

Lemma emit_emit (cg : CodeGen) (a b : string) :
  emit (emit cg a) b = emit cg (a ++ b)%string.
Proof. unfold emit. simpl. now rewrite append_assoc. Qed.

Lemma emit_nothing (cg : CodeGen) : cg = emit cg EmptyString.
Proof. destruct cg. unfold emit. simpl. now rewrite append_nil_r. Qed.

Lemma wrap32_in_int (x : Z) : in_int (wrap32 x).
Proof.
  unfold in_int, INT_MIN, INT_MAX, wrap32, wrap.
  pose proof (Z.mod_pos_bound (x + 2 ^ (32 - 1)) (2 ^ 32) eq_refl).
  change (2 ^ (32 - 1)) with 2147483648 in *.
  change (2 ^ 32) with 4294967296 in *. change (2 ^ 31) with 2147483648. lia.
Qed.

(** [cg->indent++; ...; cg->indent--] around text appended at the
    deeper level. *)
Lemma indent_round_trip (cg : CodeGen) (t : string) :
  in_int (indent cg) ->
  set_indent (emit (set_indent cg (wrap32 (indent cg + 1))) t)
             (wrap32 (indent (emit (set_indent cg (wrap32 (indent cg + 1))) t) - 1))
  = emit cg t.
Proof.
  intro R. unfold set_indent, emit. simpl. f_equal.
  change (wrap32 (indent cg + 1) - 1) with (wrap32 (indent cg + 1) + (-1)).
  unfold wrap32 at 1. rewrite wrap_add_l by lia.
  replace (indent cg + 1 + -1) with (indent cg) by lia. now apply wrap32_id.
Qed.

Lemma emit_expr_appends (cg cg' : CodeGen) (o : option Node) :
  emit_expr cg o = Some cg' -> exists t, cg' = emit cg t.
Proof.
  unfold emit_expr. destruct (gen_expr_opt o) as [t|]; [|discriminate].
  intros [= <-]. now exists t.
Qed.

Ltac appended :=
  repeat match goal with
         | H : exists t, _ = emit _ t |- _ => destruct H as [? ->]
         | |- context [emit (emit _ _) _] => rewrite emit_emit
         | |- context [emit_indent ?c] => unfold emit_indent
         | |- context [emitln ?c _] => unfold emitln
         end;
  eexists; reflexivity.

Import CodeGenShapes.

Lemma appended_refl (cg : CodeGen) : appended cg cg.
Proof. exists EmptyString. apply emit_nothing. Qed.

Lemma appended_step (cg c : CodeGen) (t : string) :
  appended cg c -> appended cg (emit c t).
Proof. intros [a ->]. rewrite emit_emit. now eexists. Qed.

Lemma appended_trans (a b c : CodeGen) :
  appended a b -> appended b c -> appended a c.
Proof. intros [x ->] [y ->]. rewrite emit_emit. now eexists. Qed.

Lemma appended_in_int (cg c : CodeGen) :
  appended cg c -> in_int (indent cg) -> in_int (indent c).
Proof. now intros [t ->]. Qed.

Lemma emit_expr_appended (cg c c' : CodeGen) (o : option Node) :
  appended cg c -> emit_expr c o = Some c' -> appended cg c'.
Proof.
  intros A E. apply emit_expr_appends in E. now apply appended_trans with c.
Qed.

Lemma one_level_deeper_appended (gen : CodeGen -> option CodeGen)
    (cg c c' : CodeGen) :
  in_int (indent cg) -> appended cg c ->
  (forall c0 c1, in_int (indent c0) -> gen c0 = Some c1 -> appended c0 c1) ->
  one_level_deeper gen c = Some c' -> appended cg c'.
Proof.
  intros R A G. unfold one_level_deeper.
  pose proof (appended_in_int cg c A R) as Rc.
  destruct (gen (set_indent c (wrap32 (indent c + 1)))) as [c1|] eqn:E;
    [|discriminate].
  cbn [and_then]. intros [= <-].
  apply G in E; [|apply wrap32_in_int].
  destruct E as [t ->]. apply appended_trans with c; trivial.
  exists t. now apply indent_round_trip.
Qed.

Ltac app_tac :=
  unfold emitln, emit_indent;
  repeat first [ assumption | apply appended_refl | apply appended_step ].

(** The body of [gen_stmts] at a node whose fields are given. *)
Lemma gen_stmts_unfold (follow : bool) (k : NodeKind) (ty : option CType)
    (loc : SrcLoc) (l r th nx : option Node) (iv : Z) (ft : string) (cv : Z)
    (nm : string) (bd : option Node) (ct : option CType)
    (ce cexp : option Node) (cval : Z) (cg : CodeGen) :
  gen_stmts follow
    (mkNode k ty loc l r th nx iv ft cv nm bd ct ce cexp cval) cg =
  (let one (o : option Node) (cg : CodeGen) : option CodeGen :=
    match o with Some m => gen_stmts false m cg | None => Some cg end in
  let nested (o : option Node) (cg : CodeGen) : option CodeGen :=
    and_then (one o (set_indent cg (wrap32 (indent cg + 1))))
             (fun cg => Some (set_indent cg (wrap32 (indent cg - 1)))) in
  let this : option CodeGen :=
    match k with
    | ND_BLOCK =>
        match bd with
        | Some s => gen_stmts true s cg
        | None => Some cg
        end
    | ND_EXPR_STMT =>
        and_then (emit_expr (emit_indent cg) l)
                 (fun cg => Some (emit cg (";" ++ newline)))
    | ND_IF =>
        and_then (emit_expr (emit (emit_indent cg) "if (") l) (fun cg =>
        and_then (nested r (emit cg (") {" ++ newline))) (fun cg =>
        match th with
        | Some e =>
            and_then (nested (Some e) (emitln cg "} else {")) (fun cg =>
            Some (emitln cg "}"))
        | None => Some (emitln cg "}")
        end))
    | ND_WHILE =>
        and_then (emit_expr (emit (emit_indent cg) "while (") l) (fun cg =>
        and_then (nested r (emit cg (") {" ++ newline))) (fun cg =>
        Some (emitln cg "}")))
    | ND_DO_WHILE =>
        and_then (nested r (emitln cg "do {")) (fun cg =>
        and_then (emit_expr (emit (emit_indent cg) "} while (") l) (fun cg =>
        Some (emit cg (");" ++ newline))))
    | ND_BREAK => Some (emitln cg "break;")
    | ND_CONTINUE => Some (emitln cg "continue;")
    | ND_RETURN =>
        match l with
        | Some e =>
            if is_aggregate (current_func_ret_type cg) then
              and_then (emit_expr (emit (emit_indent cg) "rt.memcpy(p___retptr, ")
                                  (Some e)) (fun cg =>
              Some (emitln
                      (emit cg (", " ++ print_int (type_sz (current_func_ret_type cg))
                                ++ ");" ++ newline))
                      "rt.mem.sp = saved_sp; return p___retptr;"))
            else
              and_then (emit_expr (emit (emit_indent cg) "var __ret = ") (Some e))
                       (fun cg =>
              Some (emit cg ("; rt.mem.sp = saved_sp; return __ret;" ++ newline)))
        | None => Some (emitln cg "rt.mem.sp = saved_sp; return;")
        end
    | ND_NULL_STMT | ND_TYPEDEF => Some cg
    | ND_VAR_DECL | ND_FOR | ND_SWITCH | ND_CASE | ND_DEFAULT
    | ND_GOTO | ND_LABEL => None
    | _ =>
        and_then (emit_expr (emit_indent cg)
                    (Some (mkNode k ty loc l r th nx iv ft cv nm bd ct ce
                                  cexp cval)))
                 (fun cg => Some (emit cg (";" ++ newline)))
    end in
  if follow then
    match nx with
    | Some s => and_then this (gen_stmts true s)
    | None => this
    end
  else this)%string.
Proof. reflexivity. Qed.

Lemma gen_stmts_follow (n : Node) (cg : CodeGen) :
  gen_stmts true n cg
  = match next n with
    | Some s => and_then (gen_stmts false n cg) (gen_stmts true s)
    | None => gen_stmts false n cg
    end.
Proof. destruct n. reflexivity. Qed.

(** Induction over the nodes an AST node points to. *)
Lemma node_children_ind (P : Node -> Prop) :
  (forall n, (forall m, child m n -> P m) -> P n) -> forall n, P n.
Proof.
  intro Step. fix IH 1.
  intros [k ty loc l r th nx iv ft cv nm bd ct ce cexp cval].
  apply Step. unfold child. cbn [lhs rhs third next body cast_expr case_expr].
  intros m [H | [H | [H | [H | [H | [H | H]]]]]].
  - destruct l as [x|]; [injection H as <-; apply IH | discriminate H].
  - destruct r as [x|]; [injection H as <-; apply IH | discriminate H].
  - destruct th as [x|]; [injection H as <-; apply IH | discriminate H].
  - destruct nx as [x|]; [injection H as <-; apply IH | discriminate H].
  - destruct bd as [x|]; [injection H as <-; apply IH | discriminate H].
  - destruct ce as [x|]; [injection H as <-; apply IH | discriminate H].
  - destruct cexp as [x|]; [injection H as <-; apply IH | discriminate H].
Qed.

Ltac is_child :=
  unfold child; cbn [lhs rhs third next body cast_expr case_expr];
  solve [repeat first [reflexivity | left; reflexivity | right]].

Lemma gen_stmts_appends : forall (n : Node) (follow : bool) (cg cg' : CodeGen),
  in_int (indent cg) ->
  gen_stmts follow n cg = Some cg' ->
  appended cg cg'.
Proof.
  intro n. induction n as [n IH] using node_children_ind.
  destruct n as [k ty loc l r th nx iv ft cv nm bd ct ce cexp cval].
  assert (This : forall cg cg', in_int (indent cg) ->
            gen_stmts false
              (mkNode k ty loc l r th nx iv ft cv nm bd ct ce cexp cval) cg
            = Some cg' -> appended cg cg').
  { intros cg cg' R E.
    rewrite gen_stmts_unfold in E.
    destruct k;
      cbv beta iota zeta in E;
      repeat match goal with
        | E : None = Some _ |- _ => discriminate E
        | E : Some _ = Some _ |- _ => injection E as <-
        | E : (if ?b then _ else _) = Some _ |- _ => destruct b
        | E : emit_expr ?S ?o = Some ?c |- _ =>
            apply (emit_expr_appended cg) in E; [|solve [app_tac]]
        | E : and_then (match ?o with
                        | Some m => gen_stmts false m (set_indent ?S ?w)
                        | None => Some (set_indent ?S ?w)
                        end) _ = Some ?c |- _ =>
            change (one_level_deeper
                      (fun c0 => match o with
                                 | Some m => gen_stmts false m c0
                                 | None => Some c0
                                 end) S = Some c) in E;
            apply (one_level_deeper_appended _ cg) in E;
            [ | assumption | solve [app_tac]
              | let c0 := fresh in let c1 := fresh in
                let R0 := fresh in let G0 := fresh in
                let mm := fresh "m" in
                intros c0 c1 R0 G0; destruct o as [mm|];
                [ exact (IH mm ltac:(is_child) false c0 c1 R0 G0)
                | injection G0 as <-; apply appended_refl ] ]
        | E : and_then (gen_stmts false ?m (set_indent ?S ?w)) _ = Some ?c |- _ =>
            change (one_level_deeper (gen_stmts false m) S = Some c) in E;
            apply (one_level_deeper_appended _ cg) in E;
            [ | assumption | solve [app_tac]
              | let c0 := fresh in let c1 := fresh in
                let R0 := fresh in let G0 := fresh in
                intros c0 c1 R0 G0;
                exact (IH m ltac:(is_child) false c0 c1 R0 G0) ]
        | E : and_then ?x _ = Some _ |- _ =>
            let En := fresh "E" in
            destruct x eqn:En; [cbn [and_then] in E | discriminate E]
        | E : gen_stmts ?b ?m ?S = Some ?c |- _ =>
            let A := fresh "A" in
            assert (A : appended cg c)
              by (apply appended_trans with S;
                  [ app_tac
                  | apply (IH m ltac:(is_child) b S c);
                    [ apply (appended_in_int cg); [app_tac | assumption]
                    | exact E ] ]);
            clear E
        | E : match ?o with Some _ => _ | None => _ end = Some _ |- _ =>
            destruct o
        end;
      app_tac. }
  intros follow cg cg' R H. destruct follow; [|exact (This cg cg' R H)].
  rewrite gen_stmts_follow in H. cbv beta iota delta [next] in H.
  destruct nx as [s|]; [|exact (This cg cg' R H)].
  destruct (gen_stmts false
              (mkNode k ty loc l r th (Some s) iv ft cv nm bd ct ce cexp cval) cg)
    as [c|] eqn:E; [cbn [and_then] in H | discriminate H].
  apply This in E; trivial. apply appended_trans with c; trivial.
  apply (IH s ltac:(is_child) true c cg');
    [now apply (appended_in_int cg) | exact H].
Qed.



(** ** Macro expansion *)

Import MacroExpansion.

Section ExpansionFacts.

Local Open Scope string_scope.

Variable env : ExpandEnv.

Lemma expand_macros_r_scan (levels : nat) (input : string) :
  expand_macros_r env (S levels) input
  = scan env levels (S (String.length input)) input.
Proof. reflexivity. Qed.

Lemma scan_unfold (levels fuel : nat) (p : string) :
  scan env levels (S fuel) p =
  (let continue (emitted : option string) (rest : string) : option string :=
        match emitted, scan env levels fuel rest with
        | Some e, Some t => Some (e ++ t)
        | _, _ => None
        end in
      match p with
      | EmptyString => Some EmptyString
      | String c q =>
          if Ascii.eqb c dquote || Ascii.eqb c "'" then
            let '(t, rest) := copy_quoted c q in
            continue (Some (String c t)) rest
          else if isalpha c || Ascii.eqb c "_" then
            let ident := take_ident p in
            let rest := skip_ident p in
            let name := cut_name ident in
            if String.eqb name "__LINE__" then
              continue (Some (print_int (env_line env))) rest
            else if String.eqb name "__FILE__" then
              continue (Some (quoted (env_filename env))) rest
            else if String.eqb name "__DATE__" then
              continue (Some (date_text env)) rest
            else if String.eqb name "__TIME__" then
              continue (Some (time_text env)) rest
            else
              match find_macro (macros env) name with
              | Some m =>
                  if negb (is_func m) then
                    continue (expand_macros_r env levels (macro_body m)) rest
                  else if starts_with "(" rest then
                    match collect_args 65 1 0 (drop 1 rest) with
                    | Some (args, rest') =>
                        match substitute (S (String.length (macro_body m)))
                                         m args EmptyString (macro_body m) with
                        | Some expanded =>
                            continue (expand_macros_r env levels expanded) rest'
                        | None => None
                        end
                    | None => None
                    end
                  else continue (Some name) rest
              | None => continue (Some name) rest
              end
          else continue (Some (String c EmptyString)) q
      end).
Proof. reflexivity. Qed.

Lemma scan_end (levels fuel : nat) :
  scan env levels (S fuel) EmptyString = Some EmptyString.
Proof. reflexivity. Qed.

Lemma scan_char (levels fuel : nat) (c : ascii) (q : string) :
  plain_char c = true ->
  scan env levels (S fuel) (String c q)
  = then_rest (Some (String c EmptyString)) (scan env levels fuel q).
Proof.
  unfold plain_char. intro H.
  apply andb_prop in H as [H H4]. apply andb_prop in H as [H H3].
  apply andb_prop in H as [H1 H2].
  apply negb_true_iff in H1, H2, H3, H4.
  rewrite scan_unfold. cbv zeta. rewrite H1, H2, H3, H4. reflexivity.
Qed.

Lemma copy_quoted_literal (c : ascii) (s q : string) :
  literal_body c s = true ->
  copy_quoted c (s ++ String c q) = (s ++ String c EmptyString, q).
Proof.
  unfold literal_body. induction s as [|a s IH]; intro H.
  - cbn [append copy_quoted]. now rewrite Ascii.eqb_refl.
  - cbn [all_chars] in H. apply andb_prop in H as [Ha Hs].
    apply andb_prop in Ha as [A1 A2]. apply negb_true_iff in A1, A2.
    cbn [append copy_quoted]. rewrite A1, A2, (IH Hs). reflexivity.
Qed.

Lemma scan_literal (levels fuel : nat) (c : ascii) (s q : string) :
  Ascii.eqb c dquote || Ascii.eqb c "'" = true ->
  literal_body c s = true ->
  scan env levels (S fuel) (String c (s ++ String c q))
  = then_rest (Some (String c (s ++ String c EmptyString)))
              (scan env levels fuel q).
Proof.
  intros Hc Hs. rewrite scan_unfold. cbv zeta.
  rewrite Hc, (copy_quoted_literal c s q Hs). reflexivity.
Qed.

Lemma scan_name (levels fuel : nat) (name q : string) :
  looked_up name q ->
  scan env levels (S fuel) (name ++ q)
  = match find_macro (macros env) name with
    | Some m =>
        if negb (is_func m) then
          then_rest (expand_macros_r env levels (macro_body m))
                    (scan env levels fuel q)
        else if starts_with "(" q then
          match collect_args 65 1 0 (drop 1 q) with
          | Some (args, rest') =>
              match substitute (S (String.length (macro_body m)))
                               m args EmptyString (macro_body m) with
              | Some expanded =>
                  then_rest (expand_macros_r env levels expanded)
                            (scan env levels fuel rest')
              | None => None
              end
          | None => None
          end
        else then_rest (Some name) (scan env levels fuel q)
    | None => then_rest (Some name) (scan env levels fuel q)
    end.
Proof.
  intros (Hi & Hl & He & Hp).
  pose proof (identifier_chars name Hi) as Hc.
  destruct (take_skip_ident name q Hc He) as [T S].
  rewrite scan_unfold. cbv zeta.
  destruct name as [|c r]; [discriminate Hi|].
  cbn [append]. cbn [append] in T, S. rewrite T, S.
  cbn [is_identifier] in Hi. apply andb_prop in Hi as [Hs _].
  replace (Ascii.eqb c dquote || Ascii.eqb c "'") with false
    by (clear - Hs; destruct c as [[] [] [] [] [] [] [] []];
        try reflexivity; vm_compute in Hs; discriminate Hs).
  rewrite Hs. unfold cut_name. rewrite (substring_all _ 255 Hl).
  unfold predefined in Hp.
  apply orb_false_iff in Hp as [Hp P4]. apply orb_false_iff in Hp as [Hp P3].
  apply orb_false_iff in Hp as [P1 P2].
  rewrite P1, P2, P3, P4. reflexivity.
Qed.

Lemma looked_up_length (name q : string) :
  looked_up name q -> (1 <= String.length name)%nat.
Proof.
  intros (Hi & _). destruct name; [discriminate Hi|]. cbn [String.length]. lia.
Qed.

Lemma expands_scan (d : nat) (input output : string) :
  expands env d input output ->
  forall levels fuel, (d <= levels)%nat -> (String.length input < fuel)%nat ->
  scan env levels fuel input = Some output.
Proof.
  induction 1 as [d | d c q t Hc _ IH | d c s q t Hc Hs _ IH
                  | d name q t L F _ IH | d name q t m L F Hf Hq _ IH
                  | d name q b t m L F Hf _ IHb _ IH];
    intros levels [|fuel] Hd Hl; try (exfalso; lia).
  - apply scan_end.
  - rewrite scan_char by exact Hc. cbn [String.length] in Hl.
    rewrite (IH levels fuel Hd) by lia. reflexivity.
  - rewrite scan_literal by assumption.
    cbn [String.length] in Hl. rewrite length_append in Hl.
    cbn [String.length] in Hl.
    rewrite (IH levels fuel Hd) by lia. cbn [then_rest append].
    now rewrite append_assoc.
  - rewrite (scan_name _ _ _ _ L), F. rewrite length_append in Hl.
    pose proof (looked_up_length _ _ L).
    rewrite (IH levels fuel Hd) by lia. reflexivity.
  - rewrite (scan_name _ _ _ _ L), F, Hf, Hq. cbn [negb].
    rewrite length_append in Hl. pose proof (looked_up_length _ _ L).
    rewrite (IH levels fuel Hd) by lia. reflexivity.
  - rewrite (scan_name _ _ _ _ L), F, Hf. cbn [negb].
    rewrite length_append in Hl. pose proof (looked_up_length _ _ L).
    rewrite (IH levels fuel Hd) by lia.
    destruct levels as [|levels]; [lia|].
    rewrite expand_macros_r_scan, (IHb levels _) by lia. reflexivity.
Qed.

Lemma expands_nothing (d : nat) (input output : string) :
  expands env d input output -> d = 0%nat -> output = input.
Proof.
  induction 1; intro Z; try discriminate Z; try rewrite IHexpands by exact Z;
    reflexivity.
Qed.

(** [times] on either side. *)
Lemma times_end (n : nat) (s : string) : times n s ++ s = s ++ times n s.
Proof.
  induction n as [|n IH]; cbn [times].
  - now rewrite append_nil_r.
  - now rewrite append_assoc, IH.
Qed.

Lemma scan_plain (levels : nat) (pre r : string) (fuel : nat) :
  all_chars plain_char pre = true ->
  scan env levels (String.length pre + fuel) (pre ++ r)
  = then_rest (Some pre) (scan env levels fuel r).
Proof.
  induction pre as [|c pre IH]; intro H.
  - cbn [String.length append then_rest Nat.add].
    destruct (scan env levels fuel r); reflexivity.
  - cbn [all_chars] in H. apply andb_prop in H as [Hc Hp].
    cbn [String.length append Nat.add]. rewrite scan_char by exact Hc.
    rewrite (IH Hp). destruct (scan env levels fuel r); reflexivity.
Qed.

Lemma self_reference_levels (name pre post : string) (m : Macro) :
  looked_up name post ->
  find_macro (macros env) name = Some m -> is_func m = false ->
  macro_body m = pre ++ name ++ post ->
  all_chars plain_char pre = true -> all_chars plain_char post = true ->
  forall levels,
    expand_macros_r env levels (macro_body m)
    = Some (times levels pre ++ macro_body m ++ times levels post).
Proof.
  intros L F Hf B Hpre Hpost. induction levels as [|levels IH].
  - cbn [times expand_macros_r append]. now rewrite append_nil_r.
  - rewrite expand_macros_r_scan. rewrite B at 1 2.
    rewrite length_append.
    replace (S (String.length pre + String.length (name ++ post)))
      with (String.length pre + S (String.length (name ++ post)))%nat by lia.
    rewrite (scan_plain _ _ _ _ Hpre), (scan_name _ _ _ _ L), F, Hf.
    cbn [negb]. rewrite IH, length_append.
    destruct L as (Hi & _). destruct name as [|c r]; [discriminate Hi|].
    cbn [String.length Nat.add].
    replace (S (String.length r + String.length post))
      with (String.length post + S (String.length r))%nat by lia.
    replace post with (post ++ EmptyString) at 3 by apply append_nil_r.
    rewrite (scan_plain _ _ _ _ Hpost), scan_end.
    cbn [then_rest times]. f_equal.
    rewrite !append_nil_r, !append_assoc. do 2 f_equal.
    now rewrite times_end.
Qed.

End ExpansionFacts.

(** X13.  [expand_macros] replaces object-like macros as [expands]
    says: characters outside names and literals are copied, string and
    character literals are copied with what is in them, a name that is
    no macro (or a function-like macro without its parenthesis) is
    copied, and the name of an object-like macro gives way to its
    body, expanded in turn, for replacements nested up to 32 deep.  A
    line that needs no replacement comes out as it went in. *)
Theorem expand_macros_object_like (env : ExpandEnv) (d : nat)
    (input output : string) :
  expands env d input output -> (d <= 32)%nat ->
  expand_macros env input = Some output
  /\ (d = 0%nat -> output = input).
Proof.
  intros E Hd. split.
  - unfold expand_macros. rewrite expand_macros_r_scan.
    apply (expands_scan env d); trivial. lia.
  - now apply expands_nothing with env.
Qed.

Lemma expand_macros_object_like_witness :
  expands env_N_42 1 ("x = N + " ++ quoted "N" ++ ";")
                     ("x = 42 + " ++ quoted "N" ++ ";")
  /\ expand_macros env_N_42 ("x = N + " ++ quoted "N" ++ ";")%string
     = Some ("x = 42 + " ++ quoted "N" ++ ";")%string.
Proof.
  assert (D : expands env_N_42 1 ("x = N + " ++ quoted "N" ++ ";")
                                 ("x = 42 + " ++ quoted "N" ++ ";")).
  { apply (expands_name env_N_42 1 "x" (" = N + " ++ quoted "N" ++ ";")
                        (" = 42 + " ++ quoted "N" ++ ";"));
      [repeat split; simpl; lia | reflexivity | simpl].
    do 3 (apply expands_char; [reflexivity|]).
    apply (expands_macro env_N_42 0 "N" (" + " ++ quoted "N" ++ ";") "42"
                         (" + " ++ quoted "N" ++ ";")
                         (mkMacro "N" "42" [] false false false));
      [repeat split; simpl; lia | reflexivity | reflexivity | | simpl].
    - do 2 (apply expands_char; [reflexivity|]). apply expands_end.
    - do 3 (apply expands_char; [reflexivity|]).
      apply (expands_literal env_N_42 1 dquote "N" ";" ";");
        [reflexivity | reflexivity | ].
      apply expands_char; [reflexivity|]. apply expands_end. }
  split; [exact D|].
  exact (proj1 (expand_macros_object_like env_N_42 1 _ _ D ltac:(lia))).
Defined.

(** X14.  A macro whose body names the macro itself is expanded again
    and again until the depth limit: with [#define A pre A post] the
    name [A] becomes 33 times [pre], then [A], then 33 times [post]
    (for [pre] and [post] without names and quotes), where C leaves
    the inner [A] alone after one replacement. *)
Theorem expand_macros_self_reference (env : ExpandEnv)
    (name pre post : string) (m : Macro) :
  looked_up name post ->
  find_macro (macros env) name = Some m -> is_func m = false ->
  macro_body m = (pre ++ name ++ post)%string ->
  all_chars plain_char pre = true -> all_chars plain_char post = true ->
  expand_macros env name
  = Some (times 33 pre ++ name ++ times 33 post)%string.
Proof.
  intros L F Hf B Hpre Hpost.
  assert (L0 : looked_up name EmptyString)
    by (destruct L as (A & B0 & _ & D); repeat split; trivial).
  unfold expand_macros. rewrite expand_macros_r_scan.
  replace name with (name ++ EmptyString)%string at 2 by apply append_nil_r.
  rewrite (scan_name env _ _ _ _ L0), F, Hf. cbn [negb].
  rewrite (self_reference_levels env name pre post m L F Hf B Hpre Hpost).
  destruct L as (Hi & _). destruct name as [|c r]; [discriminate Hi|].
  cbn [String.length]. rewrite scan_end. cbn [then_rest]. f_equal.
  rewrite B, append_nil_r.
  change (times 33 pre) with (pre ++ times 32 pre)%string.
  change (times 33 post) with (post ++ times 32 post)%string.
  rewrite <- (times_end 32 pre), !append_assoc. reflexivity.
Qed.

Lemma expand_macros_self_reference_witness :
  expand_macros env_A_A "A"
  = Some (times 33 "(" ++ "A" ++ times 33 ")")%string.
Proof.
  apply (expand_macros_self_reference env_A_A "A" "(" ")"
           (mkMacro "A" "(A)" [] false false false));
    try reflexivity.
  repeat split. simpl. lia.
Defined.

(** ** sema.c: the check writes types and nothing else *)

Import SemaShapes.

(** The body of [check_expr] at a node whose fields are given. *)
Lemma check_expr_unfold (kd : NodeKind) (ty : option CType) (loc : SrcLoc)
    (lh rh th nx : option Node) (iv : Z) (ft : string) (cv : Z) (nm : string)
    (bd : option Node) (ct : option CType) (ce cexp : option Node) (cval : Z)
    (s : Sema) :
  check_expr (mkNode kd ty loc lh rh th nx iv ft cv nm bd ct ce cexp cval) s =
  (let n := mkNode kd ty loc lh rh th nx iv ft cv nm bd ct ce cexp cval in
  let unary (k : Node -> Sema -> Node * Sema) : option (Node * Sema) :=
    match lh with
    | Some l =>
        match check_expr l s with
        | Some (l, s) => let '(n', s) := k (ensure_type l) s in
                         Some (n', s)
        | None => None
        end
    | None => None
    end in
  let binary (ensure decay : bool) (k : Node -> Node -> Sema -> Node * Sema)
    : option (Node * Sema) :=
    match lh, rh with
    | Some l, Some r =>
        match check_expr l s with
        | Some (l, s) =>
            match check_expr r s with
            | Some (r, s) =>
                let l := if ensure then ensure_type l else l in
                let r := if ensure then ensure_type r else r in
                let '(l, s) := if decay then decay_array s l else (l, s) in
                let '(r, s) := if decay then decay_array s r else (r, s) in
                let '(n', s) := k l r s in
                Some (n', s)
            | None => None
            end
        | None => None
        end
    | _, _ => None
    end in
  let with_operands (l r : Node) : Node := set_rhs (set_lhs n (Some l)) (Some r) in
  match kd with
  | ND_INT_LIT | ND_FLOAT_LIT | ND_CHAR_LIT | ND_STRING_LIT => Some (n, s)
  | ND_IDENT =>
      match ty with
      | Some _ => Some (n, s)
      | None =>
          match symtab_lookup (s_symtab s) nm with
          | Some sym => Some (set_type n (sym_type sym), s)
          | None => Some (set_type n (Some ty_int),
                          sema_error s loc (undeclared_msg nm))
          end
      end
  | ND_NEG | ND_POS =>
      unary (fun l s =>
        let s := if type_is_arithmetic (type_of l) then s
                 else sema_error s loc "operand of unary +/- must be arithmetic" in
        (set_type (set_lhs n (Some l)) (Some (type_int_promote (type_of l))), s))
  | ND_NOT =>
      unary (fun l s =>
        let s := if type_is_scalar (type_of l) then s
                 else sema_error s loc "operand of ! must be scalar" in
        (set_type (set_lhs n (Some l)) (Some ty_int), s))
  | ND_BITNOT =>
      unary (fun l s =>
        let s := if type_is_integer (type_of l) then s
                 else sema_error s loc "operand of ~ must be integer" in
        (set_type (set_lhs n (Some l)) (Some (type_int_promote (type_of l))), s))
  | ND_DEREF =>
      unary (fun l s =>
        if negb (type_is_ptr (type_of l)) && negb (type_is_array (type_of l))
        then (set_lhs n (Some l),
              sema_error s loc "cannot dereference non-pointer type")
        else (set_type (set_lhs n (Some l)) (base (type_of l)), s))
  | ND_ADDR =>
      unary (fun l s =>
        let '(pt, a) := type_ptr (s_arena s) (n_type l) in
        (set_type (set_lhs n (Some l)) (Some pt),
         mkSema a (s_symtab s) (s_errs s)))
  | ND_PRE_INC | ND_PRE_DEC | ND_POST_INC | ND_POST_DEC =>
      unary (fun l s => (set_type (set_lhs n (Some l)) (n_type l), s))
  | ND_SIZEOF =>
      unary (fun l s => (set_type (set_lhs n (Some l)) (Some ty_uint), s))
  | ND_SIZEOF_TYPE => Some (set_type n (Some ty_uint), s)
  | ND_ADD | ND_SUB | ND_MUL | ND_DIV | ND_MOD =>
      binary true true (fun l r s =>
        match pointer_arith_type kd (type_of l) (type_of r) with
        | Some t => (set_type (with_operands l r) (Some t), s)
        | None =>
            let s := if negb (type_is_arithmetic (type_of l))
                        || negb (type_is_arithmetic (type_of r))
                     then sema_error s loc "invalid operands to binary expression"
                     else s in
            (set_type (with_operands l r)
                      (Some (type_usual_arith (type_of l) (type_of r))), s)
        end)
  | ND_LSHIFT | ND_RSHIFT =>
      binary true false (fun l r s =>
        (set_type (with_operands l r) (Some (type_int_promote (type_of l))), s))
  | ND_LT | ND_LE | ND_GT | ND_GE | ND_EQ | ND_NE =>
      binary true true (fun l r s =>
        (set_type (with_operands l r) (Some ty_int), s))
  | ND_BITAND | ND_BITOR | ND_BITXOR =>
      binary true false (fun l r s =>
        (set_type (with_operands l r)
                  (Some (type_usual_arith (type_of l) (type_of r))), s))
  | ND_AND | ND_OR =>
      let sub (o : option Node) (s : Sema) : option (option Node * Sema) :=
        match o with
        | Some m => match check_expr m s with
                    | Some (m, s) => Some (Some m, s)
                    | None => None
                    end
        | None => Some (None, s)
        end in
      match sub lh s with
      | Some (l, s) =>
          match sub rh s with
          | Some (r, s) => Some (set_type (set_rhs (set_lhs n l) r) (Some ty_int), s)
          | None => None
          end
      | None => None
      end
  | ND_COMMA =>
      binary false false (fun l r s =>
        let r := ensure_type r in
        (set_type (with_operands l r) (n_type r), s))
  | ND_CAST =>
      match ce with
      | Some e =>
          match check_expr e s with
          | Some (e, s) => Some (set_type (set_cast_expr n (Some e)) ct, s)
          | None => None
          end
      | None => Some (set_type n ct, s)
      end
  | ND_TERNARY =>
      match lh, rh, th with
      | Some c, Some t, Some e =>
          match check_expr c s with
          | Some (c, s) =>
              match check_expr t s with
              | Some (t, s) =>
                  match check_expr e s with
                  | Some (e, s) =>
                      let t := ensure_type t in
                      let e := ensure_type e in
                      let ty :=
                        if type_is_arithmetic (type_of t)
                           && type_is_arithmetic (type_of e)
                        then Some (type_usual_arith (type_of t) (type_of e))
                        else n_type t in
                      Some (set_type
                              (set_third (set_rhs (set_lhs n (Some c)) (Some t))
                                         (Some e)) ty, s)
                  | None => None
                  end
              | None => None
              end
          | None => None
          end
      | _, _, _ => None
      end
  | _ => None
  end).
Proof. reflexivity. Qed.

Lemma grows_refl (s : Sema) : grows s s.
Proof.
  repeat split; [exists []; now rewrite app_nil_r | apply N.le_refl].
Qed.

Lemma grows_trans (a b c : Sema) : grows a b -> grows b c -> grows a c.
Proof.
  intros (S1 & [x E1] & A1) (S2 & [y E2] & A2). repeat split.
  - congruence.
  - exists (x ++ y)%list. now rewrite E2, E1, app_assoc.
  - now apply N.le_trans with (s_arena b).
Qed.

Lemma grows_error (s s0 : Sema) (loc : SrcLoc) (msg : string) :
  grows s s0 -> grows s (sema_error s0 loc msg).
Proof.
  intro G. apply grows_trans with s0; trivial.
  repeat split; [now exists [(loc, msg)] | apply N.le_refl].
Qed.

Lemma grows_alloc (s s0 : Sema) :
  grows s s0 ->
  grows s (mkSema (N.succ (s_arena s0)) (s_symtab s0) (s_errs s0)).
Proof.
  intro G. apply grows_trans with s0; trivial.
  repeat split; [exists []; now rewrite app_nil_r | cbn [s_arena]; lia].
Qed.

Lemma untyped_set_type (n : Node) (t : option CType) :
  untyped (set_type n t) = untyped n.
Proof. destruct n. reflexivity. Qed.

Lemma untyped_ensure_type (n : Node) : untyped (ensure_type n) = untyped n.
Proof.
  unfold ensure_type. destruct (n_type n); [reflexivity|].
  apply untyped_set_type.
Qed.

Lemma decay_array_spec (s s' : Sema) (n n' : Node) :
  decay_array s n = (n', s') -> untyped n' = untyped n /\ grows s s'.
Proof.
  unfold decay_array. destruct (n_type n) as [t|].
  - destruct (TypeKind_eqb (kind t) TY_ARRAY).
    + unfold type_ptr, new_type. cbv beta iota zeta. intros [= <- <-].
      split; [apply untyped_set_type | apply grows_alloc, grows_refl].
    + intros [= <- <-]. split; [reflexivity | apply grows_refl].
  - intros [= <- <-]. split; [reflexivity | apply grows_refl].
Qed.

Ltac grows_tac :=
  repeat first
    [ apply grows_refl
    | apply grows_error
    | apply grows_alloc
    | match goal with
      | H : grows ?a ?b |- grows ?s ?b =>
          first [ exact H | apply (grows_trans s a b); [|exact H] ]
      end ].

Lemma check_expr_only_types : forall (n : Node) (s : Sema) (n' : Node) (s' : Sema),
  check_expr n s = Some (n', s') -> same_tree n n' /\ grows s s'.
Proof.
  intro n. induction n as [n IH] using node_children_ind.
  destruct n as [kd ty loc lh rh th nx iv ft cv nm bd ct ce cexp cvl].
  intros s n' s' E. rewrite check_expr_unfold in E.
  destruct kd; cbv beta iota zeta in E; try discriminate E;
    repeat match goal with
      | E : None = Some _ |- _ => discriminate E
      | E : context [match ?x with _ => _ end] |- _ =>
          lazymatch x with
          | check_expr ?m ?s0 =>
              let H := fresh "H" in
              let T := fresh "T" in
              let G := fresh "G" in
              destruct (check_expr m s0) as [[? ?]|] eqn:H;
              [ apply (IH m ltac:(is_child)) in H; destruct H as [T G]
              | ]
          | decay_array ?s0 ?m =>
              let H := fresh "D" in
              let T := fresh "T" in
              let G := fresh "G" in
              destruct (decay_array s0 m) as [? ?] eqn:H;
              apply decay_array_spec in H; destruct H as [T G]
          | type_ptr _ _ => unfold type_ptr, new_type in E
          | context [match _ with _ => _ end] => fail
          | _ => destruct x eqn:?
          end;
          cbv beta iota zeta in E
      end.
  all: injection E as <- <-.
  all: split; [| grows_tac].
  all: unfold same_tree in *;
       cbn [untyped set_type set_lhs set_rhs set_third set_cast_expr
            n_kind n_type n_loc lhs rhs third next ival ftext cval n_name body
            cast_type cast_expr case_expr case_val];
       rewrite ?untyped_ensure_type in *; congruence.
Qed.



(** ** Conditional inclusion *)

Import Conditionals.

Lemma directives_app (a b : list Directive) (pp : Cond) :
  directives (a ++ b) pp = directives b (directives a pp).
Proof. apply fold_left_app. Qed.

Lemma room_tail (pp : Cond) (d : Directive) (ds : list Directive) :
  room pp (d :: ds) -> room pp ds.
Proof. unfold room. cbn [List.length]. lia. Qed.

(** The counters after an opening line. *)
Lemma opening_step (pp : Cond) (o : Directive) (n : Z) :
  is_opening o = true ->
  INT_MIN <= if_depth pp -> if_depth pp + 1 <= INT_MAX ->
  0 <= skip_depth pp -> skip_depth pp + 1 <= INT_MAX ->
  if_depth (directive_step pp o) = if_depth pp + 1
  /\ (0 < skip_depth pp ->
      skip_depth (directive_step pp o) = skip_depth pp + 1)
  /\ (skip_depth pp = 0 -> 0 <= skip_depth (directive_step pp o) <= 1).
Proof.
  intros O D1 D2 S1 S2.
  assert (Wd : wrap32 (if_depth pp + 1) = if_depth pp + 1)
    by (apply wrap32_id; unfold in_int; lia).
  assert (Ws : wrap32 (skip_depth pp + 1) = skip_depth pp + 1)
    by (apply wrap32_id; unfold in_int, INT_MIN in *; lia).
  destruct o as [v|b|b| | | |]; try discriminate O;
    cbn [directive_step if_depth skip_depth]; rewrite Wd, Ws;
    destruct (skip_depth pp >? 0) eqn:G;
    [ | destruct (v =? 0) | | destruct (negb b) | | destruct b ];
    cbn [set_skip if_depth skip_depth]; repeat split; lia.
Qed.

(** The counters after [#elif] or [#else]. *)
Lemma branch_step (pp : Cond) (b : Directive) :
  is_branch b = true ->
  if_depth (directive_step pp b) = if_depth pp
  /\ (2 <= skip_depth pp -> skip_depth (directive_step pp b) = skip_depth pp)
  /\ (0 <= skip_depth pp <= 1 ->
      0 <= skip_depth (directive_step pp b) <= 1).
Proof.
  intro B.
  destruct b as [| | |v| | |]; try discriminate B;
    cbn [directive_step];
    destruct (skip_depth pp =? 1) eqn:E1;
    [ destruct (negb (v =? 0)) | destruct (skip_depth pp =? 0) eqn:E0
    | | destruct (skip_depth pp =? 0) eqn:E0 ];
    cbn [set_skip if_depth skip_depth]; repeat split; lia.
Qed.

(** The counters after [#endif]. *)
Lemma endif_step (pp : Cond) :
  INT_MIN < if_depth pp <= INT_MAX -> 0 <= skip_depth pp <= INT_MAX ->
  directive_step pp D_endif
  = mkCond (if_depth pp - 1)
           (if skip_depth pp >? 0 then skip_depth pp - 1 else skip_depth pp).
Proof.
  intros D S.
  assert (Wd : wrap32 (if_depth pp - 1) = if_depth pp - 1)
    by (apply wrap32_id; unfold in_int; lia).
  assert (Ws : wrap32 (skip_depth pp - 1) = skip_depth pp - 1)
    by (apply wrap32_id; unfold in_int, INT_MIN in *; lia).
  cbn [directive_step]. destruct (skip_depth pp >? 0);
    cbn [set_skip if_depth skip_depth]; now rewrite Wd, ?Ws.
Qed.

Lemma balanced_counters (inside : bool) (ds : list Directive) :
  balanced inside ds ->
  forall pp, room pp ds ->
    if_depth (directives ds pp) = if_depth pp
    /\ (2 <= skip_depth pp -> skip_depth (directives ds pp) = skip_depth pp)
    /\ (skip_depth pp <= 1 -> 0 <= skip_depth (directives ds pp) <= 1)
    /\ (inside = false -> skip_depth (directives ds pp) = skip_depth pp).
Proof.
  intro H. induction H as [inside | inside ds H IH | inside b ds I B H IH
                          | inside o inner rest O Hi IHi Hr IHr];
    intros pp R.
  - cbn [directives fold_left]. destruct R as (_ & _ & S & _).
    split; [reflexivity|]. split; [reflexivity|]. split; [lia|reflexivity].
  - apply (IH pp). now apply room_tail with D_other.
  - change (directives (b :: ds) pp)
      with (directives ds (directive_step pp b)).
    destruct (branch_step pp b B) as (D & S2 & S1).
    destruct R as (R1 & R2 & R3 & R4). cbn [List.length] in R2, R4.
    destruct (IH (directive_step pp b)) as (D' & A2 & A1 & _).
    { assert (0 <= skip_depth (directive_step pp b)
                   <= Z.max (skip_depth pp) 1)
        by (destruct (Z_le_gt_dec 2 (skip_depth pp)) as [G|G];
            [rewrite (S2 G) | specialize (S1 ltac:(lia))]; lia).
      unfold room. rewrite D. repeat split; lia. }
    rewrite D', D. split; [reflexivity|]. split; [|split].
    + intro G. rewrite A2; rewrite (S2 G); trivial.
    + intro G. apply A1. lia.
    + intro G. rewrite I in G. discriminate G.
  - change (directives (o :: inner ++ D_endif :: rest) pp)
      with (directives (inner ++ D_endif :: rest) (directive_step pp o)).
    rewrite directives_app.
    change (directives (D_endif :: rest) ?x)
      with (directives rest (directive_step x D_endif)).
    destruct R as (R1 & R2 & R3 & R4).
    cbn [List.length] in R2, R4. rewrite length_app in R2, R4.
    cbn [List.length] in R2, R4.
    destruct (opening_step pp o 0 O R1 ltac:(lia) R3 ltac:(lia))
      as (D1 & Sp & S0).
    destruct (IHi (directive_step pp o)) as (D2 & A2 & A1 & _).
    { assert (0 <= skip_depth (directive_step pp o) <= skip_depth pp + 1)
        by (destruct (Z.eq_dec (skip_depth pp) 0) as [Z|Z];
            [apply S0 in Z | rewrite Sp]; lia).
      unfold room. rewrite D1. repeat split; lia. }
    assert (Back : directive_step (directives inner (directive_step pp o))
                                  D_endif = pp).
    { rewrite endif_step.
      - rewrite D2, D1. destruct pp as [d s]. cbn [if_depth skip_depth] in *.
        f_equal; [lia|].
        destruct (Z.eq_dec s 0) as [Z|Z].
        + specialize (S0 Z). specialize (A1 ltac:(lia)).
          destruct (_ >? 0) eqn:G; lia.
        + specialize (Sp ltac:(lia)). rewrite A2 by lia. rewrite Sp.
          destruct (_ >? 0) eqn:G; lia.
      - rewrite D2, D1. lia.
      - destruct (Z.eq_dec (skip_depth pp) 0) as [Z|Z].
        + specialize (S0 Z). specialize (A1 ltac:(lia)).
          unfold INT_MAX. lia.
        + specialize (Sp ltac:(lia)). rewrite A2 by lia. lia. }
    rewrite Back. apply IHr. unfold room. repeat split; lia.
Qed.

Lemma balanced_same (ds : list Directive) (pp : Cond) :
  balanced false ds -> room pp ds -> directives ds pp = pp.
Proof.
  intros B R. destruct (balanced_counters false ds B pp R) as (D & _ & _ & S).
  specialize (S eq_refl). destruct pp as [d s], (directives ds (mkCond d s)).
  cbn [if_depth skip_depth] in *. now subst.
Qed.

(** X16.  Lines in which every [#if], [#ifdef] and [#ifndef] has its
    [#endif] leave [if_depth] and [skip_depth] as they found them,
    whatever the conditions are and however [#elif] and [#else] are
    arranged inside the groups: text is skipped after the lines exactly
    if it was skipped before them.  Where the lines stand in a group
    that is skipped from outside ([skip_depth] at least 2), [#elif]
    and [#else] at their outer level change nothing either. *)
Theorem conditional_groups_restore (inside : bool) (ds : list Directive)
    (pp : Cond) :
  balanced inside ds -> room pp ds ->
  inside = false \/ 2 <= skip_depth pp ->
  directives ds pp = pp.
Proof.
  intros B R C.
  destruct (balanced_counters inside ds B pp R) as (D & S2 & _ & S).
  assert (E : skip_depth (directives ds pp) = skip_depth pp)
    by (destruct C as [C|C]; [apply S | apply S2]; exact C).
  destruct pp as [d s], (directives ds (mkCond d s)).
  cbn [if_depth skip_depth] in *. now subst.
Qed.

Lemma conditional_groups_restore_witness :
  directives [D_if 0; D_other; D_ifdef true; D_else; D_endif; D_elif 1;
              D_other; D_else; D_else; D_endif; D_other] (mkCond 0 0)
  = mkCond 0 0.
Proof.
  apply (conditional_groups_restore false).
  - apply (balanced_group false (D_if 0)
             [D_other; D_ifdef true; D_else; D_endif; D_elif 1; D_other;
              D_else; D_else] [D_other]); [reflexivity | | ].
    + apply balanced_other.
      apply (balanced_group true (D_ifdef true) [D_else] _);
        [reflexivity | | ].
      * apply balanced_branch; [reflexivity | reflexivity | apply balanced_nil].
      * repeat first [ apply balanced_nil | apply balanced_other
                     | apply balanced_branch; [reflexivity | reflexivity | ] ].
    + apply balanced_other, balanced_nil.
  - unfold room, INT_MIN, INT_MAX. simpl. lia.
  - left. reflexivity.
Defined.

(** X17.  [skip_depth] does not remember that a branch of the group
    was taken.  In [#if c1 ... #elif c2 ... #else ...] met while not
    skipping, the [#elif] part is read when [c1] is zero and [c2] is
    not, and the [#else] part is read in every other case: also when
    the [#if] part was read. *)
Theorem else_after_taken_branch (c1 c2 : Z) (a b : list Directive)
    (pp : Cond) :
  balanced false a -> balanced false b -> skip_depth pp = 0 ->
  room pp (D_if c1 :: a ++ D_elif c2 :: b ++ [D_else]) ->
  skip_depth (directives (D_if c1 :: a) pp) = (if c1 =? 0 then 1 else 0)
  /\ skip_depth (directives (D_if c1 :: a ++ D_elif c2 :: b) pp)
     = (if (c1 =? 0) && negb (c2 =? 0) then 0 else 1)
  /\ skip_depth (directives (D_if c1 :: a ++ D_elif c2 :: b ++ [D_else]) pp)
     = (if (c1 =? 0) && negb (c2 =? 0) then 1 else 0).
Proof.
  intros Ba Bb S R. destruct pp as [d s]. cbn [skip_depth] in S. subst s.
  destruct R as (R1 & R2 & R3 & R4). cbn [if_depth skip_depth] in *.
  cbn [List.length] in R2, R4. rewrite length_app in R2, R4.
  cbn [List.length] in R2, R4. rewrite length_app in R2, R4.
  cbn [List.length] in R2, R4.
  assert (W : wrap32 (d + 1) = d + 1) by (apply wrap32_id; unfold in_int; lia).
  assert (I : 1 <= INT_MAX) by (unfold INT_MAX; lia).
  set (s1 := if c1 =? 0 then 1 else 0).
  assert (E1 : directive_step (mkCond d 0) (D_if c1) = mkCond (d + 1) s1).
  { cbn [directive_step if_depth skip_depth]. rewrite W.
    change (0 >? 0) with false. cbv beta iota. unfold s1.
    destruct (c1 =? 0); reflexivity. }
  assert (Hs1 : 0 <= s1 <= 1) by (unfold s1; destruct (c1 =? 0); lia).
  assert (E2 : directives (D_if c1 :: a) (mkCond d 0) = mkCond (d + 1) s1).
  { change (directives (D_if c1 :: a) (mkCond d 0))
      with (directives a (directive_step (mkCond d 0) (D_if c1))).
    rewrite E1. apply balanced_same; trivial.
    unfold room. cbn [if_depth skip_depth]. lia. }
  set (s2 := if (c1 =? 0) && negb (c2 =? 0) then 0 else 1).
  assert (E3 : directive_step (mkCond (d + 1) s1) (D_elif c2)
               = mkCond (d + 1) s2).
  { unfold s1, s2. cbn [directive_step if_depth skip_depth].
    destruct (c1 =? 0), (c2 =? 0); reflexivity. }
  assert (Hs2 : 0 <= s2 <= 1)
    by (unfold s2; destruct ((c1 =? 0) && negb (c2 =? 0)); lia).
  assert (E4 : directives (D_if c1 :: a ++ D_elif c2 :: b) (mkCond d 0)
               = mkCond (d + 1) s2).
  { change (directives (D_if c1 :: a ++ D_elif c2 :: b) (mkCond d 0))
      with (directives ((D_if c1 :: a) ++ D_elif c2 :: b) (mkCond d 0)).
    rewrite directives_app, E2.
    change (directives (D_elif c2 :: b) ?x)
      with (directives b (directive_step x (D_elif c2))).
    rewrite E3. apply balanced_same; trivial.
    unfold room. cbn [if_depth skip_depth]. lia. }
  split; [now rewrite E2|]. split; [now rewrite E4|].
  change (directives (D_if c1 :: a ++ D_elif c2 :: b ++ [D_else]) (mkCond d 0))
    with (directives (D_if c1 :: a ++ (D_elif c2 :: b) ++ [D_else])
                     (mkCond d 0)).
  rewrite app_assoc.
  change (directives (D_if c1 :: (a ++ D_elif c2 :: b) ++ [D_else])
                     (mkCond d 0))
    with (directives ((D_if c1 :: a ++ D_elif c2 :: b) ++ [D_else])
                     (mkCond d 0)).
  rewrite directives_app, E4. unfold s2.
  destruct ((c1 =? 0) && negb (c2 =? 0)); reflexivity.
Qed.

Lemma else_after_taken_branch_witness :
  skip_depth (directives [D_if 1; D_other] (mkCond 0 0)) = 0
  /\ skip_depth (directives [D_if 1; D_other; D_elif 1; D_other] (mkCond 0 0))
     = 1
  /\ skip_depth (directives [D_if 1; D_other; D_elif 1; D_other; D_else]
                            (mkCond 0 0)) = 0.
Proof.
  apply (else_after_taken_branch 1 1 [D_other] [D_other] (mkCond 0 0)).
  - apply balanced_other, balanced_nil.
  - apply balanced_other, balanced_nil.
  - reflexivity.
  - unfold room, INT_MIN, INT_MAX. simpl. lia.
Defined.

(** ** Keywords *)

Import LexerKeywords.

Lemma lookup_in_found (kws : list (string * TokenKind)) (s : string) :
  lookup_in kws s = TK_IDENT \/ In (s, lookup_in kws s) kws.
Proof.
  induction kws as [|[name kind] rest IH]; [now left|].
  cbn [lookup_in]. destruct (String.eqb_spec name s) as [->|N].
  - right. now left.
  - destruct IH as [IH|IH]; [now left | right; now right].
Qed.

(** X18.  The keyword table and [token_kind_str] agree: a word that
    [lookup_keyword] takes for a keyword is printed back as that very
    word, every word that is no keyword is an identifier, the name
    [token_kind_str] prints for a keyword kind is looked up as that
    kind, and the name it prints for any other kind is no keyword.
    Every kind that opens a declaration is a keyword kind. *)
Theorem lookup_keyword_round_trip :
  (forall s, lookup_keyword s = TK_IDENT
             \/ token_kind_str (lookup_keyword s) = s)
  /\ (forall k, lookup_keyword (token_kind_str k)
                = if is_keyword_kind k then k else TK_IDENT)
  /\ (forall k, token_is_type_keyword k = true -> is_keyword_kind k = true).
Proof.
  split; [|split].
  - intro s. destruct (lookup_in_found keywords s) as [H|H]; [now left|].
    right. unfold lookup_keyword.
    assert (A : Forall (fun p => token_kind_str (snd p) = fst p) keywords)
      by (repeat constructor).
    rewrite Forall_forall in A. exact (A _ H).
  - intro k. destruct k; reflexivity.
  - intro k. destruct k; intro H; try reflexivity; discriminate H.
Qed.

(** ** The rest of a directive line *)

Import ReadLine.

Section ReadLineFacts.

Local Open Scope string_scope.

Lemma all_chars_app (f : ascii -> bool) (a b : string) :
  all_chars f (a ++ b) = all_chars f a && all_chars f b.
Proof.
  induction a as [|c a IH]; cbn [append all_chars]; [reflexivity|].
  now rewrite IH, andb_assoc.
Qed.

Lemma continuation_shorter (p : string) :
  is_line_continuation p = true ->
  (String.length (drop (skip_line_continuation p) p) < String.length p)%nat.
Proof.
  destruct p as [|c [|d [|e r]]]; cbn [is_line_continuation starts_with drop];
    try discriminate.
  - destruct (negb (Ascii.eqb c "\")); discriminate.
  - unfold skip_line_continuation. cbn [drop starts_with].
    destruct (negb (Ascii.eqb c "\")); [discriminate|].
    destruct (Ascii.eqb d "010"); [cbn [drop String.length]; lia|].
    rewrite andb_false_r. discriminate.
  - unfold skip_line_continuation. cbn [drop starts_with].
    destruct (negb (Ascii.eqb c "\")); [discriminate|].
    destruct (Ascii.eqb d "010"); [cbn [drop String.length]; lia|].
    destruct (Ascii.eqb d "013" && Ascii.eqb e "010");
      [cbn [drop String.length]; lia | discriminate].
Qed.

Lemma skip_comment_le (p : string) (line : Z) :
  (String.length (fst (skip_comment p line)) <= String.length p)%nat.
Proof.
  revert line. induction p as [|c q IH]; intro line; cbn [skip_comment];
    [cbn; lia|].
  destruct (Ascii.eqb c "*" && starts_with "/" q); [cbn; lia|].
  specialize (IH (if is_eol c then wrap32 (line + 1) else line)).
  cbn [String.length]. lia.
Qed.

Lemma skip_line_le (p : string) :
  (String.length (skip_line p) <= String.length p)%nat.
Proof.
  induction p as [|c q IH]; cbn [skip_line String.length]; [lia|].
  destruct (is_eol c); cbn [String.length]; lia.
Qed.

Lemma skip_line_at_end (p : string) : at_line_end (skip_line p) = true.
Proof.
  induction p as [|c q IH]; cbn [skip_line]; [reflexivity|].
  destruct (is_eol c) eqn:E; [cbn [at_line_end]; exact E | exact IH].
Qed.

Lemma trim_all_chars (f : ascii -> bool) (s : string) :
  all_chars f s = true -> all_chars f (trim_trailing_blanks s) = true.
Proof.
  induction s as [|c s IH]; cbn [trim_trailing_blanks all_chars]; trivial.
  intro H. apply andb_prop in H as [Hc Hs]. specialize (IH Hs).
  destruct (trim_trailing_blanks s) as [|d t].
  - destruct (is_blank c); cbn [all_chars]; trivial. now rewrite Hc.
  - cbn [all_chars] in *. now rewrite Hc.
Qed.

Lemma trim_idem (s : string) :
  trim_trailing_blanks (trim_trailing_blanks s) = trim_trailing_blanks s.
Proof.
  induction s as [|c s IH]; cbn [trim_trailing_blanks]; trivial.
  destruct (trim_trailing_blanks s) as [|d t] eqn:E.
  - destruct (is_blank c) eqn:B; cbn [trim_trailing_blanks]; trivial.
    now rewrite B.
  - cbn [trim_trailing_blanks] in *. rewrite IH. reflexivity.
Qed.

Lemma separated_no_eol (body : string) :
  all_chars no_eol body = true -> all_chars no_eol (separated body) = true.
Proof.
  intro H. destruct body as [|c r]; [exact H|].
  unfold separated. now rewrite all_chars_app, H.
Qed.

Lemma read_line_loop_stops (fuel : nat) :
  forall (p : string) (line : Z) (body : string),
    (String.length p < fuel)%nat -> all_chars no_eol body = true ->
    exists body' p' line',
      read_line_loop fuel p line body = Some (body', p', line')
      /\ at_line_end p' = true
      /\ all_chars no_eol body' = true
      /\ (String.length p' <= String.length p)%nat.
Proof.
  induction fuel as [|fuel IH]; intros p line body F B; [lia|].
  destruct p as [|c q].
  - exists body, EmptyString, line. now repeat split.
  - cbn [read_line_loop]. destruct (is_eol c) eqn:E.
    + exists body, (String c q), line. repeat split; trivial.
    + destruct (is_line_continuation (String c q)) eqn:C.
      * pose proof (continuation_shorter _ C) as L.
        pose proof (skip_blanks_le
                      (drop (skip_line_continuation (String c q)) (String c q))).
        destruct (IH (skip_blanks (drop (skip_line_continuation (String c q))
                                        (String c q)))
                     (wrap32 (line + 1)) (separated body))
          as (b' & p' & l' & R & A & N & Le);
          [lia | now apply separated_no_eol |].
        exists b', p', l'. repeat split; trivial. lia.
      * destruct (Ascii.eqb c "/" && starts_with "*" q) eqn:S.
        -- destruct q as [|d q'];
             [cbn [starts_with] in S; rewrite andb_false_r in S; discriminate S|].
           cbn [drop]. cbn [String.length] in F |- *.
           destruct (skip_comment q' line) as [p1 l1] eqn:K.
           pose proof (skip_comment_le q' line) as L1.
           rewrite K in L1. cbn [fst] in L1.
           pose proof (drop_le 2 p1).
           destruct (IH (drop 2 p1) l1 (separated body))
             as (b' & p' & l' & R & A & N & Le);
             [lia | now apply separated_no_eol |].
           exists b', p', l'. repeat split; trivial. lia.
        -- destruct (Ascii.eqb c "/" && starts_with "/" q).
           ++ exists body, (skip_line (String c q)), line.
              repeat split; trivial;
                [apply skip_line_at_end | apply skip_line_le].
           ++ cbn [String.length] in F.
              destruct (IH q line (body ++ String c EmptyString))
                as (b' & p' & l' & R & A & N & Le); [lia | |].
              { rewrite all_chars_app, B. cbn [all_chars]. unfold no_eol.
                now rewrite E. }
              exists b', p', l'. repeat split; trivial.
              cbn [String.length]. lia.
Qed.

Lemma skip_blanks_app (a : string) (c : ascii) (r : string) :
  is_blank c = false ->
  skip_blanks (a ++ String c r) = skip_blanks a ++ String c r.
Proof.
  intro H. induction a as [|d a IH]; cbn [append skip_blanks].
  - now rewrite H.
  - destruct (is_blank d); [exact IH | reflexivity].
Qed.

Lemma skip_blanks_all_chars (f : ascii -> bool) (s : string) :
  all_chars f s = true -> all_chars f (skip_blanks s) = true.
Proof.
  induction s as [|c s IH]; cbn [skip_blanks all_chars]; trivial.
  intro H. destruct (is_blank c); [apply IH|exact H].
  now apply andb_prop in H as [_ H].
Qed.

Lemma read_line_loop_ordinary (pre rest : string) (line : Z) :
  all_chars ordinary pre = true ->
  forall fuel body, (String.length pre < fuel)%nat ->
    read_line_loop fuel (pre ++ String "/" (String "/" rest)) line body
    = Some (body ++ pre, skip_line rest, line).
Proof.
  intro H. induction pre as [|c pre IH]; intros [|fuel] body F;
    cbn [String.length] in F; try lia.
  - cbn [append read_line_loop is_line_continuation starts_with skip_line].
    now rewrite append_nil_r.
  - cbn [all_chars] in H. apply andb_prop in H as [Hc Hp].
    unfold ordinary in Hc. apply andb_prop in Hc as [Hc H3].
    apply andb_prop in Hc as [H1 H2]. apply negb_true_iff in H1, H2, H3.
    cbn [append read_line_loop is_line_continuation].
    rewrite H1, H2, H3. cbn [negb andb].
    rewrite (IH Hp fuel) by lia. now rewrite append_assoc.
Qed.

End ReadLineFacts.

(** X19.  [pp_read_line] always comes to an end, and it leaves the
    input at a line break or at its end, never further back than it
    found it; the text it returns holds no line break and has no blank
    at its end. *)
Theorem pp_read_line_stops (p : string) (line : Z) :
  exists body p' line',
    pp_read_line p line = Some (body, p', line')
    /\ at_line_end p' = true
    /\ all_chars (fun c => negb (is_eol c)) body = true
    /\ trim_trailing_blanks body = body
    /\ (String.length p' <= String.length p)%nat.
Proof.
  unfold pp_read_line.
  destruct (read_line_loop_stops (S (String.length (skip_blanks p)))
              (skip_blanks p) line EmptyString)
    as (b & p' & l' & R & A & N & Le); [lia | reflexivity |].
  rewrite R. exists (trim_trailing_blanks b), p', l'.
  pose proof (skip_blanks_le p).
  split; [reflexivity|]. split; [exact A|]. split; [|split].
  - now apply (trim_all_chars no_eol).
  - apply trim_idem.
  - lia.
Qed.

(** X20.  [pp_read_line] takes two slashes for the start of a comment
    wherever they stand, also between the quotes of a string literal:
    of [pre//rest], with neither slash nor backslash nor line break in
    [pre], it returns [pre] without the blanks around it, and stops at
    the line break after [rest]. *)
Theorem pp_read_line_cuts_at_slashes (pre rest : string) (line : Z) :
  all_chars ordinary pre = true ->
  pp_read_line (pre ++ String "/" (String "/" rest)) line
  = Some (trim_trailing_blanks (skip_blanks pre), skip_line rest, line).
Proof.
  intro H. unfold pp_read_line.
  rewrite skip_blanks_app by reflexivity.
  rewrite (read_line_loop_ordinary (skip_blanks pre) rest line).
  - reflexivity.
  - now apply skip_blanks_all_chars.
  - rewrite length_append. cbn [String.length]. lia.
Qed.

Lemma pp_read_line_cuts_at_slashes_witness :
  pp_read_line (" " ++ String dquote "http:" ++ "//example.com/"
                ++ String dquote (String "010" "int x;")) 7
  = Some (String dquote "http:", String "010" "int x;", 7).
Proof.
  apply (pp_read_line_cuts_at_slashes (" " ++ String dquote "http:")
           ("example.com/" ++ String dquote (String "010" "int x;")) 7).
  reflexivity.
Defined.

(** ** The expression of [#if] *)

Import IfDirective.

Section IfFacts.

Local Open Scope string_scope.

Variable env : ExpandEnv.

Lemma replace_copy (fuel : nat) (c : ascii) (q : string) :
  at_defined (String c q) = false ->
  replace_defined_loop (macros env) (S fuel) (String c q)
  = match replace_defined_loop (macros env) fuel q with
    | Some t => Some (String c t)
    | None => None
    end.
Proof. intro H. cbn [replace_defined_loop]. now rewrite H. Qed.

Lemma replace_operator (fuel : nat) (p : string) :
  at_defined p = true ->
  replace_defined_loop (macros env) (S fuel) p
  = match replace_defined_loop (macros env) fuel
            (snd (defined_operand (drop 7 p))) with
    | Some t =>
        Some (String (if is_macro (macros env)
                           (fst (defined_operand (drop 7 p)))
                      then "1" else "0") t)
    | None => None
    end.
Proof.
  intro H. destruct p as [|c q]; [discriminate H|].
  cbn [replace_defined_loop]. rewrite H.
  now destruct (defined_operand (drop 7 (String c q))).
Qed.

Lemma defined_operand_paren (name r : string) :
  all_chars is_ident_char name = true -> (String.length name <= 255)%nat ->
  defined_operand ("(" ++ name ++ ")" ++ r) = (name, r).
Proof.
  intros Hn Hl. unfold defined_operand.
  cbn [append skip_blanks is_blank Ascii.eqb Bool.eqb orb].
  rewrite (skip_blanks_name name ")" r Hn eq_refl).
  unfold defined_name.
  destruct (take_skip_ident name (String ")" r) Hn eq_refl) as [-> ->].
  rewrite (substring_all name 255 Hl). reflexivity.
Qed.

Lemma defined_operand_bare (name r : string) :
  is_identifier name = true -> ends_name r = true ->
  (String.length name <= 255)%nat ->
  defined_operand (" " ++ name ++ r) = (name, r).
Proof.
  intros Hi Hr Hl. pose proof (identifier_chars name Hi) as Hn.
  unfold defined_operand.
  cbn [append skip_blanks is_blank Ascii.eqb Bool.eqb orb].
  rewrite !(skip_blanks_identifier name r Hi).
  destruct (take_skip_ident name r Hn Hr) as [T S].
  unfold defined_name. rewrite T, S, (substring_all name 255 Hl).
  destruct name as [|c q]; [discriminate Hi|].
  cbn [append].
  destruct c as [[] [] [] [] [] [] [] []]; try reflexivity;
    vm_compute in Hi; discriminate Hi.
Qed.

(** A digit alone, and behind [!], through expansion and evaluation. *)
Lemma digit_value (b : bool) :
  match expand_macros env (String (if b then "1" else "0") EmptyString) with
  | Some estr => Some (pp_eval_expr (is_macro (macros env)) estr)
  | None => None
  end = Some (Val (b2z b)).
Proof. destruct b; reflexivity. Qed.

Lemma not_digit_value (b : bool) :
  match expand_macros env
          (String "!" (String (if b then "1" else "0") EmptyString)) with
  | Some estr => Some (pp_eval_expr (is_macro (macros env)) estr)
  | None => None
  end = Some (Val (b2z (negb b))).
Proof. destruct b; reflexivity. Qed.

End IfFacts.

(** X21.  The operand of [defined] is not expanded: whatever the
    macro [NAME] stands for, the expressions [defined(NAME)] and
    [defined NAME] of an [#if] line have the value 1 when [NAME] is a
    macro and 0 when it is not, and [!defined(NAME)] the opposite. *)
Theorem if_defined_operand_not_expanded (env : ExpandEnv) (name : string) :
  is_identifier name = true -> (String.length name <= 255)%nat ->
  if_value env ("defined(" ++ name ++ ")")
    = Some (Val (b2z (is_macro (macros env) name)))
  /\ if_value env ("defined " ++ name)
    = Some (Val (b2z (is_macro (macros env) name)))
  /\ if_value env ("!defined(" ++ name ++ ")")
    = Some (Val (b2z (negb (is_macro (macros env) name)))).
Proof.
  intros Hi Hl. pose proof (identifier_chars name Hi) as Hn.
  unfold if_value, pp_replace_defined. split; [|split].
  - cbn [append String.length].
    rewrite replace_operator by reflexivity. cbn [drop].
    change (String "(" (name ++ ")"))%string
      with ("(" ++ name ++ ")" ++ "")%string.
    rewrite (defined_operand_paren name "" Hn Hl). cbn [fst snd].
    cbn [replace_defined_loop]. apply digit_value.
  - cbn [append String.length].
    rewrite replace_operator by reflexivity. cbn [drop].
    replace (String " " name) with (" " ++ name ++ "")%string
      by (cbn [append]; now rewrite append_nil_r).
    rewrite (defined_operand_bare name "" Hi eq_refl Hl). cbn [fst snd].
    cbn [replace_defined_loop]. apply digit_value.
  - cbn [append String.length].
    rewrite replace_copy by reflexivity.
    rewrite replace_operator by reflexivity. cbn [drop].
    change (String "(" (name ++ ")"))%string
      with ("(" ++ name ++ ")" ++ "")%string.
    rewrite (defined_operand_paren name "" Hn Hl). cbn [fst snd].
    cbn [replace_defined_loop]. apply not_digit_value.
Qed.

Lemma if_defined_operand_not_expanded_witness :
  if_value env_X_0 "defined(X)" = Some (Val 1)
  /\ if_value env_X_0 "defined X" = Some (Val 1)
  /\ if_value env_X_0 "!defined(X)" = Some (Val 0).
Proof.
  apply (if_defined_operand_not_expanded env_X_0 "X"); [reflexivity|].
  simpl. lia.
Defined.

Section WordBoundary.

Local Open Scope string_scope.

Variable env : ExpandEnv.

Lemma eqb_last (s t : string) (c d : ascii) :
  Ascii.eqb c d = false ->
  String.eqb (s ++ String c EmptyString) (t ++ String d EmptyString) = false.
Proof.
  intro H. revert t. induction s as [|a s IH]; intros [|b t];
    cbn [append String.eqb].
  - now rewrite H.
  - destruct (Ascii.eqb c b); [now destruct t | reflexivity].
  - destruct (Ascii.eqb a d); [now destruct s | reflexivity].
  - destruct (Ascii.eqb a b); [apply IH | reflexivity].
Qed.

Lemma digit_not_predefined (s : string) (c : ascii) :
  Ascii.eqb c "_" = false -> predefined (s ++ String c EmptyString) = false.
Proof.
  intro H. unfold predefined.
  change "__LINE__" with ("__LINE_" ++ "_").
  change "__FILE__" with ("__FILE_" ++ "_").
  change "__DATE__" with ("__DATE_" ++ "_").
  change "__TIME__" with ("__TIME_" ++ "_").
  now rewrite !eqb_last.
Qed.

Lemma replace_prefix (pre r : string) (fuel : nat) :
  all_chars (fun c => negb (Ascii.eqb c "d")) pre = true ->
  replace_defined_loop (macros env) (String.length pre + fuel) (pre ++ r)
  = match replace_defined_loop (macros env) fuel r with
    | Some t => Some (pre ++ t)
    | None => None
    end.
Proof.
  induction pre as [|c pre IH]; intro H.
  - cbn [String.length append Nat.add].
    now destruct (replace_defined_loop (macros env) fuel r).
  - cbn [all_chars] in H. apply andb_prop in H as [Hc Hp].
    apply negb_true_iff in Hc.
    cbn [String.length append Nat.add]. rewrite replace_copy.
    + rewrite (IH Hp).
      now destruct (replace_defined_loop (macros env) fuel r).
    + unfold at_defined. cbn [String.prefix].
      destruct (ascii_dec "d" c) as [<-|N]; [discriminate Hc | reflexivity].
Qed.

Lemma identifier_with_digit (pre : string) (c : ascii) :
  is_identifier pre = true -> isdigit c = true ->
  is_identifier (pre ++ String c EmptyString) = true.
Proof.
  intros Hi Hc. destruct pre as [|a pre]; [discriminate Hi|].
  cbn [is_identifier append] in *. apply andb_prop in Hi as [Ha Hp].
  rewrite Ha, all_chars_app, Hp. cbn [all_chars andb].
  unfold is_ident_char, isalnum. now rewrite Hc, orb_true_r.
Qed.

Lemma eval_identifier (f : string -> bool) (name : string) :
  is_identifier name = true -> name <> "defined" ->
  pp_eval_expr f name = Val 0.
Proof.
  intros Hi Hd. unfold pp_eval_expr.
  assert (Na : (1 <= String.length name)%nat)
    by (destruct name; [discriminate Hi | simpl; lia]).
  assert (E : exists k, (2 * String.length name + 2)%nat = S (S (S k)))
    by (exists (2 * String.length name - 1)%nat; lia).
  destruct E as [k ->].
  cbn [pp_eval_expr_fuel].
  rewrite primary_identifier by assumption.
  cbn [obind]. apply loop_end.
Qed.

End WordBoundary.

(** X22.  [pp_replace_defined] looks for the word [defined] at every
    character, also inside a longer word: the name [undefined] on an
    [#if] line is rewritten to [un0] (or [un1]) before expansion, and
    the line has the value 0 even where the name is a macro for 1.
    [pre] is the start of the longer word, free of the letter d. *)
Theorem if_defined_inside_word (env : ExpandEnv) (pre : string) :
  is_identifier pre = true -> (String.length pre <= 254)%nat ->
  all_chars (fun c => negb (Ascii.eqb c "d")) pre = true ->
  find_macro (macros env) (pre ++ "0") = None ->
  find_macro (macros env) (pre ++ "1") = None ->
  pp_replace_defined (macros env) (pre ++ "defined")
    = Some (pre ++ (if is_macro (macros env) "" then "1" else "0"))%string
  /\ if_value env (pre ++ "defined") = Some (Val 0).
Proof.
  intros Hi Hl Hd F0 F1.
  assert (R : pp_replace_defined (macros env) (pre ++ "defined")
              = Some (pre ++ (if is_macro (macros env) "" then "1" else "0"))
                     %string).
  { unfold pp_replace_defined. rewrite length_append.
    replace (S (String.length pre + String.length "defined"))
      with (String.length pre + 8)%nat by (cbn [String.length]; lia).
    rewrite (replace_prefix env pre "defined" 8 Hd).
    rewrite replace_operator by reflexivity.
    change (defined_operand (drop 7 "defined"))
      with (EmptyString, EmptyString).
    cbn [fst snd replace_defined_loop].
    now destruct (is_macro (macros env) ""). }
  split; [exact R|].
  unfold if_value. rewrite R.
  set (c := if is_macro (macros env) "" then "1"%char else "0"%char).
  assert (Hc : isdigit c = true) by (unfold c; now destruct (is_macro _ _)).
  assert (Hu : Ascii.eqb c "_" = false)
    by (unfold c; now destruct (is_macro _ _)).
  replace (pre ++ (if is_macro (macros env) "" then "1" else "0"))%string
    with (pre ++ String c EmptyString)%string
    by (unfold c; now destruct (is_macro _ _)).
  assert (F : find_macro (macros env) (pre ++ String c EmptyString) = None)
    by (unfold c; now destruct (is_macro _ _)).
  pose proof (identifier_with_digit pre c Hi Hc) as Iw.
  assert (L : looked_up (pre ++ String c EmptyString) EmptyString).
  { repeat split; trivial.
    - rewrite length_append. cbn [String.length]. lia.
    - now apply digit_not_predefined. }
  unfold expand_macros. rewrite expand_macros_r_scan.
  replace (pre ++ String c EmptyString)%string
    with ((pre ++ String c EmptyString) ++ EmptyString)%string at 2
    by apply append_nil_r.
  rewrite (scan_name env _ _ _ _ L), F.
  rewrite length_append. cbn [String.length].
  replace (String.length pre + 1)%nat with (S (String.length pre)) by lia.
  rewrite scan_end. cbn [then_rest]. rewrite append_nil_r.
  f_equal. apply eval_identifier; trivial.
  intro E. apply (f_equal (fun s => String.eqb s "defined")) in E.
  change "defined"%string with ("define" ++ "d")%string in E at 1.
  rewrite eqb_last in E; [discriminate E|].
  unfold c. now destruct (is_macro _ _).
Qed.

Lemma if_defined_inside_word_witness :
  pp_replace_defined (macros env_undefined_1) "undefined" = Some "un0"%string
  /\ if_value env_undefined_1 "undefined" = Some (Val 0).
Proof.
  apply (if_defined_inside_word env_undefined_1 "un"); try reflexivity.
  simpl. lia.
Defined.

(** ** util.c: the arena allocator *)

Import ArenaBytes.

Lemma mask_bits (n : Z) :
  0 <= n -> Z.testbit (wrap_size (Z.lnot 7)) n = (3 <=? n) && (n <? 64).
Proof.
  intro H. change (wrap_size (Z.lnot 7)) with (Z.shiftl (Z.ones 61) 3).
  rewrite Z.shiftl_spec by trivial.
  destruct (Z.leb_spec 3 n) as [A|A].
  - destruct (Z.ltb_spec n 64) as [B|B]; cbn [andb].
    + apply Z.ones_spec_low. lia.
    + apply Z.ones_spec_high. lia.
  - apply Z.testbit_neg_r. lia.
Qed.

Lemma high_bits (x n : Z) : 0 <= x < 2 ^ 64 -> 64 <= n -> Z.testbit x n = false.
Proof.
  intros Hx Hn. destruct (Z.eq_dec x 0) as [->|N]; [apply Z.bits_0|].
  apply Z.bits_above_log2; [lia|].
  assert (Z.log2 x < 64) by (apply Z.log2_lt_pow2; lia). lia.
Qed.

Lemma align8_multiple (size : Z) :
  0 <= size <= 2 ^ 64 - 8 -> align8 size = 8 * ((size + 7) / 8).
Proof.
  intro H. unfold align8.
  assert (W : wrap_size (size + 7) = size + 7)
    by (unfold wrap_size; apply Z.mod_small; lia).
  rewrite W.
  transitivity (Z.shiftl (Z.shiftr (size + 7) 3) 3).
  - apply Z.bits_inj'. intros n Hn.
    rewrite Z.land_spec, mask_bits, Z.shiftl_spec by trivial.
    destruct (Z.leb_spec 3 n) as [A|A].
    + rewrite Z.shiftr_spec by lia. replace (n - 3 + 3) with n by lia.
      destruct (Z.ltb_spec n 64) as [B|B]; cbn [andb].
      * apply andb_true_r.
      * rewrite andb_false_r. symmetry. apply high_bits; lia.
    + cbn [andb]. rewrite andb_false_r. symmetry. apply Z.testbit_neg_r. lia.
  - rewrite Z.shiftl_mul_pow2, Z.shiftr_div_pow2 by lia.
    change (2 ^ 3) with 8. lia.
Qed.

Lemma align8_bounds (size : Z) :
  0 <= size <= 2 ^ 64 - 8 ->
  size <= align8 size < size + 8 /\ align8 size mod 8 = 0.
Proof.
  intro H. rewrite (align8_multiple size H).
  pose proof (Z.div_mod (size + 7) 8 ltac:(lia)).
  pose proof (Z.mod_pos_bound (size + 7) 8 ltac:(lia)).
  split; [lia|]. rewrite Z.mul_comm. apply Z.mod_mul. lia.
Qed.

(** X23.  [arena_alloc] hands out room that is there and that nobody
    else has: for a request of [size] bytes the offset is a multiple of
    8, the [size] bytes from it lie inside the block (the current one,
    or a new one that is large enough), [used] moves past them by the
    size rounded up to 8, and every region that lay inside the used
    part of the arena before the call is disjoint from the new one and
    still inside the used part afterwards. *)
Theorem arena_alloc_fits (a : Arena) (size : Z) :
  arena_wf a -> 0 <= size <= 2 ^ 63 - 8 ->
  let p := fst (arena_alloc a size) in
  let a' := snd (arena_alloc a size) in
  arena_wf a'
  /\ block p = List.length (earlier a')
  /\ offset p mod 8 = 0
  /\ 0 <= offset p /\ offset p + size <= blk_size (current a')
  /\ blk_used (current a') = offset p + align8 size
  /\ forall (b : nat) (o s : Z),
       0 <= s ->
       (b < List.length (earlier a))%nat
       \/ (b = List.length (earlier a) /\ o + s <= blk_used (current a)) ->
       (b <> block p \/ o + s <= offset p)
       /\ ((b < List.length (earlier a'))%nat
           \/ (b = List.length (earlier a')
               /\ o + s <= blk_used (current a'))).
Proof.
  intros (Wc & We & Wd) Hs.
  destruct (align8_bounds size ltac:(lia)) as (B & M).
  destruct a as [ea [cs cu] dbs]. unfold arena_alloc, block_wf in *.
  cbn [earlier current default_block_size blk_size blk_used] in *.
  destruct Wc as (U & Um & Sz).
  assert (W : wrap_size (cu + align8 size) = cu + align8 size)
    by (unfold wrap_size; apply Z.mod_small; lia).
  rewrite W.
  destruct (Z.gtb_spec (cu + align8 size) cs) as [G|G];
    cbn [fst snd earlier current default_block_size blk_size blk_used
         block offset arena_new_block].
  - assert (W0 : wrap_size (0 + align8 size) = align8 size)
      by (unfold wrap_size; apply Z.mod_small; lia).
    rewrite W0.
    assert (Bs : align8 size
                 <= (if align8 size >? dbs then align8 size else dbs) < 2 ^ 63)
      by (destruct (Z.gtb_spec (align8 size) dbs); lia).
    split; [|split; [|split; [|split; [|split; [|split]]]]]; trivial; try lia.
    + unfold arena_wf, block_wf.
      cbn [earlier current default_block_size blk_size blk_used].
      split; [|split]; trivial.
      * split; [lia|]. split; [exact M|lia].
      * apply Forall_app. split; trivial. constructor; [|constructor].
        cbn [blk_size blk_used]. auto.
    + intros b o s Hs0 H. rewrite length_app. cbn [List.length].
      split; [left | left]; lia.
  - split; [|split; [|split; [|split; [|split; [|split]]]]]; trivial; try lia.
    + unfold arena_wf, block_wf.
      cbn [earlier current default_block_size blk_size blk_used].
      split; [|split]; trivial.
      split; [lia|]. split; [|lia].
      rewrite W, <- Zplus_mod_idemp_l, Um, Z.add_0_l. exact M.
Qed.

Lemma arena_alloc_fits_witness :
  let p := fst (arena_alloc (arena_init 64) 13) in
  let a' := snd (arena_alloc (arena_init 64) 13) in
  arena_wf a'
  /\ block p = List.length (earlier a')
  /\ offset p mod 8 = 0
  /\ 0 <= offset p /\ offset p + 13 <= blk_size (current a')
  /\ blk_used (current a') = offset p + align8 13
  /\ forall (b : nat) (o s : Z),
       0 <= s ->
       (b < List.length (earlier (arena_init 64)))%nat
       \/ (b = List.length (earlier (arena_init 64))
           /\ o + s <= blk_used (current (arena_init 64))) ->
       (b <> block p \/ o + s <= offset p)
       /\ ((b < List.length (earlier a'))%nat
           \/ (b = List.length (earlier a')
               /\ o + s <= blk_used (current a'))).
Proof.
  apply (arena_alloc_fits (arena_init 64) 13).
  - unfold arena_wf, block_wf. simpl. repeat split; try lia. constructor.
  - lia.
Defined.

(** ** codegen.c: the parentheses of an expression *)

Import ExprText.

Section ExprTextFacts.

Local Open Scope string_scope.

Lemma paren_depth_shift (s : string) :
  forall a b k, paren_depth s a = Some b -> 0 <= k ->
    paren_depth s (k + a) = Some (k + b).
Proof.
  induction s as [|c s IH]; intros a b k H Hk; cbn [paren_depth] in *.
  - injection H as <-. reflexivity.
  - destruct (Ascii.eqb c "(").
    + rewrite <- Z.add_assoc. now apply IH.
    + destruct (Ascii.eqb c ")"); [|now apply IH].
      destruct (Z.gtb_spec a 0) as [G|G]; [|discriminate H].
      destruct (Z.gtb_spec (k + a) 0) as [G'|G']; [|lia].
      replace (k + a - 1) with (k + (a - 1)) by lia. now apply IH.
Qed.

Lemma paren_depth_app (x y : string) :
  forall d, paren_depth (x ++ y) d
            = match paren_depth x d with
              | Some e => paren_depth y e
              | None => None
              end.
Proof.
  induction x as [|c x IH]; intro d; cbn [append paren_depth]; trivial.
  destruct (Ascii.eqb c "("); [apply IH|].
  destruct (Ascii.eqb c ")"); [|apply IH].
  destruct (d >? 0); [apply IH | reflexivity].
Qed.

Lemma moves_compute (s : string) (a b : Z) :
  paren_depth s a = Some b -> moves s a b.
Proof. intros H d Hd. now apply paren_depth_shift. Qed.

Lemma moves_app (x y : string) (a b c : Z) :
  moves x a b -> moves y b c -> moves (x ++ y) a c.
Proof.
  intros Hx Hy d Hd. rewrite paren_depth_app, (Hx d Hd). now apply Hy.
Qed.

Lemma moves_cons (c : ascii) (r : string) (a b e : Z) :
  paren_depth (String c EmptyString) a = Some b -> moves r b e ->
  moves (String c r) a e.
Proof.
  intros H Hr. change (String c r) with (String c EmptyString ++ r).
  apply moves_app with b; [now apply moves_compute | exact Hr].
Qed.

Lemma moves_nil (a : Z) : moves EmptyString a a.
Proof. now intros d Hd. Qed.

Lemma moves_shift (t : string) (a : Z) :
  moves t 0 0 -> 0 <= a -> moves t a a.
Proof.
  intros H Ha d Hd. specialize (H (d + a) ltac:(lia)).
  now rewrite !Z.add_0_r in H.
Qed.

Lemma plain_moves (t : string) (a : Z) :
  Preprocess.all_chars no_paren t = true -> moves t a a.
Proof.
  intros H d Hd. revert H. generalize (d + a). clear.
  induction t as [|c t IH]; intros z H; cbn [paren_depth]; trivial.
  cbn [Preprocess.all_chars] in H. apply andb_prop in H as [Hc Ht].
  unfold no_paren in Hc. apply andb_prop in Hc as [H1 H2].
  apply negb_true_iff in H1, H2. rewrite H1, H2. now apply IH.
Qed.

Lemma digits_plain (d : Decimal.uint) :
  Preprocess.all_chars no_paren (NilEmpty.string_of_uint d) = true.
Proof.
  induction d as [|d IH|d IH|d IH|d IH|d IH|d IH|d IH|d IH|d IH|d IH];
    cbn [NilEmpty.string_of_uint Preprocess.all_chars]; rewrite ?IH;
    reflexivity.
Qed.

Lemma uint_plain (d : Decimal.uint) :
  Preprocess.all_chars no_paren (NilZero.string_of_uint d) = true.
Proof.
  unfold NilZero.string_of_uint. destruct d; try apply digits_plain.
  reflexivity.
Qed.

Lemma print_int_plain (z : Z) :
  Preprocess.all_chars no_paren (print_int z) = true.
Proof.
  unfold print_int, NilZero.string_of_int.
  destruct (Z.to_int z); [|cbn [Preprocess.all_chars]]; apply uint_plain.
Qed.

End ExprTextFacts.
(** The body of [gen_expr] at a node whose fields are given. *)
Lemma gen_expr_unfold (kd : NodeKind) (ty : option CType) (loc : SrcLoc)
    (lh rh th nx : option Node) (iv : Z) (ft : string) (cv : Z) (nm : string)
    (bd : option Node) (ct : option CType) (ce cexp : option Node) (cvl : Z) :
  gen_expr (mkNode kd ty loc lh rh th nx iv ft cv nm bd ct ce cexp cvl) =
  (let n := mkNode kd ty loc lh rh th nx iv ft cv nm bd ct ce cexp cvl in
  match kd with
  | ND_INT_LIT => Some (print_int (wrap64 iv))
  | ND_FLOAT_LIT =>
      match ty with
      | Some t => if TypeKind_eqb (kind t) TY_FLOAT then Some ft
                  else Some ("rt.f64bits(" ++ ft ++ ")")
      | None => Some ("rt.f64bits(" ++ ft ++ ")")
      end
  | ND_CHAR_LIT => Some (print_int cv)
  | ND_NEG =>
      if expr_is_double (Some n)
      then cat [Some "rt.f64bits(-rt.f64("; sub_of gen_expr lh; Some "))"]
      else cat [Some "(-("; sub_of gen_expr lh; Some "))"]
  | ND_POS => cat [Some "(+("; sub_of gen_expr lh; Some "))"]
  | ND_NOT => cat [Some "(("; sub_of gen_expr lh; Some ") ? 0 : 1)"]
  | ND_BITNOT => cat [Some "(~("; sub_of gen_expr lh; Some "))"]
  | ND_ADD | ND_SUB | ND_MUL | ND_DIV | ND_MOD
  | ND_LSHIFT | ND_RSHIFT
  | ND_LT | ND_LE | ND_GT | ND_GE
  | ND_EQ | ND_NE
  | ND_BITAND | ND_BITOR | ND_BITXOR =>
      let op := " " ++ binop_text kd ++ " " in
      let is_cmp := is_cmp_kind kd in
      let f64mode := expr_is_double lh || expr_is_double rh
                     || type_is_double ty in
      let u64mode := expr_is_u64 lh || expr_is_u64 rh
                     || type_is_u64 ty in
      if f64mode then
        if is_cmp
        then cat [Some "(("; f64_val_of gen_expr lh; Some op; f64_val_of gen_expr rh;
                  Some ") ? 1 : 0)"]
        else cat [Some "rt.f64bits("; f64_val_of gen_expr lh; Some op; f64_val_of gen_expr rh;
                  Some ")"]
      else if u64mode then
        cat [Some "("; big_of gen_expr lh; Some op; big_of gen_expr rh; Some ")"]
      else
        match lh, rh with
        | Some l, Some r =>
            let lp := pointer_like (n_type l) in
            let rp := pointer_like (n_type r) in
            match kd with
            | ND_ADD =>
                if lp && negb rp then
                  cat [Some "("; sub_of gen_expr lh; Some op; sub_of gen_expr rh;
                       scale (elem_size (n_type l)) " * "; Some ")"]
                else if rp && negb lp then
                  cat [Some "("; sub_of gen_expr lh; scale (elem_size (n_type r)) " * ";
                       Some " + "; sub_of gen_expr rh; Some ")"]
                else cat [Some "("; sub_of gen_expr lh; Some op; sub_of gen_expr rh; Some ")"]
            | ND_SUB =>
                if lp && negb rp then
                  cat [Some "("; sub_of gen_expr lh; Some op; sub_of gen_expr rh;
                       scale (elem_size (n_type l)) " * "; Some ")"]
                else if lp && rp then
                  cat [Some "(("; sub_of gen_expr lh; Some " - "; sub_of gen_expr rh; Some ")";
                       scale (elem_size (n_type l)) " / "; Some " | 0)"]
                else cat [Some "("; sub_of gen_expr lh; Some op; sub_of gen_expr rh; Some ")"]
            | ND_DIV =>
                match ty with
                | Some t =>
                    if type_is_integer t
                    then cat [Some "(("; sub_of gen_expr lh; Some " / "; sub_of gen_expr rh;
                              Some ") | 0)"]
                    else cat [Some "("; sub_of gen_expr lh; Some op; sub_of gen_expr rh; Some ")"]
                | None => cat [Some "("; sub_of gen_expr lh; Some op; sub_of gen_expr rh; Some ")"]
                end
            | _ =>
                if is_cmp
                then cat [Some "(("; sub_of gen_expr lh; Some op; sub_of gen_expr rh;
                          Some ") ? 1 : 0)"]
                else cat [Some "("; sub_of gen_expr lh; Some op; sub_of gen_expr rh; Some ")"]
            end
        | _, _ => None
        end
  | ND_AND =>
      cat [Some "(("; sub_of gen_expr lh; Some " && "; sub_of gen_expr rh; Some ") ? 1 : 0)"]
  | ND_OR =>
      cat [Some "(("; sub_of gen_expr lh; Some " || "; sub_of gen_expr rh; Some ") ? 1 : 0)"]
  | ND_TERNARY =>
      let res_double := type_is_double ty in
      cat [Some "("; sub_of gen_expr lh; Some " ? "; coerced_of gen_expr res_double rh;
           Some " : "; coerced_of gen_expr res_double th; Some ")"]
  | ND_COMMA =>
      cat [Some "("; sub_of gen_expr lh; Some ", "; sub_of gen_expr rh; Some ")"]
  | _ => None
  end)%string.
Proof.
  destruct kd;
    cbn [gen_expr n_kind lhs rhs third n_type ival ftext cval]; reflexivity.
Qed.

(** One piece of the text of an expression. *)
Ltac piece :=
  first
    [ apply moves_shift; [assumption | lia]
    | apply plain_moves; first [assumption | apply print_int_plain]
    | apply moves_compute; vm_compute; reflexivity ].

Ltac pieces :=
  rewrite ?append_assoc;
  repeat lazymatch goal with
    | |- moves (String ?c ?r) ?a ?e =>
        eapply (moves_cons c r a); [vm_compute; reflexivity|]
    | |- moves (append ?x ?y) ?a ?c => eapply moves_app; [piece|]
    end;
  first [apply moves_nil | piece].

Section OperandForms.

Variable gen : Node -> option string.
Variable o : option Node.
Hypothesis operand_nested :
  forall m s, o = Some m -> gen m = Some s -> moves s 0 0.

Lemma sub_of_nested (t : string) : sub_of gen o = Some t -> moves t 0 0.
Proof.
  unfold sub_of. destruct o as [m|].
  - now apply operand_nested.
  - intros [= <-]. now apply moves_compute.
Qed.

Lemma f64_val_of_nested (t : string) :
  f64_val_of gen o = Some t -> moves t 0 0.
Proof.
  unfold f64_val_of. intro E.
  destruct (expr_is_double o); [|destruct (expr_is_u64 o)];
    [| | now apply sub_of_nested];
    cbn [cat] in E; destruct (sub_of gen o) as [s|] eqn:G;
    try discriminate E; apply sub_of_nested in G; injection E as <-; pieces.
Qed.

Lemma big_of_nested (t : string) : big_of gen o = Some t -> moves t 0 0.
Proof.
  unfold big_of, when. intro E.
  cbn [cat] in E; destruct (sub_of gen o) as [s|] eqn:G;
    try discriminate E; apply sub_of_nested in G; injection E as <-.
  destruct (negb (expr_is_u64 o)); pieces.
Qed.

Lemma coerced_of_nested (d : bool) (t : string) :
  coerced_of gen d o = Some t -> moves t 0 0.
Proof.
  unfold coerced_of. intro E.
  destruct (d && expr_is_u64 o && negb (expr_is_double o));
    [|destruct (d && negb (expr_is_double o) && negb (expr_is_u64 o))];
    [| | now apply sub_of_nested];
    cbn [cat] in E; destruct (sub_of gen o) as [s|] eqn:G;
    try discriminate E; apply sub_of_nested in G; injection E as <-; pieces.
Qed.

End OperandForms.

Lemma gen_expr_nested : forall (n : Node) (t : string),
  float_texts_plain n = true -> gen_expr n = Some t -> moves t 0 0.
Proof.
  intro n. induction n as [n IH] using node_children_ind.
  destruct n as [kd ty loc lh rh th nx iv ft cv nm bd ct ce cexp cvl].
  intros t F E. rewrite gen_expr_unfold in E.
  cbn [float_texts_plain ftext lhs rhs third] in F.
  apply andb_prop in F as [F F3]. apply andb_prop in F as [F F2].
  apply andb_prop in F as [Fft F1].
  assert (Hl : forall m s, lh = Some m -> gen_expr m = Some s -> moves s 0 0)
    by (intros m s ->; apply (IH m ltac:(is_child)); exact F1).
  assert (Hr : forall m s, rh = Some m -> gen_expr m = Some s -> moves s 0 0)
    by (intros m s ->; apply (IH m ltac:(is_child)); exact F2).
  assert (Ht : forall m s, th = Some m -> gen_expr m = Some s -> moves s 0 0)
    by (intros m s ->; apply (IH m ltac:(is_child)); exact F3).
  clear IH F1 F2 F3.
  destruct kd; cbv beta iota zeta in E; try discriminate E;
    cbn [cat when scale] in E;
    repeat match goal with
      | E : None = Some _ |- _ => discriminate E
      | E : context [match ?x with _ => _ end] |- _ =>
          lazymatch x with
          | sub_of gen_expr ?o =>
              let G := fresh "G" in
              destruct (sub_of gen_expr o) eqn:G;
              [ apply (sub_of_nested gen_expr o) in G; [|assumption] | ]
          | f64_val_of gen_expr ?o =>
              let G := fresh "G" in
              destruct (f64_val_of gen_expr o) eqn:G;
              [ apply (f64_val_of_nested gen_expr o) in G; [|assumption] | ]
          | big_of gen_expr ?o =>
              let G := fresh "G" in
              destruct (big_of gen_expr o) eqn:G;
              [ apply (big_of_nested gen_expr o) in G; [|assumption] | ]
          | coerced_of gen_expr ?d ?o =>
              let G := fresh "G" in
              destruct (coerced_of gen_expr d o) eqn:G;
              [ apply (coerced_of_nested gen_expr o) in G; [|assumption] | ]
          | context [match _ with _ => _ end] => fail
          | _ => destruct x eqn:?
          end;
          cbv beta iota zeta in E; cbn [cat when scale] in E
      end.
  all: injection E as <-.
  all: pieces.
Qed.




(** ** Calls of function-like macros *)

Section MacroCalls.

Local Open Scope string_scope.

Lemma collect_arg_plain (a r : string) (f : nat) :
  all_chars arg_char a = true ->
  collect_arg (String.length a + S f) 1 (a ++ String "," r) = Some (a, r, 1)
  /\ collect_arg (String.length a + S f) 1 (a ++ String ")" r) = Some (a, r, 0).
Proof.
  induction a as [|c a IH]; intro H.
  - split; reflexivity.
  - cbn [all_chars] in H. apply andb_prop in H as [Hc Ha].
    destruct (IH Ha) as [I1 I2].
    unfold arg_char in Hc. apply andb_prop in Hc as [Hc H4].
    apply andb_prop in Hc as [Hc H3]. apply andb_prop in Hc as [H1 H2].
    apply negb_true_iff in H1, H2, H3, H4.
    cbn [String.length Nat.add append collect_arg].
    change (1 <=? 0)%Z with false. cbv beta iota.
    rewrite H1, H2, H3, H4, I1, I2. cbn [andb]. split; reflexivity.
Qed.

Lemma not_empty (a : string) (c : ascii) (r : string) :
  String.eqb (a ++ String c r) EmptyString = false.
Proof. now destruct a. Qed.

Lemma skip_blanks_arg (a : string) (c : ascii) (r : string) :
  arg_ok a = true -> is_blank c = false ->
  skip_blanks (a ++ String c r) = a ++ String c r.
Proof.
  unfold arg_ok. intros H Hc. apply andb_prop in H as [_ H].
  destruct a as [|d a]; cbn [append skip_blanks].
  - now rewrite Hc.
  - apply negb_true_iff in H. now rewrite H.
Qed.

Lemma collect_args_list (rest : string) (args : list string) :
  forall nargs fuel,
    args <> [] -> Forall (fun a => arg_ok a = true) args ->
    (List.length args + nargs <= 64)%nat -> (List.length args < fuel)%nat ->
    collect_args fuel 1 nargs (join_commas args ++ String ")" rest)
    = Some (args, rest).
Proof.
  induction args as [|a args IH]; intros nargs fuel N F L Fu; [now elim N|].
  destruct fuel as [|fuel]; [lia|].
  inversion F as [|? ? Ha Fa]; subst.
  assert (Hc : all_chars arg_char a = true)
    by (unfold arg_ok in Ha; now apply andb_prop in Ha as [Ha _]).
  cbn [List.length] in L, Fu.
  assert (Hn : (nargs <? 64)%nat = true) by (apply Nat.ltb_lt; lia).
  destruct args as [|b args].
  - cbn [join_commas collect_args]. rewrite not_empty, Hn.
    change (1 >? 0)%Z with true. cbn [andb negb].
    rewrite (skip_blanks_arg a ")" rest Ha eq_refl).
    rewrite length_append. cbn [String.length].
    replace (S (String.length a + S (String.length rest)))
      with (String.length a + S (S (String.length rest)))%nat by lia.
    destruct (collect_arg_plain a rest (S (String.length rest)) Hc) as [_ ->].
    destruct fuel as [|fuel]; [lia|]. reflexivity.
  - change (join_commas (a :: b :: args))
      with (a ++ "," ++ join_commas (b :: args)).
    rewrite !append_assoc. cbn [append].
    cbn [collect_args]. rewrite not_empty, Hn.
    change (1 >? 0)%Z with true. cbn [andb negb].
    rewrite (skip_blanks_arg a "," _ Ha eq_refl).
    rewrite length_append. cbn [String.length].
    set (r := join_commas (b :: args) ++ String ")" rest).
    replace (S (String.length a + S (String.length r)))
      with (String.length a + S (S (String.length r)))%nat by lia.
    destruct (collect_arg_plain a r (S (String.length r)) Hc) as [-> _].
    unfold r. rewrite IH; trivial; [discriminate | cbn [List.length] in *; lia
                                   | cbn [List.length] in *; lia].
Qed.

Variable m : Macro.
Variable args : list string.

Lemma substitute_text (s : string) :
  all_chars sep_char s = true ->
  forall f tmp r, (String.length s <= f)%nat ->
    substitute f m args tmp (s ++ r)
    = substitute (f - String.length s) m args (tmp ++ s) r.
Proof.
  induction s as [|c s IH]; intros H f tmp r Hf.
  - cbn [append String.length]. now rewrite Nat.sub_0_r, append_nil_r.
  - cbn [all_chars] in H. apply andb_prop in H as [Hc Hs].
    unfold sep_char in Hc. apply andb_prop in Hc as [H1 H2].
    apply negb_true_iff in H1, H2.
    assert (A : isalpha c || Ascii.eqb c "_" = false).
    { unfold is_ident_char, isalnum in H1.
      apply orb_false_iff in H1 as [H1 H3]. apply orb_false_iff in H1 as [H1 _].
      now rewrite H1, H3. }
    cbn [String.length] in Hf. destruct f as [|f]; [lia|].
    cbn [append substitute String.length Nat.sub]. rewrite A, H2. cbn [andb].
    rewrite (IH Hs f) by lia. now rewrite append_assoc.
Qed.

Lemma param_index_nth (ps : list string) :
  NoDup ps -> forall i k, (i < List.length ps)%nat ->
    param_index ps (nth i ps EmptyString) k = Some (k + i)%nat.
Proof.
  induction 1 as [|p ps Hp _ IH]; intros i k Hi; [cbn in Hi; lia|].
  destruct i as [|i]; cbn [nth param_index].
  - rewrite String.eqb_refl. f_equal. lia.
  - cbn [List.length] in Hi.
    destruct (String.eqb_spec p (nth i ps EmptyString)) as [E|_].
    + elim Hp. rewrite E. apply nth_In. lia.
    + rewrite IH by lia. f_equal. lia.
Qed.

Hypothesis params_named :
  Forall (fun p => is_identifier p = true /\ is_va_args p = false) (params m).
Hypothesis params_differ : NoDup (params m).

Lemma substitute_param (i : nat) (r : string) :
  (i < List.length (params m))%nat -> ends_name r = true ->
  forall f tmp,
    substitute (S f) m args tmp (nth i (params m) EmptyString ++ r)
    = substitute f m args (tmp ++ nth i args EmptyString) r.
Proof.
  intros Hi Hr f tmp.
  assert (In (nth i (params m) EmptyString) (params m)) as I
    by (apply nth_In; exact Hi).
  rewrite Forall_forall in params_named.
  destruct (params_named _ I) as [Hid Hva].
  pose proof (identifier_chars _ Hid) as Hc.
  destruct (take_skip_ident _ r Hc Hr) as [T S].
  pose proof (param_index_nth (params m) params_differ i 0 Hi) as P.
  cbn [Nat.add] in P.
  destruct (nth i (params m) EmptyString) as [|c p] eqn:E;
    [discriminate Hid|].
  cbn [append] in T, S |- *. cbn [substitute].
  cbn [is_identifier] in Hid. apply andb_prop in Hid as [Hs _].
  rewrite Hs, T, S, Hva, P. reflexivity.
Qed.

Lemma fill_ends (ps : list string) (pieces : list (nat * string)) (i : nat)
    (t : string) :
  all_chars sep_char t = true -> (pieces = [] \/ t <> EmptyString) ->
  ends_name (t ++ fill ps pieces) = true.
Proof.
  intros Ht [->|N].
  - cbn [fill]. rewrite append_nil_r. destruct t as [|c t]; trivial.
    cbn [all_chars] in Ht. apply andb_prop in Ht as [Hc _].
    unfold sep_char in Hc. now apply andb_prop in Hc as [Hc _].
  - destruct t as [|c t]; [now elim N|].
    cbn [all_chars] in Ht. apply andb_prop in Ht as [Hc _].
    unfold sep_char in Hc. now apply andb_prop in Hc as [Hc _].
Qed.

Lemma substitute_fill (pieces : list (nat * string)) :
  pieces_ok (List.length (params m)) pieces ->
  forall f tmp,
    (String.length (fill (params m) pieces) < f)%nat ->
    substitute f m args tmp (fill (params m) pieces)
    = Some (tmp ++ fill args pieces).
Proof.
  induction pieces as [|[i t] more IH]; intros Ok f tmp Hf.
  - destruct f as [|f]; [lia|]. cbn [fill substitute]. now rewrite append_nil_r.
  - cbn [pieces_ok] in Ok. destruct Ok as (Hi & Ht & Hn & Ok).
    cbn [fill] in Hf |- *. rewrite !length_append in Hf.
    destruct f as [|f]; [lia|].
    assert (Hp : (1 <= String.length (nth i (params m) EmptyString))%nat).
    { pose proof params_named as Pn. rewrite Forall_forall in Pn.
      destruct (Pn _ (nth_In _ EmptyString Hi)) as [Hid _].
      destruct (nth i (params m) EmptyString); [discriminate Hid|].
      cbn [String.length]. lia. }
    rewrite (substitute_param i _ Hi (fill_ends _ more i t Ht Hn)).
    rewrite (substitute_text t Ht) by lia.
    rewrite (IH Ok) by lia. now rewrite !append_assoc.
Qed.

End MacroCalls.

(** X25.  A call of a function-like macro is replaced by the body of
    the macro with the arguments written in place of the parameters,
    and the result is expanded in turn: for a macro of up to 64
    parameters whose body is text and parameter names, called with
    arguments free of parentheses, commas and quotes,
    [NAME(a1,...,ak)] gives what the expansion makes of the body
    filled with [a1 ... ak], followed by the expansion of the rest of
    the line. *)
Theorem expand_macros_call (env : ExpandEnv) (name : string) (m : Macro)
    (args : list string) (t0 : string) (pieces : list (nat * string))
    (rest out t : string) (d : nat) :
  looked_up name "(" ->
  find_macro (macros env) name = Some m -> is_func m = true ->
  Forall (fun p => is_identifier p = true /\ is_va_args p = false) (params m) ->
  NoDup (params m) ->
  all_chars sep_char t0 = true ->
  pieces_ok (List.length (params m)) pieces ->
  macro_body m = (t0 ++ fill (params m) pieces)%string ->
  args <> [] -> (List.length args <= 64)%nat ->
  Forall (fun a => arg_ok a = true) args ->
  expands env d (t0 ++ fill args pieces) out ->
  expands env (S d) rest t -> (S d <= 32)%nat ->
  expand_macros env (name ++ "(" ++ join_commas args ++ ")" ++ rest)
  = Some (out ++ t)%string.
Proof.
  intros L F Hf Pn Pd Ht0 Ok B An Al Aok Eb Er Hd.
  assert (L' : looked_up name ("(" ++ join_commas args ++ ")" ++ rest)%string)
    by (destruct L as (A1 & A2 & _ & A4); repeat split; trivial).
  unfold expand_macros. rewrite expand_macros_r_scan.
  rewrite (scan_name env _ _ _ _ L'), F, Hf.
  cbn [negb].
  change (starts_with "(" ("(" ++ join_commas args ++ ")" ++ rest)%string)
    with true. cbv beta iota.
  change (drop 1 ("(" ++ join_commas args ++ ")" ++ rest)%string)
    with (join_commas args ++ String ")" rest)%string.
  rewrite (collect_args_list rest args 0 65 An Aok) by lia.
  rewrite B.
  rewrite (substitute_text m args t0 Ht0) by (rewrite length_append; lia).
  rewrite (substitute_fill m args Pn Pd pieces Ok)
    by (rewrite length_append; lia).
  cbn [append].
  rewrite expand_macros_r_scan.
  rewrite (expands_scan env d _ out Eb 31) by lia.
  pose proof (looked_up_length _ _ L).
  rewrite (expands_scan env (S d) rest t Er 32); trivial.
  rewrite !length_append. cbn [String.length]. rewrite length_append.
  cbn [String.length]. lia.
Qed.

Lemma expand_macros_call_witness :
  expand_macros env_MAX "MAX(x,1)+y" = Some "((x)>(1)?(x):(1))+y"%string.
Proof.
  apply (expand_macros_call env_MAX "MAX"
           (mkMacro "MAX" "((a)>(b)?(a):(b))" ["a"; "b"] true false false)
           ["x"; "1"] "((" [(0, ")>("); (1, ")?("); (0, "):("); (1, "))")]%nat
           "+y" "((x)>(1)?(x):(1))" "+y" 0)%string.
  - repeat split. simpl. lia.
  - reflexivity.
  - reflexivity.
  - repeat constructor.
  - repeat constructor; simpl; intuition discriminate.
  - reflexivity.
  - simpl. intuition (try lia; try discriminate).
  - reflexivity.
  - discriminate.
  - simpl. lia.
  - repeat constructor.
  - simpl.
    do 2 (apply expands_char; [reflexivity|]).
    apply (expands_name env_MAX 0 "x" ")>(1)?(x):(1))" ")>(1)?(x):(1))")%string;
      [repeat split; simpl; lia | reflexivity | ].
    do 7 (apply expands_char; [reflexivity|]).
    apply (expands_name env_MAX 0 "x" "):(1))" "):(1))")%string;
      [repeat split; simpl; lia | reflexivity | ].
    do 6 (apply expands_char; [reflexivity|]). apply expands_end.
  - apply expands_char; [reflexivity|].
    apply (expands_name env_MAX 1 "y" "" "")%string;
      [repeat split; simpl; lia | reflexivity | apply expands_end].
  - lia.
Defined.

(** ** parser.c: assignments *)

Lemma or_loop_stop (f : nat) (p : PState) (c : Node) (toks : Lexer.Lexer) :
  tk_kind (cur toks) <> TK_OR ->
  or_loop (S f) c (set_lexer p toks) = Some (c, set_lexer p toks).
Proof.
  intro H. cbn [or_loop]. unfold bind, get_tok, TOK. cbn [lexer set_lexer].
  destruct (tk_kind (cur toks)); try reflexivity. now elim H.
Qed.

Lemma parse_cond_unfold (f : nat) (p : PState) :
  parse_cond_expr (S f) p
  = match parse_binary_expr f 4 p with
    | Some (c, p1) =>
        match or_loop f c p1 with
        | Some (cond, p2) =>
            match tk_kind (TOK p2) with
            | TK_QUESTION =>
                (NEXT ;;;
                 then_expr <- parse_expr f ;;
                 EXPECT TK_COLON ;;;
                 else_expr <- parse_cond_expr f ;;
                 ret (set_type
                        (set_third
                           (set_rhs (set_lhs (node_new ND_TERNARY
                                                       (tk_loc (TOK p2)))
                                             (Some cond))
                                    (Some then_expr))
                           (Some else_expr))
                        (n_type then_expr))) p2
            | _ => Some (cond, p2)
            end
        | None => None
        end
    | None => None
    end.
Proof.
  cbn [parse_cond_expr]. unfold bind at 1.
  destruct (parse_binary_expr f 4 p) as [[c p1]|]; [|reflexivity].
  unfold bind at 1. destruct (or_loop f c p1) as [[cond p2]|]; [|reflexivity].
  unfold bind at 1, get_tok at 1.
  destruct (tk_kind (TOK p2)); reflexivity.
Qed.

Lemma parse_assign_unfold (f : nat) (p : PState) :
  parse_assign_expr (S f) p
  = match parse_cond_expr f p with
    | Some (l, p1) =>
        if is_assign_op (tk_kind (TOK p1)) then
          match parse_assign_expr f (set_lexer p1 (lexer_next (lexer p1))) with
          | Some (r, p2) => Some (assign_node (TOK p1) l r, p2)
          | None => None
          end
        else Some (l, p1)
    | None => None
    end.
Proof.
  cbn [parse_assign_expr]. unfold bind at 1.
  destruct (parse_cond_expr f p) as [[l p1]|]; [|reflexivity].
  unfold bind at 1, get_tok at 1.
  destruct (is_assign_op (tk_kind (TOK p1))); [|reflexivity].
  unfold bind at 1, NEXT at 1. unfold bind at 1.
  destruct (parse_assign_expr f (set_lexer p1 (lexer_next (lexer p1))))
    as [[r p2]|]; reflexivity.
Qed.

(** A literal followed by no operator of a conditional expression. *)
Lemma cond_literal (k : nat) (p : PState) (a : Token) (l : Lexer.Lexer) :
  tk_kind a = TK_INT_LIT ->
  get_precedence (tk_kind (cur l)) < 4 ->
  is_postfix_start (tk_kind (cur l)) = false ->
  tk_kind (cur l) <> TK_QUESTION ->
  parse_cond_expr (5 + k) (set_lexer p (a :: l))
  = Some (literal_node a, set_lexer p l).
Proof.
  intros A P1 P2 Q.
  change (5 + k)%nat with (S (S (3 + k))).
  rewrite parse_cond_unfold, parse_binary_unfold.
  rewrite (parse_unary_literal k p a l A P2).
  change (3 + k)%nat with (S (2 + k)).
  rewrite binary_loop_stop by exact P1.
  rewrite or_loop_stop.
  - unfold TOK. cbn [lexer set_lexer].
    destruct (tk_kind (cur l)); try reflexivity. now elim Q.
  - intro E. rewrite E in P1. cbn in P1. lia.
Qed.

Lemma assign_op_ends (k : TokenKind) :
  is_assign_op k = true ->
  get_precedence k < 4 /\ is_postfix_start k = false /\ k <> TK_QUESTION.
Proof.
  destruct k; intro H; try discriminate H;
    (split; [cbn; lia | split; [reflexivity | discriminate]]).
Qed.

Lemma assign_chain : forall (rest : list (Token * Token)) (k : nat)
    (p : PState) (a : Token) (tail : list Token),
  tk_kind a = TK_INT_LIT -> assignments rest -> ends_assign tail ->
  parse_assign_expr (List.length rest + 6 + k)
                    (set_lexer p (a :: chain_tokens rest ++ tail))
  = Some (right_nested a rest, set_lexer p tail).
Proof.
  induction rest as [|[op t] rest IH]; intros k p a tail A As E.
  - destruct E as (E1 & E2 & E3 & E4).
    cbn [List.length chain_tokens app right_nested].
    change (0 + 6 + k)%nat with (S (5 + k)).
    rewrite parse_assign_unfold, (cond_literal k p a tail A E1 E2 E3).
    unfold TOK. cbn [lexer set_lexer]. now rewrite E4.
  - destruct As as (O & T & As).
    destruct (assign_op_ends _ O) as (O1 & O2 & O3).
    cbn [List.length chain_tokens app right_nested].
    replace (S (List.length rest) + 6 + k)%nat
      with (S (5 + (List.length rest + 1 + k))) by lia.
    rewrite parse_assign_unfold.
    rewrite (cond_literal _ p a (op :: t :: chain_tokens rest ++ tail) A O1 O2 O3).
    unfold TOK. cbn [lexer set_lexer].
    change (cur (op :: t :: chain_tokens rest ++ tail)) with op. rewrite O.
    replace (5 + (List.length rest + 1 + k))%nat
      with (List.length rest + 6 + k)%nat by lia.
    change (lexer_next (op :: t :: chain_tokens rest ++ tail))
      with (t :: chain_tokens rest ++ tail).
    rewrite set_lexer_twice, (IH k p t tail T As E). reflexivity.
Qed.

(** X26.  Assignment operators nest to the right, whatever the length
    of the chain: [a = b += c] is [a = (b += c)].  The parser takes
    any operand on the left, a literal as well. *)
Theorem parse_assign_right_nested (p : PState) (a : Token)
    (rest : list (Token * Token)) (tail : list Token) (fuel : nat) :
  tk_kind a = TK_INT_LIT -> assignments rest -> ends_assign tail ->
  (List.length rest + 6 <= fuel)%nat ->
  parse_assign_expr fuel (set_lexer p (a :: chain_tokens rest ++ tail))
  = Some (right_nested a rest, set_lexer p tail).
Proof.
  intros A As E F.
  replace fuel with (List.length rest + 6 + (fuel - List.length rest - 6))%nat
    by lia.
  now apply assign_chain.
Qed.

Lemma parse_assign_right_nested_witness :
  parse_assign_expr 9
    (set_lexer (parser_init [] arena_after_init symtab_init [])
       (int_tok 1 0
        :: chain_tokens [(punct TK_ASSIGN, int_tok 2 0);
                         (punct TK_ADD_ASSIGN, int_tok 3 0)]
        ++ [punct TK_SEMICOLON]))
  = Some (assign_node (punct TK_ASSIGN) (literal_node (int_tok 1 0))
            (assign_node (punct TK_ADD_ASSIGN) (literal_node (int_tok 2 0))
               (literal_node (int_tok 3 0))),
          set_lexer (parser_init [] arena_after_init symtab_init [])
                    [punct TK_SEMICOLON]).
Proof.
  apply (parse_assign_right_nested _ (int_tok 1 0)
           [(punct TK_ASSIGN, int_tok 2 0); (punct TK_ADD_ASSIGN, int_tok 3 0)]
           [punct TK_SEMICOLON] 9).
  - reflexivity.
  - simpl. repeat split.
  - unfold ends_assign. simpl. repeat split; try lia. discriminate.
  - simpl. lia.
Defined.

(** ** type.c: compatible types *)

Import TypeCompat.

Lemma TypeKind_eqb_sym (a b : TypeKind) : TypeKind_eqb a b = TypeKind_eqb b a.
Proof.
  destruct (TypeKind_eqb a b) eqn:E.
  - apply TypeKind_eqb_eq in E. subst. symmetry. now apply TypeKind_eqb_eq.
  - destruct (TypeKind_eqb b a) eqn:E'; trivial.
    apply TypeKind_eqb_eq in E'. subst.
    assert (TypeKind_eqb a a = true) by now apply TypeKind_eqb_eq. congruence.
Qed.

Lemma bool_eqb_sym (a b : bool) : Bool.eqb a b = Bool.eqb b a.
Proof. now destruct a, b. Qed.

Lemma compatible_sym : forall a b,
  type_is_compatible a b = type_is_compatible b a.
Proof.
  fix IH 1.
  intros [i k s al u q il ba len] [i' k' s' al' u' q' il' ba' len'].
  cbn [type_is_compatible kind is_unsigned base array_len].
  rewrite (TypeKind_eqb_sym k' k), (bool_eqb_sym u' u).
  destruct (TypeKind_eqb k k') eqn:K; [|reflexivity].
  apply TypeKind_eqb_eq in K. subst k'.
  destruct (Bool.eqb u u'); [|reflexivity]. cbn [negb].
  assert (B : match ba, ba' with
              | Some x, Some y => type_is_compatible x y
              | _, _ => None
              end
              = match ba', ba with
                | Some x, Some y => type_is_compatible x y
                | _, _ => None
                end)
    by (destruct ba as [x|], ba' as [y|]; trivial; apply IH).
  destruct k; trivial;
    first [ f_equal; apply Type_eqb_sym
          | now rewrite (Z.eqb_sym len' len), (andb_comm (len' >=? 0)), B ].
Qed.

Lemma compatible_refl : forall t,
  based t = true ->
  type_is_compatible t t = Some true.
Proof.
  fix IH 1.
  intros [i k s al u q il ba len] H.
  cbn [type_is_compatible based kind is_unsigned base array_len] in *.
  replace (TypeKind_eqb k k) with true
    by (symmetry; now apply TypeKind_eqb_eq).
  rewrite Bool.eqb_reflx, Z.eqb_refl. cbn [negb]. rewrite andb_false_r.
  destruct k; trivial; try discriminate H;
    try (destruct ba as [x|]; [now apply IH | discriminate H]);
    now rewrite Type_eqb_refl.
Qed.

(** X27.  [type_is_compatible] is symmetric, and a type without
    function types inside is compatible with itself.  It does not look
    at qualifiers, so a qualified copy of an arithmetic or pointer
    type is compatible with the type; but struct, union and enum
    types are compared as objects, so the qualified copy that
    [type_qualified] makes of one is not compatible with it. *)
Theorem type_is_compatible_relation (a b : CType) (arena : TypeSys.Arena)
    (q : Z) :
  type_is_compatible a b = type_is_compatible b a
  /\ (based a = true -> type_is_compatible a a = Some true)
  /\ (based a = true -> is_tagged a = false ->
      type_is_compatible (fst (type_qualified arena a q)) a = Some true)
  /\ (is_tagged a = true -> qual a <> q -> (ty_id a < arena)%N ->
      type_is_compatible (fst (type_qualified arena a q)) a = Some false).
Proof.
  split; [apply compatible_sym|]. split; [apply compatible_refl|]. split.
  - intros B T. unfold type_qualified.
    destruct (qual a =? q); [now apply compatible_refl|].
    pose proof (compatible_refl a B) as R.
    destruct a as [i k s al u q0 il ba len].
    cbn [type_copy fst set_qual type_is_compatible kind is_unsigned base
         array_len ty_id size align qual is_inline is_tagged based] in *.
    destruct k; trivial; discriminate T.
  - intros T Q I. unfold type_qualified.
    destruct (Z.eqb_spec (qual a) q) as [E|_]; [now elim Q|].
    destruct a as [i k s al u q0 il ba len].
    cbn [type_copy fst set_qual type_is_compatible kind is_unsigned base
         array_len ty_id size align qual is_inline is_tagged] in *.
    replace (TypeKind_eqb k k) with true
      by (symmetry; now apply TypeKind_eqb_eq).
    rewrite Bool.eqb_reflx. cbn [negb].
    assert (N : (arena =? i)%N = false) by (apply N.eqb_neq; lia).
    destruct k; try discriminate T; cbn [Type_eqb]; now rewrite N.
Qed.

(** ** lexer.c: the suffix of an integer literal *)

Import LexSuffix.

Section SuffixFacts.

Local Open Scope string_scope.

Lemma int_suffix_states (p : string) :
  forall (u : bool) (l : nat), (l <= 2)%nat ->
  exists pre,
    p = pre ++ snd (int_suffix p (suffix_flags u l))
    /\ fst (int_suffix p (suffix_flags u l))
       = suffix_flags (u || (0 <? count is_u pre)%nat) (l + count is_l pre)
    /\ (count is_u pre <= (if u then 0 else 1))%nat
    /\ (l + count is_l pre <= 2)%nat
    /\ (count is_u pre + count is_l pre = String.length pre)%nat.
Proof.
  induction p as [|c q IH]; intros u l Hl.
  - exists EmptyString. cbn. rewrite orb_false_r, Nat.add_0_r.
    repeat split; trivial; destruct u; lia.
  - cbn [int_suffix].
    assert (Fu : z2b (Z.land (suffix_flags u l) LIT_UNSIGNED) = u)
      by (destruct u, l as [|[|[|l]]]; try lia; reflexivity).
    assert (Fl : z2b (Z.land (suffix_flags u l) LIT_LONGLONG)
                 = (2 <=? l)%nat)
      by (destruct u, l as [|[|[|l]]]; try lia; reflexivity).
    rewrite Fu, Fl.
    destruct (is_u c) eqn:Cu; [destruct u|]; cbn [andb negb].
    + (* a second u *)
      destruct (is_l c) eqn:Cl;
        [unfold is_u, is_l in *;
         destruct c as [[] [] [] [] [] [] [] []]; discriminate|].
      cbn [andb]. exists EmptyString. cbn.
      rewrite Nat.add_0_r. repeat split; trivial; lia.
    + replace (Z.lor (suffix_flags false l) LIT_UNSIGNED)
        with (suffix_flags true l)
        by (destruct l as [|[|[|l]]]; try lia; reflexivity).
      destruct (IH true l Hl) as (pre & E & F & U & L & N).
      exists (String c pre). cbn [append snd fst count]. rewrite Cu.
      assert (Cl : is_l c = false)
        by (unfold is_u, is_l in *;
            destruct c as [[] [] [] [] [] [] [] []]; try reflexivity;
            discriminate).
      rewrite Cl, <- E, F. cbn [orb Nat.add String.length].
      repeat split; trivial; lia.
    + destruct (is_l c) eqn:Cl; cbn [andb].
      * destruct (Nat.leb_spec 2 l) as [G|G]; cbn [negb].
        -- exists EmptyString. cbn. rewrite orb_false_r, Nat.add_0_r.
           repeat split; trivial; destruct u; lia.
        -- replace (if z2b (Z.land (suffix_flags u l) LIT_LONG)
                    then Z.lor (Z.land (suffix_flags u l) (Z.lnot LIT_LONG))
                               LIT_LONGLONG
                    else Z.lor (suffix_flags u l) LIT_LONG)
             with (suffix_flags u (S l))
             by (destruct u, l as [|[|l]]; try lia; reflexivity).
           destruct (IH u (S l) ltac:(lia)) as (pre & E & F & U & L & N).
           exists (String c pre). cbn [append snd fst count]. rewrite Cu, Cl.
           rewrite <- E, F. cbn [Nat.add String.length].
           replace (l + S (count is_l pre))%nat
             with (S l + count is_l pre)%nat by lia.
           repeat split; trivial; lia.
      * exists EmptyString. cbn. rewrite orb_false_r, Nat.add_0_r.
        repeat split; trivial; destruct u; lia.
Qed.

End SuffixFacts.

(** X28.  The suffix loop of [lex_number] reads nothing but the
    letters [u] and [l], at most one [u] and at most two [l]s, in any
    order and in either case; the flags it leaves give the literal, in
    [parse_primary_expr], the type that goes with the letters read:
    [int] without suffix, [unsigned] for [u], [long] for one [l] and
    [long long] for two, the unsigned types with a [u] anywhere. *)
Theorem int_suffix_types (p : string) :
  exists pre,
    p = (pre ++ snd (int_suffix p 0))%string
    /\ (count is_u pre <= 1)%nat /\ (count is_l pre <= 2)%nat
    /\ (count is_u pre + count is_l pre = String.length pre)%nat
    /\ fst (int_suffix p 0)
       = suffix_flags (0 <? count is_u pre)%nat (count is_l pre)
    /\ int_lit_type (fst (int_suffix p 0))
       = suffix_type (0 <? count is_u pre)%nat (count is_l pre).
Proof.
  destruct (int_suffix_states p false 0 ltac:(lia))
    as (pre & E & F & U & L & N).
  change (suffix_flags false 0) with 0 in *.
  cbn [orb Nat.add] in *.
  exists pre. repeat split; trivial. rewrite F.
  destruct (0 <? count is_u pre)%nat, (count is_l pre) as [|[|[|l]]];
    try lia; reflexivity.
Qed.
